(** * YouTube_Chatbot: the retrieval and answering core, embedded in Rocq

    The development follows the two service modules of the repository
    ([services/videoProcessor.ts], [services/chatService.ts]) and the state
    handlers of [App.tsx]; of the components it takes the handlers of
    [VideoInput] and [ChatInterface] and the step statuses of
    [ProcessingSteps].  What [App] renders is not modelled.

    - JavaScript numbers are IEEE-754 binary64 values: they are modelled by
      Rocq's primitive floats, whose operations are the same binary64
      operations (round to nearest, ties to even), so every function below
      evaluates to the value the program computes, NaN and the infinities
      included.
    - JavaScript strings are modelled by [string]; one [ascii] stands for one
      UTF-16 code unit of the range U+0000..U+00FF.  Characters of string
      literals outside that range (the check mark and cross of the answer
      templates) are carried as the bytes of the literal.
    - Asynchronous functions run to completion one after the other; they
      are written in a state-and-exception monad over the mutable world (the
      React state cells of [App], the position in the stream of
      [Math.random] values, the number of requests made to external services,
      the number of clock readings).  External services are oracles of an
      environment.  Console output and the pause between two embedding
      requests are not modelled.

    Part I is the embedding, function by function, followed by the
    vocabulary in which the properties are stated; Part II holds the proofs. *)

From Stdlib Require Import Reals Lra.
From Stdlib Require Import String Ascii.
From Stdlib Require Import Floats ZArith List Bool Arith Lia.
From Stdlib Require Import Zpower Sorting.Sorted Sorting.Permutation.
From Stdlib Require DecimalString.
Import ListNotations.

Set Implicit Arguments.

(* ================================================================== *)
(** * Part I.  The embedding *)
(* ================================================================== *)

(** ** JavaScript arrays *)

Module JsArray.

(** [normalize_index len i]: the clamping that [Array.prototype.slice]
    applies to a relative index [i] of an array of length [len]: a negative
    index counts from the end. *)
Definition normalize_index (len i : Z) : Z :=
  if (i <? 0)%Z then Z.max (len + i) 0 else Z.min i len.

(** [slice start end_ l] is [l.slice(start, end_)]. *)
Definition slice {A : Type} (start end_ : Z) (l : list A) : list A :=
  let len := Z.of_nat (length l) in
  let k := normalize_index len start in
  let final := normalize_index len end_ in
  firstn (Z.to_nat (final - k)) (skipn (Z.to_nat k) l).

(** [slice_from start l] is [l.slice(start)]: the end defaults to the
    length. *)
Definition slice_from {A : Type} (start : Z) (l : list A) : list A :=
  slice start (Z.of_nat (length l)) l.

(** [some p l] is [l.some(p)]. *)
Definition some {A : Type} (p : A -> bool) (l : list A) : bool := existsb p l.

(** [mapi f l] is [l.map((x, index) => f x index)]. *)
Fixpoint mapi_from {A B : Type} (f : A -> nat -> B) (i : nat) (l : list A) : list B :=
  match l with
  | [] => []
  | x :: l' => f x i :: mapi_from f (S i) l'
  end.

Definition mapi {A B : Type} (f : A -> nat -> B) (l : list A) : list B :=
  mapi_from f 0 l.

(** *** [Array.prototype.sort]

    [sort] calls the comparator on pairs of elements and reads its numeric
    result [v]: a negative [v] orders the first argument before the second, a
    positive [v] after it, and zero or NaN leaves the two in their relative
    order (ECMAScript's SortCompare replaces NaN by +0).  The sort is stable.
    It is modelled by the stable insertion sort: an element moves to the
    right past exactly those sorted elements the comparator orders strictly
    before it.  For a comparator that is a consistent ordering of the
    elements the result is the one ECMAScript prescribes; for an
    inconsistent one (which NaN keys produce) ECMAScript leaves the order to
    the engine. *)
Section Sort.
Variable A : Type.
Variable comparefn : A -> A -> float.

(** [comes_after x y]: the comparator orders [x] strictly after [y]. *)
Definition comes_after (x y : A) : bool := (0 <? comparefn x y)%float.

Fixpoint insert (x : A) (sorted : list A) : list A :=
  match sorted with
  | [] => [x]
  | y :: rest => if comes_after x y then y :: insert x rest else x :: y :: rest
  end.

Fixpoint sort (l : list A) : list A :=
  match l with
  | [] => []
  | x :: l' => insert x (sort l')
  end.

End Sort.

End JsArray.

(** ** chatService.ts: similarity *)

(** [cosineSimilarity] is written once, over the arithmetic it runs in.
    The program runs it in [binary64]; [exact] is the arithmetic of the real
    numbers, which binary64 approximates by rounding every operation. *)
Record arithmetic (N : Type) : Type := mk_arithmetic {
  num_zero : N;
  num_add : N -> N -> N;
  num_mul : N -> N -> N;
  num_div : N -> N -> N;
  num_sqrt : N -> N;
  num_undefined : N   (* what arithmetic makes of [undefined] *)
}.

Definition binary64 : arithmetic float :=
  mk_arithmetic 0%float PrimFloat.add PrimFloat.mul PrimFloat.div PrimFloat.sqrt nan.

(** In [exact] no operation produces NaN; an index out of range is not read
    for vectors of equal length, the only ones [exact] is used with. *)
Definition exact : arithmetic R :=
  mk_arithmetic 0%R Rplus Rmult Rdiv R_sqrt.sqrt 0%R.

Section Cosine.
Variable N : Type.
Variable ops : arithmetic N.

Local Infix "+" := (num_add ops).
Local Infix "*" := (num_mul ops).
Local Infix "/" := (num_div ops).

(** Reading [v[i]]: an index out of range reads [undefined], which every
    arithmetic operation converts to NaN. *)
Definition js_get (v : list N) (i : nat) : N := nth i v (num_undefined ops).

(** The three accumulators of the loop of [cosineSimilarity]. *)
Record cos_acc : Type := mk_cos_acc {
  dotProduct : N;
  normA : N;
  normB : N
}.

Definition cos_init : cos_acc :=
  mk_cos_acc (num_zero ops) (num_zero ops) (num_zero ops).

(** One iteration of [for (let i = 0; i < a.length; i++)]. *)
Definition cos_step (a b : list N) (acc : cos_acc) (i : nat) : cos_acc :=
  mk_cos_acc (dotProduct acc + js_get a i * js_get b i)
             (normA acc + js_get a i * js_get a i)
             (normB acc + js_get b i * js_get b i).

Definition cos_loop (a b : list N) : cos_acc :=
  fold_left (cos_step a b) (seq 0 (length a)) cos_init.

Definition cosine (a b : list N) : N :=
  let acc := cos_loop a b in
  dotProduct acc / (num_sqrt ops (normA acc) * num_sqrt ops (normB acc)).

(** The dot product of two vectors, summed from the left. *)
Definition dot (a b : list N) : N :=
  fold_left (fun s p => num_add ops s (num_mul ops (fst p) (snd p)))
            (combine a b) (num_zero ops).

End Cosine.

(** The function of the program. *)
Definition cosineSimilarity (a b : list float) : float := cosine binary64 a b.

(** ** JavaScript strings *)

Module JsString.

Open Scope string_scope.

(** The double quote, which a literal cannot hold. *)
Definition dquote : string := String (ascii_of_nat 34) EmptyString.

(** White space and line terminators of ECMAScript among the code units
    below 256: TAB, LF, VT, FF, CR, SPACE and NBSP. *)
Definition is_white (c : ascii) : bool :=
  let n := nat_of_ascii c in
  ((9 <=? n) && (n <=? 13) || (n =? 32) || (n =? 160))%nat.

(** [s.trimStart()], [s.trimEnd()] and [s.trim()]. *)
Fixpoint trimStart (s : string) : string :=
  match s with
  | EmptyString => EmptyString
  | String c s' => if is_white c then trimStart s' else s
  end.

Fixpoint trimEnd (s : string) : string :=
  match s with
  | EmptyString => EmptyString
  | String c s' =>
      match trimEnd s' with
      | EmptyString => if is_white c then EmptyString else String c EmptyString
      | t => String c t
      end
  end.

Definition trim (s : string) : string := trimEnd (trimStart s).

(** Truthiness of a string: the empty string is falsy. *)
Definition truthy (s : string) : bool :=
  match s with EmptyString => false | _ => true end.

(** [s.split(sep)] for a one-character separator: [cur] is the piece being
    read. *)
Fixpoint split_char_from (sep : ascii) (cur : string) (s : string) : list string :=
  match s with
  | EmptyString => [cur]
  | String c s' =>
      if Ascii.eqb c sep then cur :: split_char_from sep EmptyString s'
      else split_char_from sep (cur ++ String c EmptyString) s'
  end.

Definition split_char (sep : ascii) (s : string) : list string :=
  split_char_from sep EmptyString s.

(** [s.split(/[cls]+/)] for a character class [cls]: the separators are the
    maximal runs of characters of the class; [in_run] tells that the
    previous character belonged to a run. *)
Fixpoint split_runs_from (cls : ascii -> bool) (cur : string) (in_run : bool)
    (s : string) : list string :=
  match s with
  | EmptyString => [cur]
  | String c s' =>
      if cls c then
        if in_run then split_runs_from cls EmptyString true s'
        else cur :: split_runs_from cls EmptyString true s'
      else split_runs_from cls (cur ++ String c EmptyString) false s'
  end.

Definition split_runs (cls : ascii -> bool) (s : string) : list string :=
  split_runs_from cls EmptyString false s.

(** [l.join(sep)]. *)
Fixpoint join (sep : string) (l : list string) : string :=
  match l with
  | [] => EmptyString
  | [x] => x
  | x :: l' => x ++ sep ++ join sep l'
  end.

(** [n.toString()] for a non-negative integer. *)
Definition of_nat (n : nat) : string :=
  DecimalString.NilEmpty.string_of_uint (Nat.to_uint n).

(** [s.padStart(2, '0')]. *)
Definition padStart2 (s : string) : string :=
  match String.length s with
  | 0 => "00"
  | 1 => "0" ++ s
  | _ => s
  end.

(** [s.startsWith(p)]. *)
Definition startsWith (p s : string) : bool := String.prefix p s.

End JsString.

(** ** types *)

(** Modelled from the spec: the declarations of [types.ts] ([TextChunk],
    [VideoData], [ProcessingState], [ChatMessage]) are not among the
    sources.  A chunk has the two fields that [chunkText] writes. *)
Record TextChunk : Type := mkTextChunk {
  chunk_id : string;
  chunk_text : string
}.

(** Modelled from the spec: [VideoData] of [types.ts], with the fields of
    the object that [processVideo] returns. *)
Record VideoData : Type := mkVideoData {
  id : string;
  title : string;
  thumbnail : string;
  duration : string;
  transcript : string;
  chunks : list TextChunk;
  embeddings : list (list float)
}.

(** Modelled from the spec: [ProcessingState] of [types.ts], the four
    states that [App] sets and tests. *)
Inductive ProcessingState : Type := idle | processing | ready | error.

(** Modelled from the spec: [ChatMessage] of [types.ts] and the type of its
    field [type], with the fields of the messages that [App] builds; the
    time stamp is the clock reading. *)
Inductive MessageType : Type := user | assistant.

Record ChatMessage : Type := mkChatMessage {
  msg_id : string;
  msg_type : MessageType;
  content : string;
  timestamp : Z
}.

(** ** videoProcessor.ts: chunking *)

Section Chunking.
Import JsString.
Open Scope string_scope.

(** The class [[.!?]] of the separator pattern. *)
Definition is_terminator (c : ascii) : bool :=
  Ascii.eqb c "." || Ascii.eqb c "!" || Ascii.eqb c "?".

(** [text.split(/[.!?]+/).filter(s => s.trim().length > 0)]. *)
Definition sentences_of (text : string) : list string :=
  filter (fun s => (0 <? String.length (trim s))%nat) (split_runs is_terminator text).

(** The loop state of [chunkText]: the chunks pushed so far (in order), the
    running buffer and the next chunk number. *)
Record chunk_state : Type := mk_chunk_state {
  cs_chunks : list TextChunk;
  currentChunk : string;
  chunkId : nat
}.

Definition push_chunk (st : chunk_state) : list TextChunk :=
  cs_chunks st ++ [mkTextChunk ("chunk-" ++ of_nat (chunkId st)) (trim (currentChunk st))].

(** One iteration of the loop over the sentences. *)
Definition chunk_step (chunkSize overlap : Z) (st : chunk_state) (raw : string)
    : chunk_state :=
  let sentence := trim raw ++ "." in
  let cur := currentChunk st in
  if ((Z.of_nat (String.length cur) + Z.of_nat (String.length sentence) >? chunkSize)%Z
      && (0 <? String.length cur)%nat) then
    let words := split_char " " cur in
    let overlapWords := JsArray.slice_from (- overlap) words in
    mk_chunk_state (push_chunk st)
                   (join " " overlapWords ++ " " ++ sentence)
                   (S (chunkId st))
  else
    mk_chunk_state (cs_chunks st)
                   (cur ++ (if truthy cur then " " else "") ++ sentence)
                   (chunkId st).

Definition chunk_loop (chunkSize overlap : Z) (sentences : list string)
    (st : chunk_state) : chunk_state :=
  fold_left (chunk_step chunkSize overlap) sentences st.

Definition chunkTextWith (text : string) (chunkSize overlap : Z) : list TextChunk :=
  let st := chunk_loop chunkSize overlap (sentences_of text)
                       (mk_chunk_state [] "" 0) in
  if truthy (trim (currentChunk st)) then push_chunk st else cs_chunks st.

(** The defaults [chunkSize = 500], [overlap = 50]. *)
Definition chunkText (text : string) : list TextChunk := chunkTextWith text 500 50.

End Chunking.

(** ** The world outside the core *)

(** The reply of the oEmbed endpoint to [getVideoMetadata]. *)
Inductive oembed_reply : Type :=
  | OembedRejected (message : string)   (* fetch or response.json() threw *)
  | OembedNotOk                         (* response.ok is false *)
  | OembedBody (body_title : string).

(** A chat completion request and the provider's reply. *)
Record chat_request : Type := mk_chat_request {
  req_model : string;
  req_system : string;
  req_user : string;
  req_max_tokens : Z;
  req_temperature : float
}.

Inductive chat_reply : Type :=
  | ChatFails                                  (* the call threw *)
  | ChatContent (message_content : option string).  (* choices[0].message.content *)

(** The environment: configuration and the external services, as oracles.
    The services are indexed by the number of requests made so far, so that
    a service may answer the same request differently later on. *)
Record Env : Type := mkEnv {
  apiKey : option string;                  (* import.meta.env.VITE_OPENAI_API_KEY *)
  math_random : nat -> float;              (* the k-th value of Math.random() *)
  embeddings_create : nat -> string -> option (list float);
                                           (* None: the embedding request failed *)
  chat_create : nat -> chat_request -> chat_reply;
  fetchTranscript : nat -> string -> option (list string);
                                           (* the texts of the caption items *)
  oembed : nat -> string -> oembed_reply;
  date_now : nat -> Z;                     (* the k-th reading of the clock *)
  toFixed2 : float -> string               (* Number.prototype.toFixed(2) *)
}.

(** [!apiKey]: the key is missing when it is undefined or empty. *)
Definition no_key (env : Env) : bool :=
  match apiKey env with
  | Some k => negb (JsString.truthy k)
  | None => true
  end.

(** The mutable world: the four state cells of [App] and the cursors of the
    oracles. *)
Record World : Type := mkWorld {
  processingState : ProcessingState;
  videoData : option VideoData;
  messages : list ChatMessage;
  error_cell : option string;
  random_drawn : nat;
  requests_made : nat;
  clock_read : nat
}.

(** ** The monad of asynchronous functions *)

Inductive outcome (A : Type) : Type :=
  | Returns (a : A)
  | Throws (message : string).

Arguments Returns {A} a.
Arguments Throws {A} message.

Definition M (A : Type) : Type := World -> outcome A * World.

Definition ret {A : Type} (a : A) : M A := fun w => (Returns a, w).

Definition throw {A : Type} (message : string) : M A := fun w => (Throws message, w).

Definition bind {A B : Type} (m : M A) (k : A -> M B) : M B :=
  fun w =>
    match m w with
    | (Returns a, w') => k a w'
    | (Throws e, w') => (Throws e, w')
    end.

(** [try { m } catch (e) { handler e }]. *)
Definition try_catch {A : Type} (m : M A) (handler : string -> M A) : M A :=
  fun w =>
    match m w with
    | (Returns a, w') => (Returns a, w')
    | (Throws e, w') => handler e w'
    end.

Definition modify (f : World -> World) : M unit := fun w => (Returns tt, f w).

Definition gets {A : Type} (f : World -> A) : M A := fun w => (Returns (f w), w).

Declare Scope async_scope.
Delimit Scope async_scope with async.
Notation "x <- c1 ;; c2" := (bind c1 (fun x => c2))
  (at level 61, c1 at next level, right associativity) : async_scope.
Notation "c1 ;; c2" := (bind c1 (fun _ => c2))
  (at level 61, right associativity) : async_scope.
Open Scope async_scope.

(** [for (const x of l) { body x }] over an accumulator. *)
Fixpoint for_each {A B : Type} (body : B -> A -> M B) (l : list A) (acc : B) : M B :=
  match l with
  | [] => ret acc
  | x :: l' => acc' <- body acc x ;; for_each body l' acc'
  end.

(** [l.map(f)] for an effectful callback, left to right. *)
Fixpoint map_m {A B : Type} (f : A -> M B) (l : list A) : M (list B) :=
  match l with
  | [] => ret []
  | x :: l' => y <- f x ;; ys <- map_m f l' ;; ret (y :: ys)
  end.

(** The state setters of [App] (React [useState]). *)
Definition setProcessingState (s : ProcessingState) : M unit :=
  modify (fun w => mkWorld s (videoData w) (messages w) (error_cell w)
                           (random_drawn w) (requests_made w) (clock_read w)).

Definition setVideoData (v : option VideoData) : M unit :=
  modify (fun w => mkWorld (processingState w) v (messages w) (error_cell w)
                           (random_drawn w) (requests_made w) (clock_read w)).

Definition setMessages (f : list ChatMessage -> list ChatMessage) : M unit :=
  modify (fun w => mkWorld (processingState w) (videoData w) (f (messages w))
                           (error_cell w)
                           (random_drawn w) (requests_made w) (clock_read w)).

Definition setError (e : option string) : M unit :=
  modify (fun w => mkWorld (processingState w) (videoData w) (messages w) e
                           (random_drawn w) (requests_made w) (clock_read w)).

(** [Math.random()]. *)
Definition random (env : Env) : M float :=
  fun w => (Returns (math_random env (random_drawn w)),
            mkWorld (processingState w) (videoData w) (messages w) (error_cell w)
                    (S (random_drawn w)) (requests_made w) (clock_read w)).

(** A request to an external service: the oracle is read at the current
    request number, which then advances. *)
Definition request {A B : Type} (oracle : nat -> A -> B) (x : A) : M B :=
  fun w => (Returns (oracle (requests_made w) x),
            mkWorld (processingState w) (videoData w) (messages w) (error_cell w)
                    (random_drawn w) (S (requests_made w)) (clock_read w)).

(** [Date.now()] and [new Date()]. *)
Definition now (env : Env) : M Z :=
  fun w => (Returns (date_now env (clock_read w)),
            mkWorld (processingState w) (videoData w) (messages w) (error_cell w)
                    (random_drawn w) (requests_made w) (S (clock_read w))).

(** ** videoProcessor.ts: ingestion *)

Section VideoProcessor.
Import JsString.
Open Scope string_scope.

(** The class [[a-zA-Z0-9_-]] of the identifier pattern. *)
Definition is_id_char (c : ascii) : bool :=
  let n := nat_of_ascii c in
  ((97 <=? n) && (n <=? 122) || (65 <=? n) && (n <=? 90)
   || (48 <=? n) && (n <=? 57) || (n =? 95) || (n =? 45))%nat.

(** [[a-zA-Z0-9_-]{n}] at the head of [s]: the captured characters. *)
Fixpoint take_id (n : nat) (s : string) : option string :=
  match n with
  | O => Some EmptyString
  | S n' =>
      match s with
      | String c s' =>
          if is_id_char c then option_map (String c) (take_id n' s') else None
      | EmptyString => None
      end
  end.

Fixpoint drop (n : nat) (s : string) : string :=
  match n, s with
  | S n', String _ s' => drop n' s'
  | _, _ => s
  end.

(** One alternative of the pattern, anchored at the head of [s]. *)
Definition match_after (lead s : string) : option string :=
  if String.prefix lead s then take_id 11 (drop (String.length lead) s) else None.

Definition match_here (s : string) : option string :=
  match match_after "youtube.com/watch?v=" s with
  | Some v => Some v
  | None => match_after "youtu.be/" s
  end.

(** [url.match(/(?:youtube\.com\/watch\?v=|youtu\.be\/)([a-zA-Z0-9_-]{11})/)]:
    the capture of the leftmost match, or [None] for [null]. *)
Fixpoint extractVideoId (url : string) : option string :=
  match match_here url with
  | Some v => Some v
  | None =>
      match url with
      | EmptyString => None
      | String _ rest => extractVideoId rest
      end
  end.

Variable env : Env.

Definition getVideoMetadata (videoId : string) : M string :=
  r <- request (oembed env) videoId ;;
  match r with
  | OembedRejected e => throw e
  | OembedNotOk => throw "Failed to fetch video metadata"
  | OembedBody t => ret t
  end.

(** What [extractTranscript] returns: text, or, for the identifier
    [constructor], the inherited property [Object.prototype.constructor]
    that the lookup in the table of mock transcripts finds (a function,
    whose [length] is 1). *)
Inductive transcript_value : Type :=
  | Text (s : string)
  | ObjectConstructor.

Definition mock_rick : string :=
  "This is a classic music video featuring Rick Astley performing " ++ dquote
  ++ "Never Gonna Give You Up" ++ dquote
  ++ ". The song became famous as part of internet culture and " ++ dquote
  ++ "Rickrolling" ++ dquote
  ++ ". The video shows Rick Astley singing and dancing in various settings.".

Definition mock_ml : string :=
  "This video discusses the fundamentals of machine learning and artificial intelligence. It covers topics like neural networks, deep learning algorithms, and practical applications in various industries. Key concepts include supervised learning, unsupervised learning, and reinforcement learning.".

Definition mock_react : string :=
  "A comprehensive tutorial on React.js development covering components, hooks, state management, and modern React patterns. The video explains how to build scalable applications using React best practices and includes practical examples.".

Definition mock_default : string :=
  "This video content covers various topics and provides valuable information on the subject matter. The speaker discusses important concepts and shares insights based on their expertise in the field.".

(** [mockTranscripts[videoId] || default]. *)
Definition mockTranscripts (videoId : string) : transcript_value :=
  if String.eqb videoId "dQw4w9WgXcQ" then Text mock_rick
  else if String.eqb videoId "jNQXAC9IVRw" then Text mock_ml
  else if String.eqb videoId "ScMzIvxBSi4" then Text mock_react
  else if String.eqb videoId "constructor" then ObjectConstructor
  else Text mock_default.

Definition extractTranscript (videoId : string) : M transcript_value :=
  try_catch
    (r <- request (fetchTranscript env) videoId ;;
     match r with
     | Some items => ret (Text (join " " items))
     | None => throw "transcript request failed"
     end)
    (fun _ => ret (mockTranscripts videoId)).

(** [Array.from({ length: n }, f)]. *)
Fixpoint array_from {A : Type} (n : nat) (f : M A) : M (list A) :=
  match n with
  | O => ret []
  | S n' => x <- f ;; xs <- array_from n' f ;; ret (x :: xs)
  end.

(** The length of an embedding vector. *)
Definition embedding_dimension : nat := 1536.

(** [Array.from({ length: 1536 }, () => Math.random() - 0.5)]. *)
Definition mockEmbedding : M (list float) :=
  array_from embedding_dimension (r <- random env ;; ret (r - 0.5)%float).

Definition mockEmbeddings (cs : list TextChunk) : M (list (list float)) :=
  map_m (fun _ => mockEmbedding) cs.

Definition generateEmbeddings (cs : list TextChunk) : M (list (list float)) :=
  if no_key env then mockEmbeddings cs
  else
    try_catch
      (for_each
         (fun embeddings chunk =>
            r <- request (embeddings_create env) (chunk_text chunk) ;;
            match r with
            | Some e => ret (embeddings ++ [e])%list
            | None => throw "embedding request failed"
            end)
         cs [])
      (fun _ => mockEmbeddings cs).

Definition formatDuration (seconds : nat) : string :=
  let hours := seconds / 3600 in
  let minutes := (seconds mod 3600) / 60 in
  let secs := seconds mod 60 in
  if (0 <? hours)%nat then
    of_nat hours ++ ":" ++ padStart2 (of_nat minutes) ++ ":" ++ padStart2 (of_nat secs)
  else
    of_nat minutes ++ ":" ++ padStart2 (of_nat secs).

(** [!transcript || transcript.length < 50]. *)
Definition transcript_unusable (t : transcript_value) : bool :=
  match t with
  | Text s => negb (truthy s) || (String.length s <? 50)%nat
  | ObjectConstructor => (1 <? 50)%nat
  end.

Definition processVideo (url : string) (onStateChange : ProcessingState -> M unit)
    : M VideoData :=
  match extractVideoId url with
  | None => throw "Invalid YouTube URL"
  | Some videoId =>
      try_catch
        (onStateChange processing ;;
         metadata_title <- getVideoMetadata videoId ;;
         t <- extractTranscript videoId ;;
         match t with
         | Text transcript_text =>
             if transcript_unusable t then
               throw "No transcript available for this video or transcript is too short"
             else
               let cs := chunkText transcript_text in
               if (List.length cs =? 0)%nat then
                 throw "Failed to process video transcript"
               else
                 es <- generateEmbeddings cs ;;
                 ret (mkVideoData videoId metadata_title
                        ("https://img.youtube.com/vi/" ++ videoId ++ "/maxresdefault.jpg")
                        (formatDuration 300)
                        transcript_text cs es)
         | ObjectConstructor =>
             if transcript_unusable t then
               throw "No transcript available for this video or transcript is too short"
             else throw "transcript.split is not a function"
         end)
        (fun e => throw e)
  end.

End VideoProcessor.

(** ** chatService.ts: retrieval and answering *)

(** An entry of the ranking: [chunk] is [videoData.chunks[index]], which is
    [undefined] ([None]) when the index is beyond the chunk list. *)
Record ranked : Type := mk_ranked {
  chunk : option TextChunk;
  similarity : float;
  index : nat
}.

(** The comparator [(a, b) => b.similarity - a.similarity]. *)
Definition by_similarity_desc (a b : ranked) : float :=
  (similarity b - similarity a)%float.

Definition similarities (queryEmbedding : list float) (v : VideoData) : list ranked :=
  JsArray.mapi
    (fun embedding i =>
       mk_ranked (nth_error (chunks v) i) (cosineSimilarity queryEmbedding embedding) i)
    (embeddings v).

Definition findRelevantChunksK (queryEmbedding : list float) (v : VideoData) (topK : Z)
    : list ranked :=
  JsArray.slice 0 topK (JsArray.sort by_similarity_desc (similarities queryEmbedding v)).

(** The default [topK = 3]. *)
Definition findRelevantChunks (queryEmbedding : list float) (v : VideoData)
    : list ranked :=
  findRelevantChunksK queryEmbedding v 3.

Section ChatService.
Import JsString.
Open Scope string_scope.

Variable env : Env.

Definition nl : string := String (ascii_of_nat 10) EmptyString.

(** The literal [0.3]: the double nearest to three tenths.  It is the
    relevance threshold of the demo answer and the sampling temperature of
    the chat requests. *)
Definition point_three : float := 0x1.3333333333333p-2%float.

Definition generateQueryEmbedding (query : string) : M (list float) :=
  if no_key env then mockEmbedding env
  else
    try_catch
      (r <- request (embeddings_create env) query ;;
       match r with
       | Some e => ret e
       | None => throw "embedding request failed"
       end)
      (fun _ => mockEmbedding env).

(** The two templates of the demo answer. *)
Definition answer_relevant (videoTitle : string) : string :=
  "✅ Yes, based on the video " ++ dquote ++ videoTitle ++ dquote
  ++ ", I can provide information about your question. Here are the key points:"
  ++ nl ++ nl
  ++ "• The video discusses relevant concepts related to your query" ++ nl
  ++ "• Important details are covered in the content" ++ nl
  ++ "• The information is presented in a clear and informative manner" ++ nl
  ++ nl
  ++ "*Note: This is a demo response. Configure OpenAI API key for full functionality.*".

Definition answer_not_covered (question videoTitle : string) : string :=
  "❌ I don't have enough relevant information in this video to answer your question about "
  ++ dquote ++ question ++ dquote ++ ". The video " ++ dquote ++ videoTitle ++ dquote
  ++ " doesn't seem to cover this topic in detail.".

(** [relevantChunks.map(item => `[Similarity: ...] ${item.chunk.text}`)
    .join('\n\n')]; reading [text] of an undefined chunk throws, which is
    [None] here. *)
Fixpoint context_lines (items : list ranked) : option (list string) :=
  match items with
  | [] => Some []
  | item :: rest =>
      match chunk item, context_lines rest with
      | Some c, Some ls =>
          Some (("[Similarity: " ++ toFixed2 env (similarity item) ++ "] " ++ chunk_text c)
                  :: ls)
      | _, _ => None
      end
  end.

Definition answer_prompt (videoTitle context question : string) : string :=
  "You are an AI assistant helping users understand video content. Based on the following transcript excerpts from the YouTube video "
  ++ dquote ++ videoTitle ++ dquote ++ ", answer the user's question." ++ nl ++ nl
  ++ "Context from video transcript:" ++ nl
  ++ context ++ nl ++ nl
  ++ "Question: " ++ question ++ nl ++ nl
  ++ "Instructions:" ++ nl
  ++ "- If the context contains relevant information, provide a clear answer with key points in bullet format" ++ nl
  ++ "- Start with ✅ if you can answer the question based on the context" ++ nl
  ++ "- Start with ❌ if the context doesn't contain relevant information" ++ nl
  ++ "- Be specific and reference the video content" ++ nl
  ++ "- Keep the response concise but informative" ++ nl
  ++ "- If you cannot answer based on the provided context, clearly state that" ++ nl
  ++ nl
  ++ "Answer:".

(** [content || fallback]. *)
Definition content_or (c : option string) (fallback : string) : string :=
  match c with
  | Some s => if truthy s then s else fallback
  | None => fallback
  end.

Definition generateAnswer (question : string) (relevantChunks : list ranked)
    (videoTitle : string) : M string :=
  if no_key env then
    let hasRelevantContent :=
      JsArray.some (fun item => (point_three <? similarity item)%float) relevantChunks in
    if hasRelevantContent then ret (answer_relevant videoTitle)
    else ret (answer_not_covered question videoTitle)
  else
    try_catch
      (match context_lines relevantChunks with
       | None => throw "Cannot read properties of undefined (reading 'text')"
       | Some ls =>
           let prompt := answer_prompt videoTitle (join (nl ++ nl) ls) question in
           r <- request (chat_create env)
                  (mk_chat_request "gpt-4o-mini"
                     "You are a helpful assistant that answers questions about video content based only on provided transcript context."
                     prompt 500 point_three) ;;
           match r with
           | ChatFails => throw "chat request failed"
           | ChatContent c => ret (content_or c "Unable to generate response")
           end
       end)
      (fun _ => throw "Failed to generate answer. Please try again.").

Definition askQuestion (question : string) (v : VideoData) : M string :=
  try_catch
    (queryEmbedding <- generateQueryEmbedding question ;;
     let relevantChunks := findRelevantChunks queryEmbedding v in
     generateAnswer question relevantChunks (title v))
    (fun e => throw e).

Definition summary_demo (videoTitle : string) : string :=
  "📋 **Video Summary: " ++ videoTitle ++ "**" ++ nl ++ nl
  ++ "This video covers several important topics and provides valuable insights. Here are the key takeaways:"
  ++ nl ++ nl
  ++ "• Main concepts and ideas are presented clearly" ++ nl
  ++ "• Relevant examples and case studies are discussed  " ++ nl
  ++ "• Practical applications and implementations are covered" ++ nl
  ++ "• Expert insights and best practices are shared" ++ nl ++ nl
  ++ "*Note: Configure OpenAI API key for detailed AI-generated summaries.*".

Definition summary_prompt (videoTitle contextChunks : string) : string :=
  "Create a bullet-point summary of this YouTube video titled " ++ dquote ++ videoTitle
  ++ dquote ++ " based on the following transcript excerpts:" ++ nl ++ nl
  ++ contextChunks ++ nl ++ nl
  ++ "Format the summary with:" ++ nl
  ++ "- A brief title/header" ++ nl
  ++ "- 4-6 key bullet points highlighting the main topics" ++ nl
  ++ "- Keep it concise and informative" ++ nl ++ nl
  ++ "Summary:".

Definition generateVideoSummary (v : VideoData) : M string :=
  if no_key env then ret (summary_demo (title v))
  else
    try_catch
      (let contextChunks :=
         join (nl ++ nl) (map chunk_text (JsArray.slice 0 5 (chunks v))) in
       r <- request (chat_create env)
              (mk_chat_request "gpt-4o-mini"
                 "You are an AI assistant that creates concise video summaries. Create bullet-point summaries that capture the key points and main themes."
                 (summary_prompt (title v) contextChunks) 400 point_three) ;;
       match r with
       | ChatFails => throw "chat request failed"
       | ChatContent c => ret (content_or c "Unable to generate summary")
       end)
      (fun _ => ret "Unable to generate video summary at this time.").

End ChatService.

(** ** App.tsx: the session handlers *)

Section App.
Import JsString.
Open Scope string_scope.

Variable env : Env.

(** [n.toString()] for an integer. *)
Definition of_Z (n : Z) : string :=
  DecimalString.NilZero.string_of_int (Z.to_int n).

Definition welcome (videoTitle : string) : string :=
  "✅ Video processed successfully! I've analyzed " ++ dquote ++ videoTitle ++ dquote
  ++ " and can now answer questions about its content." ++ nl ++ nl
  ++ "**What I can help you with:**" ++ nl
  ++ "• Answer specific questions about the video content" ++ nl
  ++ "• Provide summaries of key points" ++ nl
  ++ "• Find relevant information from the transcript" ++ nl
  ++ "• Explain concepts discussed in the video" ++ nl ++ nl
  ++ "**Try asking something like:**" ++ nl
  ++ "• " ++ dquote ++ "What is the main topic of this video?" ++ dquote ++ nl
  ++ "• " ++ dquote ++ "Can you summarize the key points?" ++ dquote ++ nl
  ++ "• " ++ dquote ++ "Does this video mention [specific topic]?" ++ dquote ++ nl ++ nl
  ++ "*Ready to chat! Ask me anything about the video.*".

Definition apology : string :=
  "❌ I apologize, but I encountered an error while processing your question. This might be due to API limitations or network issues. Please try again or rephrase your question.".

Definition handleVideoSubmit (url : string) : M unit :=
  try_catch
    (setError None ;;
     setProcessingState processing ;;
     setMessages (fun _ => []) ;;
     result <- processVideo env url setProcessingState ;;
     setVideoData (Some result) ;;
     setProcessingState ready ;;
     t_id <- now env ;;
     t_stamp <- now env ;;
     setMessages (fun _ => [mkChatMessage (of_Z t_id) assistant (welcome (title result))
                                          t_stamp]))
    (fun err =>
       setError (Some err) ;;
       setProcessingState error).

Definition handleQuestionSubmit (question : string) : M unit :=
  current <- gets videoData ;;
  match current with
  | None => ret tt
  | Some v =>
      t_id <- now env ;;
      t_stamp <- now env ;;
      let userMessage := mkChatMessage (of_Z t_id) user question t_stamp in
      setMessages (fun prev => prev ++ [userMessage])%list ;;
      try_catch
        (answer <- askQuestion env question v ;;
         a_id <- now env ;;
         a_stamp <- now env ;;
         setMessages
           (fun prev => prev ++ [mkChatMessage (of_Z (a_id + 1)) assistant answer a_stamp])%list)
        (fun _ =>
           e_id <- now env ;;
           e_stamp <- now env ;;
           setMessages
             (fun prev => prev ++ [mkChatMessage (of_Z (e_id + 1)) assistant apology e_stamp])%list)
  end.

Definition handleReset : M unit :=
  setProcessingState idle ;;
  setVideoData None ;;
  setMessages (fun _ => []) ;;
  setError None.

End App.

(** Truthiness of a nullable object. *)
Definition present {A : Type} (o : option A) : bool :=
  match o with Some _ => true | None => false end.

(** ** components/VideoInput.tsx *)

Module VideoInput.
Section VideoInput.
Import JsString.
Open Scope string_scope.

(** An optional group [(p)?] before the rest [k] of a pattern: the group is
    tried first and is left out when the rest fails after it. *)
Definition optional (p : string) (k : string -> bool) (s : string) : bool :=
  (String.prefix p s && k (drop (String.length p) s)) || k s.

(** [/^(https?:\/\/)?(www\.)?(youtube\.com\/watch\?v=|youtu\.be\/)[a-zA-Z0-9_-]{11}/.test(url)]:
    the pattern is anchored at the start of [url] only. *)
Definition validateYouTubeUrl (url : string) : bool :=
  let link s := present (match_here s) in
  let www := optional "www." link in
  (String.prefix "https://" url && www (drop (String.length "https://") url))
  || optional "http://" www url.

(** The submit handler of the form.  The [alert] of the rejected URL and the
    flag [isSubmitting] of the button are not modelled; an exception of
    [onSubmit] passes through the [finally]. *)
Definition handleSubmit (url : string) (onSubmit : string -> M unit) : M unit :=
  if negb (truthy (trim url)) then ret tt
  else if negb (validateYouTubeUrl url) then ret tt
  else onSubmit (trim url).

End VideoInput.
End VideoInput.

(** ** components/ChatInterface.tsx *)

Module ChatInterface.
Section ChatInterface.
Import JsString.
Open Scope string_scope.

Variable env : Env.

(** The submit handler of the question box; [isLoading] is the flag that
    the handler sets while a question is being answered. *)
Definition handleSubmit (question : string) (isLoading : bool)
    (onSubmit : string -> M unit) : M unit :=
  if negb (truthy (trim question)) || isLoading then ret tt
  else
    let currentQuestion := trim question in
    onSubmit currentQuestion.

(** The handler of the summary button: the summary goes into a message
    object that is only written to the console. *)
Definition handleGenerateSummary (videoData : option VideoData)
    (isGeneratingSummary : bool) : M unit :=
  if negb (present videoData) || isGeneratingSummary then ret tt
  else
    match videoData with
    | None => ret tt
    | Some v =>
        try_catch
          (summary <- generateVideoSummary env v ;;
           t_id <- now env ;;
           t_stamp <- now env ;;
           let summaryMessage := mkChatMessage (of_Z t_id) assistant summary t_stamp in
           ret tt)
          (fun _ => ret tt)
    end.

End ChatInterface.
End ChatInterface.

(** ** components/ProcessingSteps.tsx *)

Module ProcessingSteps.
Section ProcessingSteps.
Open Scope string_scope.

Variable env : Env.

(** The [id]s of the four entries of [steps], in order. *)
Definition steps : list string := ["extract"; "chunk"; "embeddings"; "index"].

Definition stepOrder : list string := ["extract"; "chunk"; "embeddings"; "index"].

(** [l.findIndex(p)]: -1 when no element satisfies [p]. *)
Fixpoint findIndex_from {A : Type} (p : A -> bool) (i : Z) (l : list A) : Z :=
  match l with
  | [] => (-1)%Z
  | x :: l' => if p x then i else findIndex_from p (i + 1)%Z l'
  end.

Definition findIndex {A : Type} (p : A -> bool) (l : list A) : Z :=
  findIndex_from p 0%Z l.

(** The clock is read in milliseconds, an integer; for a reading below
    2^53 in magnitude the binary64 quotient by 1000 has the floor of the
    exact quotient, so [Math.floor(Date.now() / 1000)] is the integer
    division.  [%] takes the sign of the dividend ([Z.rem]). *)
Definition getStepStatus (stepId : string) (currentState : ProcessingState) : M string :=
  match currentState with
  | error => ret "error"
  | ready => ret "completed"
  | _ =>
      let currentStepIndex := findIndex (fun id => String.eqb id stepId) stepOrder in
      t <- now env ;;
      let progressStepIndex :=
        Z.min (Z.of_nat (length stepOrder) - 1)
              (Z.rem (t / 1000) (Z.of_nat (length stepOrder))) in
      if (currentStepIndex <? progressStepIndex)%Z then ret "completed"
      else if (currentStepIndex =? progressStepIndex)%Z then ret "processing"
      else ret "pending"
  end.

(** [steps.map(step => getStepStatus(step.id, state))]: the statuses that
    one rendering of the component shows. *)
Definition statuses (state : ProcessingState) : M (list string) :=
  map_m (fun stepId => getStepStatus stepId state) steps.

End ProcessingSteps.
End ProcessingSteps.

(** ** The vocabulary of the properties *)

Section Vocabulary.
Import JsString.

(** [x] is +0, -0 or NaN. *)
Definition zero_or_nan (x : float) : Prop :=
  match Prim2SF x with
  | S754_zero _ | S754_nan => True
  | _ => False
  end.

(** [x] is NaN. *)
Definition is_NaN (x : float) : Prop := Prim2SF x = S754_nan.

(** A result that is neither zero nor NaN and carries the sign [s]. *)
Definition signed_nonzero (s : bool) (r : spec_float) : Prop :=
  match r with
  | S754_finite s' _ _ | S754_infinity s' => s' = s
  | _ => False
  end.

(** A vector all of whose components are zero ([x == 0]: +0 or -0): the
    vectors of Euclidean norm zero. *)
Definition zero_vector (v : list float) : Prop :=
  Forall (fun x => (x =? 0)%float = true) v.

(** The scores are in non-increasing order: every entry is at least every
    later one. *)
Definition non_increasing (l : list ranked) : Prop :=
  StronglySorted (fun a b => (similarity b <=? similarity a)%float = true) l.

(** Entries of equal score stand in the order of the chunk list. *)
Definition ties_in_chunk_order (l : list ranked) : Prop :=
  StronglySorted
    (fun a b => (similarity a =? similarity b)%float = true -> index a < index b) l.

(** No score of the query against the stored embeddings is NaN. *)
Definition scores_defined (q : list float) (v : VideoData) : bool :=
  forallb (fun e => negb (is_nan (cosineSimilarity q e))) (embeddings v).

(** Entry [i] of the unsorted list pairs chunk [i] with the score of
    embedding [i]. *)
Definition paired (q : list float) (cs : list TextChunk) (es : list (list float))
    (start : nat) : list ranked :=
  map (fun p => mk_ranked (Some (fst (snd p))) (cosineSimilarity q (snd (snd p))) (fst p))
      (combine (seq start (length es)) (combine cs es)).

(** A video of four chunks, two of which score the same. *)
Definition four_chunks : VideoData :=
  mkVideoData "v" "t" "" "" ""
    [mkTextChunk "chunk-0" "a"; mkTextChunk "chunk-1" "b";
     mkTextChunk "chunk-2" "c"; mkTextChunk "chunk-3" "d"]
    [[3; 4]; [1; 0]; [1; 0]; [0; 1]]%float.

(** A video whose second embedding is the zero vector. *)
Definition zero_embedding_video : VideoData :=
  mkVideoData "v" "t" "" "" ""
    [mkTextChunk "chunk-0" "a"; mkTextChunk "chunk-1" "b"; mkTextChunk "chunk-2" "c"]
    [[3; 4]; [0; 0]; [1; 0]]%float.

(** Some entry of the ranking scores above the threshold. *)
Definition relevant (items : list ranked) : Prop :=
  exists item, In item items /\ (point_three <? similarity item)%float = true.

(** No API key; the transcript service is down and the metadata service
    answers; [Math.random] returns 0 for its first 1536 values and 1/4
    afterwards. *)
Definition demo_env : Env :=
  mkEnv None
        (fun k => if (k <? 1536)%nat then 0%float else 0x1p-2%float)
        (fun _ _ => None)
        (fun _ _ => ChatFails)
        (fun _ _ => None)
        (fun _ _ => OembedBody "Never Gonna Give You Up")
        (fun k => (1700000000000 + Z.of_nat k)%Z)
        (fun _ => "0.00"%string).

(** An API key is configured and the provider fails every request. *)
Definition provider_down_env : Env :=
  mkEnv (Some "sk-test"%string)
        (fun _ => 0x1p-1%float)
        (fun _ _ => None)
        (fun _ _ => ChatFails)
        (fun _ _ => None)
        (fun _ _ => OembedBody "Never Gonna Give You Up")
        (fun k => (1700000000000 + Z.of_nat k)%Z)
        (fun _ => "0.00"%string).

(** No API key; the transcript service returns captions of 18 characters. *)
Definition short_transcript_env : Env :=
  mkEnv None
        (fun _ => 0x1p-1%float)
        (fun _ _ => None)
        (fun _ _ => ChatFails)
        (fun _ _ => Some ["Too short"; "to chunk"]%string)
        (fun _ _ => OembedBody "Never Gonna Give You Up")
        (fun k => (1700000000000 + Z.of_nat k)%Z)
        (fun _ => "0.00"%string).

Definition initial_world : World := mkWorld idle None [] None 0 0 0.

(** A session in progress: a processed video and one message. *)
Definition session_world : World :=
  mkWorld ready (Some four_chunks)
          [mkChatMessage "1" assistant "hello" 1%Z] None 0 0 0.

(** The world after [n] more values of [Math.random] were drawn. *)
Definition advance_random (n : nat) (w : World) : World :=
  mkWorld (processingState w) (videoData w) (messages w) (error_cell w)
          (n + random_drawn w) (requests_made w) (clock_read w).

(** The fallback vector drawn from position [r] of the random source. *)
Definition mock_vector (env : Env) (r : nat) : list float :=
  map (fun k => (math_random env (r + k) - 0.5)%float) (seq 0 embedding_dimension).

(** The fallback vectors of [n] chunks, drawn one after the other from
    position [r]. *)
Definition mock_vectors (env : Env) (r n : nat) : list (list float) :=
  map (fun i => mock_vector env (r + embedding_dimension * i)) (seq 0 n).

(** The world after [n] more requests to the external services. *)
Definition advance_requests (n : nat) (w : World) : World :=
  mkWorld (processingState w) (videoData w) (messages w) (error_cell w)
          (random_drawn w) (n + requests_made w) (clock_read w).

(** The embeddings [es] are those the provider returned for the chunks
    [cs], request by request from request number [first]. *)
Definition live_embeddings (env : Env) (first : nat) (cs : list TextChunk)
    (es : list (list float)) : Prop :=
  length es = length cs
  /\ forall i c, nth_error cs i = Some c ->
       embeddings_create env (first + i) (chunk_text c) = nth_error es i.

(** Embedding [i] was generated for chunk [i]: by the provider, or, in the
    fallback, as the [i]-th vector drawn from the random source. *)
Definition embeddings_aligned (env : Env) (cs : list TextChunk)
    (es : list (list float)) : Prop :=
  (no_key env = false /\ exists first, live_embeddings env first cs es)
  \/ (exists r, es = mock_vectors env r (length cs)).

(** The world in which [handleVideoSubmit] calls [processVideo]: the error
    is cleared, the state is [processing] and the message list is empty. *)
Definition submitted (w : World) : World :=
  mkWorld processing (videoData w) [] None
          (random_drawn w) (requests_made w) (clock_read w).

(** [w'] holds the same video data, messages and error as [w]. *)
Definition same_session (w w' : World) : Prop :=
  videoData w' = videoData w /\ messages w' = messages w
  /\ error_cell w' = error_cell w.

(** A computation that touches neither the video data, nor the messages,
    nor the error. *)
Definition keeps_session {A : Type} (m : M A) : Prop :=
  forall w, same_session w (snd (m w)).

(** [s] occurs in [t] as a contiguous piece. *)
Definition occurs_in (s t : string) : Prop :=
  exists before after, t = before ++ s ++ after.

(** [s] begins and ends with a character that is not white space. *)
Definition solid (s : string) : Prop :=
  exists c body d,
    is_white c = false /\ is_white d = false
    /\ (s = String c body) /\ exists body', s = body' ++ String d "".

(** Every character of [s] satisfies [p]. *)
Fixpoint all_chars (p : ascii -> bool) (s : string) : bool :=
  match s with
  | EmptyString => true
  | String c s' => p c && all_chars p s'
  end.

(** The pieces with the separators put back between them. *)
Fixpoint interleave (pieces seps : list string) : string :=
  match pieces with
  | [] => EmptyString
  | p :: ps =>
      match seps with
      | [] => p
      | sep :: ss => (p ++ sep ++ interleave ps ss)%string
      end
  end.

(** The last [n] elements of a list. *)
Definition last_n {A : Type} (n : nat) (l : list A) : list A :=
  skipn (length l - n) l.

(** The sentence the loop appends for a unit. *)
Definition sentence_of (raw : string) : string :=
  (JsString.trim raw ++ ".")%string.

(** The test of the loop: the lengths of the buffer and of the sentence add
    up to more than [chunkSize], and the buffer is not empty. *)
Definition closes (chunkSize : Z) (cur sentence : string) : bool :=
  (Z.of_nat (String.length cur) + Z.of_nat (String.length sentence) >? chunkSize)%Z
  && (0 <? String.length cur)%nat.

(** The chunks pushed so far are numbered from 0 in order. *)
Definition well_numbered (st : chunk_state) : Prop :=
  chunkId st = length (cs_chunks st)
  /\ forall i c, nth_error (cs_chunks st) i = Some c ->
       chunk_id c = ("chunk-" ++ JsString.of_nat i)%string.

(** Every sentence of [units] stands whole in a pushed chunk or in the
    buffer. *)
Definition holds_whole (st : chunk_state) (units : list string) : Prop :=
  forall raw, In raw units ->
    (exists c, In c (cs_chunks st) /\ occurs_in (sentence_of raw) (chunk_text c))
    \/ occurs_in (sentence_of raw) (currentChunk st).

(** The rule of the chunking as a program of its own, written from the
    words of the property and not from the source.  The sentences are taken
    one after the other into a buffer.  A chunk is closed (the trimmed
    buffer, with the next number) exactly when the lengths of the buffer and
    of the next sentence add up to more than the bound [L] while the buffer
    is not empty; the next buffer is then the last [O] words of the closed
    buffer followed by the sentence.  Otherwise the sentence joins the
    buffer.  What the buffer holds at the end is the last chunk. *)
Fixpoint chunks_by_rule (L : Z) (O : nat) (units : list string) (buffer : string)
    (n : nat) : list TextChunk :=
  match units with
  | [] =>
      if String.eqb (trim buffer) "" then []
      else [mkTextChunk ("chunk-" ++ of_nat n) (trim buffer)]
  | raw :: rest =>
      let sentence := sentence_of raw in
      if (L <? Z.of_nat (String.length buffer + String.length sentence))%Z
         && negb (String.eqb buffer "")
      then
        mkTextChunk ("chunk-" ++ of_nat n) (trim buffer)
        :: chunks_by_rule L O rest
             (join " " (last_n O (split_char " " buffer)) ++ " " ++ sentence) (S n)
      else
        chunks_by_rule L O rest
          (if String.eqb buffer "" then sentence else buffer ++ " " ++ sentence) n
  end.

(** The test as the specification words it: appending the sentence would
    make the buffer longer than the bound, and the buffer is not empty. *)
Definition would_exceed (chunkSize : Z) (cur sentence : string) : Prop :=
  (Z.of_nat (String.length (cur ++ " " ++ sentence)) > chunkSize)%Z /\ cur <> "".

End Vocabulary.

(** ** The vocabulary of the session *)

Section SessionVocabulary.
Import JsString.
Open Scope string_scope.

(** An identifier as the pattern captures it: eleven characters of the
    class [[a-zA-Z0-9_-]]. *)
Definition well_formed_id (v : string) : Prop :=
  String.length v = 11 /\ all_chars is_id_char v = true.

(** [url] holds a watch link or a short link to the video [v]. *)
Definition links_to (url v : string) : Prop :=
  occurs_in ("youtube.com/watch?v=" ++ v) url \/ occurs_in ("youtu.be/" ++ v) url.

(** The two decimal digits of a number below 100. *)
Definition two_digits (n : nat) : string :=
  String (ascii_of_nat (48 + n / 10)) (String (ascii_of_nat (48 + n mod 10)) "").

(** [s] ends with a full stop. *)
Definition ends_with_stop (s : string) : Prop := exists body, s = body ++ ".".

(** A list of messages made of questions each followed by its reply. *)
Inductive exchanges : list ChatMessage -> Prop :=
  | exchanges_nil : exchanges []
  | exchanges_cons : forall q a rest,
      msg_type q = user -> msg_type a = assistant ->
      exchanges rest -> exchanges (q :: a :: rest).

(** The states in which the handlers of [App] leave the session, in
    whatever order they are called. *)
Definition consistent (w : World) : Prop :=
  match processingState w with
  | idle => videoData w = None /\ messages w = [] /\ error_cell w = None
  | processing => False
  | ready =>
      error_cell w = None
      /\ exists v greeting rest,
           videoData w = Some v
           /\ messages w = greeting :: rest
           /\ msg_type greeting = assistant
           /\ content greeting = welcome (title v)
           /\ exchanges rest
  | error =>
      error_cell w <> None
      /\ exchanges (messages w)
      /\ (videoData w = None -> messages w = [])
  end.

(** One call of a handler of the session, running to completion, with any
    argument and in any state: [handleVideoSubmit], [handleQuestionSubmit]
    and [handleReset] of [App], and the summary handler of [ChatInterface]
    on the video data of the session. *)
Inductive handler_call (env : Env) (w : World) : World -> Prop :=
  | call_video : forall url,
      handler_call env w (snd (handleVideoSubmit env url w))
  | call_question : forall question,
      handler_call env w (snd (handleQuestionSubmit env question w))
  | call_summary : forall busy,
      handler_call env w
        (snd (ChatInterface.handleGenerateSummary env (videoData w) busy w))
  | call_reset :
      handler_call env w (snd (handleReset w)).

(** The worlds reached from the initial state of [App] ([idle], no video
    data, no message, no error) by calls of the handlers one after the
    other. *)
Inductive reachable (env : Env) : World -> Prop :=
  | reach_fresh : forall r q c, reachable env (mkWorld idle None [] None r q c)
  | reach_step : forall w w', reachable env w -> handler_call env w w' -> reachable env w'.

(** [w'] holds the same four state cells of [App] as [w]. *)
Definition same_cells (w w' : World) : Prop :=
  processingState w' = processingState w /\ videoData w' = videoData w
  /\ messages w' = messages w /\ error_cell w' = error_cell w.

(** A computation that sets no state cell of [App]. *)
Definition keeps_cells {A : Type} (m : M A) : Prop :=
  forall w, same_cells w (snd (m w)).

(** The world after [n] more readings of the clock. *)
Definition advance_clock (n : nat) (w : World) : World :=
  mkWorld (processingState w) (videoData w) (messages w) (error_cell w)
          (random_drawn w) (requests_made w) (n + clock_read w).

(** The statuses of the four steps when the animation stands at step [p]. *)
Definition statuses_at (p : Z) : list string :=
  map (fun i => if (i <? p)%Z then "completed"
                else if (i =? p)%Z then "processing" else "pending")
      [0; 1; 2; 3]%Z.

End SessionVocabulary.

(** ** The vocabulary of the chunks *)

Section ChunkVocabulary.
Import JsString.
Open Scope string_scope.

(** [c] is neither an exclamation mark nor a question mark. *)
Definition no_shout (c : ascii) : bool :=
  negb (Ascii.eqb c "!") && negb (Ascii.eqb c "?").

(** A text that begins and ends with a character that is not white space,
    ends with a full stop and holds no exclamation or question mark. *)
Definition tidy (t : string) : Prop :=
  solid t /\ ends_with_stop t /\ all_chars no_shout t = true.

(** The state of the loop after [n] sentences: the buffer is empty or ends
    with a full stop, the pushed chunks are tidy, and the chunks, counted
    with the buffer when it is not empty, are at most [n]. *)
Definition buffer_tidy (n : nat) (st : chunk_state) : Prop :=
  (currentChunk st = "" \/ ends_with_stop (currentChunk st))
  /\ all_chars no_shout (currentChunk st) = true
  /\ Forall (fun c => tidy (chunk_text c)) (cs_chunks st)
  /\ (length (cs_chunks st) + (if truthy (currentChunk st) then 1 else 0) <= n)%nat.

(** A unit of the split: it holds no sentence terminator. *)
Definition plain_unit (raw : string) : Prop :=
  all_chars (fun c => negb (is_terminator c)) raw = true.

End ChunkVocabulary.

(** ** The vocabulary of the retrieval *)

Section RetrievalVocabulary.

(** Video data as [processVideo] builds it: the chunks are those of the
    transcript, there is at least one, and there is one embedding per
    chunk. *)
Definition well_formed_video (v : VideoData) : Prop :=
  chunks v = chunkText (transcript v)
  /\ chunks v <> []
  /\ length (embeddings v) = length (chunks v).

(** The entry pairs the chunk and the embedding of the same position. *)
Definition entry_of (q : list float) (v : VideoData) (r : ranked) : Prop :=
  exists c e,
    nth_error (chunks v) (index r) = Some c
    /\ nth_error (embeddings v) (index r) = Some e
    /\ chunk r = Some c
    /\ similarity r = cosineSimilarity q e.

End RetrievalVocabulary.

(** ** The vocabulary of rounding

    The real numbers that the binary64 values stand for, and the error of
    an operation against the exact result. *)

Section RoundingVocabulary.

(** [2^e] for an integer [e]. *)
Definition b2 (e : Z) : R := powerRZ 2 e.

Definition sign_of (s : bool) : R := if s then (-1)%R else 1%R.

(** The real number that a finite binary64 value stands for; the zeros
    stand for 0, and NaN and the infinities are given 0. *)
Definition SF2R (x : spec_float) : R :=
  match x with
  | S754_finite s m e => (sign_of s * IZR (Zpos m) * b2 e)%R
  | _ => 0%R
  end.

Definition value (x : float) : R := SF2R (Prim2SF x).

(** The place of the real number [X] relative to the integer [m]: at [m],
    in the lower half of the unit interval above it, in its middle, or in its
    upper half. *)
Definition located (X : R) (m : Z) (l : location) : Prop :=
  match l with
  | loc_Exact => X = IZR m
  | loc_Inexact Lt => (IZR m < X < IZR m + /2)%R
  | loc_Inexact Eq => X = (IZR m + /2)%R
  | loc_Inexact Gt => (IZR m + /2 < X < IZR m + 1)%R
  end.

Definition located_at (X : R) (r : shr_record) : Prop :=
  located X (shr_m r) (loc_of_shr_record r).

(** [x] is a normal number: finite, with a mantissa of 53 digits. *)
Definition normal (x : float) : bool :=
  match Prim2SF x with
  | S754_finite _ m _ => (Zpos (digits2_pos m) =? prec)%Z
  | _ => false
  end.

(** [x] is zero or a finite number. *)
Definition finite (x : float) : bool :=
  match Prim2SF x with
  | S754_zero _ | S754_finite _ _ _ => true
  | _ => false
  end.

(** [x] is +0 or -0. *)
Definition zero_number (x : float) : bool :=
  match Prim2SF x with
  | S754_zero _ => true
  | _ => false
  end.

(** The unit roundoff of binary64. *)
Definition u64 : R := b2 (-53).

(** The product [x * y] neither overflows nor underflows: it is a normal
    number, or one factor is zero and the other finite. *)
Definition product_in_range (x y : float) : bool :=
  normal (x * y) || (finite x && finite y && (zero_number x || zero_number y)).

(** The sum of the products of the pairs of [l], accumulated from [acc] as
    the loop of [cosineSimilarity] does: every product is in range and every
    partial sum is finite. *)
Fixpoint sum_in_range (l : list (float * float)) (acc : float) : bool :=
  match l with
  | [] => true
  | p :: l' =>
      product_in_range (fst p) (snd p)
      && finite (acc + fst p * snd p)
      && sum_in_range l' (acc + fst p * snd p)%float
  end.

(** No operation of [cosineSimilarity a b] overflows or underflows: the
    products and the partial sums of the loop are in range, and the two
    square roots and their product are normal numbers. *)
Definition in_range (a b : list float) : bool :=
  sum_in_range (combine a b) 0
  && sum_in_range (combine a a) 0
  && sum_in_range (combine b b) 0
  && normal (sqrt (dot binary64 a a))
  && normal (sqrt (dot binary64 b b))
  && normal (sqrt (dot binary64 a a) * sqrt (dot binary64 b b)).

(** The exact sum of the magnitudes of the products of the pairs. *)
Fixpoint abs_products (l : list (float * float)) : R :=
  match l with
  | [] => 0%R
  | p :: l' => (Rabs (value (fst p) * value (snd p)) + abs_products l')%R
  end.

(** The exact sum of the squares of the components. *)
Fixpoint squares (a : list float) : R :=
  match a with
  | [] => 0%R
  | x :: a' => (value x * value x + squares a')%R
  end.

End RoundingVocabulary.

(* ================================================================== *)
(** * Part II.  Properties *)
(* ================================================================== *)

(** ** Facts of binary64 arithmetic

    The primitive operations are specified by the library through their
    images under [Prim2SF]; the facts below are read off the specification
    functions. *)

Module FloatFacts.

Open Scope float_scope.

Lemma is_NaN_eq (x : float) : is_NaN x <-> x = nan.
Proof.
  unfold is_NaN; split; intro H.
  - apply Prim2SF_inj. rewrite H. reflexivity.
  - subst x. reflexivity.
Qed.

Lemma eqb_zero_spec (x : float) :
  (x =? 0) = true <-> exists s, Prim2SF x = S754_zero s.
Proof.
  rewrite FloatAxioms.eqb_spec. change (Prim2SF 0) with (S754_zero false).
  destruct (Prim2SF x) as [s | s | | s m e]; cbn; split; intro H.
  - eauto.
  - reflexivity.
  - destruct s; discriminate.
  - destruct H as [s' H]; discriminate.
  - discriminate.
  - destruct H as [s' H]; discriminate.
  - destruct s; discriminate.
  - destruct H as [s' H]; discriminate.
Qed.

Lemma zero_is_zn (x : float) : (x =? 0) = true -> zero_or_nan x.
Proof.
  intro H. apply eqb_zero_spec in H. destruct H as [s H].
  unfold zero_or_nan. rewrite H. exact I.
Qed.

Lemma nan_is_zn : zero_or_nan nan.
Proof. exact I. Qed.

Lemma zero_is_zn0 : zero_or_nan 0.
Proof. exact I. Qed.

Lemma mul_zn_l (x y : float) : zero_or_nan x -> zero_or_nan (x * y).
Proof.
  unfold zero_or_nan. rewrite FloatAxioms.mul_spec.
  destruct (Prim2SF x) as [sx | sx | | sx mx ex]; try contradiction; intros _;
    destruct (Prim2SF y) as [sy | sy | | sy my ey]; exact I.
Qed.

Lemma mul_zn_r (x y : float) : zero_or_nan y -> zero_or_nan (x * y).
Proof.
  unfold zero_or_nan. rewrite FloatAxioms.mul_spec.
  destruct (Prim2SF y) as [sy | sy | | sy my ey]; try contradiction; intros _;
    destruct (Prim2SF x) as [sx | sx | | sx mx ex]; exact I.
Qed.

Lemma add_zn (x y : float) : zero_or_nan x -> zero_or_nan y -> zero_or_nan (x + y).
Proof.
  unfold zero_or_nan. rewrite FloatAxioms.add_spec.
  destruct (Prim2SF x) as [sx | sx | | sx mx ex]; try contradiction; intros _;
    destruct (Prim2SF y) as [sy | sy | | sy my ey]; try contradiction; intros _;
    try exact I; destruct sx, sy; exact I.
Qed.

Lemma sqrt_zn (x : float) : zero_or_nan x -> zero_or_nan (sqrt x).
Proof.
  unfold zero_or_nan. rewrite FloatAxioms.sqrt_spec.
  destruct (Prim2SF x) as [sx | sx | | sx mx ex]; try contradiction; intros _; exact I.
Qed.

Lemma div_zn (x y : float) : zero_or_nan x -> zero_or_nan y -> x / y = nan.
Proof.
  unfold zero_or_nan. intros Hx Hy. apply is_NaN_eq. unfold is_NaN.
  rewrite FloatAxioms.div_spec.
  destruct (Prim2SF x) as [sx | sx | | sx mx ex]; try contradiction;
    destruct (Prim2SF y) as [sy | sy | | sy my ey]; try contradiction; reflexivity.
Qed.

(** Multiplication is commutative. *)
Lemma SF64mul_comm (x y : spec_float) : SF64mul x y = SF64mul y x.
Proof.
  destruct x as [sx | sx | | sx mx ex], y as [sy | sy | | sy my ey]; cbn;
    try reflexivity; try (rewrite xorb_comm; reflexivity).
  rewrite (xorb_comm sx sy), (Pos.mul_comm mx my), (Z.add_comm ex ey). reflexivity.
Qed.

Lemma mul_comm (x y : float) : x * y = y * x.
Proof. apply Prim2SF_inj. rewrite !FloatAxioms.mul_spec. apply SF64mul_comm. Qed.

(** *** The sign of a difference

    The comparator of the ranking subtracts two scores and the sort reads
    the sign of the result.  For numbers other than NaN that sign decides
    their order: a nonzero difference never rounds to zero, and an overflow
    keeps the sign. *)

Abbreviation fexp64 := (SpecFloat.fexp prec emax).
Abbreviation emin64 := (SpecFloat.emin prec emax).

Local Open Scope Z_scope.

Lemma digits2_pos_bounds (p : positive) :
  2 ^ (Zpos (digits2_pos p) - 1) <= Zpos p < 2 ^ Zpos (digits2_pos p).
Proof.
  induction p as [p IH | p IH | ]; cbn [digits2_pos].
  - rewrite Pos2Z.inj_succ.
    replace (Z.succ (Zpos (digits2_pos p)) - 1) with (Z.succ (Zpos (digits2_pos p) - 1)) by lia.
    rewrite !Z.pow_succ_r by lia. lia.
  - rewrite Pos2Z.inj_succ.
    replace (Z.succ (Zpos (digits2_pos p)) - 1) with (Z.succ (Zpos (digits2_pos p) - 1)) by lia.
    rewrite !Z.pow_succ_r by lia. lia.
  - cbn. lia.
Qed.

(** Shifting right: the number of digits of the mantissa drops by one per
    step as long as some digit is left. *)
Lemma shr_1_pos (mrs : shr_record) (p : positive) :
  shr_m mrs = Zpos p -> 1 < Zpos (digits2_pos p) ->
  exists q, shr_m (shr_1 mrs) = Zpos q
            /\ Zpos (digits2_pos q) = Zpos (digits2_pos p) - 1.
Proof.
  destruct mrs as [m r s]; cbn [shr_m]; intros -> Hd.
  destruct p as [p | p | ]; cbn [shr_1 shr_m digits2_pos] in *.
  - exists p. split; [reflexivity | lia].
  - exists p. split; [reflexivity | lia].
  - lia.
Qed.

Lemma iter_shr_1_pos (n : positive) :
  forall (mrs : shr_record) (p : positive),
    shr_m mrs = Zpos p -> Zpos n < Zpos (digits2_pos p) ->
    exists q, shr_m (SpecFloat.iter_pos shr_1 n mrs) = Zpos q
              /\ Zpos (digits2_pos q) = Zpos (digits2_pos p) - Zpos n.
Proof.
  induction n as [n IH | n IH | ]; intros mrs p Hm Hd; cbn [SpecFloat.iter_pos].
  - destruct (@shr_1_pos mrs p Hm) as [q1 [H1 D1]]; [lia |].
    destruct (IH _ _ H1) as [q2 [H2 D2]]; [lia |].
    destruct (IH _ _ H2) as [q3 [H3 D3]]; [lia |].
    exists q3. split; [exact H3 | lia].
  - destruct (IH _ _ Hm) as [q2 [H2 D2]]; [lia |].
    destruct (IH _ _ H2) as [q3 [H3 D3]]; [lia |].
    exists q3. split; [exact H3 | lia].
  - destruct (@shr_1_pos mrs p Hm) as [q1 [H1 D1]]; [lia |].
    exists q1. split; [exact H1 | lia].
Qed.

Lemma shr_m_of_loc (m : Z) (l : location) : shr_m (shr_record_of_loc m l) = m.
Proof. destruct l as [ | []]; reflexivity. Qed.

Lemma fexp64_ge_emin (k : Z) : emin64 <= fexp64 k.
Proof. unfold SpecFloat.fexp. lia. Qed.

Lemma shr_fexp_pos (m : positive) (e : Z) (l : location) :
  emin64 <= e ->
  exists q e', shr_m (fst (shr_fexp prec emax (Zpos m) e l)) = Zpos q
               /\ snd (shr_fexp prec emax (Zpos m) e l) = e' /\ emin64 <= e'.
Proof.
  intro He. unfold shr_fexp, shr. cbn [Zdigits2].
  destruct (fexp64 (Zpos (digits2_pos m) + e) - e) as [ | n | n ] eqn:En.
  - exists m, e. cbn [fst snd]. rewrite shr_m_of_loc. auto.
  - assert (Hf : fexp64 (Zpos (digits2_pos m) + e) = Zpos (digits2_pos m) + e - prec).
    { unfold SpecFloat.fexp in *. lia. }
    destruct (@iter_shr_1_pos n (shr_record_of_loc (Zpos m) l) m) as [q [Hq Dq]].
    + apply shr_m_of_loc.
    + rewrite Hf in En. unfold prec in En. lia.
    + exists q, (e + Zpos n). cbn [fst snd]. split; [exact Hq | split; [reflexivity |]].
      lia.
  - exists m, e. cbn [fst snd]. rewrite shr_m_of_loc. auto.
Qed.

Lemma round_nearest_even_pos (q : positive) (l : location) :
  exists q', round_nearest_even (Zpos q) l = Zpos q'.
Proof.
  destruct l as [ | []]; cbn [round_nearest_even].
  - eauto.
  - destruct (Z.even (Zpos q)); [eauto | exists (q + 1)%positive; reflexivity].
  - eauto.
  - exists (q + 1)%positive; reflexivity.
Qed.

Lemma binary_round_aux_signed (s : bool) (m : positive) (e : Z) (l : location) :
  emin64 <= e -> signed_nonzero s (binary_round_aux prec emax s (Zpos m) e l).
Proof.
  intro He. unfold binary_round_aux.
  destruct (@shr_fexp_pos m e l He) as [q [e' [Hq [He' Hmin]]]].
  destruct (shr_fexp prec emax (Zpos m) e l) as [mrs1 e1]. cbn [fst snd] in *. subst e1.
  rewrite Hq.
  destruct (round_nearest_even_pos q (loc_of_shr_record mrs1)) as [q' ->].
  destruct (@shr_fexp_pos q' e' loc_Exact Hmin) as [q2 [e2 [Hq2 [He2 _]]]].
  destruct (shr_fexp prec emax (Zpos q') e' loc_Exact) as [mrs2 e2']. cbn [fst snd] in *.
  rewrite Hq2. destruct (e2' <=? emax - prec); reflexivity.
Qed.

Lemma shl_align_fst (m : positive) (e e' : Z) :
  e' <= e -> Zpos (fst (shl_align m e e')) = Zpos m * 2 ^ (e - e').
Proof.
  intro H. unfold shl_align.
  destruct (e' - e) as [ | d | d] eqn:Ed; cbn [fst].
  - replace (e - e') with 0 by lia. rewrite Z.pow_0_r. lia.
  - lia.
  - change (Pos.iter xO m d) with (shift_pos d m).
    rewrite shift_pos_correct. change (Zpower_pos 2 d) with (2 ^ Zpos d).
    replace (e - e') with (Zpos d) by lia. lia.
Qed.

Lemma binary_round_signed (s : bool) (m : positive) (e : Z) :
  emin64 <= e -> signed_nonzero s (binary_round prec emax s m e).
Proof.
  intro He. unfold binary_round.
  destruct (shl_align m e (fexp64 (Zpos (digits2_pos m) + e))) as [mz ez] eqn:Ea.
  apply binary_round_aux_signed.
  unfold shl_align in Ea.
  destruct (fexp64 (Zpos (digits2_pos m) + e) - e); inversion Ea; subst;
    auto using fexp64_ge_emin.
Qed.

(** The sign of a normalized integer significand is the sign of the
    result. *)
Lemma binary_normalize_sign (m e : Z) :
  emin64 <= e ->
  SFltb (S754_zero false) (binary_normalize prec emax m e false) = (0 <? m).
Proof.
  intro He. destruct m as [ | p | p]; cbn [binary_normalize].
  - reflexivity.
  - pose proof (@binary_round_signed false p e He) as H.
    destruct (binary_round prec emax false p e) as [ | s' | | s' m' e']; cbn in H;
      try contradiction; subst; reflexivity.
  - pose proof (@binary_round_signed true p e He) as H.
    destruct (binary_round prec emax true p e) as [ | s' | | s' m' e']; cbn in H;
      try contradiction; subst; reflexivity.
Qed.

(** What validity says of a finite number. *)
Lemma bounded_inv (m : positive) (e : Z) :
  bounded prec emax m e = true ->
  emin64 <= e /\ Zpos (digits2_pos m) <= prec
  /\ (emin64 < e -> Zpos (digits2_pos m) = prec).
Proof.
  unfold bounded, canonical_mantissa. intro H.
  apply andb_prop in H. destruct H as [H _]. apply Z.eqb_eq in H.
  unfold SpecFloat.fexp in H. lia.
Qed.

(** Two valid positive finite numbers compare as their exponents and then
    their mantissas do. *)
Lemma aligned_compare (mx my : positive) (ex ey : Z) :
  bounded prec emax mx ex = true -> bounded prec emax my ey = true ->
  let ez := Z.min ex ey in
  (Zpos mx * 2 ^ (ex - ez) ?= Zpos my * 2 ^ (ey - ez)) =
  match ex ?= ey with
  | Lt => Lt
  | Gt => Gt
  | Eq => Pos.compare mx my
  end.
Proof.
  intros Bx By ez. subst ez.
  destruct (@bounded_inv mx ex Bx) as [Ex [Dx Nx]].
  destruct (@bounded_inv my ey By) as [Ey [Dy Ny]].
  pose proof (digits2_pos_bounds mx) as Hx.
  pose proof (digits2_pos_bounds my) as Hy.
  destruct (Z.compare_spec ex ey) as [E | L | G].
  - subst ey. rewrite Z.min_id, Z.sub_diag, Z.pow_0_r, !Z.mul_1_r. reflexivity.
  - rewrite Z.min_l by lia. rewrite Z.sub_diag, Z.pow_0_r, Z.mul_1_r.
    apply Z.compare_lt_iff.
    assert (D : Zpos (digits2_pos my) = prec) by (apply Ny; lia).
    rewrite D in Hy.
    assert (Hp : 2 ^ 1 <= 2 ^ (ey - ex)) by (apply Z.pow_le_mono_r; lia).
    assert (Hx' : Zpos mx < 2 ^ prec).
    { eapply Z.lt_le_trans; [apply Hx | apply Z.pow_le_mono_r; lia]. }
    change (2 ^ prec) with (2 * 2 ^ (prec - 1)) in Hx'.
    change (2 ^ 1) with 2 in Hp. nia.
  - rewrite Z.min_r by lia. rewrite Z.sub_diag, Z.pow_0_r, Z.mul_1_r.
    apply Z.compare_gt_iff.
    assert (D : Zpos (digits2_pos mx) = prec) by (apply Nx; lia).
    rewrite D in Hx.
    assert (Hp : 2 ^ 1 <= 2 ^ (ex - ey)) by (apply Z.pow_le_mono_r; lia).
    assert (Hy' : Zpos my < 2 ^ prec).
    { eapply Z.lt_le_trans; [apply Hy | apply Z.pow_le_mono_r; lia]. }
    change (2 ^ prec) with (2 * 2 ^ (prec - 1)) in Hy'.
    change (2 ^ 1) with 2 in Hp. nia.
Qed.

(** The sign of a difference decides the comparison: for valid operands
    other than NaN, [0 < y - x] exactly when [x < y]. *)
Lemma SF64sub_sign (x y : spec_float) :
  valid_binary x = true -> valid_binary y = true ->
  x <> S754_nan -> y <> S754_nan ->
  SFltb (S754_zero false) (SF64sub y x) = SFltb x y.
Proof.
  intros Vx Vy Nx Ny.
  destruct x as [sx | sx | | sx mx ex]; try congruence;
    destruct y as [sy | sy | | sy my ey]; try congruence;
    try (destruct sx, sy; reflexivity).
  cbn [valid_binary] in Vx, Vy.
  unfold SF64sub, SFsub.
  destruct (@bounded_inv mx ex Vx) as [Ex _].
  destruct (@bounded_inv my ey Vy) as [Ey _].
  rewrite binary_normalize_sign by lia.
  rewrite !shl_align_fst by lia.
  pose proof (@aligned_compare mx my ex ey Vx Vy) as C. cbv zeta in C.
  rewrite (Z.min_comm ey ex).
  set (X := Zpos mx * 2 ^ (ex - Z.min ex ey)) in *.
  set (Y := Zpos my * 2 ^ (ey - Z.min ex ey)) in *.
  assert (HX : 0 < X) by (subst X; apply Z.mul_pos_pos; [lia | apply Z.pow_pos_nonneg; lia]).
  assert (HY : 0 < Y) by (subst Y; apply Z.mul_pos_pos; [lia | apply Z.pow_pos_nonneg; lia]).
  unfold SFltb, SFcompare. rewrite Pos.compare_cont_spec.
  assert (Hc : match ex ?= ey with
               | Eq => Pos.switch_Eq Eq (mx ?= my)%positive
               | Lt => Lt
               | Gt => Gt
               end = (X ?= Y)).
  { rewrite C. destruct (ex ?= ey), (mx ?= my)%positive; reflexivity. }
  assert (Ho : match ex ?= ey with
               | Eq => CompOpp (Pos.switch_Eq Eq (mx ?= my)%positive)
               | Lt => Gt
               | Gt => Lt
               end = CompOpp (X ?= Y)).
  { rewrite C. destruct (ex ?= ey), (mx ?= my)%positive; reflexivity. }
  rewrite Hc, Ho. clear Hc Ho C.
  destruct sx, sy; cbn [cond_Zopp];
    destruct (Z.compare_spec X Y); cbn [CompOpp];
    first [ apply Z.ltb_lt; lia | apply Z.ltb_ge; lia ].
Qed.


Local Close Scope Z_scope.

(** The same on primitive floats. *)
Lemma sub_sign (x y : float) :
  x <> nan -> y <> nan -> (0 <? y - x) = (x <? y).
Proof.
  intros Nx Ny. rewrite !FloatAxioms.ltb_spec, FloatAxioms.sub_spec.
  change (Prim2SF 0) with (S754_zero false).
  apply SF64sub_sign; try apply Prim2SF_valid.
  - intro H. apply Nx. apply Prim2SF_inj. rewrite H. reflexivity.
  - intro H. apply Ny. apply Prim2SF_inj. rewrite H. reflexivity.
Qed.

(** *** The order of the numbers other than NaN *)

Lemma SFcompare_antisym (x y : spec_float) :
  SFcompare y x = option_map CompOpp (SFcompare x y).
Proof.
  destruct x as [sx | sx | | sx mx ex], y as [sy | sy | | sy my ey]; cbn;
    try reflexivity; try (destruct sx; reflexivity); try (destruct sy; reflexivity);
    try (destruct sx, sy; reflexivity).
  rewrite !Pos.compare_cont_spec. cbn [Pos.switch_Eq].
  rewrite (Z.compare_antisym ex ey), (Pos.compare_antisym mx my).
  destruct sx, sy; try reflexivity;
    destruct (ex ?= ey)%Z; cbn; try reflexivity;
    destruct (mx ?= my)%positive; reflexivity.
Qed.

Lemma ltb_false_leb (x y : float) :
  x <> nan -> y <> nan -> (x <? y) = false -> (y <=? x) = true.
Proof.
  intros Nx Ny. rewrite FloatAxioms.ltb_spec, FloatAxioms.leb_spec. unfold SFltb, SFleb.
  rewrite (SFcompare_antisym (Prim2SF x) (Prim2SF y)).
  assert (Hx : Prim2SF x <> S754_nan).
  { intro H. apply Nx. apply Prim2SF_inj. rewrite H. reflexivity. }
  assert (Hy : Prim2SF y <> S754_nan).
  { intro H. apply Ny. apply Prim2SF_inj. rewrite H. reflexivity. }
  destruct (SFcompare (Prim2SF x) (Prim2SF y)) as [[ | | ] | ] eqn:E; cbn;
    try reflexivity; try discriminate.
  intros _. destruct (Prim2SF x), (Prim2SF y); cbn in E; congruence.
Qed.

Lemma ltb_leb (x y : float) : (x <? y) = true -> (x <=? y) = true.
Proof.
  rewrite FloatAxioms.ltb_spec, FloatAxioms.leb_spec. unfold SFltb, SFleb.
  destruct (SFcompare (Prim2SF x) (Prim2SF y)) as [[ | | ] | ]; auto.
Qed.

Lemma eqb_not_ltb (x y : float) : (x =? y) = true -> (y <? x) = false.
Proof.
  rewrite FloatAxioms.eqb_spec, FloatAxioms.ltb_spec. unfold SFeqb, SFltb.
  rewrite (SFcompare_antisym (Prim2SF x) (Prim2SF y)).
  destruct (SFcompare (Prim2SF x) (Prim2SF y)) as [[ | | ] | ]; cbn; auto; discriminate.
Qed.

Lemma SFleb_trans (x y z : spec_float) :
  SFleb x y = true -> SFleb y z = true -> SFleb x z = true.
Proof.
  unfold SFleb.
  destruct x as [sx | sx | | sx mx ex], y as [sy | sy | | sy my ey],
    z as [sz | sz | | sz mz ez]; cbn;
    try reflexivity; try discriminate;
    try (destruct sx; cbn; (reflexivity || discriminate || idtac));
    try (destruct sy; cbn; (reflexivity || discriminate || idtac));
    try (destruct sz; cbn; (reflexivity || discriminate || idtac));
    try reflexivity; try discriminate; try (intros; discriminate).
  all: rewrite ?Pos.compare_cont_spec; cbn [Pos.switch_Eq].
  all: destruct (Z.compare_spec ex ey); destruct (Z.compare_spec ey ez);
       destruct (Z.compare_spec ex ez); try lia; try reflexivity; try discriminate;
       try (intros; discriminate).
  all: subst; destruct (Pos.compare_spec mx my); destruct (Pos.compare_spec my mz);
       destruct (Pos.compare_spec mx mz); cbn; try lia; try reflexivity; try discriminate;
       try (intros; discriminate).
Qed.

Lemma leb_trans (x y z : float) :
  (x <=? y) = true -> (y <=? z) = true -> (x <=? z) = true.
Proof. rewrite !FloatAxioms.leb_spec. apply SFleb_trans. Qed.

Lemma is_nan_false (x : float) : is_nan x = false -> x <> nan.
Proof. intros H E. subst x. discriminate H. Qed.

End FloatFacts.

(** ** The error of the binary64 operations

    The operations round the exact result to the nearest number of the
    format.  The facts below follow the rounding of the specification
    functions step by step and bound its error. *)

Module RoundingFacts.
Import FloatFacts.
Local Open Scope R_scope.

Lemma b2_pos (e : Z) : 0 < b2 e.
Proof. unfold b2. apply powerRZ_lt. lra. Qed.

Lemma b2_add (a b : Z) : b2 (a + b) = b2 a * b2 b.
Proof. unfold b2. apply powerRZ_add. lra. Qed.

Lemma b2_0 : b2 0 = 1.
Proof. reflexivity. Qed.

Lemma b2_1 : b2 1 = 2.
Proof. unfold b2. simpl. lra. Qed.

Lemma b2_opp (a : Z) : b2 (- a) = / b2 a.
Proof.
  apply Rmult_eq_reg_l with (b2 a); [ | pose proof (b2_pos a); lra].
  rewrite <- b2_add, Z.add_opp_diag_r, b2_0. field. pose proof (b2_pos a); lra.
Qed.

Lemma b2_m1 : b2 (-1) = / 2.
Proof. change (-1)%Z with (- (1))%Z. rewrite b2_opp, b2_1. reflexivity. Qed.

Lemma b2_succ (a : Z) : b2 (a + 1) = 2 * b2 a.
Proof. rewrite b2_add, b2_1. ring. Qed.

Lemma b2_pred (a : Z) : b2 (a - 1) = / 2 * b2 a.
Proof. replace (a - 1)%Z with (a + -1)%Z by lia. rewrite b2_add, b2_m1. ring. Qed.

Lemma b2_IZR (k : Z) : (0 <= k)%Z -> b2 k = IZR (2 ^ k).
Proof.
  intro Hk. unfold b2. rewrite <- (Z2Nat.id k Hk).
  rewrite <- pow_powerRZ, <- pow_IZR. reflexivity.
Qed.

Lemma b2_le (a b : Z) : (a <= b)%Z -> b2 a <= b2 b.
Proof.
  intro H. replace b with (a + (b - a))%Z by lia.
  rewrite b2_add. rewrite <- (Rmult_1_r (b2 a)) at 1.
  apply Rmult_le_compat_l; [left; apply b2_pos | ].
  rewrite b2_IZR by lia. apply IZR_le.
  pose proof (Z.pow_pos_nonneg 2 (b - a)). lia.
Qed.

Lemma b2_lt (a b : Z) : (a < b)%Z -> b2 a < b2 b.
Proof.
  intro H. apply Rlt_le_trans with (b2 (a + 1)); [ | apply b2_le; lia].
  rewrite b2_succ. pose proof (b2_pos a). lra.
Qed.

(** *** Digits *)
Local Open Scope Z_scope.

Lemma Zdigits2_bounds (m : Z) :
  0 < m -> 1 <= Zdigits2 m /\ 2 ^ (Zdigits2 m - 1) <= m < 2 ^ Zdigits2 m.
Proof.
  destruct m as [ | p | p]; try lia. intros _. cbn [Zdigits2].
  split; [lia | apply digits2_pos_bounds].
Qed.

Lemma Zdigits2_unique (m d : Z) :
  0 < m -> 2 ^ (d - 1) <= m < 2 ^ d -> Zdigits2 m = d.
Proof.
  intros Hm [Hlo Hhi]. destruct (Zdigits2_bounds Hm) as [H1 [Hl Hh]].
  assert (0 <= d).
  { destruct (Z.lt_ge_cases d 0) as [Hn | ]; [ | lia].
    rewrite Z.pow_neg_r in Hhi by exact Hn. lia. }
  destruct (Z.lt_trichotomy (Zdigits2 m) d) as [Hlt | [Heq | Hgt]]; [ | exact Heq | ].
  - assert (2 ^ Zdigits2 m <= 2 ^ (d - 1)) by (apply Z.pow_le_mono_r; lia). lia.
  - assert (2 ^ d <= 2 ^ (Zdigits2 m - 1)) by (apply Z.pow_le_mono_r; lia). lia.
Qed.

Lemma Zdigits2_nonneg (m : Z) : 0 <= Zdigits2 m.
Proof. destruct m; cbn; lia. Qed.

Lemma Zdigits2_succ (m : Z) :
  0 <= m ->
  Zdigits2 (m + 1) = Zdigits2 m
  \/ (m + 1 = 2 ^ Zdigits2 m /\ Zdigits2 (m + 1) = Zdigits2 m + 1).
Proof.
  intro Hm. destruct (Z.eq_dec m 0) as [-> | Hnz]; [right; split; reflexivity | ].
  assert (Hpos : 0 < m) by lia.
  destruct (Zdigits2_bounds Hpos) as [H1 [Hl Hh]].
  destruct (Z.eq_dec (m + 1) (2 ^ Zdigits2 m)) as [E | NE].
  - right. split; [exact E | ]. apply Zdigits2_unique; [lia | ].
    replace (Zdigits2 m + 1 - 1) with (Zdigits2 m) by lia.
    rewrite Z.pow_add_r by lia. lia.
  - left. apply Zdigits2_unique; lia.
Qed.

Lemma Zdigits2_div (m k : Z) :
  0 < m -> 0 <= k < Zdigits2 m -> Zdigits2 (m / 2 ^ k) = Zdigits2 m - k.
Proof.
  intros Hm Hk. destruct (Zdigits2_bounds Hm) as [H1 [Hl Hh]].
  assert (Hp : 0 < 2 ^ k) by (apply Z.pow_pos_nonneg; lia).
  assert (Hlo : 2 ^ (Zdigits2 m - k - 1) <= m / 2 ^ k).
  { apply Z.div_le_lower_bound; [exact Hp | ].
    rewrite <- Z.pow_add_r by lia.
    replace (k + (Zdigits2 m - k - 1)) with (Zdigits2 m - 1) by lia. exact Hl. }
  assert (Hhi : m / 2 ^ k < 2 ^ (Zdigits2 m - k)).
  { apply Z.div_lt_upper_bound; [exact Hp | ].
    rewrite <- Z.pow_add_r by lia.
    replace (k + (Zdigits2 m - k)) with (Zdigits2 m) by lia. exact Hh. }
  apply Zdigits2_unique; [ | split; assumption].
  assert (0 < 2 ^ (Zdigits2 m - k - 1)) by (apply Z.pow_pos_nonneg; lia). lia.
Qed.

Lemma div_pow2_small (m k : Z) :
  0 <= m -> Zdigits2 m <= k -> m / 2 ^ k = 0.
Proof.
  intros Hm Hk. destruct (Z.eq_dec m 0) as [-> | Hnz]; [apply Z.div_0_l; pose proof (Z.pow_pos_nonneg 2 k); pose proof (Zdigits2_nonneg 0); cbn in *; lia | ].
  destruct (@Zdigits2_bounds m ltac:(lia)) as [H1 [Hl Hh]].
  apply Z.div_small. split; [lia | ].
  assert (2 ^ Zdigits2 m <= 2 ^ k) by (apply Z.pow_le_mono_r; lia). lia.
Qed.

Lemma fexp64_eq (x : Z) : fexp64 x = Z.max (x - 53) (-1074).
Proof. reflexivity. Qed.


(** *** Shifting right keeps the place of the exact value *)

Lemma loc_of_record_of_loc (m : Z) (l : location) :
  loc_of_shr_record (shr_record_of_loc m l) = l /\ shr_m (shr_record_of_loc m l) = m.
Proof. destruct l as [ | [ | | ]]; split; reflexivity. Qed.

Lemma shr_1_located (X : R) (r : shr_record) :
  0 <= shr_m r -> located_at X r ->
  located_at (X * / 2) (shr_1 r) /\ shr_m (shr_1 r) = shr_m r / 2.
Proof.
  destruct r as [m rb sb]. unfold located_at. cbn [shr_m]. intros Hm Hloc.
  destruct m as [ | p | p]; [ | | lia].
  - split; [ | reflexivity].
    destruct rb, sb; cbn in *; lra.
  - destruct p as [p | p | ].
    + split.
      * assert (E : IZR (Zpos p~1) = (2 * IZR (Zpos p) + 1)%R).
        { rewrite Pos2Z.inj_xI, plus_IZR, mult_IZR. reflexivity. }
        destruct rb, sb; cbn [shr_1 shr_m loc_of_shr_record located orb] in *;
          rewrite E in Hloc; lra.
      * cbn [shr_1 shr_m]. rewrite Pos2Z.inj_xI.
        apply Z.div_unique with 1; lia.
    + split.
      * assert (E : IZR (Zpos p~0) = (2 * IZR (Zpos p))%R).
        { rewrite Pos2Z.inj_xO, mult_IZR. reflexivity. }
        destruct rb, sb; cbn [shr_1 shr_m loc_of_shr_record located orb] in *;
          rewrite E in Hloc; lra.
      * cbn [shr_1 shr_m]. rewrite Pos2Z.inj_xO.
        apply Z.div_unique with 0; lia.
    + split; [ | reflexivity].
      destruct rb, sb; cbn [shr_1 shr_m loc_of_shr_record located orb] in *; lra.
Qed.

Lemma iter_shr_1_located (k : positive) :
  forall (X : R) (r : shr_record),
    0 <= shr_m r -> located_at X r ->
    located_at (X * b2 (- Zpos k)) (SpecFloat.iter_pos shr_1 k r)
    /\ shr_m (SpecFloat.iter_pos shr_1 k r) = shr_m r / 2 ^ Zpos k.
Proof.
  assert (Hdiv : forall a b c, 0 <= a -> 0 <= b -> 0 <= c -> a / 2 ^ b / 2 ^ c = a / 2 ^ (b + c)).
  { intros a b c Ha Hb Hc. rewrite Z.pow_add_r by lia.
    apply Z.div_div; [pose proof (Z.pow_pos_nonneg 2 b); lia | apply Z.pow_pos_nonneg; lia]. }
  induction k as [k IH | k IH | ]; intros X r Hm Hloc; cbn [SpecFloat.iter_pos].
  - destruct (@shr_1_located X r Hm Hloc) as [L1 M1].
    assert (Hm1 : 0 <= shr_m (shr_1 r)) by (rewrite M1; apply Z.div_pos; lia).
    destruct (IH _ _ Hm1 L1) as [L2 M2].
    assert (Hm2 : 0 <= shr_m (SpecFloat.iter_pos shr_1 k (shr_1 r))).
    { rewrite M2. apply Z.div_pos; [exact Hm1 | apply Z.pow_pos_nonneg; lia]. }
    destruct (IH _ _ Hm2 L2) as [L3 M3].
    split.
    + replace (X * b2 (- Zpos k~1))%R with (X * / 2 * b2 (- Zpos k) * b2 (- Zpos k))%R;
        [exact L3 | ].
      rewrite Pos2Z.inj_xI.
      replace (- (2 * Zpos k + 1)) with (-1 + (- Zpos k + - Zpos k)) by lia.
      rewrite !b2_add, b2_m1. ring.
    + rewrite M3, M2, M1. rewrite Pos2Z.inj_xI.
      change (shr_m r / 2) with (shr_m r / 2 ^ 1).
      rewrite !Hdiv by (try lia; apply Z.div_pos; try lia; apply Z.pow_pos_nonneg; lia).
      f_equal. f_equal. lia.
  - destruct (IH _ _ Hm Hloc) as [L2 M2].
    assert (Hm2 : 0 <= shr_m (SpecFloat.iter_pos shr_1 k r)).
    { rewrite M2. apply Z.div_pos; [exact Hm | apply Z.pow_pos_nonneg; lia]. }
    destruct (IH _ _ Hm2 L2) as [L3 M3].
    split.
    + replace (X * b2 (- Zpos k~0))%R with (X * b2 (- Zpos k) * b2 (- Zpos k))%R;
        [exact L3 | ].
      rewrite Pos2Z.inj_xO.
      replace (- (2 * Zpos k)) with (- Zpos k + - Zpos k) by lia.
      rewrite !b2_add. ring.
    + rewrite M3, M2. rewrite Pos2Z.inj_xO.
      rewrite !Hdiv by lia. f_equal. f_equal. lia.
  - destruct (@shr_1_located X r Hm Hloc) as [L1 M1]. split.
    + replace (b2 (- Z.pos 1)) with (/ 2)%R by (symmetry; exact b2_m1). exact L1.
    + exact M1.
Qed.

(** The first shift of the rounding: the exact value keeps its place at the
    exponent [Z.max e (fexp (digits m + e))]. *)
Lemma shr_fexp_located (X : R) (m e : Z) (l : location) :
  0 <= m -> located X m l ->
  let e1 := Z.max e (fexp64 (Zdigits2 m + e)) in
  exists r1,
    shr_fexp prec emax m e l = (r1, e1)
    /\ located_at (X * b2 (e - e1)) r1
    /\ shr_m r1 = m / 2 ^ (e1 - e)
    /\ 0 <= shr_m r1
    /\ (fexp64 (Zdigits2 m + e) <= e -> r1 = shr_record_of_loc m l).
Proof.
  intros Hm Hloc e1. unfold shr_fexp, shr.
  destruct (loc_of_record_of_loc m l) as [Hl Hmm].
  destruct (fexp64 (Zdigits2 m + e) - e) as [ | k | k] eqn:Ek.
  - exists (shr_record_of_loc m l).
    assert (e1 = e) by (unfold e1; lia). rewrite H.
    split; [reflexivity | ]. unfold located_at. rewrite Hl, Hmm, Z.sub_diag, b2_0, Rmult_1_r.
    split; [exact Hloc | ]. cbn. rewrite Z.div_1_r.
    split; [reflexivity | split; [exact Hm | reflexivity] ].
  - assert (He1 : e1 = e + Zpos k) by (unfold e1; lia). rewrite He1.
    destruct (@iter_shr_1_located k X (shr_record_of_loc m l)) as [L M].
    { rewrite Hmm. exact Hm. }
    { unfold located_at. rewrite Hl, Hmm. exact Hloc. }
    exists (SpecFloat.iter_pos shr_1 k (shr_record_of_loc m l)).
    split; [reflexivity | ].
    replace (e - (e + Zpos k)) with (- Zpos k) by lia.
    replace (e + Zpos k - e) with (Zpos k) by lia.
    split; [exact L | ]. rewrite M, Hmm. split; [reflexivity | ].
    split; [apply Z.div_pos; [exact Hm | apply Z.pow_pos_nonneg; lia] | lia].
  - exists (shr_record_of_loc m l).
    assert (e1 = e) by (unfold e1; lia). rewrite H.
    split; [reflexivity | ]. unfold located_at. rewrite Hl, Hmm, Z.sub_diag, b2_0, Rmult_1_r.
    split; [exact Hloc | ]. cbn. rewrite Z.div_1_r.
    split; [reflexivity | split; [exact Hm | reflexivity] ].
Qed.

Lemma round_nearest_even_near (X : R) (m : Z) (l : location) :
  located X m l ->
  (round_nearest_even m l = m \/ round_nearest_even m l = m + 1)
  /\ (Rabs (IZR (round_nearest_even m l) - X) <= / 2)%R
  /\ (l = loc_Exact -> round_nearest_even m l = m).
Proof.
  intro Hloc.
  destruct l as [ | [ | | ]]; cbn [round_nearest_even located] in *.
  - split; [left; reflexivity | ]. split; [ | reflexivity].
    rewrite Hloc. unfold Rminus. rewrite Rplus_opp_r, Rabs_R0. lra.
  - destruct (Z.even m).
    + split; [left; reflexivity | ]. split; [ | discriminate].
      rewrite Hloc. apply Rabs_le. lra.
    + split; [right; reflexivity | ]. split; [ | discriminate].
      rewrite plus_IZR, Hloc. apply Rabs_le. lra.
  - split; [left; reflexivity | ]. split; [ | discriminate]. apply Rabs_le. lra.
  - split; [right; reflexivity | ]. split; [ | discriminate].
    rewrite plus_IZR. apply Rabs_le. lra.
Qed.


(** After the first shift the mantissa is not longer than the format
    allows at its exponent. *)
Lemma shifted_fits (m e : Z) :
  0 <= m ->
  let e1 := Z.max e (fexp64 (Zdigits2 m + e)) in
  fexp64 (Zdigits2 (m / 2 ^ (e1 - e)) + e1) <= e1.
Proof.
  intros Hm e1. pose proof (Zdigits2_nonneg m) as Hd.
  destruct (Z_le_gt_dec (fexp64 (Zdigits2 m + e)) e) as [Hk | Hk].
  - assert (E : e1 = e) by (unfold e1; lia). rewrite E, Z.sub_diag.
    cbn [Z.pow Z.pow_pos Pos.iter Z.mul Pos.mul]. rewrite Z.div_1_r. exact Hk.
  - assert (E : e1 = fexp64 (Zdigits2 m + e)) by (unfold e1; lia).
    destruct (Z_lt_le_dec (e1 - e) (Zdigits2 m)) as [Hlt | Hge].
    + assert (Hpos : 0 < m) by (destruct m; cbn in Hlt; lia).
      rewrite Zdigits2_div by lia.
      replace (Zdigits2 m - (e1 - e) + e1) with (Zdigits2 m + e) by lia. lia.
    + rewrite div_pow2_small by lia. cbn [Zdigits2].
      rewrite fexp64_eq in *. lia.
Qed.

(** The second shift, after the rounding to the nearest integer, loses
    nothing: it happens only when the rounding carried into a new digit. *)
Lemma second_shift (m1 m2 e1 : Z) :
  0 <= m1 -> fexp64 (Zdigits2 m1 + e1) <= e1 -> (m2 = m1 \/ m2 = m1 + 1) ->
  exists r3 m3 e3,
    shr_fexp prec emax m2 e1 loc_Exact = (r3, e3)
    /\ shr_m r3 = m3 /\ 0 <= m3 /\ e1 <= e3 <= e1 + 1
    /\ (IZR m3 * b2 e3 = IZR m2 * b2 e1)%R.
Proof.
  intros Hm1 Hfit Hm2.
  set (k2 := fexp64 (Zdigits2 m2 + e1) - e1).
  assert (Hk2 : k2 <= 0 \/ (k2 = 1 /\ exists h, m2 = 2 * h /\ 0 <= h)).
  { destruct Hm2 as [-> | ->]; [left; unfold k2; lia | ].
    destruct (Zdigits2_succ Hm1) as [E | [Epow E]].
    - left. unfold k2. rewrite E. lia.
    - unfold k2. rewrite E. rewrite fexp64_eq in *.
      destruct (Z.eq_dec (Zdigits2 m1) 0) as [Hz | Hnz].
      + left. rewrite Hz in *. lia.
      + pose proof (Zdigits2_nonneg m1).
        destruct (Z_le_gt_dec (Z.max (Zdigits2 m1 + 1 + e1 - 53) (-1074) - e1) 0) as [Hle | Hgt];
          [left; exact Hle | right].
        split; [lia | ]. exists (2 ^ (Zdigits2 m1 - 1)).
        split; [ | apply Z.pow_nonneg; lia].
        rewrite Epow. replace (Zdigits2 m1) with (1 + (Zdigits2 m1 - 1)) at 1 by lia.
        rewrite Z.pow_add_r by lia. reflexivity. }
  unfold shr_fexp, shr. fold k2.
  assert (Hm2nn : 0 <= m2) by lia.
  destruct Hk2 as [Hle | [Hone [h [Hh Hhnn]]]].
  - exists (shr_record_of_loc m2 loc_Exact), m2, e1.
    split; [destruct k2; try reflexivity; lia | ].
    split; [reflexivity | ]. split; [exact Hm2nn | ]. split; [lia | reflexivity].
  - rewrite Hone. exists (shr_1 (shr_record_of_loc m2 loc_Exact)), h, (e1 + 1).
    split; [reflexivity | ].
    split.
    { destruct (@shr_1_located (IZR m2) (shr_record_of_loc m2 loc_Exact)) as [_ M].
      - exact Hm2nn.
      - reflexivity.
      - rewrite M. cbn [shr_record_of_loc shr_m]. rewrite Hh.
        rewrite Z.mul_comm. apply Z.div_mul. lia. }
    split; [exact Hhnn | ]. split; [lia | ].
    rewrite b2_succ, Hh, mult_IZR. ring.
Qed.

(** *** The rounding of [binary_round_aux]

    For a mantissa [m] at the exponent [e] whose exact value [X * 2^e] has
    the place [l] relative to [m], the result is the nearest multiple of
    [2^e1], for the exponent [e1] that the format gives to the value. *)
Lemma binary_round_aux_spec (s : bool) (m e : Z) (l : location) (X : R) :
  0 <= m -> located X m l ->
  let e1 := Z.max e (fexp64 (Zdigits2 m + e)) in
  exists m3 e3,
    0 <= m3 /\ e1 <= e3 <= e1 + 1
    /\ (Rabs (IZR m3 * b2 e3 - X * b2 e) <= / 2 * b2 e1)%R
    /\ (l = loc_Exact -> fexp64 (Zdigits2 m + e) <= e -> (IZR m3 * b2 e3 = X * b2 e)%R)
    /\ binary_round_aux prec emax s m e l
       = match m3 with
         | Z0 => S754_zero s
         | Zpos p => if (e3 <=? emax - prec) then S754_finite s p e3 else S754_infinity s
         | Zneg _ => S754_nan
         end.
Proof.
  intros Hm Hloc e1.
  destruct (@shr_fexp_located X m e l Hm Hloc) as (r1 & Hshr & L1 & M1 & Hm1 & Hsame).
  fold e1 in Hshr, L1, M1.
  destruct (@round_nearest_even_near _ _ _ L1) as (Hcases & Hnear & Hexact).
  set (m2 := round_nearest_even (shr_m r1) (loc_of_shr_record r1)) in *.
  assert (Hfit : fexp64 (Zdigits2 (shr_m r1) + e1) <= e1).
  { rewrite M1. apply shifted_fits. exact Hm. }
  destruct (@second_shift (shr_m r1) m2 e1 Hm1 Hfit Hcases)
    as (r3 & m3 & e3 & Hshr3 & Hm3 & Hm3nn & He3 & Hval).
  exists m3, e3. split; [exact Hm3nn | ]. split; [exact He3 | ].
  assert (Hx : (X * b2 e = X * b2 (e - e1) * b2 e1)%R).
  { rewrite Rmult_assoc, <- b2_add. f_equal. f_equal. lia. }
  split.
  { rewrite Hval, Hx, <- Rmult_minus_distr_r, Rabs_mult.
    rewrite (Rabs_pos_eq (b2 e1)) by (left; apply b2_pos).
    apply Rmult_le_compat_r; [left; apply b2_pos | exact Hnear]. }
  split.
  { intros -> Hk. rewrite Hval.
    assert (E : e1 = e) by (unfold e1; lia).
    specialize (Hsame Hk). unfold m2. rewrite Hsame. cbn [shr_record_of_loc shr_m loc_of_shr_record round_nearest_even].
    rewrite E. cbn [located] in Hloc. rewrite Hloc. reflexivity. }
  unfold binary_round_aux. rewrite Hshr. fold m2. rewrite Hshr3, Hm3. reflexivity.
Qed.



(** *** The cases of the result *)

Lemma Rabs_bound (x a : R) : (Rabs x <= a -> - a <= x <= a)%R.
Proof. unfold Rabs. destruct (Rcase_abs x); lra. Qed.

Lemma IZR_pos_ge_1 (p : positive) : (1 <= IZR (Zpos p))%R.
Proof. apply IZR_le. lia. Qed.

Lemma binary_round_aux_finite (s : bool) (m e : Z) (l : location) (X : R)
    (s' : bool) (m' : positive) (e' : Z) :
  0 <= m -> located X m l ->
  binary_round_aux prec emax s m e l = S754_finite s' m' e' ->
  let e1 := Z.max e (fexp64 (Zdigits2 m + e)) in
  s' = s /\ e1 <= e' <= e1 + 1
  /\ (Rabs (IZR (Zpos m') * b2 e' - X * b2 e) <= / 2 * b2 e1)%R
  /\ (l = loc_Exact -> fexp64 (Zdigits2 m + e) <= e ->
      (IZR (Zpos m') * b2 e' = X * b2 e)%R).
Proof.
  intros Hm Hloc Hres e1.
  destruct (@binary_round_aux_spec s m e l X Hm Hloc)
    as (m3 & e3 & Hm3 & He3 & Hnear & Hexact & Hform).
  rewrite Hform in Hres. destruct m3 as [ | p | p]; [discriminate | | lia].
  destruct (e3 <=? emax - prec); [ | discriminate].
  injection Hres as <- <- <-. auto.
Qed.

Lemma binary_round_aux_infinity (s : bool) (m e : Z) (l : location) (X : R) (s' : bool) :
  0 <= m -> located X m l ->
  binary_round_aux prec emax s m e l = S754_infinity s' ->
  (b2 971 <= X * b2 e)%R.
Proof.
  intros Hm Hloc Hres.
  destruct (@binary_round_aux_spec s m e l X Hm Hloc)
    as (m3 & e3 & Hm3 & He3 & Hnear & Hexact & Hform).
  rewrite Hform in Hres. destruct m3 as [ | p | p]; [discriminate | | lia].
  destruct (e3 <=? emax - prec) eqn:Ee; [discriminate | ].
  apply Z.leb_gt in Ee. change (emax - prec) with 971 in Ee.
  apply Rabs_bound in Hnear.
  assert (H1 : (b2 (Z.max e (fexp64 (Zdigits2 m + e))) <= b2 e3)%R) by (apply b2_le; lia).
  pose proof (IZR_pos_ge_1 p) as Hp. pose proof (b2_pos e3) as He3pos.
  assert (H2 : (b2 (971 + 1) <= b2 e3)%R) by (apply b2_le; lia).
  rewrite b2_succ in H2.
  assert (H3 : (b2 e3 <= IZR (Zpos p) * b2 e3)%R).
  { rewrite <- (Rmult_1_l (b2 e3)) at 1. apply Rmult_le_compat_r; lra. }
  lra.
Qed.

Lemma binary_round_aux_not_nan (s : bool) (m e : Z) (l : location) (X : R) :
  0 <= m -> located X m l -> binary_round_aux prec emax s m e l <> S754_nan.
Proof.
  intros Hm Hloc Hres.
  destruct (@binary_round_aux_spec s m e l X Hm Hloc)
    as (m3 & e3 & Hm3 & He3 & Hnear & Hexact & Hform).
  rewrite Hform in Hres. destruct m3 as [ | p | p]; [discriminate | | lia].
  destruct (e3 <=? emax - prec); discriminate.
Qed.

(** A value of at least [2^emin] does not round to zero. *)
Lemma binary_round_aux_zero (s : bool) (m e : Z) (l : location) (X : R) (s' : bool) :
  0 < m -> located X m l ->
  binary_round_aux prec emax s m e l = S754_zero s' ->
  (X * b2 e <= / 2 * b2 (-1074))%R.
Proof.
  intros Hm Hloc Hres.
  destruct (@binary_round_aux_spec s m e l X ltac:(lia) Hloc)
    as (m3 & e3 & Hm3 & He3 & Hnear & Hexact & Hform).
  rewrite Hform in Hres.
  destruct m3 as [ | p | p]; [ | destruct (e3 <=? emax - prec); discriminate | lia].
  apply Rabs_bound in Hnear. rewrite Rmult_0_l in Hnear.
  set (e1 := Z.max e (fexp64 (Zdigits2 m + e))) in *.
  assert (HX : (IZR m <= X)%R).
  { destruct l as [ | [ | | ]]; cbn [located] in Hloc; lra. }
  destruct (Zdigits2_bounds Hm) as [Hd1 [Hlo Hhi]].
  assert (Hm2 : (b2 (Zdigits2 m - 1) <= IZR m)%R).
  { rewrite b2_IZR by lia. apply IZR_le. exact Hlo. }
  pose proof (b2_pos e) as Hepos.
  assert (Hx : (b2 (Zdigits2 m - 1 + e) <= X * b2 e)%R).
  { rewrite b2_add. apply Rmult_le_compat_r; lra. }
  destruct (Z.eq_dec e1 (-1074)) as [E | NE]; [rewrite E in Hnear; lra | ].
  exfalso.
  assert (Hb : (b2 e1 <= b2 (Zdigits2 m - 1 + e))%R).
  { apply b2_le. unfold e1 in *. rewrite fexp64_eq in *. lia. }
  pose proof (b2_pos e1). lra.
Qed.

(** A finite number that is valid in the format and is not below [2^-1022]
    is normal. *)
Lemma valid_normal (m : positive) (e : Z) :
  bounded prec emax m e = true ->
  (b2 (-1022) <= IZR (Zpos m) * b2 e)%R ->
  Zpos (digits2_pos m) = prec.
Proof.
  intros Hb Hv. destruct (bounded_inv _ _ Hb) as (He & Hd & Hn).
  destruct (Z.eq_dec e (-1074)) as [E | NE]; [ | apply Hn; change emin64 with (-1074) in *; lia].
  destruct (Z.eq_dec (Zpos (digits2_pos m)) prec) as [Hp | Hp]; [exact Hp | exfalso].
  change prec with 53 in *.
  pose proof (digits2_pos_bounds m) as [_ Hhi].
  assert (Hm : Zpos m < 2 ^ 52).
  { apply Z.lt_le_trans with (1 := Hhi). apply Z.pow_le_mono_r; lia. }
  apply IZR_lt in Hm. rewrite <- b2_IZR in Hm by lia.
  subst e. replace (-1022) with (52 + -1074) in Hv by lia.
  rewrite b2_add in Hv. pose proof (b2_pos (-1074)).
  assert ((IZR (Zpos m) * b2 (-1074) < b2 52 * b2 (-1074))%R)
    by (apply Rmult_lt_compat_r; assumption).
  lra.
Qed.

(** The error of a normal result relative to the result. *)
Lemma normal_half_ulp (m : positive) (e : Z) :
  Zpos (digits2_pos m) = prec ->
  (/ 2 * b2 e <= u64 * (IZR (Zpos m) * b2 e))%R.
Proof.
  intro Hd. pose proof (digits2_pos_bounds m) as [Hlo _]. rewrite Hd in Hlo.
  change (prec - 1) with 52 in Hlo. apply IZR_le in Hlo. rewrite <- b2_IZR in Hlo by lia.
  unfold u64. pose proof (b2_pos e).
  assert (E : (/ 2 = b2 (-53) * b2 52)%R).
  { rewrite <- b2_add. change (-53 + 52) with (-1). symmetry. apply b2_m1. }
  rewrite E.
  assert (H0 : (0 < b2 (-53) * b2 e)%R) by (apply Rmult_lt_0_compat; [apply b2_pos | exact H]).
  replace (b2 (-53) * b2 52 * b2 e)%R with (b2 52 * (b2 (-53) * b2 e))%R by ring.
  replace (b2 (-53) * (IZR (Zpos m) * b2 e))%R with (IZR (Zpos m) * (b2 (-53) * b2 e))%R by ring.
  apply Rmult_le_compat_r; [lra | exact Hlo].
Qed.

Lemma sign_of_xorb (a b : bool) : sign_of (xorb a b) = (sign_of a * sign_of b)%R.
Proof. destruct a, b; cbn; lra. Qed.

Lemma Rabs_sign_of (s : bool) (x : R) : Rabs (sign_of s * x) = Rabs x.
Proof.
  destruct s; cbn.
  - replace (-1 * x)%R with (- x)%R by ring. apply Rabs_Ropp.
  - rewrite Rmult_1_l. reflexivity.
Qed.


(** The exponent of the rounding is that of the value, unless the value
    falls below the format. *)
Lemma first_exponent_bound (m e : Z) (l : location) (X : R) :
  0 < m -> located X m l ->
  let e1 := Z.max e (fexp64 (Zdigits2 m + e)) in
  (b2 e1 <= X * b2 e)%R \/ e1 = -1074.
Proof.
  intros Hm Hloc e1.
  assert (HX : (IZR m <= X)%R).
  { destruct l as [ | [ | | ]]; cbn [located] in Hloc; lra. }
  destruct (Zdigits2_bounds Hm) as [Hd1 [Hlo Hhi]].
  assert (Hm2 : (b2 (Zdigits2 m - 1) <= IZR m)%R).
  { rewrite b2_IZR by lia. apply IZR_le. exact Hlo. }
  pose proof (b2_pos e) as Hepos.
  assert (Hx : (b2 (Zdigits2 m - 1 + e) <= X * b2 e)%R).
  { rewrite b2_add. apply Rmult_le_compat_r; lra. }
  destruct (Z.eq_dec e1 (-1074)) as [E | NE]; [right; exact E | left].
  apply Rle_trans with (2 := Hx). apply b2_le.
  unfold e1 in *. rewrite fexp64_eq in *. lia.
Qed.

(** A value between [2^-1021] and [2^971] rounds to a finite number that is
    at least half the value. *)
Lemma binary_round_aux_in_range (s : bool) (m e : Z) (l : location) (X : R) :
  0 < m -> located X m l ->
  (b2 (-1021) <= X * b2 e < b2 971)%R ->
  exists m' e',
    binary_round_aux prec emax s m e l = S754_finite s m' e'
    /\ (/ 2 * (X * b2 e) <= IZR (Zpos m') * b2 e')%R.
Proof.
  intros Hm Hloc [Hlo Hhi].
  assert (Hmin : (b2 (-1074) < b2 (-1021))%R) by (apply b2_lt; lia).
  destruct (binary_round_aux prec emax s m e l) as [s' | s' | | s' m' e'] eqn:Hres.
  - pose proof (@binary_round_aux_zero s m e l X s' Hm Hloc Hres).
    pose proof (b2_pos (-1074)). lra.
  - pose proof (@binary_round_aux_infinity s m e l X s' ltac:(lia) Hloc Hres). lra.
  - exfalso. exact (@binary_round_aux_not_nan s m e l X ltac:(lia) Hloc Hres).
  - destruct (@binary_round_aux_finite s m e l X s' m' e' ltac:(lia) Hloc Hres)
      as (-> & _ & Hnear & _).
    exists m', e'. split; [reflexivity | ].
    apply Rabs_bound in Hnear.
    destruct (@first_exponent_bound m e l X Hm Hloc) as [Hb | Hb].
    + lra.
    + rewrite Hb in Hnear. lra.
Qed.

Lemma Prim2SF_bounded (x : float) (s : bool) (m : positive) (e : Z) :
  Prim2SF x = S754_finite s m e -> bounded prec emax m e = true.
Proof. intro H. pose proof (Prim2SF_valid x) as V. rewrite H in V. exact V. Qed.

Lemma normal_inv (x : float) :
  normal x = true ->
  exists s m e, Prim2SF x = S754_finite s m e /\ Zpos (digits2_pos m) = prec.
Proof.
  unfold normal. destruct (Prim2SF x) as [s | s | | s m e]; try discriminate.
  intro H. apply Z.eqb_eq in H. eauto.
Qed.

Lemma normal_intro (x : float) (s : bool) (m : positive) (e : Z) :
  Prim2SF x = S754_finite s m e ->
  (b2 (-1022) <= IZR (Zpos m) * b2 e)%R ->
  normal x = true.
Proof.
  intros H Hv. unfold normal. rewrite H. apply Z.eqb_eq.
  apply valid_normal with e; [exact (Prim2SF_bounded _ H) | exact Hv].
Qed.

(** The value of a normal number. *)
Lemma normal_value (x : float) :
  normal x = true -> (b2 (-1022) <= Rabs (value x) < b2 1024)%R.
Proof.
  intro Hn. destruct (normal_inv _ Hn) as (s & m & e & Hx & Hd).
  unfold value. rewrite Hx. cbn [SF2R]. rewrite Rmult_assoc, Rabs_sign_of.
  pose proof (b2_pos e) as He. pose proof (IZR_pos_ge_1 m) as Hm.
  rewrite Rabs_pos_eq by (apply Rmult_le_pos; lra).
  destruct (bounded_inv _ _ (Prim2SF_bounded _ Hx)) as (Hemin & _ & _).
  assert (Hemax : e <= 971).
  { pose proof (Prim2SF_bounded _ Hx) as Hb. unfold bounded in Hb.
    apply andb_prop in Hb. destruct Hb as [_ Hb]. apply Z.leb_le in Hb. exact Hb. }
  pose proof (digits2_pos_bounds m) as [Hlo Hhi]. rewrite Hd in Hlo, Hhi.
  change (prec - 1) with 52 in Hlo. change prec with 53 in Hhi.
  apply IZR_le in Hlo. apply IZR_lt in Hhi. rewrite <- b2_IZR in Hlo, Hhi by lia.
  change emin64 with (-1074) in Hemin.
  split.
  - apply Rle_trans with (b2 52 * b2 e)%R.
    + rewrite <- b2_add. apply b2_le. lia.
    + apply Rmult_le_compat_r; lra.
  - apply Rlt_le_trans with (b2 53 * b2 e)%R.
    + apply Rmult_lt_compat_r; lra.
    + rewrite <- b2_add. apply b2_le. lia.
Qed.

(** *** Multiplication *)

Lemma mul_error (x y : float) :
  normal (x * y) = true ->
  (Rabs (value (x * y) - value x * value y) <= u64 * Rabs (value (x * y)))%R.
Proof.
  intro Hn. destruct (normal_inv _ Hn) as (s & m & e & Hr & Hd).
  unfold value. rewrite Hr. rewrite FloatAxioms.mul_spec in Hr.
  destruct (Prim2SF x) as [sx | sx | | sx mx ex];
    destruct (Prim2SF y) as [sy | sy | | sy my ey]; try discriminate Hr.
  cbn [SFmul SF64mul] in Hr. unfold SF64mul in Hr. cbn [SFmul] in Hr.
  destruct (@binary_round_aux_finite (xorb sx sy) (Zpos (mx * my)) (ex + ey) loc_Exact
              (IZR (Zpos (mx * my))) s m e ltac:(lia) eq_refl Hr)
    as (-> & He & Hnear & _).
  cbn [SF2R]. rewrite sign_of_xorb.
  replace (sign_of sx * sign_of sy * IZR (Zpos m) * b2 e
           - sign_of sx * IZR (Zpos mx) * b2 ex * (sign_of sy * IZR (Zpos my) * b2 ey))%R
    with (sign_of sx * (sign_of sy
            * (IZR (Zpos m) * b2 e - IZR (Zpos (mx * my)) * b2 (ex + ey))))%R.
  2:{ rewrite Pos2Z.inj_mul, mult_IZR, b2_add. ring. }
  rewrite !Rabs_sign_of.
  replace (sign_of sx * sign_of sy * IZR (Zpos m) * b2 e)%R
    with (sign_of sx * (sign_of sy * (IZR (Zpos m) * b2 e)))%R by ring.
  rewrite !Rabs_sign_of.
  pose proof (b2_pos e) as Hepos. pose proof (IZR_pos_ge_1 m) as Hm.
  rewrite (Rabs_pos_eq (IZR (Zpos m) * b2 e)) by (apply Rmult_le_pos; lra).
  eapply Rle_trans; [exact Hnear | ].
  eapply Rle_trans; [ | apply normal_half_ulp; exact Hd].
  apply Rmult_le_compat_l; [lra | apply b2_le; lia].
Qed.


(** *** Square root *)

Lemma SFsqrt_core_spec (m : positive) (e : Z) :
  exists q e' l,
    SFsqrt_core_binary prec emax (Zpos m) e = (q, e', l)
    /\ 0 < q
    /\ located (R_sqrt.sqrt (IZR (Zpos m) * b2 (e - 2 * e'))) q l
    /\ (R_sqrt.sqrt (IZR (Zpos m) * b2 e)
        = R_sqrt.sqrt (IZR (Zpos m) * b2 (e - 2 * e')) * b2 e')%R.
Proof.
  unfold SFsqrt_core_binary.
  set (e' := Z.min (fexp64 (Z.div2 (Zdigits2 (Zpos m) + e + 1))) (Z.div2 e)).
  set (sh := e - 2 * e').
  assert (Hsh : 0 <= sh).
  { unfold sh, e'. rewrite (Z.div2_div e).
    pose proof (Z.mul_div_le e 2 ltac:(lia)). lia. }
  set (m' := match sh with
             | 0 => Zpos m
             | Zpos _ => Z.shiftl (Zpos m) sh
             | Zneg _ => 0
             end).
  assert (Hm' : m' = Zpos m * 2 ^ sh).
  { unfold m'. destruct sh as [ | p | p]; [cbn; lia | | lia].
    apply Z.shiftl_mul_pow2. lia. }
  assert (Hm'pos : 0 < m').
  { rewrite Hm'. pose proof (Z.pow_pos_nonneg 2 sh ltac:(lia) Hsh). lia. }
  pose proof (Z.sqrtrem_spec m' ltac:(lia)) as Hspec.
  destruct (Z.sqrtrem m') as [q r].
  destruct Hspec as [Hq Hr].
  assert (Hqpos : 0 < q) by nia.
  assert (HmR : (IZR (Zpos m) * b2 sh = IZR m')%R).
  { rewrite Hm', mult_IZR, <- b2_IZR by exact Hsh. reflexivity. }
  exists q, e'. eexists. split; [reflexivity | ]. split; [exact Hqpos | ].
  fold sh. rewrite HmR.
  assert (Hm'R : (0 < IZR m')%R) by (apply IZR_lt; exact Hm'pos).
  set (X := R_sqrt.sqrt (IZR m')).
  assert (HX0 : (0 <= X)%R) by apply sqrt_pos.
  assert (HXX : (X * X = IZR q * IZR q + IZR r)%R).
  { unfold X. rewrite sqrt_sqrt by lra. rewrite Hq, plus_IZR, mult_IZR. reflexivity. }
  assert (HqR : (0 < IZR q)%R) by (apply IZR_lt; exact Hqpos).
  split.
  - destruct (r =? 0) eqn:Er.
    + apply Z.eqb_eq in Er. subst r. cbn [located]. rewrite Rplus_0_r in HXX. nra.
    + apply Z.eqb_neq in Er.
      assert (Hr1 : (1 <= IZR r)%R) by (apply IZR_le; lia).
      destruct (r <=? q) eqn:Erq.
      * apply Z.leb_le in Erq. apply IZR_le in Erq. cbn [located]. split; nra.
      * apply Z.leb_gt in Erq.
        assert (Hr2 : (IZR q + 1 <= IZR r)%R) by (rewrite <- plus_IZR; apply IZR_le; lia).
        assert (Hr3 : (IZR r <= 2 * IZR q)%R) by (rewrite <- mult_IZR; apply IZR_le; lia).
        cbn [located]. split; nra.
  - replace (b2 e) with (b2 sh * (b2 e' * b2 e'))%R.
    2:{ rewrite <- !b2_add. f_equal. unfold sh. lia. }
    rewrite <- Rmult_assoc, HmR.
    rewrite sqrt_mult by (try lra; apply Rmult_le_pos; left; apply b2_pos).
    rewrite sqrt_square by (left; apply b2_pos). reflexivity.
Qed.

(** The square root of a number whose result is normal. *)
Lemma sqrt_error (x : float) :
  normal (sqrt x) = true ->
  (0 < value x)%R /\ (0 < value (sqrt x))%R
  /\ (Rabs (value (sqrt x) - R_sqrt.sqrt (value x)) <= u64 * value (sqrt x))%R.
Proof.
  intro Hn. destruct (normal_inv _ Hn) as (s & m & e & Hr & Hd).
  unfold value. rewrite Hr. rewrite FloatAxioms.sqrt_spec in Hr.
  unfold SF64sqrt in Hr.
  destruct (Prim2SF x) as [sx | sx | | sx mx ex]; cbn [SFsqrt] in Hr;
    [discriminate Hr | destruct sx; discriminate Hr | discriminate Hr | ].
  destruct sx; [discriminate Hr | ].
  destruct (SFsqrt_core_spec mx ex) as (q & e' & l & Hcore & Hq & Hloc & Hval).
  rewrite Hcore in Hr.
  destruct (@binary_round_aux_finite false q e' l _ s m e ltac:(lia) Hloc Hr)
    as (-> & He & Hnear & _).
  cbn [SF2R sign_of]. rewrite !Rmult_1_l.
  pose proof (b2_pos e) as Hepos. pose proof (IZR_pos_ge_1 m) as Hm.
  pose proof (b2_pos ex) as Hexpos. pose proof (IZR_pos_ge_1 mx) as Hmx.
  split; [apply Rmult_lt_0_compat; lra | ].
  split; [apply Rmult_lt_0_compat; lra | ].
  rewrite Hval.
  eapply Rle_trans; [exact Hnear | ].
  eapply Rle_trans; [ | apply normal_half_ulp; exact Hd].
  apply Rmult_le_compat_l; [lra | apply b2_le; lia].
Qed.

(** *** Division *)

Lemma new_location_located (d r : Z) :
  0 < d -> 0 <= r < d ->
  forall q, located (IZR q + IZR r / IZR d) q (new_location d r).
Proof.
  intros Hd Hr q.
  assert (HdR : (0 < IZR d)%R) by (apply IZR_lt; exact Hd).
  assert (HrR : (0 <= IZR r < IZR d)%R) by (split; [apply IZR_le | apply IZR_lt]; lia).
  assert (Hfrac : forall c : R, (c * IZR d = IZR r -> IZR r / IZR d = c)%R).
  { intros c Hc. rewrite <- Hc. field. lra. }
  unfold new_location.
  assert (Hlt : (2 * r < d -> (IZR q < IZR q + IZR r / IZR d < IZR q + / 2)%R) \/ r = 0).
  { destruct (Z.eq_dec r 0) as [-> | Hnz]; [right; reflexivity | left]. intro H.
    apply IZR_lt in H. rewrite mult_IZR in H.
    assert (1 <= IZR r)%R by (apply IZR_le; lia).
    assert (0 < IZR r / IZR d)%R by (apply Rdiv_lt_0_compat; lra).
    assert (IZR r / IZR d < / 2)%R.
    { apply Rmult_lt_reg_r with (IZR d); [exact HdR | ].
      unfold Rdiv. rewrite Rmult_assoc, Rinv_l by lra. lra. }
    lra. }
  assert (Hgt : d < 2 * r -> (IZR q + / 2 < IZR q + IZR r / IZR d < IZR q + 1)%R).
  { intro H. apply IZR_lt in H. rewrite mult_IZR in H.
    assert (/ 2 < IZR r / IZR d)%R.
    { apply Rmult_lt_reg_r with (IZR d); [exact HdR | ].
      unfold Rdiv. rewrite Rmult_assoc, Rinv_l by lra. lra. }
    assert (IZR r / IZR d < 1)%R.
    { apply Rmult_lt_reg_r with (IZR d); [exact HdR | ].
      unfold Rdiv. rewrite Rmult_assoc, Rinv_l by lra. lra. }
    lra. }
  assert (Hzero : r = 0 -> (IZR q + IZR r / IZR d = IZR q)%R).
  { intros ->. unfold Rdiv. rewrite Rmult_0_l. lra. }
  destruct (Z.even d) eqn:Ev.
  - unfold new_location_even. destruct (r =? 0) eqn:Er.
    + apply Z.eqb_eq in Er. cbn [located]. apply Hzero, Er.
    + apply Z.eqb_neq in Er.
      destruct (2 * r ?= d) eqn:Ec; cbn [located].
      * apply Z.compare_eq in Ec. f_equal. apply Hfrac.
        rewrite <- Ec, mult_IZR. lra.
      * rewrite Z.compare_lt_iff in Ec. destruct Hlt as [Hlt | Hlt]; [exact (Hlt Ec) | lia].
      * rewrite Z.compare_gt_iff in Ec. exact (Hgt Ec).
  - unfold new_location_odd. destruct (r =? 0) eqn:Er.
    + apply Z.eqb_eq in Er. cbn [located]. apply Hzero, Er.
    + apply Z.eqb_neq in Er.
      assert (Hodd : 2 * r <> d).
      { intro E. rewrite <- E in Ev. rewrite Z.even_mul in Ev. discriminate Ev. }
      destruct (2 * r + 1 ?= d) eqn:Ec; cbn [located].
      * apply Z.compare_eq in Ec. destruct Hlt as [Hlt | Hlt]; [apply Hlt; lia | lia].
      * rewrite Z.compare_lt_iff in Ec. destruct Hlt as [Hlt | Hlt]; [apply Hlt; lia | lia].
      * rewrite Z.compare_gt_iff in Ec. apply Hgt. lia.
Qed.

Lemma SFdiv_core_spec (mx my : positive) (ex ey : Z) :
  let delta := Zpos (digits2_pos mx) + ex - (Zpos (digits2_pos my) + ey) in
  exists q e' l,
    SFdiv_core_binary prec emax (Zpos mx) ex (Zpos my) ey = (q, e', l)
    /\ 0 <= q
    /\ (exists X, located X q l
          /\ (X * b2 e' = IZR (Zpos mx) * b2 ex / (IZR (Zpos my) * b2 ey))%R)
    /\ (-1021 <= delta -> 0 < q).
Proof.
  intro delta. unfold SFdiv_core_binary. cbn [Zdigits2]. fold delta.
  set (e' := Z.min (fexp64 delta) (ex - ey)).
  set (sh := ex - ey - e').
  assert (Hsh : 0 <= sh) by (unfold sh, e'; lia).
  set (m' := match sh with
             | 0 => Zpos mx
             | Zpos _ => Z.shiftl (Zpos mx) sh
             | Zneg _ => 0
             end).
  assert (Hm' : m' = Zpos mx * 2 ^ sh).
  { unfold m'. destruct sh as [ | p | p]; [cbn; lia | | lia].
    apply Z.shiftl_mul_pow2. lia. }
  assert (Hm'pos : 0 < m').
  { rewrite Hm'. pose proof (Z.pow_pos_nonneg 2 sh ltac:(lia) Hsh). lia. }
  pose proof (Z_div_mod m' (Zpos my) ltac:(lia)) as Hdiv.
  destruct (Z.div_eucl m' (Zpos my)) as [q r]. destruct Hdiv as [Hq Hr].
  assert (Hqnn : 0 <= q) by nia.
  exists q, e', (new_location (Zpos my) r).
  split; [reflexivity | ]. split; [exact Hqnn | ].
  pose proof (b2_pos ey) as Hey. pose proof (IZR_pos_ge_1 my) as Hmy.
  split.
  - exists (IZR q + IZR r / IZR (Zpos my))%R.
    split; [apply new_location_located; lia | ].
    assert (E : (IZR q + IZR r / IZR (Zpos my) = IZR m' / IZR (Zpos my))%R).
    { rewrite Hq, plus_IZR, mult_IZR. field. lra. }
    rewrite E, Hm', mult_IZR, <- b2_IZR by exact Hsh.
    replace (b2 ex) with (b2 sh * b2 e' * b2 ey)%R.
    2:{ rewrite <- !b2_add. f_equal. unfold sh. lia. }
    field. split; lra.
  - intro Hdelta.
    assert (He' : e' <= delta - 53) by (unfold e'; rewrite fexp64_eq; lia).
    pose proof (digits2_pos_bounds mx) as [Hxlo _].
    pose proof (digits2_pos_bounds my) as [_ Hyhi].
    assert (Hbig : Zpos my <= m').
    { rewrite Hm'.
      assert (Hs : Zpos (digits2_pos my) - Zpos (digits2_pos mx) + 53 <= sh)
        by (unfold sh, delta in *; lia).
      assert (H1 : 2 ^ (Zpos (digits2_pos mx) - 1) * 2 ^ sh <= Zpos mx * 2 ^ sh).
      { apply Z.mul_le_mono_nonneg_r; [apply Z.pow_nonneg; lia | exact Hxlo]. }
      rewrite <- Z.pow_add_r in H1 by lia.
      assert (H2 : 2 ^ Zpos (digits2_pos my) <= 2 ^ (Zpos (digits2_pos mx) - 1 + sh))
        by (apply Z.pow_le_mono_r; lia).
      lia. }
    destruct (Z.eq_dec q 0) as [-> | ]; [lia | lia].
Qed.

(** The quotient of two finite numbers whose result is normal. *)
Lemma div_error (x y : float) :
  normal (x / y) = true ->
  (Rabs (value (x / y) - value x / value y) <= u64 * Rabs (value (x / y)))%R.
Proof.
  intro Hn. destruct (normal_inv _ Hn) as (s & m & e & Hr & Hd).
  unfold value. rewrite Hr. rewrite FloatAxioms.div_spec in Hr.
  destruct (Prim2SF x) as [sx | sx | | sx mx ex];
    destruct (Prim2SF y) as [sy | sy | | sy my ey]; try discriminate Hr.
  unfold SF64div in Hr. cbn [SFdiv] in Hr.
  destruct (SFdiv_core_spec mx my ex ey) as (q & e' & l & Hcore & Hq & (X & Hloc & Hval) & _).
  rewrite Hcore in Hr.
  destruct (@binary_round_aux_finite (xorb sx sy) q e' l X s m e Hq Hloc Hr)
    as (-> & He & Hnear & _).
  cbn [SF2R]. rewrite sign_of_xorb.
  pose proof (b2_pos e) as Hepos. pose proof (IZR_pos_ge_1 m) as Hm.
  pose proof (b2_pos ey) as Hey. pose proof (IZR_pos_ge_1 my) as Hmy.
  replace (sign_of sx * sign_of sy * IZR (Zpos m) * b2 e
           - sign_of sx * IZR (Zpos mx) * b2 ex / (sign_of sy * IZR (Zpos my) * b2 ey))%R
    with (sign_of sx * (sign_of sy * (IZR (Zpos m) * b2 e - X * b2 e')))%R.
  2:{ rewrite Hval. destruct sx, sy; cbn [sign_of]; field; split; lra. }
  rewrite !Rabs_sign_of.
  replace (sign_of sx * sign_of sy * IZR (Zpos m) * b2 e)%R
    with (sign_of sx * (sign_of sy * (IZR (Zpos m) * b2 e)))%R by ring.
  rewrite !Rabs_sign_of.
  rewrite (Rabs_pos_eq (IZR (Zpos m) * b2 e)) by (apply Rmult_le_pos; lra).
  eapply Rle_trans; [exact Hnear | ].
  eapply Rle_trans; [ | apply normal_half_ulp; exact Hd].
  apply Rmult_le_compat_l; [lra | apply b2_le; lia].
Qed.


Lemma b2_lt_inv (a b : Z) : (b2 a < b2 b)%R -> a < b.
Proof.
  intro H. destruct (Z_lt_le_dec a b) as [Hlt | Hge]; [exact Hlt | ].
  pose proof (b2_le Hge). lra.
Qed.

Lemma u64_small : (0 < u64 <= / 1024)%R.
Proof.
  unfold u64. split; [apply b2_pos | ].
  apply Rle_trans with (b2 (-10)); [apply b2_le; lia | ].
  rewrite (b2_opp 10 : b2 (-10) = / b2 10)%R, (@b2_IZR 10) by lia.
  change (2 ^ 10) with 1024. lra.
Qed.

(** The quotient of two finite numbers is normal when its exact value is
    neither too small nor too large. *)
Lemma div_normal (x y : float) (sx sy : bool) (mx my : positive) (ex ey : Z) :
  Prim2SF x = S754_finite sx mx ex ->
  Prim2SF y = S754_finite sy my ey ->
  (b2 (-1021) <= Rabs (value x / value y) < b2 971)%R ->
  normal (x / y) = true.
Proof.
  intros Hx Hy Hrange.
  pose proof (b2_pos ex) as Hexpos. pose proof (IZR_pos_ge_1 mx) as Hmx.
  pose proof (b2_pos ey) as Heypos. pose proof (IZR_pos_ge_1 my) as Hmy.
  assert (Hvx : (0 < IZR (Zpos mx) * b2 ex)%R) by (apply Rmult_lt_0_compat; lra).
  assert (Hvy : (0 < IZR (Zpos my) * b2 ey)%R) by (apply Rmult_lt_0_compat; lra).
  assert (Hquot : (Rabs (value x / value y)
                   = IZR (Zpos mx) * b2 ex / (IZR (Zpos my) * b2 ey))%R).
  { unfold value. rewrite Hx, Hy. cbn [SF2R].
    replace (sign_of sx * IZR (Zpos mx) * b2 ex / (sign_of sy * IZR (Zpos my) * b2 ey))%R
      with (sign_of sx * (sign_of sy * (IZR (Zpos mx) * b2 ex / (IZR (Zpos my) * b2 ey))))%R
      by (destruct sx, sy; cbn [sign_of]; field; split; lra).
    rewrite !Rabs_sign_of. apply Rabs_pos_eq. left. apply Rdiv_lt_0_compat; assumption. }
  rewrite Hquot in Hrange.
  destruct (SFdiv_core_spec mx my ex ey) as (q & e' & l & Hcore & Hq & (X & Hloc & Hval) & Hpos).
  rewrite <- Hval in Hrange.
  (* the exponent of the quotient *)
  assert (Hdelta : -1021 <= Zpos (digits2_pos mx) + ex - (Zpos (digits2_pos my) + ey)).
  { pose proof (digits2_pos_bounds mx) as [_ Hxhi].
    pose proof (digits2_pos_bounds my) as [Hylo _].
    apply IZR_lt in Hxhi. apply IZR_le in Hylo.
    rewrite <- b2_IZR in Hxhi, Hylo by lia.
    assert (Hup : (X * b2 e'
                   < b2 (Zpos (digits2_pos mx) + ex - (Zpos (digits2_pos my) + ey) + 1))%R).
    { rewrite Hval.
      replace (Zpos (digits2_pos mx) + ex - (Zpos (digits2_pos my) + ey) + 1)
        with (Zpos (digits2_pos mx) + ex + - (Zpos (digits2_pos my) - 1 + ey)) by lia.
      rewrite b2_add, b2_opp, !b2_add.
      pose proof (b2_pos (Zpos (digits2_pos my) - 1)) as Hp1.
      assert (Hden : (0 < b2 (Zpos (digits2_pos my) - 1) * b2 ey)%R)
        by (apply Rmult_lt_0_compat; lra).
      apply Rlt_le_trans with (b2 (Zpos (digits2_pos mx)) * b2 ex / (IZR (Zpos my) * b2 ey))%R.
      - unfold Rdiv. apply Rmult_lt_compat_r; [apply Rinv_0_lt_compat; exact Hvy | ].
        apply Rmult_lt_compat_r; lra.
      - unfold Rdiv. apply Rmult_le_compat_l.
        + left. apply Rmult_lt_0_compat; [apply b2_pos | lra].
        + apply Rinv_le_contravar; [exact Hden | ].
          apply Rmult_le_compat_r; lra. }
    assert (Hlt : (b2 (-1021)
                   < b2 (Zpos (digits2_pos mx) + ex - (Zpos (digits2_pos my) + ey) + 1))%R) by lra.
    apply b2_lt_inv in Hlt. lia. }
  specialize (Hpos Hdelta).
  destruct (@binary_round_aux_in_range (xorb sx sy) q e' l X Hpos Hloc Hrange)
    as (m' & e'' & Hres & Hhalf).
  assert (Hr : Prim2SF (x / y) = S754_finite (xorb sx sy) m' e'').
  { rewrite FloatAxioms.div_spec, Hx, Hy. unfold SF64div. cbn [SFdiv].
    rewrite Hcore. exact Hres. }
  apply (normal_intro _ Hr).
  apply Rle_trans with (2 := Hhalf).
  replace (-1022) with (-1021 - 1) by lia. rewrite b2_pred.
  apply Rmult_le_compat_l; lra.
Qed.

(** What is left of a relative error after three operations. *)
Lemma three_roundings (N T V P Q : R) :
  (0 < N -> 0 <= T -> T * T = N -> 0 < V -> 0 < P ->
   Rabs (V - T) <= u64 * V ->
   Rabs (P - V * V) <= u64 * P ->
   Rabs (Q - N / P) <= u64 * Rabs Q ->
   Rabs (Q - 1) <= b2 (-50))%R.
Proof.
  intros HN HT HTT HV HP H1 H2 H3.
  pose proof u64_small as [Hu0 Hu1].
  assert (Hb : (b2 (-50) = 8 * u64)%R).
  { unfold u64. replace (-50) with (3 + -53) by lia. rewrite b2_add.
    rewrite (@b2_IZR 3) by lia. reflexivity. }
  apply Rabs_bound in H1. apply Rabs_bound in H2.
  (* N / P lies between (1 - u)^3 and (1 + u)^3 *)
  assert (HTlo : (V * (1 - u64) <= T)%R) by lra.
  assert (HThi : (T <= V * (1 + u64))%R) by lra.
  assert (HVlo : (P * (1 - u64) <= V * V)%R) by lra.
  assert (HVhi : (V * V <= P * (1 + u64))%R) by lra.
  assert (HNlo : (P * ((1 - u64) * (1 - u64) * (1 - u64)) <= N)%R).
  { rewrite <- HTT.
    apply Rle_trans with (V * V * ((1 - u64) * (1 - u64)))%R.
    - replace (P * ((1 - u64) * (1 - u64) * (1 - u64)))%R
        with (P * (1 - u64) * ((1 - u64) * (1 - u64)))%R by ring.
      apply Rmult_le_compat_r; [apply Rle_0_sqr | exact HVlo].
    - replace (V * V * ((1 - u64) * (1 - u64)))%R
        with ((V * (1 - u64)) * (V * (1 - u64)))%R by ring.
      apply Rmult_le_compat; try exact HTlo; apply Rmult_le_pos; lra. }
  assert (HNhi : (N <= P * ((1 + u64) * (1 + u64) * (1 + u64)))%R).
  { rewrite <- HTT.
    apply Rle_trans with (V * V * ((1 + u64) * (1 + u64)))%R.
    - replace (V * V * ((1 + u64) * (1 + u64)))%R
        with ((V * (1 + u64)) * (V * (1 + u64)))%R by ring.
      apply Rmult_le_compat; try exact HThi; exact HT.
    - replace (P * ((1 + u64) * (1 + u64) * (1 + u64)))%R
        with (P * (1 + u64) * ((1 + u64) * (1 + u64)))%R by ring.
      apply Rmult_le_compat_r; [apply Rle_0_sqr | exact HVhi]. }
  set (x := (N / P)%R) in *.
  assert (Hxlo : ((1 - u64) * (1 - u64) * (1 - u64) <= x)%R).
  { unfold x. apply Rmult_le_reg_r with P; [exact HP | ].
    replace (N / P * P)%R with N by (field; lra). lra. }
  assert (Hxhi : (x <= (1 + u64) * (1 + u64) * (1 + u64))%R).
  { unfold x. apply Rmult_le_reg_r with P; [exact HP | ].
    replace (N / P * P)%R with N by (field; lra). lra. }
  assert (Hx1 : (1 - 3 * u64 <= x)%R) by nra.
  assert (Hx2 : (x <= 1 + 4 * u64)%R) by nra.
  rewrite Hb. apply Rabs_le.
  assert (HQ : (0 <= Q)%R).
  { destruct (Rle_or_lt 0 Q) as [H | H]; [exact H | exfalso].
    rewrite (Rabs_left Q H) in H3. apply Rabs_bound in H3. nra. }
  rewrite (Rabs_pos_eq Q HQ) in H3. apply Rabs_bound in H3.
  split; nra.
Qed.

(** The similarity of a vector with itself, from its sum of squares [n]:
    when [n] and the product of its two square roots are normal numbers, the
    quotient is a normal number within [2^-50] of 1. *)
Lemma self_similarity_near_one (n : float) :
  normal n = true -> normal (sqrt n * sqrt n) = true ->
  normal (n / (sqrt n * sqrt n)) = true
  /\ (Rabs (value (n / (sqrt n * sqrt n)) - 1) <= b2 (-50))%R.
Proof.
  intros Hn Hp.
  pose proof u64_small as [Hu0 Hu1].
  pose proof (mul_error _ _ Hp) as Hmul.
  pose proof (normal_value _ Hp) as [Hplo _].
  (* the square root is a finite number, and normal *)
  destruct (normal_inv _ Hp) as (sp & mp & ep & HP & Hdp).
  assert (Hs : exists ss ms es, Prim2SF (sqrt n) = S754_finite ss ms es).
  { rewrite FloatAxioms.mul_spec in HP.
    destruct (Prim2SF (sqrt n)) as [ss | ss | | ss ms es]; try discriminate HP; eauto. }
  destruct Hs as (ss & ms & es & HS).
  assert (Hvp : (0 < value (sqrt n * sqrt n))%R).
  { unfold value. rewrite HP. rewrite FloatAxioms.mul_spec, HS in HP.
    unfold SF64mul in HP. cbn [SFmul] in HP.
    destruct (@binary_round_aux_finite (xorb ss ss) (Zpos (ms * ms)) (es + es) loc_Exact
                (IZR (Zpos (ms * ms))) sp mp ep ltac:(lia) eq_refl HP) as (-> & _).
    rewrite xorb_nilpotent. cbn [SF2R sign_of]. rewrite Rmult_1_l.
    apply Rmult_lt_0_compat; [pose proof (IZR_pos_ge_1 mp); lra | apply b2_pos]. }
  rewrite (Rabs_pos_eq _ (Rlt_le _ _ Hvp)) in Hmul, Hplo.
  assert (Hsn : normal (sqrt n) = true).
  { apply (normal_intro _ HS).
    assert (Hsq : (value (sqrt n) * value (sqrt n)
                   = (IZR (Zpos ms) * b2 es) * (IZR (Zpos ms) * b2 es))%R).
    { unfold value. rewrite HS. cbn [SF2R]. destruct ss; cbn [sign_of]; ring. }
    rewrite Hsq in Hmul. apply Rabs_bound in Hmul.
    pose proof (b2_pos es) as Hes. pose proof (IZR_pos_ge_1 ms) as Hms.
    assert (Hv : (0 < IZR (Zpos ms) * b2 es)%R) by (apply Rmult_lt_0_compat; lra).
    destruct (Rle_or_lt (b2 (-1022)) (IZR (Zpos ms) * b2 es)) as [Hge | Hlt];
      [exact Hge | exfalso].
    assert (Hhalf : (b2 (-1022) <= / 2)%R).
    { apply Rle_trans with (b2 (-1)); [apply b2_le; lia | rewrite b2_m1; lra]. }
    pose proof (b2_pos (-1022)) as Hpos.
    assert (Hsmall : (IZR (Zpos ms) * b2 es * (IZR (Zpos ms) * b2 es)
                      < b2 (-1022) * b2 (-1022))%R)
      by (apply Rmult_le_0_lt_compat; lra).
    nra. }
  destruct (sqrt_error _ Hsn) as (Hvn & Hvs & Hsqrt).
  (* the quotient is normal *)
  destruct (normal_inv _ Hn) as (sn & mn & en & HN & Hdn).
  assert (Hratio : (/ 2 <= value n / value (sqrt n * sqrt n) <= 2)%R).
  { apply Rabs_bound in Hsqrt. apply Rabs_bound in Hmul.
    set (T := R_sqrt.sqrt (value n)) in *.
    assert (HT : (0 <= T)%R) by apply sqrt_pos.
    assert (HTT : (T * T = value n)%R) by (apply sqrt_sqrt; lra).
    set (V := value (sqrt n)) in *. set (P := value (sqrt n * sqrt n)) in *.
    assert (H1 : (V * (1 - u64) <= T <= V * (1 + u64))%R) by lra.
    assert (H2 : (P * (1 - u64) <= V * V <= P * (1 + u64))%R) by lra.
    assert (HVV : (0 < V * V)%R) by (apply Rmult_lt_0_compat; lra).
    assert (H5 : (V * V * ((1 - u64) * (1 - u64)) <= T * T)%R).
    { replace (V * V * ((1 - u64) * (1 - u64)))%R
        with ((V * (1 - u64)) * (V * (1 - u64)))%R by ring.
      apply Rmult_le_compat; try apply H1; apply Rmult_le_pos; lra. }
    assert (H4 : (T * T <= V * V * ((1 + u64) * (1 + u64)))%R).
    { replace (V * V * ((1 + u64) * (1 + u64)))%R
        with ((V * (1 + u64)) * (V * (1 + u64)))%R by ring.
      apply Rmult_le_compat; try apply H1; exact HT. }
    split.
    - apply Rmult_le_reg_r with P; [exact Hvp | ].
      replace (value n / P * P)%R with (value n) by (field; lra). nra.
    - apply Rmult_le_reg_r with P; [exact Hvp | ].
      replace (value n / P * P)%R with (value n) by (field; lra). nra. }
  assert (Hq : normal (n / (sqrt n * sqrt n)) = true).
  { apply (div_normal _ _ HN HP).
    rewrite Rabs_pos_eq by lra. split.
    - apply Rle_trans with (b2 (-1)); [apply b2_le; lia | rewrite b2_m1; lra].
    - apply Rle_lt_trans with (b2 1); [rewrite b2_1; lra | apply b2_lt; lia]. }
  split; [exact Hq | ].
  apply three_roundings with (value n) (R_sqrt.sqrt (value n)) (value (sqrt n))
                             (value (sqrt n * sqrt n)).
  - exact Hvn.
  - apply sqrt_pos.
  - apply sqrt_sqrt. lra.
  - exact Hvs.
  - exact Hvp.
  - exact Hsqrt.
  - exact Hmul.
  - exact (div_error _ _ Hq).
Qed.


(** *** Addition *)

Lemma shl_align_value (m : positive) (e e' : Z) :
  -1074 <= e -> -1074 <= e' ->
  (IZR (Zpos (fst (shl_align m e e'))) * b2 (snd (shl_align m e e'))
   = IZR (Zpos m) * b2 e)%R
  /\ -1074 <= snd (shl_align m e e').
Proof.
  intros He He'. unfold shl_align.
  destruct (e' - e) as [ | d | d] eqn:Ed; cbn [fst snd]; try (split; [reflexivity | exact He]).
  split; [ | exact He'].
  change (Pos.iter xO m d) with (shift_pos d m).
  rewrite shift_pos_correct, mult_IZR. change (Zpower_pos 2 d) with (2 ^ Zpos d).
  rewrite <- b2_IZR by lia.
  replace e with (Zpos d + e') by lia. rewrite b2_add. ring.
Qed.

(** The rounding of an integer multiple of a power of two not below the
    format: the result, when finite, is exact or normal. *)
Lemma binary_round_error (s : bool) (p : positive) (e : Z) (r : spec_float) :
  -1074 <= e ->
  binary_round prec emax s p e = r ->
  valid_binary r = true ->
  match r with S754_zero _ | S754_finite _ _ _ => True | _ => False end ->
  (Rabs (SF2R r - sign_of s * (IZR (Zpos p) * b2 e)) <= u64 * Rabs (SF2R r))%R.
Proof.
  intros He Hr Hvalid Hfin. unfold binary_round in Hr.
  destruct (@shl_align_value p e (fexp64 (Zpos (digits2_pos p) + e)) He)
    as [Hval Hmin]; [rewrite fexp64_eq; lia | ].
  destruct (shl_align p e (fexp64 (Zpos (digits2_pos p) + e))) as [mz ez].
  cbn [fst snd] in Hval, Hmin. rewrite <- Hval.
  pose proof (b2_pos ez) as Hezpos. pose proof (IZR_pos_ge_1 mz) as Hmz.
  destruct r as [s' | s' | | s' m' e']; try contradiction.
  - exfalso.
    pose proof (@binary_round_aux_zero s (Zpos mz) ez loc_Exact (IZR (Zpos mz)) s'
                  ltac:(lia) eq_refl Hr) as Hz.
    assert (b2 (-1074) <= b2 ez)%R by (apply b2_le; exact Hmin).
    pose proof (b2_pos (-1074)).
    assert (b2 ez <= IZR (Zpos mz) * b2 ez)%R.
    { rewrite <- (Rmult_1_l (b2 ez)) at 1. apply Rmult_le_compat_r; lra. }
    lra.
  - destruct (@binary_round_aux_finite s (Zpos mz) ez loc_Exact (IZR (Zpos mz)) s' m' e'
                ltac:(lia) eq_refl Hr) as (-> & He1 & Hnear & Hexact).
    cbn [SF2R]. rewrite Rmult_assoc, <- Rmult_minus_distr_l, !Rabs_sign_of.
    pose proof (b2_pos e') as He'pos. pose proof (IZR_pos_ge_1 m') as Hm'.
    rewrite (Rabs_pos_eq (IZR (Zpos m') * b2 e')) by (apply Rmult_le_pos; lra).
    pose proof u64_small as [Hu0 _].
    change (bounded prec emax m' e' = true) in Hvalid.
    destruct (bounded_inv _ _ Hvalid) as (Hemin & _ & Hnorm).
    change emin64 with (-1074) in *.
    destruct (Z.eq_dec e' (-1074)) as [E | NE].
    + (* at the lowest exponent nothing is rounded *)
      cbn [Zdigits2] in He1, Hexact. rewrite fexp64_eq in He1, Hexact.
      rewrite Hexact by (try reflexivity; lia).
      unfold Rminus. rewrite Rplus_opp_r, Rabs_R0.
      apply Rmult_le_pos; [lra | apply Rmult_le_pos; lra].
    + eapply Rle_trans; [exact Hnear | ].
      eapply Rle_trans; [ | apply normal_half_ulp; apply Hnorm; lia].
      apply Rmult_le_compat_l; [lra | apply b2_le; lia].
Qed.

Lemma IZR_cond_Zopp (s : bool) (z : Z) : IZR (cond_Zopp s z) = (sign_of s * IZR z)%R.
Proof. destruct s; cbn [cond_Zopp sign_of]; [rewrite opp_IZR | ]; ring. Qed.

(** The sum of two finite numbers, when it is finite, is exact or normal:
    its error is at most [u64] of the result. *)
Lemma add_error (x y : float) :
  finite x = true -> finite y = true -> finite (x + y) = true ->
  (Rabs (value (x + y) - (value x + value y)) <= u64 * Rabs (value (x + y)))%R.
Proof.
  unfold finite, value. intros Hx Hy Hxy.
  pose proof (Prim2SF_valid (x + y)) as Hvalid.
  pose proof (Prim2SF_valid x) as Hvx. pose proof (Prim2SF_valid y) as Hvy.
  rewrite FloatAxioms.add_spec in *.
  pose proof u64_small as [Hu0 _].
  assert (Hzero : forall r : R, (Rabs (r - r) <= u64 * Rabs r)%R).
  { intro r. unfold Rminus. rewrite Rplus_opp_r, Rabs_R0.
    apply Rmult_le_pos; [lra | apply Rabs_pos]. }
  destruct (Prim2SF x) as [sx | sx | | sx mx ex]; try discriminate Hx;
    destruct (Prim2SF y) as [sy | sy | | sy my ey]; try discriminate Hy.
  - unfold SF64add. cbn [SFadd].
    replace (SF2R (S754_zero sx) + SF2R (S754_zero sy))%R with 0%R by (cbn; lra).
    destruct sx, sy; cbn [SF2R]; exact (Hzero 0%R).
  - unfold SF64add. cbn [SFadd SF2R]. rewrite Rplus_0_l. apply Hzero.
  - unfold SF64add. cbn [SFadd SF2R]. rewrite Rplus_0_r. apply Hzero.
  - unfold SF64add in *. cbn [SFadd] in *. cbv zeta in *.
    change (bounded prec emax mx ex = true) in Hvx.
    change (bounded prec emax my ey = true) in Hvy.
    destruct (bounded_inv _ _ Hvx) as (Hex & _). destruct (bounded_inv _ _ Hvy) as (Hey & _).
    change emin64 with (-1074) in *.
    set (ez := Z.min ex ey) in *.
    assert (Hax : (IZR (Zpos (fst (shl_align mx ex ez))) * b2 ez = IZR (Zpos mx) * b2 ex)%R).
    { rewrite shl_align_fst by (unfold ez; lia). rewrite mult_IZR, <- b2_IZR by (unfold ez; lia).
      rewrite Rmult_assoc, <- b2_add. f_equal. f_equal. lia. }
    assert (Hay : (IZR (Zpos (fst (shl_align my ey ez))) * b2 ez = IZR (Zpos my) * b2 ey)%R).
    { rewrite shl_align_fst by (unfold ez; lia). rewrite mult_IZR, <- b2_IZR by (unfold ez; lia).
      rewrite Rmult_assoc, <- b2_add. f_equal. f_equal. lia. }
    set (S := cond_Zopp sx (Zpos (fst (shl_align mx ex ez)))
              + cond_Zopp sy (Zpos (fst (shl_align my ey ez)))) in *.
    assert (HS : (SF2R (S754_finite sx mx ex) + SF2R (S754_finite sy my ey)
                  = IZR S * b2 ez)%R).
    { unfold S. rewrite plus_IZR, !IZR_cond_Zopp. cbn [SF2R].
      rewrite Rmult_plus_distr_r, !Rmult_assoc, Hax, Hay. ring. }
    rewrite HS.
    assert (Hez : -1074 <= ez) by (unfold ez; lia).
    destruct S as [ | p | p]; cbn [binary_normalize] in *.
    + cbn [SF2R]. rewrite Rmult_0_l. exact (Hzero 0%R).
    + replace (IZR (Zpos p) * b2 ez)%R with (sign_of false * (IZR (Zpos p) * b2 ez))%R
        by (cbn [sign_of]; ring).
      apply binary_round_error with (1 := Hez) (2 := eq_refl) (3 := Hvalid).
      destruct (binary_round prec emax false p ez); try discriminate Hxy; exact I.
    + replace (IZR (Zneg p) * b2 ez)%R with (sign_of true * (IZR (Zpos p) * b2 ez))%R.
      2:{ cbn [sign_of]. change (Zneg p) with (- Zpos p). rewrite opp_IZR. ring. }
      apply binary_round_error with (1 := Hez) (2 := eq_refl) (3 := Hvalid).
      destruct (binary_round prec emax true p ez); try discriminate Hxy; exact I.
Qed.


Lemma normal_finite (x : float) : normal x = true -> finite x = true.
Proof.
  unfold normal, finite. destruct (Prim2SF x); try discriminate; reflexivity.
Qed.

(** A finite number that is not normal is below [2^-1022]. *)
Lemma not_normal_small (x : float) :
  finite x = true -> normal x = false -> (Rabs (value x) < b2 (-1022))%R.
Proof.
  intros Hf Hn. unfold finite in Hf. unfold value.
  destruct (Prim2SF x) as [s | s | | s m e] eqn:Hx; try discriminate Hf.
  - cbn [SF2R]. rewrite Rabs_R0. apply b2_pos.
  - cbn [SF2R]. rewrite Rmult_assoc, Rabs_sign_of.
    pose proof (b2_pos e). pose proof (IZR_pos_ge_1 m).
    rewrite Rabs_pos_eq by (apply Rmult_le_pos; lra).
    destruct (Rle_or_lt (b2 (-1022)) (IZR (Zpos m) * b2 e)) as [Hge | Hlt]; [ | exact Hlt].
    rewrite (normal_intro _ Hx Hge) in Hn. discriminate Hn.
Qed.

(** A product in range is finite, and its error is at most [u64] of it. *)
Lemma product_error (x y : float) :
  product_in_range x y = true ->
  finite (x * y) = true
  /\ (Rabs (value (x * y) - value x * value y) <= u64 * Rabs (value (x * y)))%R.
Proof.
  unfold product_in_range. intro H. apply orb_prop in H. destruct H as [H | H].
  - split; [apply normal_finite, H | apply mul_error, H].
  - apply andb_prop in H. destruct H as [H Hz]. apply andb_prop in H. destruct H as [Hx Hy].
    pose proof u64_small as [Hu0 _].
    unfold finite, zero_number, value in *. rewrite FloatAxioms.mul_spec.
    destruct (Prim2SF x) as [sx | sx | | sx mx ex]; try discriminate Hx;
      destruct (Prim2SF y) as [sy | sy | | sy my ey]; try discriminate Hy;
      try discriminate Hz;
      (split; [reflexivity | ]); cbn [SF64mul SFmul SF2R];
      rewrite ?Rmult_0_l, ?Rmult_0_r; unfold Rminus; rewrite Rplus_opp_r, Rabs_R0; lra.
Qed.

(** The quotient of two finite numbers other than zero is a rounding of the
    exact quotient. *)
Lemma div_rounds (x y : float) (sx sy : bool) (mx my : positive) (ex ey : Z) :
  Prim2SF x = S754_finite sx mx ex ->
  Prim2SF y = S754_finite sy my ey ->
  exists q e' l X,
    Prim2SF (x / y) = binary_round_aux prec emax (xorb sx sy) q e' l
    /\ 0 <= q /\ located X q l
    /\ (X * b2 e' = Rabs (value x / value y))%R.
Proof.
  intros Hx Hy.
  pose proof (b2_pos ex) as Hexpos. pose proof (IZR_pos_ge_1 mx) as Hmx.
  pose proof (b2_pos ey) as Heypos. pose proof (IZR_pos_ge_1 my) as Hmy.
  assert (Hvx : (0 < IZR (Zpos mx) * b2 ex)%R) by (apply Rmult_lt_0_compat; lra).
  assert (Hvy : (0 < IZR (Zpos my) * b2 ey)%R) by (apply Rmult_lt_0_compat; lra).
  destruct (SFdiv_core_spec mx my ex ey) as (q & e' & l & Hcore & Hq & (X & Hloc & Hval) & _).
  exists q, e', l, X.
  split.
  { rewrite FloatAxioms.div_spec, Hx, Hy. unfold SF64div. cbn [SFdiv].
    rewrite Hcore. reflexivity. }
  split; [exact Hq | ]. split; [exact Hloc | ].
  rewrite Hval. unfold value. rewrite Hx, Hy. cbn [SF2R].
  replace (sign_of sx * IZR (Zpos mx) * b2 ex / (sign_of sy * IZR (Zpos my) * b2 ey))%R
    with (sign_of sx * (sign_of sy * (IZR (Zpos mx) * b2 ex / (IZR (Zpos my) * b2 ey))))%R
    by (destruct sx, sy; cbn [sign_of]; field; split; lra).
  rewrite !Rabs_sign_of. symmetry. apply Rabs_pos_eq.
  left. apply Rdiv_lt_0_compat; assumption.
Qed.

(** A quotient whose exact value is at most [B] in magnitude, with room
    for one rounding, is finite and at most [B]. *)
Lemma div_bounded (x y : float) (B : R) :
  finite x = true -> normal y = true ->
  (b2 (-1022) <= B < b2 971)%R ->
  (Rabs (value x) <= B * (1 - u64) * Rabs (value y))%R ->
  finite (x / y) = true /\ (Rabs (value (x / y)) <= B)%R.
Proof.
  intros Hx Hy [HB1 HB2] Hle.
  pose proof u64_small as [Hu0 Hu1].
  pose proof (normal_value _ Hy) as [Hylo _].
  pose proof (b2_pos (-1022)) as Hpos.
  destruct (normal_inv _ Hy) as (sy & my & ey & HY & _).
  unfold finite in Hx.
  destruct (Prim2SF x) as [sx | sx | | sx mx ex] eqn:HX; try discriminate Hx.
  - assert (Hr : Prim2SF (x / y) = S754_zero (xorb sx sy)).
    { rewrite FloatAxioms.div_spec, HX, HY. reflexivity. }
    unfold finite, value. rewrite Hr. cbn [SF2R]. rewrite Rabs_R0. split; [reflexivity | lra].
  - destruct (div_rounds _ _ HX HY) as (q & e' & l & X & Hr & Hq & Hloc & Hval).
    assert (Hquot : (Rabs (value x / value y) <= B * (1 - u64))%R).
    { unfold Rdiv. rewrite Rabs_mult, Rabs_inv.
      apply Rmult_le_reg_r with (Rabs (value y)); [lra | ].
      rewrite Rmult_assoc, Rinv_l by lra. lra. }
    assert (Hfin : finite (x / y) = true).
    { unfold finite. rewrite Hr.
      destruct (binary_round_aux prec emax (xorb sx sy) q e' l) as [s' | s' | | s' m' e''] eqn:Hres;
        try reflexivity; exfalso.
      - pose proof (@binary_round_aux_infinity _ _ _ _ _ _ Hq Hloc Hres) as Hinf.
        rewrite Hval in Hinf. nra.
      - exact (@binary_round_aux_not_nan _ _ _ _ _ Hq Hloc Hres). }
    split; [exact Hfin | ].
    destruct (normal (x / y)) eqn:Hn.
    + pose proof (div_error _ _ Hn) as Herr.
      assert (Htri : (Rabs (value (x / y))
                      <= Rabs (value (x / y) - value x / value y)
                         + Rabs (value x / value y))%R).
      { replace (value (x / y))
          with ((value (x / y) - value x / value y) + value x / value y)%R at 1 by ring.
        apply Rabs_triang. }
      pose proof (Rabs_pos (value (x / y))). nra.
    + pose proof (not_normal_small _ Hfin Hn). lra.
Qed.

(** *** Results that are normal by the size of the exact value *)

Lemma Zdigits2_mul (a b : Z) :
  0 < a -> 0 < b -> Zdigits2 a + Zdigits2 b - 1 <= Zdigits2 (a * b).
Proof.
  intros Ha Hb.
  destruct (Zdigits2_bounds Ha) as (Ha1 & Halo & _).
  destruct (Zdigits2_bounds Hb) as (Hb1 & Hblo & _).
  destruct (@Zdigits2_bounds (a * b) ltac:(nia)) as (_ & _ & Hhi).
  assert (Hp : 2 ^ (Zdigits2 a - 1) * 2 ^ (Zdigits2 b - 1) <= a * b).
  { apply Z.mul_le_mono_nonneg; try assumption; apply Z.pow_nonneg; lia. }
  rewrite <- Z.pow_add_r in Hp by lia.
  assert (Hlt : 2 ^ (Zdigits2 a - 1 + (Zdigits2 b - 1)) < 2 ^ Zdigits2 (a * b)) by lia.
  apply Z.pow_lt_mono_r_iff in Hlt; [lia | lia | apply Zdigits2_nonneg].
Qed.

(** A mantissa of at least 53 digits whose value lies between [2^-1021]
    and [2^1023] rounds to a finite number that is at least half the
    value. *)
Lemma binary_round_aux_long (s : bool) (m e : Z) (l : location) (X : R) :
  0 < m -> 53 <= Zdigits2 m -> located X m l ->
  (b2 (-1021) <= X * b2 e < b2 1023)%R ->
  exists m' e',
    binary_round_aux prec emax s m e l = S754_finite s m' e'
    /\ (/ 2 * (X * b2 e) <= IZR (Zpos m') * b2 e')%R.
Proof.
  intros Hm Hd Hloc [Hlo Hhi].
  assert (Hmin : (b2 (-1074) < b2 (-1021))%R) by (apply b2_lt; lia).
  destruct (@binary_round_aux_spec s m e l X ltac:(lia) Hloc)
    as (m3 & e3 & Hm3 & He3 & Hnear & _ & Hform).
  set (e1 := Z.max e (fexp64 (Zdigits2 m + e))) in *.
  assert (HX : (IZR m <= X)%R).
  { destruct l as [ | [ | | ]]; cbn [located] in Hloc; lra. }
  destruct (Zdigits2_bounds Hm) as [Hd1 [Hmlo Hmhi]].
  assert (Hm2 : (b2 (Zdigits2 m - 1) <= IZR m)%R).
  { rewrite b2_IZR by lia. apply IZR_le. exact Hmlo. }
  pose proof (b2_pos e) as Hepos.
  assert (Hx : (b2 (Zdigits2 m - 1 + e) <= X * b2 e)%R).
  { rewrite b2_add. apply Rmult_le_compat_r; lra. }
  (* the exponent of the rounding *)
  assert (He1 : e1 <= 970).
  { assert (Hlt : (b2 (Zdigits2 m - 1 + e) < b2 1023)%R) by lra.
    apply b2_lt_inv in Hlt. unfold e1. rewrite fexp64_eq. lia. }
  destruct (@first_exponent_bound m e l X Hm Hloc) as [Hb | Hb]; fold e1 in Hb.
  - apply Rabs_bound in Hnear.
    destruct m3 as [ | p | p]; [ | | lia].
    + pose proof (b2_pos e1). rewrite Rmult_0_l in Hnear.
      assert (0 < X * b2 e)%R by (pose proof (b2_pos (-1021)); lra). lra.
    + rewrite Hform.
      replace (e3 <=? emax - prec) with true
        by (symmetry; apply Z.leb_le; change (emax - prec) with 971; lia).
      exists p, e3. split; [reflexivity | lra].
  - exfalso. unfold e1 in Hb. rewrite fexp64_eq in Hb.
    assert (Hlt : (b2 (Zdigits2 m - 1 + e) <= b2 (-1074 + 52))%R) by (apply b2_le; lia).
    assert (Hc : (b2 (-1021) <= X * b2 e)%R) by exact Hlo.
    (* the value is below 2^-1021 when the exponent is the lowest one *)
    destruct (Zdigits2_bounds Hm) as [_ [_ Hhi2]].
    assert (HXhi : (X < IZR m + 1)%R).
    { destruct l as [ | [ | | ]]; cbn [located] in Hloc; lra. }
    assert (Hm3' : (IZR m + 1 <= b2 (Zdigits2 m))%R).
    { rewrite b2_IZR by lia. rewrite <- plus_IZR. apply IZR_le. lia. }
    assert (Hup : (X * b2 e < b2 (Zdigits2 m + e))%R).
    { rewrite b2_add. apply Rmult_lt_compat_r; lra. }
    assert (Hle : (b2 (Zdigits2 m + e) <= b2 (-1021))%R) by (apply b2_le; lia).
    lra.
Qed.

(** The product of two normal numbers whose exact value lies between
    [2^-1021] and [2^1023] is a normal number. *)
Lemma mul_normal (x y : float) :
  normal x = true -> normal y = true ->
  (b2 (-1021) <= Rabs (value x * value y) < b2 1023)%R ->
  normal (x * y) = true.
Proof.
  intros Hx Hy Hrange.
  destruct (normal_inv _ Hx) as (sx & mx & ex & HX & Hdx).
  destruct (normal_inv _ Hy) as (sy & my & ey & HY & Hdy).
  assert (Hval : (Rabs (value x * value y) = IZR (Zpos (mx * my)) * b2 (ex + ey))%R).
  { unfold value. rewrite HX, HY. cbn [SF2R].
    replace (sign_of sx * IZR (Zpos mx) * b2 ex * (sign_of sy * IZR (Zpos my) * b2 ey))%R
      with (sign_of sx * (sign_of sy * (IZR (Zpos (mx * my)) * b2 (ex + ey))))%R
      by (rewrite Pos2Z.inj_mul, mult_IZR, b2_add; ring).
    rewrite !Rabs_sign_of. apply Rabs_pos_eq.
    apply Rmult_le_pos; [apply IZR_le; lia | left; apply b2_pos]. }
  rewrite Hval in Hrange.
  assert (Hd : 53 <= Zdigits2 (Zpos (mx * my))).
  { rewrite Pos2Z.inj_mul.
    pose proof (@Zdigits2_mul (Zpos mx) (Zpos my) ltac:(lia) ltac:(lia)) as H.
    change (Zdigits2 (Zpos mx)) with (Zpos (digits2_pos mx)) in H.
    change (Zdigits2 (Zpos my)) with (Zpos (digits2_pos my)) in H.
    change prec with 53 in *. lia. }
  destruct (@binary_round_aux_long (xorb sx sy) (Zpos (mx * my)) (ex + ey) loc_Exact
              (IZR (Zpos (mx * my))) ltac:(lia) Hd eq_refl Hrange)
    as (m' & e' & Hres & Hhalf).
  assert (Hr : Prim2SF (x * y) = S754_finite (xorb sx sy) m' e').
  { rewrite FloatAxioms.mul_spec, HX, HY. exact Hres. }
  apply (normal_intro _ Hr).
  apply Rle_trans with (2 := Hhalf).
  replace (-1022) with (-1021 - 1) by lia. rewrite b2_pred.
  apply Rmult_le_compat_l; lra.
Qed.

Lemma sqrt_b2 (k : Z) : R_sqrt.sqrt (b2 (2 * k)) = b2 k.
Proof.
  replace (2 * k) with (k + k) by lia. rewrite b2_add.
  apply sqrt_square. left. apply b2_pos.
Qed.

(** The square root of a positive normal number is a normal number. *)
Lemma sqrt_normal (x : float) :
  normal x = true -> (0 < value x)%R -> normal (sqrt x) = true.
Proof.
  intros Hx Hpos.
  pose proof (normal_value _ Hx) as [Hlo Hhi].
  rewrite (Rabs_pos_eq (value x)) in Hlo, Hhi by lra.
  destruct (normal_inv _ Hx) as (sx & mx & ex & HX & Hdx).
  assert (Hs : sx = false).
  { destruct sx; [exfalso | reflexivity]. unfold value in Hpos. rewrite HX in Hpos.
    cbn [SF2R sign_of] in Hpos.
    pose proof (b2_pos ex). pose proof (IZR_pos_ge_1 mx). nra. }
  subst sx.
  assert (Hv : value x = (IZR (Zpos mx) * b2 ex)%R).
  { unfold value. rewrite HX. cbn [SF2R sign_of]. ring. }
  destruct (SFsqrt_core_spec mx ex) as (q & e' & l & Hcore & Hq & Hloc & Hval).
  rewrite <- Hv in Hval.
  assert (Hrange : (b2 (-1021) <= R_sqrt.sqrt (IZR (Zpos mx) * b2 (ex - 2 * e')) * b2 e'
                    < b2 971)%R).
  { rewrite <- Hval. split.
    - apply Rle_trans with (b2 (-511)); [apply b2_le; lia | ].
      rewrite <- (sqrt_b2 (-511)). apply sqrt_le_1_alt. exact Hlo.
    - apply Rle_lt_trans with (b2 512); [ | apply b2_lt; lia].
      rewrite <- (sqrt_b2 512). apply sqrt_le_1_alt. left. exact Hhi. }
  destruct (@binary_round_aux_in_range false q e' l _ Hq Hloc Hrange)
    as (m' & e'' & Hres & Hhalf).
  assert (Hr : Prim2SF (sqrt x) = S754_finite false m' e'').
  { rewrite FloatAxioms.sqrt_spec, HX. unfold SF64sqrt. cbn [SFsqrt].
    rewrite Hcore. exact Hres. }
  apply (normal_intro _ Hr).
  apply Rle_trans with (2 := Hhalf).
  replace (-1022) with (-1021 - 1) by lia. rewrite b2_pred.
  apply Rmult_le_compat_l; lra.
Qed.

(** A sum of squares between [2^-1020] and [2^1022] is a normal number,
    and so is the product of its two square roots. *)
Lemma self_similarity_in_range (n : float) :
  (b2 (-1020) <= value n <= b2 1022)%R ->
  normal n = true /\ normal (sqrt n * sqrt n) = true.
Proof.
  intros [Hlo Hhi]. pose proof u64_small as [Hu0 Hu1].
  pose proof (b2_pos (-1020)) as Hpos.
  assert (Hn : normal n = true).
  { unfold value in Hlo. destruct (Prim2SF n) as [s | s | | s m e] eqn:HN;
      cbn [SF2R] in Hlo; try lra.
    apply (normal_intro _ HN).
    assert (s = false).
    { destruct s; [exfalso | reflexivity]. cbn [sign_of] in Hlo.
      pose proof (b2_pos e). pose proof (IZR_pos_ge_1 m). nra. }
    subst s. cbn [sign_of] in Hlo.
    apply Rle_trans with (b2 (-1020)); [apply b2_le; lia | lra]. }
  split; [exact Hn | ].
  assert (Hs : normal (sqrt n) = true) by (apply sqrt_normal; [exact Hn | lra]).
  destruct (sqrt_error _ Hs) as (_ & Hvs & Herr).
  apply (@mul_normal _ _ Hs Hs).
  apply Rabs_bound in Herr.
  set (V := value (sqrt n)) in *. set (T := R_sqrt.sqrt (value n)) in *.
  assert (HT : (0 <= T)%R) by apply sqrt_pos.
  assert (HTT : (T * T = value n)%R) by (apply sqrt_sqrt; lra).
  rewrite Rabs_pos_eq by (apply Rmult_le_pos; lra).
  assert (E1 : (b2 (-1020) = 2 * b2 (-1021))%R)
    by (replace (-1020) with (-1021 + 1) by lia; apply b2_succ).
  assert (E2 : (b2 1023 = 2 * b2 1022)%R)
    by (replace 1023 with (1022 + 1) by lia; apply b2_succ).
  pose proof (b2_pos (-1021)). pose proof (b2_pos 1022).
  assert (H1 : (V * (1 - u64) <= T <= V * (1 + u64))%R) by lra.
  assert (H2 : (T * T <= (V * (1 + u64)) * (V * (1 + u64)))%R)
    by (apply Rmult_le_compat; lra).
  assert (H3 : ((V * (1 - u64)) * (V * (1 - u64)) <= T * T)%R)
    by (apply Rmult_le_compat; try lra; apply Rmult_le_pos; lra).
  split; nra.
Qed.

End RoundingFacts.

(** ** cosineSimilarity *)

Section CosineFacts.
Variable N : Type.
Variable ops : arithmetic N.

(** The loop over the indices of [a], started at index [k] on the
    remaining elements. *)
Lemma cos_loop_from (pa pb a b : list N) (acc : cos_acc N) :
  length pa = length pb -> length a = length b ->
  fold_left (cos_step ops (pa ++ a) (pb ++ b)) (seq (length pa) (length a)) acc
  = mk_cos_acc
      (fold_left (fun s p => num_add ops s (num_mul ops (fst p) (snd p)))
                 (combine a b) (dotProduct acc))
      (fold_left (fun s p => num_add ops s (num_mul ops (fst p) (snd p)))
                 (combine a a) (normA acc))
      (fold_left (fun s p => num_add ops s (num_mul ops (fst p) (snd p)))
                 (combine b b) (normB acc)).
Proof.
  revert pa pb b acc.
  induction a as [ | x a IH]; intros pa pb b acc Hp Hl.
  - destruct b; [ | discriminate]. destruct acc; reflexivity.
  - destruct b as [ | y b]; [discriminate | ].
    cbn [length seq fold_left combine].
    replace (S (length pa)) with (length (pa ++ [x])) by (rewrite length_app; cbn; lia).
    replace (pa ++ x :: a) with ((pa ++ [x]) ++ a) by (rewrite <- app_assoc; reflexivity).
    replace (pb ++ y :: b) with ((pb ++ [y]) ++ b) by (rewrite <- app_assoc; reflexivity).
    rewrite IH.
    + unfold cos_step at 1 2 3, js_get. cbn [dotProduct normA normB fst snd].
      rewrite <- !app_assoc. cbn [app].
      rewrite (nth_middle pa a x), Hp, (nth_middle pb b y). reflexivity.
    + rewrite !length_app. cbn. lia.
    + cbn in Hl. lia.
Qed.

(** For vectors of equal length the three accumulators end as the dot
    product and the two sums of squares. *)
Lemma cos_loop_dot (a b : list N) :
  length a = length b ->
  cos_loop ops a b = mk_cos_acc (dot ops a b) (dot ops a a) (dot ops b b).
Proof.
  intro Hl. unfold cos_loop, dot.
  exact (@cos_loop_from [] [] a b (cos_init ops) eq_refl Hl).
Qed.

Lemma cosine_formula (a b : list N) :
  length a = length b ->
  cosine ops a b
  = num_div ops (dot ops a b)
      (num_mul ops (num_sqrt ops (dot ops a a)) (num_sqrt ops (dot ops b b))).
Proof.
  intro Hl. unfold cosine. rewrite cos_loop_dot by exact Hl. reflexivity.
Qed.

End CosineFacts.

Section CosineBinary64.
Import FloatFacts.
Open Scope float_scope.

(** The dot product in binary64. *)
Abbreviation dot64 := (dot binary64).

Lemma dot64_fold_comm (a b : list float) (s : float) :
  fold_left (fun s p => s + fst p * snd p) (combine a b) s
  = fold_left (fun s p => s + fst p * snd p) (combine b a) s.
Proof.
  revert b s. induction a as [ | x a IH]; intros [ | y b] s; try reflexivity.
  cbn [combine fold_left fst snd]. rewrite (mul_comm x y). apply IH.
Qed.

Lemma dot64_comm (a b : list float) : dot64 a b = dot64 b a.
Proof. apply dot64_fold_comm. Qed.

Lemma cosineSimilarity_comm (a b : list float) :
  length a = length b -> cosineSimilarity a b = cosineSimilarity b a.
Proof.
  intro Hl. unfold cosineSimilarity.
  rewrite (cosine_formula binary64 a b) by exact Hl.
  rewrite (cosine_formula binary64 b a) by (symmetry; exact Hl).
  cbn [num_div num_mul num_sqrt binary64].
  rewrite (dot64_comm a b).
  rewrite (mul_comm (sqrt (dot64 a a)) (sqrt (dot64 b b))). reflexivity.
Qed.

Lemma zero_vector_get (v : list float) (i : nat) :
  zero_vector v -> zero_or_nan (js_get binary64 v i).
Proof.
  intro Hv. unfold js_get. cbn [num_undefined binary64].
  destruct (nth_in_or_default i v nan) as [Hin | ->].
  - apply zero_is_zn. exact (proj1 (Forall_forall _ v) Hv _ Hin).
  - exact nan_is_zn.
Qed.

(** With a zero first vector the dot product and the first sum of squares
    stay zero or NaN through the loop. *)
Lemma cos_loop_zero_a (a b : list float) (idx : list nat) (acc : cos_acc float) :
  zero_vector a ->
  zero_or_nan (dotProduct acc) -> zero_or_nan (normA acc) ->
  zero_or_nan (dotProduct (fold_left (cos_step binary64 a b) idx acc))
  /\ zero_or_nan (normA (fold_left (cos_step binary64 a b) idx acc)).
Proof.
  intro Ha. revert acc. induction idx as [ | i idx IH]; intros acc Hd Hn.
  - split; assumption.
  - cbn [fold_left]. apply IH; unfold cos_step; cbn [dotProduct normA num_add num_mul binary64].
    + apply add_zn; [exact Hd | apply mul_zn_l, zero_vector_get, Ha].
    + apply add_zn; [exact Hn | apply mul_zn_l, zero_vector_get, Ha].
Qed.

Lemma cos_loop_zero_b (a b : list float) (idx : list nat) (acc : cos_acc float) :
  zero_vector b ->
  zero_or_nan (dotProduct acc) -> zero_or_nan (normB acc) ->
  zero_or_nan (dotProduct (fold_left (cos_step binary64 a b) idx acc))
  /\ zero_or_nan (normB (fold_left (cos_step binary64 a b) idx acc)).
Proof.
  intro Hb. revert acc. induction idx as [ | i idx IH]; intros acc Hd Hn.
  - split; assumption.
  - cbn [fold_left]. apply IH; unfold cos_step; cbn [dotProduct normB num_add num_mul binary64].
    + apply add_zn; [exact Hd | apply mul_zn_r, zero_vector_get, Hb].
    + apply add_zn; [exact Hn | apply mul_zn_l, zero_vector_get, Hb].
Qed.

Lemma cosineSimilarity_zero_nan (a b : list float) :
  zero_vector a \/ zero_vector b -> cosineSimilarity a b = nan.
Proof.
  intros [Ha | Hb]; unfold cosineSimilarity, cosine, cos_loop;
    cbn [num_div num_mul num_sqrt binary64].
  - destruct (@cos_loop_zero_a a b (seq 0 (length a)) (cos_init binary64) Ha
                zero_is_zn0 zero_is_zn0) as [Hd Hn].
    apply div_zn; [exact Hd | apply mul_zn_l, sqrt_zn, Hn].
  - destruct (@cos_loop_zero_b a b (seq 0 (length a)) (cos_init binary64) Hb
                zero_is_zn0 zero_is_zn0) as [Hd Hn].
    apply div_zn; [exact Hd | apply mul_zn_r, sqrt_zn, Hn].
Qed.

(** The self-similarity is computed from the sum of squares alone; a sum
    that has overflowed to Infinity or is zero gives NaN. *)
Lemma cosineSimilarity_self (a : list float) :
  cosineSimilarity a a = dot64 a a / (sqrt (dot64 a a) * sqrt (dot64 a a)).
Proof.
  unfold cosineSimilarity. rewrite (cosine_formula binary64 a a) by reflexivity.
  reflexivity.
Qed.

Lemma self_similarity_degenerate (n : float) :
  n = infinity \/ (n =? 0) = true -> n / (sqrt n * sqrt n) = nan.
Proof.
  intros [-> | Hz].
  - reflexivity.
  - apply zero_is_zn in Hz. apply div_zn; [exact Hz | apply mul_zn_l, sqrt_zn, Hz].
Qed.

End CosineBinary64.

Section CosineExact.
Open Scope R_scope.

Lemma dot_exact_fold_nonneg (a : list R) (s : R) :
  0 <= s ->
  0 <= fold_left (fun s p => s + fst p * snd p) (combine a a) s.
Proof.
  revert s. induction a as [ | x a IH]; intros s Hs; cbn [combine fold_left fst snd].
  - exact Hs.
  - apply IH. cbn. apply Rplus_le_le_0_compat; [exact Hs | apply Rle_0_sqr].
Qed.

Lemma dot_exact_nonneg (a : list R) : 0 <= dot exact a a.
Proof. apply dot_exact_fold_nonneg. apply Rle_refl. Qed.

(** In exact arithmetic the similarity of a vector of nonzero norm with
    itself is one. *)
Lemma cosine_exact_self (a : list R) :
  dot exact a a <> 0 -> cosine exact a a = 1.
Proof.
  intro Hn. rewrite (cosine_formula exact a a) by reflexivity.
  cbn [num_div num_mul num_sqrt exact].
  rewrite sqrt_sqrt by apply dot_exact_nonneg.
  unfold Rdiv. apply Rinv_r. exact Hn.
Qed.

(** The sum behind [dot exact]. *)
Lemma dot_exact_fold (l : list (R * R)) (s : R) :
  fold_left (fun s p => s + fst p * snd p) l s
  = s + fold_left (fun s p => s + fst p * snd p) l 0.
Proof.
  revert s. induction l as [ | p l IH]; intro s; cbn [fold_left].
  - lra.
  - rewrite IH. rewrite (IH (0 + fst p * snd p)). lra.
Qed.

Lemma dot_exact_cons (x y : R) (a b : list R) :
  dot exact (x :: a) (y :: b) = x * y + dot exact a b.
Proof.
  unfold dot. cbn [combine fold_left fst snd num_add num_mul num_zero exact].
  rewrite dot_exact_fold. lra.
Qed.

Lemma square_le (p q : R) : 0 <= p -> q * q <= p * p -> q <= p.
Proof.
  intros Hp Hq. destruct (Rle_or_lt q p) as [H | H]; [exact H | ].
  exfalso. assert (0 < (q - p) * (q + p)) by (apply Rmult_lt_0_compat; lra).
  lra.
Qed.

(** The inequality of Cauchy and Schwarz. *)
Lemma dot_exact_cauchy_schwarz (a b : list R) :
  length a = length b ->
  dot exact a b * dot exact a b <= dot exact a a * dot exact b b.
Proof.
  revert b. induction a as [ | x a IH]; intros [ | y b] Hl; try discriminate.
  - unfold dot. cbn. lra.
  - rewrite !dot_exact_cons.
    assert (Hab : length a = length b) by (cbn in Hl; lia).
    specialize (IH b Hab).
    pose proof (dot_exact_nonneg a) as HA. pose proof (dot_exact_nonneg b) as HB.
    set (D := dot exact a b) in *. set (A := dot exact a a) in *.
    set (B := dot exact b b) in *.
    assert (Hcross : 2 * (x * y * D) <= x * x * B + y * y * A).
    { apply square_le.
      - assert (0 <= x * x * B) by (apply Rmult_le_pos; [apply Rle_0_sqr | exact HB]).
        assert (0 <= y * y * A) by (apply Rmult_le_pos; [apply Rle_0_sqr | exact HA]).
        lra.
      - assert (H1 : 0 <= (x * x * B - y * y * A) * (x * x * B - y * y * A))
          by apply Rle_0_sqr.
        assert (H2 : 0 <= (x * y) * (x * y) * (A * B - D * D)).
        { apply Rmult_le_pos; [apply Rle_0_sqr | lra]. }
        lra. }
    lra.
Qed.

(** In exact arithmetic the similarity of two vectors of nonzero norm lies
    between -1 and 1. *)
Lemma cosine_exact_range (a b : list R) :
  length a = length b ->
  dot exact a a <> 0 -> dot exact b b <> 0 ->
  -1 <= cosine exact a b <= 1.
Proof.
  intros Hl Ha Hb. rewrite (cosine_formula exact a b) by exact Hl.
  cbn [num_div num_mul num_sqrt exact].
  pose proof (dot_exact_cauchy_schwarz a b Hl) as Hcs.
  pose proof (dot_exact_nonneg a) as HA. pose proof (dot_exact_nonneg b) as HB.
  set (D := dot exact a b) in *. set (A := dot exact a a) in *.
  set (B := dot exact b b) in *.
  assert (HsA : 0 < R_sqrt.sqrt A) by (apply sqrt_lt_R0; lra).
  assert (HsB : 0 < R_sqrt.sqrt B) by (apply sqrt_lt_R0; lra).
  set (n := R_sqrt.sqrt A * R_sqrt.sqrt B).
  assert (Hn : 0 < n) by (apply Rmult_lt_0_compat; assumption).
  assert (Hnn : n * n = A * B).
  { unfold n.
    replace (R_sqrt.sqrt A * R_sqrt.sqrt B * (R_sqrt.sqrt A * R_sqrt.sqrt B))
      with ((R_sqrt.sqrt A * R_sqrt.sqrt A) * (R_sqrt.sqrt B * R_sqrt.sqrt B)) by ring.
    rewrite !sqrt_sqrt by assumption. reflexivity. }
  assert (Hup : D <= n) by (apply square_le; lra).
  assert (Hlo : - D <= n) by (apply square_le; lra).
  unfold Rdiv. split.
  - apply Rmult_le_reg_r with n; [exact Hn | ].
    rewrite Rmult_assoc, Rinv_l by lra. lra.
  - apply Rmult_le_reg_r with n; [exact Hn | ].
    rewrite Rmult_assoc, Rinv_l by lra. lra.
Qed.

End CosineExact.

(** ** The rounding of [cosineSimilarity] *)

Section CosineRounding.
Import FloatFacts RoundingFacts.
Open Scope R_scope.

(** The accumulation of the loop over the pairs of components. *)
Abbreviation fold64 :=
  (fold_left (fun (s : float) (p : float * float) => (s + fst p * snd p)%float)).

Lemma dot64_fold (a b : list float) : dot binary64 a b = fold64 (combine a b) 0%float.
Proof. reflexivity. Qed.

Lemma pow_um_pos (k : nat) : 0 < (1 - u64) ^ k <= 1.
Proof.
  pose proof u64_small as [H0 H1].
  induction k as [ | k [IH1 IH2]]; cbn [pow]; [lra | ]. split; nra.
Qed.

Lemma pow_up_ge (k : nat) : 1 <= (1 + u64) ^ k.
Proof.
  pose proof u64_small as [H0 H1].
  induction k as [ | k IH]; cbn [pow]; [lra | nra].
Qed.

Lemma abs_products_nonneg (l : list (float * float)) : 0 <= abs_products l.
Proof.
  induction l as [ | p l IH]; cbn [abs_products]; [lra | ].
  pose proof (Rabs_pos (value (fst p) * value (snd p))). lra.
Qed.

Lemma squares_nonneg (a : list float) : 0 <= squares a.
Proof.
  induction a as [ | x a IH]; cbn [squares]; [lra | ].
  pose proof (Rle_0_sqr (value x)) as H. unfold Rsqr in H. lra.
Qed.

(** The computed sum of products is at most the sum of the magnitudes of
    the exact products, up to two roundings per term. *)
Lemma sum_upper (l : list (float * float)) :
  forall acc : float,
    finite acc = true -> sum_in_range l acc = true ->
    finite (fold64 l acc) = true
    /\ (1 - u64) ^ (2 * length l) * Rabs (value (fold64 l acc))
       <= Rabs (value acc) + abs_products l.
Proof.
  pose proof u64_small as [Hu0 Hu1].
  induction l as [ | p l IH]; intros acc Hacc Hrange.
  - cbn [fold_left abs_products]. change (2 * length (@nil (float * float)))%nat with 0%nat.
    cbn [pow]. split; [exact Hacc | lra].
  - cbn [sum_in_range] in Hrange.
    apply andb_prop in Hrange. destruct Hrange as [Hrange Hrest].
    apply andb_prop in Hrange. destruct Hrange as [Hprod Hsum].
    destruct (product_error _ _ Hprod) as [Hpf Hperr].
    pose proof (add_error _ _ Hacc Hpf Hsum) as Haerr.
    destruct (IH _ Hsum Hrest) as [Hfin Hbound].
    cbn [fold_left]. split; [exact Hfin | ].
    cbn [length abs_products].
    replace (2 * S (length l))%nat with (S (S (2 * length l))) by lia.
    cbn [pow].
    set (t := value (fst p * snd p)%float) in *.
    set (xy := (value (fst p) * value (snd p))%R) in *.
    set (s' := value (acc + fst p * snd p)%float) in *.
    set (F := Rabs (value (fold64 l (acc + fst p * snd p)%float))) in *.
    set (c := (1 - u64) ^ (2 * length l)) in *.
    pose proof (pow_um_pos (2 * length l)) as [Hc0 Hc1]. fold c in Hc0, Hc1.
    pose proof (abs_products_nonneg l) as HT.
    assert (HF : 0 <= F) by apply Rabs_pos.
    (* one rounding of the product, one of the sum *)
    assert (Ea : (1 - u64) * Rabs t <= Rabs xy).
    { assert (Rabs t <= Rabs (t - xy) + Rabs xy).
      { replace t with ((t - xy) + xy) at 1 by ring. apply Rabs_triang. }
      lra. }
    assert (Eb : (1 - u64) * Rabs s' <= Rabs (value acc) + Rabs t).
    { assert (Rabs s' <= Rabs (s' - (value acc + t)) + Rabs (value acc + t)).
      { replace s' with ((s' - (value acc + t)) + (value acc + t)) at 1 by ring.
        apply Rabs_triang. }
      pose proof (Rabs_triang (value acc) t). lra. }
    pose proof (Rabs_pos s'). pose proof (Rabs_pos t). pose proof (Rabs_pos (value acc)).
    pose proof (Rabs_pos xy).
    assert (Ec : (1 - u64) * ((1 - u64) * Rabs s') <= Rabs (value acc) + Rabs xy) by nra.
    assert (Ed : c * F <= Rabs s' + abs_products l) by exact Hbound.
    assert (Ee : (1 - u64) * ((1 - u64) * (c * F))
                 <= (1 - u64) * ((1 - u64) * Rabs s') + abs_products l).
    { assert (0 <= (1 - u64) * (1 - u64) <= 1) by nra.
      assert ((1 - u64) * (1 - u64) * (c * F)
              <= (1 - u64) * (1 - u64) * (Rabs s' + abs_products l))
        by (apply Rmult_le_compat_l; lra).
      nra. }
    replace ((1 - u64) * ((1 - u64) * c) * F) with ((1 - u64) * ((1 - u64) * (c * F))) by ring.
    lra.
Qed.


(** The computed sum of squares is at least the exact one, up to two
    roundings per term. *)
Lemma sum_lower (a : list float) :
  forall acc : float,
    finite acc = true -> 0 <= value acc -> sum_in_range (combine a a) acc = true ->
    0 <= value (fold64 (combine a a) acc)
    /\ value acc + squares a
       <= (1 + u64) ^ (2 * length a) * value (fold64 (combine a a) acc).
Proof.
  pose proof u64_small as [Hu0 Hu1].
  induction a as [ | x a IH]; intros acc Hacc Hpos Hrange.
  - cbn [combine fold_left squares]. change (2 * length (@nil float))%nat with 0%nat.
    cbn [pow]. split; lra.
  - cbn [combine sum_in_range fst snd] in Hrange.
    apply andb_prop in Hrange. destruct Hrange as [Hrange Hrest].
    apply andb_prop in Hrange. destruct Hrange as [Hprod Hsum].
    destruct (product_error _ _ Hprod) as [Hpf Hperr].
    pose proof (add_error _ _ Hacc Hpf Hsum) as Haerr.
    set (t := value (x * x)%float) in *.
    set (s' := value (acc + x * x)%float) in *.
    pose proof (Rle_0_sqr (value x)) as Hsq. unfold Rsqr in Hsq.
    assert (Ht : 0 <= t /\ value x * value x <= (1 + u64) * t).
    { destruct (Rle_or_lt 0 t) as [Hge | Hlt].
      - rewrite (Rabs_pos_eq t Hge) in Hperr. apply Rabs_bound in Hperr. split; lra.
      - exfalso. rewrite (Rabs_left t Hlt) in Hperr. apply Rabs_bound in Hperr. nra. }
    destruct Ht as [Ht0 Ht1].
    assert (Hs : 0 <= s' /\ value acc + t <= (1 + u64) * s').
    { destruct (Rle_or_lt 0 s') as [Hge | Hlt].
      - rewrite (Rabs_pos_eq s' Hge) in Haerr. apply Rabs_bound in Haerr. split; lra.
      - exfalso. rewrite (Rabs_left s' Hlt) in Haerr. apply Rabs_bound in Haerr. nra. }
    destruct Hs as [Hs0 Hs1].
    destruct (IH _ Hsum Hs0 Hrest) as [Hfold Hbound].
    cbn [combine fold_left fst snd]. split; [exact Hfold | ].
    cbn [length squares].
    replace (2 * S (length a))%nat with (S (S (2 * length a))) by lia.
    cbn [pow].
    set (F := value (fold64 (combine a a) (acc + x * x)%float)) in *.
    set (c := (1 + u64) ^ (2 * length a)) in *.
    pose proof (pow_up_ge (2 * length a)) as Hc. fold c in Hc.
    pose proof (squares_nonneg a) as HSq.
    fold s' in Hbound.
    assert (Ea : value acc + value x * value x <= (1 + u64) * ((1 + u64) * s')) by nra.
    assert (Eb : squares a <= (1 + u64) * ((1 + u64) * squares a)) by nra.
    assert (Ec : (1 + u64) * ((1 + u64) * (s' + squares a))
                 <= (1 + u64) * ((1 + u64) * (c * F))).
    { apply Rmult_le_compat_l; [lra | ]. apply Rmult_le_compat_l; [lra | exact Hbound]. }
    replace ((1 + u64) * ((1 + u64) * c) * F) with ((1 + u64) * ((1 + u64) * (c * F))) by ring.
    lra.
Qed.

Lemma abs_products_dot (a b : list float) :
  length a = length b ->
  abs_products (combine a b)
  = dot exact (map (fun x => Rabs (value x)) a) (map (fun x => Rabs (value x)) b).
Proof.
  revert b. induction a as [ | x a IH]; intros [ | y b] Hl; try discriminate Hl.
  - reflexivity.
  - cbn [combine abs_products map fst snd]. rewrite dot_exact_cons, Rabs_mult, IH; [reflexivity | ].
    cbn in Hl. lia.
Qed.

Lemma squares_dot (a : list float) :
  squares a
  = dot exact (map (fun x => Rabs (value x)) a) (map (fun x => Rabs (value x)) a).
Proof.
  induction a as [ | x a IH]; [reflexivity | ].
  cbn [squares map]. rewrite dot_exact_cons, IH. f_equal.
  rewrite <- Rabs_mult. symmetry. apply Rabs_pos_eq.
  pose proof (Rle_0_sqr (value x)) as H. exact H.
Qed.

(** The inequality of Cauchy and Schwarz for the values of two vectors. *)
Lemma abs_products_cauchy_schwarz (a b : list float) :
  length a = length b ->
  abs_products (combine a b) * abs_products (combine a b) <= squares a * squares b.
Proof.
  intro Hl. rewrite (abs_products_dot _ _ Hl), (squares_dot a), (squares_dot b).
  apply dot_exact_cauchy_schwarz. rewrite !length_map. exact Hl.
Qed.

Lemma bernoulli (k : nat) : 1 - INR k * u64 <= (1 - u64) ^ k.
Proof.
  pose proof u64_small as [Hu0 Hu1].
  induction k as [ | k IH]; [cbn; lra | ].
  rewrite S_INR. cbn [pow].
  pose proof (pos_INR k) as Hk.
  assert ((1 - u64) * (1 - INR k * u64) <= (1 - u64) * (1 - u64) ^ k)
    by (apply Rmult_le_compat_l; lra).
  nra.
Qed.

Lemma pow_up_um (k : nat) : (1 + u64) ^ k * (1 - u64) ^ k <= 1.
Proof.
  pose proof u64_small as [Hu0 Hu1].
  rewrite <- Rpow_mult_distr.
  replace ((1 + u64) * (1 - u64)) with (1 - u64 * u64) by ring.
  assert (H : 0 <= 1 - u64 * u64 <= 1) by nra.
  induction k as [ | k IH]; cbn [pow]; [lra | ]. 
  assert (0 <= (1 - u64 * u64) ^ k) by (apply pow_le; lra).
  nra.
Qed.

(** The roundings of the whole computation, for vectors of [n]
    components, are within [(n + 1) * 2^-50]. *)
Lemma roundings_within (n : nat) :
  (Z.of_nat n < 2 ^ 50)%Z ->
  (1 + u64) ^ (2 * n + 3) <= (1 + INR (S n) * b2 (-50)) * (1 - u64) ^ (2 * n + 1).
Proof.
  intro Hn. pose proof u64_small as [Hu0 Hu1].
  assert (Hb : b2 (-50) = 8 * u64).
  { unfold u64. replace (-50)%Z with (3 + -53)%Z by lia. rewrite b2_add.
    rewrite (@b2_IZR 3) by lia. reflexivity. }
  rewrite Hb.
  set (C := 1 + INR (S n) * (8 * u64)).
  pose proof (pos_INR (S n)) as HSn.
  assert (Hsmall : INR (S n) * (4 * u64) <= / 2).
  { assert (E : INR (S n) <= b2 50).
    { rewrite INR_IZR_INZ, (@b2_IZR 50) by lia. apply IZR_le. lia. }
    assert (E2 : b2 50 * (4 * u64) = / 2).
    { unfold u64. rewrite <- b2_m1. replace 4 with (b2 2) by (rewrite (@b2_IZR 2) by lia; reflexivity).
      rewrite <- !b2_add. reflexivity. }
    rewrite <- E2. apply Rmult_le_compat_r; lra. }
  pose proof (bernoulli ((2 * n + 3) + (2 * n + 1))) as Hber.
  replace (INR ((2 * n + 3) + (2 * n + 1))) with (4 * INR (S n)) in Hber.
  2:{ rewrite !plus_INR, !mult_INR, S_INR. cbn [INR]. ring. }
  rewrite pow_add in Hber.
  pose proof (pow_up_um (2 * n + 3)) as Hone.
  pose proof (pow_um_pos (2 * n + 3)) as [Hk1 _].
  pose proof (pow_um_pos (2 * n + 1)) as [Hk2 _].
  set (P1 := (1 - u64) ^ (2 * n + 3)) in *. set (P2 := (1 - u64) ^ (2 * n + 1)) in *.
  set (Q1 := (1 + u64) ^ (2 * n + 3)) in *.
  assert (HC : 1 <= C * (1 - 4 * INR (S n) * u64)).
  { unfold C. set (w := INR (S n) * (4 * u64)) in *.
    replace (1 + INR (S n) * (8 * u64)) with (1 + 2 * w) by (unfold w; ring).
    replace (1 - 4 * INR (S n) * u64) with (1 - w) by (unfold w; ring).
    assert (0 <= w) by (unfold w; apply Rmult_le_pos; lra). nra. }
  assert (HC0 : 1 <= C) by (unfold C; nra).
  assert (H1 : 1 <= C * (P1 * P2)).
  { apply Rle_trans with (1 := HC). apply Rmult_le_compat_l; lra. }
  apply Rmult_le_reg_r with P1; [exact Hk1 | ].
  replace (C * P2 * P1) with (C * (P1 * P2)) by ring. lra.
Qed.

(** Whenever no operation overflows or underflows, the similarity of two
    vectors of [n] components is a finite number of magnitude at most
    [1 + (n + 1) * 2^-50]. *)
Lemma cosineSimilarity_in_range (a b : list float) :
  length a = length b ->
  (Z.of_nat (length a) < 2 ^ 50)%Z ->
  in_range a b = true ->
  finite (cosineSimilarity a b) = true
  /\ Rabs (value (cosineSimilarity a b)) <= 1 + INR (S (length a)) * b2 (-50).
Proof.
  intros Hl Hn Hrange. pose proof u64_small as [Hu0 Hu1].
  unfold in_range in Hrange.
  apply andb_prop in Hrange. destruct Hrange as [Hrange Hp].
  apply andb_prop in Hrange. destruct Hrange as [Hrange HsB].
  apply andb_prop in Hrange. destruct Hrange as [Hrange HsA].
  apply andb_prop in Hrange. destruct Hrange as [Hrange HB].
  apply andb_prop in Hrange. destruct Hrange as [HD HA].
  unfold cosineSimilarity. rewrite (cosine_formula binary64 a b Hl).
  cbn [num_div num_mul num_sqrt binary64].
  rewrite !dot64_fold in *.
  set (D := fold64 (combine a b) 0%float) in *.
  set (A := fold64 (combine a a) 0%float) in *.
  set (B := fold64 (combine b b) 0%float) in *.
  assert (Hzero : value 0%float = 0) by reflexivity.
  destruct (@sum_upper (combine a b) 0%float eq_refl HD) as [HDfin HDup].
  fold D in HDfin, HDup. rewrite Hzero, Rabs_R0, Rplus_0_l in HDup.
  rewrite length_combine, <- Hl, Nat.min_id in HDup.
  destruct (@sum_lower a 0%float eq_refl ltac:(rewrite Hzero; lra) HA) as [HA0 HAlo].
  destruct (@sum_lower b 0%float eq_refl ltac:(rewrite Hzero; lra) HB) as [HB0 HBlo].
  fold A in HA0, HAlo. fold B in HB0, HBlo.
  rewrite Hzero, Rplus_0_l in HAlo, HBlo. rewrite <- Hl in HBlo.
  destruct (sqrt_error _ HsA) as (HvA & HvsA & HerrA).
  destruct (sqrt_error _ HsB) as (HvB & HvsB & HerrB).
  pose proof (mul_error _ _ Hp) as Herrp.
  pose proof (abs_products_cauchy_schwarz a b Hl) as Hcs.
  pose proof (abs_products_nonneg (combine a b)) as HT.
  set (n := length a) in *.
  set (T := abs_products (combine a b)) in *.
  set (vA := value A) in *. set (vB := value B) in *.
  set (sA := value (sqrt A)) in *. set (sB := value (sqrt B)) in *.
  set (vp := value (sqrt A * sqrt B)%float) in *.
  set (U := (1 + u64) ^ (2 * n)) in *.
  pose proof (pow_up_ge (2 * n)) as HU. fold U in HU.
  (* the square roots *)
  assert (HrA : vA <= ((1 + u64) * sA) * ((1 + u64) * sA)).
  { apply Rabs_bound in HerrA.
    pose proof (sqrt_pos vA) as H0. pose proof (sqrt_sqrt vA ltac:(lra)) as H1.
    rewrite <- H1. apply Rmult_le_compat; lra. }
  assert (HrB : vB <= ((1 + u64) * sB) * ((1 + u64) * sB)).
  { apply Rabs_bound in HerrB.
    pose proof (sqrt_pos vB) as H0. pose proof (sqrt_sqrt vB ltac:(lra)) as H1.
    rewrite <- H1. apply Rmult_le_compat; lra. }
  (* their product *)
  assert (Hss : 0 < sA * sB) by (apply Rmult_lt_0_compat; assumption).
  assert (Hvp : 0 < vp /\ sA * sB <= (1 + u64) * vp).
  { destruct (Rle_or_lt vp 0) as [Hle | Hgt].
    - exfalso. destruct (Req_dec vp 0) as [E | NE].
      + rewrite E, Rabs_R0 in Herrp. apply Rabs_bound in Herrp. lra.
      + rewrite (Rabs_left vp) in Herrp by lra. apply Rabs_bound in Herrp. nra.
    - rewrite (Rabs_pos_eq vp) in Herrp by lra. apply Rabs_bound in Herrp. split; lra. }
  destruct Hvp as [Hvp0 Hvp1].
  (* the exact sums against the computed ones *)
  assert (HTle : T <= U * ((1 + u64) * ((1 + u64) * (sA * sB)))).
  { apply square_le.
    - apply Rmult_le_pos; [lra | ]. apply Rmult_le_pos; [lra | ].
      apply Rmult_le_pos; lra.
    - apply Rle_trans with (1 := Hcs).
      apply Rle_trans with ((U * vA) * (U * vB)).
      + apply Rmult_le_compat; try apply squares_nonneg; assumption.
      + replace (U * ((1 + u64) * ((1 + u64) * (sA * sB)))
                 * (U * ((1 + u64) * ((1 + u64) * (sA * sB)))))
          with ((U * (((1 + u64) * sA) * ((1 + u64) * sA)))
                * (U * (((1 + u64) * sB) * ((1 + u64) * sB)))) by ring.
        apply Rmult_le_compat.
        * apply Rmult_le_pos; lra.
        * apply Rmult_le_pos; lra.
        * apply Rmult_le_compat_l; lra.
        * apply Rmult_le_compat_l; lra. }
  assert (HTp : T <= (1 + u64) ^ (2 * n + 3) * vp).
  { replace (2 * n + 3)%nat with (S (S (S (2 * n)))) by lia. cbn [pow]. fold U.
    apply Rle_trans with (1 := HTle).
    replace ((1 + u64) * ((1 + u64) * ((1 + u64) * U)) * vp)
      with (U * ((1 + u64) * ((1 + u64) * ((1 + u64) * vp)))) by ring.
    apply Rmult_le_compat_l; [lra | ].
    apply Rmult_le_compat_l; [lra | ]. apply Rmult_le_compat_l; [lra | exact Hvp1]. }
  pose proof (roundings_within n Hn) as Hround.
  set (C := 1 + INR (S n) * b2 (-50)) in *.
  pose proof (pow_um_pos (2 * n)) as [Hum0 _].
  assert (HDle : Rabs (value D) <= C * (1 - u64) * Rabs vp).
  { rewrite (Rabs_pos_eq vp) by lra.
    apply Rmult_le_reg_l with ((1 - u64) ^ (2 * n)); [exact Hum0 | ].
    apply Rle_trans with (1 := HDup). apply Rle_trans with (1 := HTp).
    replace ((1 - u64) ^ (2 * n) * (C * (1 - u64) * vp))
      with (C * ((1 - u64) ^ (2 * n + 1)) * vp).
    2:{ replace (2 * n + 1)%nat with (S (2 * n)) by lia. cbn [pow]. ring. }
    apply Rmult_le_compat_r; [lra | exact Hround]. }
  apply div_bounded; [exact HDfin | exact Hp | | exact HDle].
  assert (HC : 1 <= C <= 2).
  { unfold C. pose proof (pos_INR (S n)) as H0. pose proof (b2_pos (-50)) as H1.
    assert (E : INR (S n) <= b2 50).
    { rewrite INR_IZR_INZ, (@b2_IZR 50) by lia. apply IZR_le. lia. }
    assert (E2 : b2 50 * b2 (-50) = 1) by (rewrite <- b2_add; reflexivity).
    split; nra. }
  split.
  - apply Rle_trans with (b2 0); [apply b2_le; lia | rewrite b2_0; lra].
  - apply Rle_lt_trans with (b2 1); [rewrite b2_1; lra | apply b2_lt; lia].
Qed.

End CosineRounding.

(** C6 (as amended).  For vectors of equal length [cosineSimilarity]
    computes, in binary64 arithmetic, the dot product divided by the product
    of the square roots of the two sums of squares, and it is symmetric.
    The similarity of a vector with itself is [n / (sqrt n * sqrt n)] for
    the computed sum of squares [n].  It is NaN when [n] has overflowed to
    Infinity or is zero.  Whenever [n] and the product [sqrt n * sqrt n]
    are normal numbers (neither has overflowed, neither has underflowed), it
    is a normal number that differs from 1 by at most [2^-50]; this is so
    for every [n] between [2^-1020] and [2^1022]. *)
Theorem cosineSimilarity_formula_and_symmetry (a b : list float) :
  length a = length b ->
  cosineSimilarity a b
  = (dot binary64 a b / (sqrt (dot binary64 a a) * sqrt (dot binary64 b b)))%float
  /\ cosineSimilarity a b = cosineSimilarity b a
  /\ cosineSimilarity a a
     = (dot binary64 a a / (sqrt (dot binary64 a a) * sqrt (dot binary64 a a)))%float
  /\ (dot binary64 a a = infinity \/ (dot binary64 a a =? 0)%float = true ->
      cosineSimilarity a a = nan)
  /\ (normal (dot binary64 a a) = true ->
      normal (sqrt (dot binary64 a a) * sqrt (dot binary64 a a)) = true ->
      normal (cosineSimilarity a a) = true
      /\ (Rabs (value (cosineSimilarity a a) - 1) <= b2 (-50))%R)
  /\ ((b2 (-1020) <= value (dot binary64 a a) <= b2 1022)%R ->
      normal (cosineSimilarity a a) = true
      /\ (Rabs (value (cosineSimilarity a a) - 1) <= b2 (-50))%R).
Proof.
  intro Hl.
  split.
  { unfold cosineSimilarity. rewrite (cosine_formula binary64 a b) by exact Hl.
    reflexivity. }
  split; [apply cosineSimilarity_comm, Hl | ].
  split; [apply cosineSimilarity_self | ].
  split.
  { intro Hn. rewrite cosineSimilarity_self. apply self_similarity_degenerate, Hn. }
  split.
  - intros Hn Hp. rewrite cosineSimilarity_self.
    apply RoundingFacts.self_similarity_near_one; assumption.
  - intro Hrange. rewrite cosineSimilarity_self.
    destruct (RoundingFacts.self_similarity_in_range _ Hrange) as [Hn Hp].
    apply RoundingFacts.self_similarity_near_one; assumption.
Qed.

(** The theorem at two vectors of two components, and at the vector
    [1; 1; 1], whose similarity with itself is rounded to the number next
    above 1. *)
Lemma cosineSimilarity_formula_and_symmetry_witness :
  cosineSimilarity [3; 4]%float [1; 0]%float = cosineSimilarity [1; 0]%float [3; 4]%float
  /\ normal (cosineSimilarity [1; 1; 1]%float [1; 1; 1]%float) = true
  /\ (Rabs (value (cosineSimilarity [1; 1; 1]%float [1; 1; 1]%float) - 1) <= b2 (-50))%R.
Proof.
  split.
  - exact (proj1 (proj2 (@cosineSimilarity_formula_and_symmetry
                           [3; 4]%float [1; 0]%float eq_refl))).
  - exact (proj1 (proj2 (proj2 (proj2 (proj2 (@cosineSimilarity_formula_and_symmetry
                                                 [1; 1; 1]%float [1; 1; 1]%float eq_refl)))))
             eq_refl eq_refl).
Defined.

(** C6 (as stated) fails: the one-component vector [2^700] has a nonzero
    norm, but its sum of squares overflows and its similarity with itself
    is NaN, which is within no tolerance of 1; the same happens to [2^-600],
    whose square underflows to zero. *)
Lemma cosineSimilarity_self_not_one :
  (0x1p700 =? 0)%float = false
  /\ cosineSimilarity [0x1p700%float] [0x1p700%float] = nan
  /\ (forall tol : float,
        (abs (cosineSimilarity [0x1p700%float] [0x1p700%float] - 1) <=? tol)%float = false)
  /\ (0x1p-600 =? 0)%float = false
  /\ cosineSimilarity [0x1p-600%float] [0x1p-600%float] = nan.
Proof.
  assert (H : cosineSimilarity [0x1p700%float] [0x1p700%float] = nan) by reflexivity.
  repeat split; try reflexivity.
  intro tol. rewrite H. change (abs (nan - 1))%float with nan.
  rewrite FloatAxioms.leb_spec. reflexivity.
Qed.

(** C10 (as amended).  When one of the two vectors has norm zero (all its
    components are zero) [cosineSimilarity] divides zero by zero: the result
    is NaN, which is no number of the range [-1, 1].  For two vectors of the
    same length, below [2^50], the result is a finite number of magnitude at
    most [1 + (n + 1) * 2^-50], [n] being the length, whenever no operation
    overflows or underflows: every product of the loop is a normal number or
    has a zero factor, every partial sum is finite, and the two square roots
    and their product are normal numbers. *)
Theorem cosineSimilarity_zero_norm (a b : list float) :
  (zero_vector a \/ zero_vector b ->
   cosineSimilarity a b = nan
   /\ ((-1 <=? cosineSimilarity a b) && (cosineSimilarity a b <=? 1))%float = false)
  /\ (length a = length b ->
      (Z.of_nat (length a) < 2 ^ 50)%Z ->
      in_range a b = true ->
      finite (cosineSimilarity a b) = true
      /\ (Rabs (value (cosineSimilarity a b)) <= 1 + INR (S (length a)) * b2 (-50))%R).
Proof.
  split.
  - intro H. rewrite (cosineSimilarity_zero_nan H). split; reflexivity.
  - apply cosineSimilarity_in_range.
Qed.

(** The theorem at a zero vector with a negative zero, and at the vector
    [1; 1; 1] with itself. *)
Lemma cosineSimilarity_zero_norm_witness :
  cosineSimilarity [0; -0]%float [1; 2]%float = nan
  /\ cosineSimilarity [1; 2]%float [0; -0]%float = nan
  /\ finite (cosineSimilarity [1; 1; 1]%float [1; 1; 1]%float) = true
  /\ (Rabs (value (cosineSimilarity [1; 1; 1]%float [1; 1; 1]%float))
      <= 1 + INR 4 * b2 (-50))%R.
Proof.
  split; [ | split].
  - apply (proj1 (@cosineSimilarity_zero_norm [0; -0]%float [1; 2]%float)).
    left. repeat constructor.
  - apply (proj1 (@cosineSimilarity_zero_norm [1; 2]%float [0; -0]%float)).
    right. repeat constructor.
  - exact (proj2 (@cosineSimilarity_zero_norm [1; 1; 1]%float [1; 1; 1]%float)
             eq_refl eq_refl eq_refl).
Defined.

(** C10 (as stated) fails in its second half: nonzero norms do not keep the
    result in [-1, 1].  The square of [2^-600] underflows to zero, so the
    similarity of [2^-600] and [1] is a division by zero, +Infinity, and with
    a second component it is -Infinity for [-1; 0]; and the similarity of
    [1; 1; 1] with itself is rounded to the number next above 1. *)
Lemma cosineSimilarity_outside_range :
  ~ (zero_vector [0x1p-600%float] \/ zero_vector [1%float])
  /\ cosineSimilarity [0x1p-600%float] [1%float] = infinity
  /\ ((-1 <=? cosineSimilarity [0x1p-600%float] [1%float])
      && (cosineSimilarity [0x1p-600%float] [1%float] <=? 1))%float = false
  /\ cosineSimilarity [0x1p-600; 0]%float [-1; 0]%float = neg_infinity
  /\ ~ zero_vector [1; 1; 1]%float
  /\ cosineSimilarity [1; 1; 1]%float [1; 1; 1]%float = 0x1.0000000000001p+0%float
  /\ (cosineSimilarity [1; 1; 1]%float [1; 1; 1]%float <=? 1)%float = false.
Proof.
  split.
  { intros [H | H]; apply Forall_inv in H; discriminate H. }
  split; [reflexivity | ]. split; [reflexivity | ]. split; [reflexivity | ].
  split.
  { intro H. apply Forall_inv in H. discriminate H. }
  split; reflexivity.
Qed.

(** ** Array.prototype.sort *)

Section SortFacts.
Variable A : Type.
Variable comparefn : A -> A -> float.

Lemma insert_perm (x : A) (l : list A) :
  Permutation (x :: l) (JsArray.insert comparefn x l).
Proof.
  induction l as [ | y l IH]; cbn [JsArray.insert].
  - apply Permutation_refl.
  - destruct (JsArray.comes_after comparefn x y).
    + eapply perm_trans; [apply perm_swap | apply perm_skip, IH].
    + apply Permutation_refl.
Qed.

Lemma sort_perm (l : list A) : Permutation l (JsArray.sort comparefn l).
Proof.
  induction l as [ | x l IH]; cbn [JsArray.sort].
  - apply perm_nil.
  - eapply perm_trans; [apply perm_skip, IH | apply insert_perm].
Qed.

(** Inserting into a list ordered by a transitive relation [ge] that the
    comparator decides on the elements at hand. *)
Lemma insert_sorted (ge : A -> A -> Prop) (x : A) (l : list A) :
  (forall u v w, ge u v -> ge v w -> ge u w) ->
  (forall y, In y l -> JsArray.comes_after comparefn x y = true -> ge y x) ->
  (forall y, In y l -> JsArray.comes_after comparefn x y = false -> ge x y) ->
  StronglySorted ge l ->
  StronglySorted ge (JsArray.insert comparefn x l).
Proof.
  intros Htrans. induction l as [ | y l IH]; intros Hafter Hnot Hs; cbn [JsArray.insert].
  - repeat constructor.
  - apply StronglySorted_inv in Hs. destruct Hs as [Hs Hy].
    destruct (JsArray.comes_after comparefn x y) eqn:E.
    + constructor.
      * apply IH; [ | | exact Hs]; intros z Hz; [apply Hafter | apply Hnot]; right; exact Hz.
      * eapply Permutation_Forall; [apply insert_perm | ].
        constructor; [apply Hafter; [left; reflexivity | exact E] | exact Hy].
    + assert (Hxy : ge x y) by (apply Hnot; [left; reflexivity | exact E]).
      constructor; [constructor; assumption | ].
      constructor; [exact Hxy | ].
      eapply Forall_impl; [ | exact Hy]. intros z Hz. eapply Htrans; eassumption.
Qed.

(** An element that precedes every element of the list in a relation [R],
    and that moves only past elements that are related to it the other way
    round, keeps the list ordered by [R]. *)
Lemma insert_keeps (R : A -> A -> Prop) (x : A) (l : list A) :
  Forall (R x) l ->
  (forall y, In y l -> JsArray.comes_after comparefn x y = true -> R y x) ->
  StronglySorted R l ->
  StronglySorted R (JsArray.insert comparefn x l).
Proof.
  induction l as [ | y l IH]; intros Hx Hafter Hs; cbn [JsArray.insert].
  - repeat constructor.
  - apply StronglySorted_inv in Hs. destruct Hs as [Hs Hy].
    destruct (JsArray.comes_after comparefn x y) eqn:E.
    + constructor.
      * apply IH; [ | | exact Hs].
        -- apply Forall_inv_tail in Hx. exact Hx.
        -- intros z Hz. apply Hafter. right; exact Hz.
      * eapply Permutation_Forall; [apply insert_perm | ].
        constructor; [apply Hafter; [left; reflexivity | exact E] | exact Hy].
    + constructor; [constructor; assumption | exact Hx].
Qed.

Lemma sort_sorted (ge : A -> A -> Prop) (l : list A) :
  (forall u v w, ge u v -> ge v w -> ge u w) ->
  (forall x y, In x l -> In y l -> JsArray.comes_after comparefn x y = true -> ge y x) ->
  (forall x y, In x l -> In y l -> JsArray.comes_after comparefn x y = false -> ge x y) ->
  StronglySorted ge (JsArray.sort comparefn l).
Proof.
  intros Htrans. induction l as [ | x l IH]; intros Hafter Hnot; cbn [JsArray.sort].
  - constructor.
  - apply insert_sorted; [exact Htrans | | | ].
    + intros y Hy. apply Hafter; [left; reflexivity | right].
      eapply Permutation_in; [apply Permutation_sym, sort_perm | exact Hy].
    + intros y Hy. apply Hnot; [left; reflexivity | right].
      eapply Permutation_in; [apply Permutation_sym, sort_perm | exact Hy].
    + apply IH; intros u v Hu Hv; [apply Hafter | apply Hnot]; right; assumption.
Qed.

Lemma sort_keeps (R : A -> A -> Prop) (l : list A) :
  (forall x y, In x l -> In y l -> JsArray.comes_after comparefn x y = true -> R y x) ->
  StronglySorted R l ->
  StronglySorted R (JsArray.sort comparefn l).
Proof.
  induction l as [ | x l IH]; intros Hafter Hs; cbn [JsArray.sort].
  - constructor.
  - apply StronglySorted_inv in Hs. destruct Hs as [Hs Hx].
    apply insert_keeps.
    + eapply Permutation_Forall; [apply sort_perm | exact Hx].
    + intros y Hy. apply Hafter; [left; reflexivity | right].
      eapply Permutation_in; [apply Permutation_sym, sort_perm | exact Hy].
    + apply IH; [ | exact Hs]. intros u v Hu Hv. apply Hafter; right; assumption.
Qed.

End SortFacts.

Section ListFacts.
Variable A : Type.

Lemma StronglySorted_firstn (R : A -> A -> Prop) (n : nat) (l : list A) :
  StronglySorted R l -> StronglySorted R (firstn n l).
Proof.
  revert n. induction l as [ | x l IH]; intros [ | n] Hs; cbn [firstn]; try constructor.
  - apply IH. apply StronglySorted_inv in Hs. tauto.
  - apply StronglySorted_inv in Hs. destruct Hs as [_ Hx].
    rewrite Forall_forall in *. intros y Hy. apply Hx.
    rewrite <- (firstn_skipn n l). apply in_or_app. left. exact Hy.
Qed.

Lemma StronglySorted_impl (R R' : A -> A -> Prop) (l : list A) :
  (forall a b, R a b -> R' a b) -> StronglySorted R l -> StronglySorted R' l.
Proof.
  intros Himp Hs. induction Hs as [ | x l Hs IH Hx]; constructor.
  - exact IH.
  - eapply Forall_impl; [ | exact Hx]. intros y Hy. apply Himp, Hy.
Qed.

(** [l.slice(0, k)] for a count [k]. *)
Lemma slice_0_count (k : nat) (l : list A) :
  JsArray.slice 0 (Z.of_nat k) l = firstn k l.
Proof.
  unfold JsArray.slice, JsArray.normalize_index.
  replace (0 <? 0)%Z with false by reflexivity.
  replace (Z.of_nat k <? 0)%Z with false by (symmetry; apply Z.ltb_ge; lia).
  rewrite (Z.min_l 0) by lia. cbn [Z.to_nat skipn]. rewrite Z.sub_0_r.
  destruct (Nat.le_gt_cases k (length l)) as [Hle | Hgt].
  - rewrite Z.min_l by lia. rewrite Nat2Z.id. reflexivity.
  - rewrite Z.min_r by lia. rewrite Nat2Z.id.
    rewrite !firstn_all2 by lia. reflexivity.
Qed.

End ListFacts.

(** ** findRelevantChunks *)

Section Ranking.
Import FloatFacts.

Lemma mapi_from_paired (q : list float) (all pre cs : list TextChunk)
    (es : list (list float)) :
  all = pre ++ cs -> length cs = length es ->
  JsArray.mapi_from
    (fun embedding i => mk_ranked (nth_error all i) (cosineSimilarity q embedding) i)
    (length pre) es
  = paired q cs es (length pre).
Proof.
  revert pre cs. induction es as [ | e es IH]; intros pre cs Hall Hl.
  - reflexivity.
  - destruct cs as [ | c cs]; [discriminate | ].
    unfold paired. cbn [JsArray.mapi_from length seq combine map fst snd].
    f_equal.
    + f_equal. subst all. rewrite nth_error_app2 by lia.
      rewrite Nat.sub_diag. reflexivity.
    + replace (S (length pre)) with (length (pre ++ [c])) by (rewrite length_app; cbn; lia).
      apply IH.
      * subst all. rewrite <- app_assoc. reflexivity.
      * cbn in Hl. lia.
Qed.

Lemma similarities_paired (q : list float) (v : VideoData) :
  length (embeddings v) = length (chunks v) ->
  similarities q v = paired q (chunks v) (embeddings v) 0.
Proof.
  intro Hl. unfold similarities, JsArray.mapi.
  apply (@mapi_from_paired q (chunks v) [] (chunks v) (embeddings v) eq_refl).
  symmetry. exact Hl.
Qed.

Lemma mapi_from_index (f : list float -> nat -> ranked) (i : nat)
    (es : list (list float)) :
  (forall e k, index (f e k) = k) ->
  StronglySorted (fun a b => index a < index b) (JsArray.mapi_from f i es)
  /\ Forall (fun a => i <= index a) (JsArray.mapi_from f i es).
Proof.
  intro Hf. revert i. induction es as [ | e es IH]; intro i; cbn [JsArray.mapi_from].
  - split; constructor.
  - destruct (IH (S i)) as [Hs Hge]. split.
    + constructor; [exact Hs | ].
      eapply Forall_impl; [ | exact Hge]. intros a Ha. cbn beta in Ha. rewrite Hf. lia.
    + constructor; [rewrite Hf; lia | ].
      eapply Forall_impl; [ | exact Hge]. intros a Ha. cbn beta in Ha. lia.
Qed.

Lemma similarities_index_order (q : list float) (v : VideoData) :
  StronglySorted (fun a b => index a < index b) (similarities q v).
Proof.
  unfold similarities, JsArray.mapi. apply mapi_from_index. reflexivity.
Qed.

Lemma mapi_from_scores (q : list float) (cs : list TextChunk) (i : nat)
    (es : list (list float)) (r : ranked) :
  In r (JsArray.mapi_from
          (fun embedding k => mk_ranked (nth_error cs k) (cosineSimilarity q embedding) k)
          i es) ->
  exists e, In e es /\ similarity r = cosineSimilarity q e.
Proof.
  revert i. induction es as [ | e es IH]; intros i Hin; cbn [JsArray.mapi_from] in Hin.
  - contradiction.
  - destruct Hin as [<- | Hin].
    + exists e. split; [left; reflexivity | reflexivity].
    + destruct (IH _ Hin) as [e' [He' Hs]]. exists e'. split; [right; exact He' | exact Hs].
Qed.

Lemma similarities_defined (q : list float) (v : VideoData) (r : ranked) :
  scores_defined q v = true -> In r (similarities q v) -> similarity r <> nan.
Proof.
  intros Hd Hin. unfold scores_defined in Hd. rewrite forallb_forall in Hd.
  destruct (mapi_from_scores _ _ _ _ _ Hin) as [e [He ->]].
  apply is_nan_false. specialize (Hd e He). destruct (is_nan (cosineSimilarity q e)).
  - discriminate Hd.
  - reflexivity.
Qed.

(** For two scores other than NaN the comparator orders [x] after [y]
    exactly when the score of [x] is the smaller one. *)
Lemma comes_after_ltb (x y : ranked) :
  similarity x <> nan -> similarity y <> nan ->
  JsArray.comes_after by_similarity_desc x y = (similarity x <? similarity y)%float.
Proof.
  intros Hx Hy. unfold JsArray.comes_after, by_similarity_desc.
  apply sub_sign; assumption.
Qed.

Lemma ranking_non_increasing (q : list float) (v : VideoData) :
  scores_defined q v = true ->
  non_increasing (JsArray.sort by_similarity_desc (similarities q v)).
Proof.
  intro Hd. apply sort_sorted.
  - intros u w z H1 H2. eapply leb_trans; eassumption.
  - intros x y Hx Hy. rewrite comes_after_ltb by (eapply similarities_defined; eassumption).
    apply ltb_leb.
  - intros x y Hx Hy. rewrite comes_after_ltb by (eapply similarities_defined; eassumption).
    apply ltb_false_leb; eapply similarities_defined; eassumption.
Qed.

Lemma ranking_ties (q : list float) (v : VideoData) :
  scores_defined q v = true ->
  ties_in_chunk_order (JsArray.sort by_similarity_desc (similarities q v)).
Proof.
  intro Hd.
  assert (H : StronglySorted
                (fun a b => index a < index b
                            \/ (similarity b <? similarity a)%float = true)
                (JsArray.sort by_similarity_desc (similarities q v))).
  { apply sort_keeps.
    - intros x y Hx Hy. rewrite comes_after_ltb by (eapply similarities_defined; eassumption).
      intro Hlt. right. exact Hlt.
    - eapply StronglySorted_impl; [ | apply similarities_index_order].
      intros a b Hab. left. exact Hab. }
  eapply StronglySorted_impl; [ | exact H].
  intros a b [Hi | Hlt] Heq; [exact Hi | ].
  apply eqb_not_ltb in Heq. congruence.
Qed.

End Ranking.

(** C2 (as amended).  When no score is NaN, [findRelevantChunks] pairs every
    chunk with the cosine similarity of its embedding, orders the pairs by
    non-increasing score, keeps pairs of equal score in chunk-list order, and
    returns the first [K] of them (3 by default): all of them, ordered, when
    [K] is at least the number of chunks. *)
Theorem findRelevantChunks_ranking (q : list float) (v : VideoData) (K : nat) :
  length (embeddings v) = length (chunks v) ->
  scores_defined q v = true ->
  let ranking := JsArray.sort by_similarity_desc (similarities q v) in
  let out := findRelevantChunksK q v (Z.of_nat K) in
  similarities q v = paired q (chunks v) (embeddings v) 0
  /\ Permutation (similarities q v) ranking
  /\ non_increasing ranking
  /\ ties_in_chunk_order ranking
  /\ out = firstn K ranking
  /\ non_increasing out
  /\ ties_in_chunk_order out
  /\ length out = Nat.min K (length (chunks v))
  /\ (length (chunks v) <= K -> out = ranking)
  /\ findRelevantChunks q v = findRelevantChunksK q v (Z.of_nat 3).
Proof.
  intros Hl Hd ranking out.
  assert (Hout : out = firstn K ranking) by apply slice_0_count.
  assert (Hlen : length ranking = length (chunks v)).
  { unfold ranking. rewrite <- (Permutation_length (sort_perm by_similarity_desc _)).
    rewrite (similarities_paired q v Hl). unfold paired.
    rewrite length_map, !length_combine, length_seq. lia. }
  split; [apply similarities_paired, Hl | ].
  split; [apply sort_perm | ].
  split; [apply ranking_non_increasing, Hd | ].
  split; [apply ranking_ties, Hd | ].
  split; [exact Hout | ].
  split; [rewrite Hout; apply StronglySorted_firstn, ranking_non_increasing, Hd | ].
  split; [rewrite Hout; apply StronglySorted_firstn, ranking_ties, Hd | ].
  split; [rewrite Hout, length_firstn, Hlen; reflexivity | ].
  split; [ | reflexivity].
  intro HK. rewrite Hout. apply firstn_all2. lia.
Qed.

(** The theorem at a ranking with a tie: the two chunks of score 1 come first,
    in chunk-list order. *)
Lemma findRelevantChunks_ranking_witness :
  map index (findRelevantChunks [1; 0]%float four_chunks) = [1; 2; 0]
  /\ non_increasing (findRelevantChunksK [1; 0]%float four_chunks (Z.of_nat 3)).
Proof.
  split.
  - reflexivity.
  - exact (proj1 (proj2 (proj2 (proj2 (proj2 (proj2
             (@findRelevantChunks_ranking [1; 0]%float four_chunks 3 eq_refl eq_refl))))))).
Defined.

Lemma leb_not_nan (x y : float) : (x <=? y)%float = true -> x <> nan /\ y <> nan.
Proof.
  rewrite FloatAxioms.leb_spec. intro H.
  split; intro E; subst; cbn in H.
  - discriminate H.
  - destruct (Prim2SF x); discriminate H.
Qed.

Lemma non_increasing_defined (l : list ranked) :
  non_increasing l -> 2 <= length l -> Forall (fun r => similarity r <> nan) l.
Proof.
  intros Hs Hlen. destruct Hs as [ | x l Hs Hx]; [constructor | ].
  destruct l as [ | y l]; [cbn in Hlen; lia | ].
  constructor.
  - apply Forall_inv in Hx. apply leb_not_nan in Hx. tauto.
  - eapply Forall_impl; [ | exact Hx]. intros z Hz. apply leb_not_nan in Hz. tauto.
Qed.

(** C2 (as stated) fails: a zero embedding scores NaN, the comparator gives
    NaN against it, and the sort leaves the best chunk (score 1) behind a
    worse one (score 3/5).  No arrangement of these scores is in
    non-increasing order. *)
Lemma findRelevantChunks_not_ordered :
  map similarity (findRelevantChunks [1; 0]%float zero_embedding_video)
  = [3 / 5; nan; 1]%float
  /\ (3 / 5 <? 1)%float = true
  /\ ~ non_increasing (findRelevantChunks [1; 0]%float zero_embedding_video)
  /\ (forall l, Permutation (similarities [1; 0]%float zero_embedding_video) l ->
                ~ non_increasing l).
Proof.
  split; [reflexivity | split; [reflexivity | ] ].
  assert (Hperm : forall l,
             Permutation (similarities [1; 0]%float zero_embedding_video) l ->
             ~ non_increasing l).
  { intros l Hp Hs.
    assert (Hlen : 2 <= length l).
    { rewrite <- (Permutation_length Hp). cbn. lia. }
    pose proof (non_increasing_defined Hs Hlen) as Hall.
    rewrite Forall_forall in Hall.
    apply (Hall (mk_ranked (Some (mkTextChunk "chunk-1" "b")) nan 1)).
    - eapply Permutation_in; [exact Hp | ]. right. left. reflexivity.
    - reflexivity. }
  split; [ | exact Hperm].
  apply Hperm. apply (sort_perm by_similarity_desc).
Qed.

(** ** generateAnswer: the demo path *)

Section DemoAnswer.
Import JsString.
Open Scope string_scope.

Lemma answer_relevant_marker (videoTitle : string) :
  startsWith "✅" (answer_relevant videoTitle) = true
  /\ startsWith "❌" (answer_relevant videoTitle) = false.
Proof. split; reflexivity. Qed.

Lemma answer_not_covered_marker (question videoTitle : string) :
  startsWith "❌" (answer_not_covered question videoTitle) = true
  /\ startsWith "✅" (answer_not_covered question videoTitle) = false.
Proof. split; reflexivity. Qed.

Lemma some_relevant (items : list ranked) :
  JsArray.some (fun item => (point_three <? similarity item)%float) items = true
  <-> relevant items.
Proof. unfold JsArray.some, relevant. apply existsb_exists. Qed.

Lemma some_by_similarity (items items' : list ranked) :
  map similarity items' = map similarity items ->
  JsArray.some (fun item => (point_three <? similarity item)%float) items'
  = JsArray.some (fun item => (point_three <? similarity item)%float) items.
Proof.
  unfold JsArray.some. revert items.
  induction items' as [ | x xs IH]; intros [ | y ys] H; try discriminate; [reflexivity | ].
  cbn in H. injection H as Hxy Hrest. cbn [existsb]. rewrite Hxy. f_equal. apply IH, Hrest.
Qed.

(** C1.  Without an API key [generateAnswer] returns the "relevant content
    found" template (which begins with the check mark) exactly when some
    ranked entry has a similarity above 0.3, and the "not covered" template
    (which begins with the cross) otherwise; the answer is the same for any
    ranking with the same similarities, whatever the chunks are. *)
Theorem generateAnswer_demo (env : Env) (question : string) (items : list ranked)
    (videoTitle : string) (w : World) :
  no_key env = true ->
  exists answer,
    generateAnswer env question items videoTitle w = (Returns answer, w)
    /\ (startsWith "✅" answer = true <-> relevant items)
    /\ (startsWith "❌" answer = true <-> ~ relevant items)
    /\ (relevant items -> answer = answer_relevant videoTitle)
    /\ (~ relevant items -> answer = answer_not_covered question videoTitle)
    /\ (forall items', map similarity items' = map similarity items ->
          generateAnswer env question items' videoTitle w = (Returns answer, w)).
Proof.
  intro Hkey. unfold generateAnswer. rewrite Hkey.
  destruct (JsArray.some (fun item => (point_three <? similarity item)%float) items)
    eqn:Hsome.
  - assert (Hrel : relevant items) by (apply some_relevant; exact Hsome).
    exists (answer_relevant videoTitle).
    destruct (answer_relevant_marker videoTitle) as [Hyes Hno].
    repeat split; auto; try tauto.
    + rewrite Hno. discriminate.
    + intros items' Hsim. rewrite (some_by_similarity _ _ Hsim), Hsome. reflexivity.
  - assert (Hrel : ~ relevant items).
    { intro H. apply some_relevant in H. congruence. }
    exists (answer_not_covered question videoTitle).
    destruct (answer_not_covered_marker question videoTitle) as [Hyes Hno].
    repeat split; auto; try tauto.
    + rewrite Hno. discriminate.
    + intros items' Hsim. rewrite (some_by_similarity _ _ Hsim), Hsome. reflexivity.
Qed.

End DemoAnswer.

(** ** Concrete environments *)

(** The theorem at a ranking that holds a score of 1. *)
Lemma generateAnswer_demo_witness :
  exists answer,
    generateAnswer demo_env "what?" (findRelevantChunks [1; 0]%float four_chunks)
                   "t" initial_world = (Returns answer, initial_world)
    /\ JsString.startsWith "✅" answer = true.
Proof.
  destruct (@generateAnswer_demo demo_env "what?"
              (findRelevantChunks [1; 0]%float four_chunks) "t" initial_world eq_refl)
    as [answer [Hrun [Hyes _]]].
  exists answer. split; [exact Hrun | ].
  apply Hyes. exists (mk_ranked (Some (mkTextChunk "chunk-1" "b")) 1%float 1).
  split; [left; reflexivity | reflexivity].
Defined.

(** ** Failure of the synthesis model *)

Section SynthesisFailure.
Open Scope string_scope.

Lemma array_from_returns (A : Type) (f : M A) (n : nat) :
  (forall w, exists x w', f w = (Returns x, w')) ->
  forall w, exists xs w', array_from n f w = (Returns xs, w').
Proof.
  intro Hf. induction n as [ | n IH]; intro w; cbn [array_from].
  - eexists; eexists; reflexivity.
  - unfold bind. destruct (Hf w) as [x [w1 ->]].
    destruct (IH w1) as [xs [w2 ->]]. eexists; eexists; reflexivity.
Qed.

Lemma mockEmbedding_returns (env : Env) (w : World) :
  exists e w', mockEmbedding env w = (Returns e, w').
Proof.
  unfold mockEmbedding. apply array_from_returns.
  intro w0. eexists; eexists; reflexivity.
Qed.

Lemma generateQueryEmbedding_returns (env : Env) (query : string) (w : World) :
  exists e w', generateQueryEmbedding env query w = (Returns e, w').
Proof.
  unfold generateQueryEmbedding. destruct (no_key env).
  - apply mockEmbedding_returns.
  - unfold try_catch, bind, request.
    destruct (embeddings_create env (requests_made w) query) as [e | ].
    + eexists; eexists; reflexivity.
    + cbn beta iota. apply mockEmbedding_returns.
Qed.

Lemma generateAnswer_throws (env : Env) (question : string) (items : list ranked)
    (videoTitle : string) (w : World) :
  no_key env = false ->
  (forall n req, chat_create env n req = ChatFails) ->
  exists w',
    generateAnswer env question items videoTitle w
    = (Throws "Failed to generate answer. Please try again.", w').
Proof.
  intros Hkey Hdown. unfold generateAnswer. rewrite Hkey.
  unfold try_catch. destruct (context_lines env items) as [ls | ].
  - unfold bind, request. rewrite Hdown. cbn. eexists; reflexivity.
  - cbn. eexists; reflexivity.
Qed.

(** C5 (as amended).  With an API key configured and the chat provider
    failing, [generateAnswer] and [askQuestion] throw; [generateVideoSummary]
    does not: it returns the fixed text "Unable to generate video summary at
    this time." *)
Theorem synthesis_failure (env : Env) (question : string) (items : list ranked)
    (videoTitle : string) (v : VideoData) (w : World) :
  no_key env = false ->
  (forall n req, chat_create env n req = ChatFails) ->
  (exists w', generateAnswer env question items videoTitle w
              = (Throws "Failed to generate answer. Please try again.", w'))
  /\ (exists w', askQuestion env question v w
                 = (Throws "Failed to generate answer. Please try again.", w'))
  /\ (exists w', generateVideoSummary env v w
                 = (Returns "Unable to generate video summary at this time.", w')).
Proof.
  intros Hkey Hdown. split; [ | split].
  - apply generateAnswer_throws; assumption.
  - unfold askQuestion, try_catch, bind.
    destruct (generateQueryEmbedding_returns env question w) as [e [w1 ->]].
    destruct (@generateAnswer_throws env question (findRelevantChunks e v) (title v) w1
                Hkey Hdown) as [w2 ->].
    cbn. eexists; reflexivity.
  - unfold generateVideoSummary. rewrite Hkey.
    unfold try_catch, bind, request. rewrite Hdown. cbn. eexists; reflexivity.
Qed.

(** The theorem at the environment whose provider is down. *)
Lemma synthesis_failure_witness :
  (exists w', askQuestion provider_down_env "what?" four_chunks initial_world
              = (Throws "Failed to generate answer. Please try again.", w'))
  /\ (exists w', generateVideoSummary provider_down_env four_chunks initial_world
                 = (Returns "Unable to generate video summary at this time.", w')).
Proof.
  exact (proj2 (@synthesis_failure provider_down_env "what?" [] "t" four_chunks
                  initial_world eq_refl (fun _ _ => eq_refl))).
Defined.

(** C5 (as stated) fails for the summary: with the provider down
    [generateVideoSummary] returns a text and throws nothing. *)
Lemma generateVideoSummary_does_not_throw :
  no_key provider_down_env = false
  /\ (forall n req, chat_create provider_down_env n req = ChatFails)
  /\ fst (generateVideoSummary provider_down_env four_chunks initial_world)
     = Returns "Unable to generate video summary at this time."
  /\ (forall message,
        fst (generateVideoSummary provider_down_env four_chunks initial_world)
        <> Throws message).
Proof.
  split; [reflexivity | split; [reflexivity | split; [reflexivity | ] ] ].
  intros message H. discriminate H.
Qed.

End SynthesisFailure.

(** ** The fallback embeddings *)

Section Fallback.

Lemma advance_random_0 (w : World) : advance_random 0 w = w.
Proof. destruct w; reflexivity. Qed.

Lemma advance_random_add (n m : nat) (w : World) :
  advance_random n (advance_random m w) = advance_random (n + m) w.
Proof. unfold advance_random; cbn. f_equal. lia. Qed.

Lemma array_from_random (env : Env) (n : nat) (w : World) :
  array_from n (r <- random env ;; ret (r - 0.5)%float) w
  = (Returns (map (fun k => (math_random env (random_drawn w + k) - 0.5)%float) (seq 0 n)),
     advance_random n w).
Proof.
  revert w. induction n as [ | n IH]; intro w.
  - cbn [array_from seq map]. rewrite advance_random_0. reflexivity.
  - cbn [array_from]. unfold bind at 1. unfold bind at 1.
    unfold random at 1, ret at 1. cbn beta iota.
    unfold bind at 1. rewrite IH.
    unfold ret. cbn [random_drawn seq map]. f_equal.
    + f_equal. f_equal; [rewrite Nat.add_0_r; reflexivity | ].
      rewrite <- seq_shift, map_map. apply map_ext. intro k.
      rewrite Nat.add_succ_r. reflexivity.
    + unfold advance_random. cbn. f_equal. lia.
Qed.

Lemma mockEmbedding_spec (env : Env) (w : World) :
  mockEmbedding env w
  = (Returns (mock_vector env (random_drawn w)), advance_random embedding_dimension w).
Proof.
  unfold mockEmbedding, mock_vector.
  exact (array_from_random env embedding_dimension w).
Qed.

Lemma mockEmbeddings_spec (env : Env) (cs : list TextChunk) (w : World) :
  mockEmbeddings env cs w
  = (Returns (mock_vectors env (random_drawn w) (length cs)),
     advance_random (embedding_dimension * length cs) w).
Proof.
  unfold mockEmbeddings, mock_vectors. revert w.
  induction cs as [ | c cs IH]; intro w.
  - cbn [map_m length seq map]. rewrite Nat.mul_0_r, advance_random_0. reflexivity.
  - cbn [map_m length]. unfold bind at 1. rewrite mockEmbedding_spec.
    unfold bind at 1. rewrite IH. unfold ret.
    rewrite advance_random_add. f_equal.
    + f_equal. cbn [seq map]. f_equal.
      * rewrite Nat.mul_0_r, Nat.add_0_r. reflexivity.
      * rewrite <- seq_shift, map_map. apply map_ext. intro i.
        unfold advance_random. cbn [random_drawn]. f_equal. lia.
    + f_equal. lia.
Qed.

Lemma mock_vector_length (env : Env) (r : nat) :
  length (mock_vector env r) = embedding_dimension.
Proof. unfold mock_vector. rewrite length_map, length_seq. reflexivity. Qed.

Lemma mock_vectors_length (env : Env) (r n : nat) :
  length (mock_vectors env r n) = n.
Proof. unfold mock_vectors. rewrite length_map, length_seq. reflexivity. Qed.

End Fallback.

(** ** generateEmbeddings *)

Section Embeddings.
Open Scope string_scope.

Lemma advance_requests_0 (w : World) : advance_requests 0 w = w.
Proof. destruct w; reflexivity. Qed.

(** The loop of [generateEmbeddings]: either every request succeeds, or
    the loop throws at the first one that fails, having drawn no random
    value. *)
Lemma embed_loop_cases (env : Env) (cs : list TextChunk) :
  forall (acc : list (list float)) (w : World),
    let run :=
      for_each
        (fun embeddings chunk =>
           r <- request (embeddings_create env) (chunk_text chunk) ;;
           match r with
           | Some e => ret (embeddings ++ [e])%list
           | None => throw "embedding request failed"
           end)
        cs acc w in
    (exists es,
        run = (Returns (acc ++ es)%list, advance_requests (length cs) w)
        /\ live_embeddings env (requests_made w) cs es)
    \/ (exists message w' i c,
           run = (Throws message, w')
           /\ random_drawn w' = random_drawn w
           /\ nth_error cs i = Some c
           /\ embeddings_create env (requests_made w + i) (chunk_text c) = None).
Proof.
  induction cs as [ | c cs IH]; intros acc w; cbv zeta.
  - left. exists []. cbn [for_each length]. rewrite app_nil_r, advance_requests_0.
    split; [reflexivity | split; [reflexivity | ] ].
    intros i c0 H. destruct i; discriminate H.
  - set (w1 := advance_requests 1 w).
    assert (Hstep :
      for_each
        (fun embeddings chunk =>
           r <- request (embeddings_create env) (chunk_text chunk) ;;
           match r with
           | Some e => ret (embeddings ++ [e])%list
           | None => throw "embedding request failed"
           end)
        (c :: cs) acc w
      = match embeddings_create env (requests_made w) (chunk_text c) with
        | Some e =>
            for_each
              (fun embeddings chunk =>
                 r <- request (embeddings_create env) (chunk_text chunk) ;;
                 match r with
                 | Some e => ret (embeddings ++ [e])%list
                 | None => throw "embedding request failed"
                 end)
              cs (acc ++ [e])%list w1
        | None => (Throws "embedding request failed", w1)
        end).
    { cbn [for_each]. unfold bind at 1. unfold bind at 1. unfold request at 1.
      cbn beta iota.
      destruct (embeddings_create env (requests_made w) (chunk_text c)); reflexivity. }
    rewrite Hstep. clear Hstep.
    assert (Hw1 : requests_made w1 = S (requests_made w)) by reflexivity.
    assert (Hr1 : random_drawn w1 = random_drawn w) by reflexivity.
    assert (Ha1 : forall n, advance_requests n w1 = advance_requests (S n) w).
    { intro n. unfold w1, advance_requests. cbn. f_equal. lia. }
    clearbody w1.
    destruct (embeddings_create env (requests_made w) (chunk_text c)) as [e | ] eqn:Ee.
    + destruct (IH (acc ++ [e])%list w1) as [[es [Hrun [Hlen Hnth]]] | [m [w' [i [c' H]]]]].
      * left. exists (e :: es). rewrite Hrun. split; [ | split].
        -- rewrite <- app_assoc, Ha1. reflexivity.
        -- cbn [length]. rewrite Hlen. reflexivity.
        -- intros [ | i] c0 Hi; cbn [nth_error] in *.
           ++ injection Hi as <-. rewrite Nat.add_0_r. exact Ee.
           ++ rewrite <- (Hnth i c0 Hi), Hw1. f_equal. lia.
      * right. destruct H as [Hrun [Hr [Hi Hf]]].
        exists m, w', (S i), c'. rewrite Hrun.
        split; [reflexivity | split; [congruence | split; [exact Hi | ] ] ].
        rewrite <- Hf, Hw1. f_equal. lia.
    + right. exists "embedding request failed", w1, 0, c.
      split; [reflexivity | split; [exact Hr1 | split; [reflexivity | ] ] ].
      rewrite Nat.add_0_r. exact Ee.
Qed.

Lemma live_embeddings_all_succeed (env : Env) (first : nat) (cs : list TextChunk)
    (es : list (list float)) (i : nat) (c : TextChunk) :
  live_embeddings env first cs es -> nth_error cs i = Some c ->
  embeddings_create env (first + i) (chunk_text c) <> None.
Proof.
  intros [Hlen Hnth] Hi. rewrite (Hnth i c Hi).
  apply nth_error_Some. rewrite Hlen. apply nth_error_Some. congruence.
Qed.

(** [generateEmbeddings] always returns, one embedding per chunk; the
    embeddings are the provider's when the key is configured and every
    request succeeds, and the fallback vectors otherwise. *)
Lemma generateEmbeddings_spec (env : Env) (cs : list TextChunk) (w : World) :
  exists es w',
    generateEmbeddings env cs w = (Returns es, w')
    /\ length es = length cs
    /\ embeddings_aligned env cs es
    /\ (no_key env = true \/
        (exists i c, nth_error cs i = Some c
                     /\ embeddings_create env (requests_made w + i) (chunk_text c) = None) ->
        es = mock_vectors env (random_drawn w) (length cs)).
Proof.
  unfold generateEmbeddings. destruct (no_key env) eqn:Hkey.
  - rewrite mockEmbeddings_spec. eexists; eexists.
    split; [reflexivity | split; [apply mock_vectors_length | split] ].
    + right. eexists; reflexivity.
    + reflexivity.
  - unfold try_catch.
    destruct (embed_loop_cases env cs [] w) as [[es [Hrun Hlive]] | [m [w' [i [c H]]]]].
    + cbv zeta in Hrun. rewrite Hrun. cbn [app].
      exists es. eexists. split; [reflexivity | split; [apply Hlive | split] ].
      * left. split; [exact Hkey | exists (requests_made w); exact Hlive].
      * intros [Hk | [i [c [Hi Hf]]]]; [congruence | ].
        exfalso. exact (live_embeddings_all_succeed i Hlive Hi Hf).
    + destruct H as [Hrun [Hr _]]. cbv zeta in Hrun. rewrite Hrun.
      rewrite mockEmbeddings_spec. rewrite Hr. eexists; eexists.
      split; [reflexivity | split; [apply mock_vectors_length | split] ].
      * right. eexists; reflexivity.
      * reflexivity.
Qed.

End Embeddings.

(** ** processVideo *)

Section Ingestion.
Import JsString.
Open Scope string_scope.

Lemma getVideoMetadata_spec (env : Env) (videoId : string) (w : World) :
  getVideoMetadata env videoId w
  = (match oembed env (requests_made w) videoId with
     | OembedRejected e => Throws e
     | OembedNotOk => Throws "Failed to fetch video metadata"
     | OembedBody t => Returns t
     end,
     advance_requests 1 w).
Proof.
  unfold getVideoMetadata, bind, request.
  destruct (oembed env (requests_made w) videoId); reflexivity.
Qed.

(** [extractTranscript] never throws: a failure of the transcript service
    is replaced by the mock transcript of the video. *)
Lemma extractTranscript_spec (env : Env) (videoId : string) (w : World) :
  extractTranscript env videoId w
  = (Returns match fetchTranscript env (requests_made w) videoId with
             | Some items => Text (join " " items)
             | None => mockTranscripts videoId
             end,
     advance_requests 1 w).
Proof.
  unfold extractTranscript, try_catch, bind, request.
  destruct (fetchTranscript env (requests_made w) videoId); reflexivity.
Qed.

(** What a successful [processVideo] went through. *)
Lemma processVideo_returns_inv (env : Env) (url : string)
    (onStateChange : ProcessingState -> M unit) (w : World) (v : VideoData) (w' : World) :
  processVideo env url onStateChange w = (Returns v, w') ->
  exists videoId w1 metadata_title,
    extractVideoId url = Some videoId
    /\ onStateChange processing w = (Returns tt, w1)
    /\ oembed env (requests_made w1) videoId = OembedBody metadata_title
    /\ extractTranscript env videoId (advance_requests 1 w1)
       = (Returns (Text (transcript v)), advance_requests 2 w1)
    /\ (50 <= String.length (transcript v))%nat
    /\ chunks v = chunkText (transcript v)
    /\ chunks v <> []
    /\ generateEmbeddings env (chunks v) (advance_requests 2 w1) = (Returns (embeddings v), w')
    /\ id v = videoId /\ title v = metadata_title.
Proof.
  unfold processVideo. destruct (extractVideoId url) as [videoId | ]; [ | discriminate].
  unfold try_catch. unfold bind at 1.
  destruct (onStateChange processing w) as [[[] | e0] w1] eqn:Ecb; [ | discriminate].
  unfold bind at 1. rewrite getVideoMetadata_spec.
  destruct (oembed env (requests_made w1) videoId) as [e1 | | metadata_title] eqn:Eo;
    try discriminate.
  unfold bind at 1. rewrite extractTranscript_spec.
  set (t := match fetchTranscript env (requests_made (advance_requests 1 w1)) videoId with
            | Some items => Text (join " " items)
            | None => mockTranscripts videoId
            end).
  assert (Hw : advance_requests 1 (advance_requests 1 w1) = advance_requests 2 w1)
    by reflexivity.
  destruct t as [transcript_text | ] eqn:Et; [ | discriminate].
  unfold transcript_unusable.
  destruct (negb (truthy transcript_text) || (String.length transcript_text <? 50)%nat)
    eqn:Eshort; [discriminate | ].
  destruct (List.length (chunkText transcript_text) =? 0)%nat eqn:Eempty; [discriminate | ].
  unfold bind at 1.
  destruct (generateEmbeddings env (chunkText transcript_text)
              (advance_requests 1 (advance_requests 1 w1))) as [[es | e2] w2] eqn:Eg;
    [ | discriminate].
  unfold ret. intro H. injection H as <- <-. cbn [transcript chunks embeddings id title].
  exists videoId, w1, metadata_title.
  apply orb_false_elim in Eshort. destruct Eshort as [_ Elen].
  apply Nat.ltb_ge in Elen. apply Nat.eqb_neq in Eempty.
  repeat split; try reflexivity; try assumption.
  - rewrite extractTranscript_spec. fold t. rewrite Et, Hw. reflexivity.
  - intro H. rewrite H in Eempty. apply Eempty. reflexivity.
Qed.

(** C4.  The video data that [processVideo] returns holds one embedding per
    chunk, and embedding [i] is the one generated for chunk [i]: the
    provider's reply to the request made for that chunk or, in the fallback
    (no key, or a request that failed, be it in the middle of the list), the
    [i]-th of as many fallback vectors as there are chunks. *)
Theorem processVideo_embeddings_match_chunks (env : Env) (url : string)
    (onStateChange : ProcessingState -> M unit) (w : World) (v : VideoData) (w' : World) :
  processVideo env url onStateChange w = (Returns v, w') ->
  length (embeddings v) = length (chunks v)
  /\ embeddings_aligned env (chunks v) (embeddings v)
  /\ exists w0,
       generateEmbeddings env (chunks v) w0 = (Returns (embeddings v), w')
       /\ (no_key env = true \/
           (exists i c, nth_error (chunks v) i = Some c
                        /\ embeddings_create env (requests_made w0 + i) (chunk_text c) = None) ->
           embeddings v = mock_vectors env (random_drawn w0) (length (chunks v))).
Proof.
  intro Hrun.
  destruct (processVideo_returns_inv _ _ _ _ Hrun)
    as [videoId [w1 [t [_ [_ [_ [_ [_ [_ [_ [Hg _]]]]]]]]]]].
  destruct (generateEmbeddings_spec env (chunks v) (advance_requests 2 w1))
    as [es [w2 [Hg' [Hlen [Hal Hfb]]]]].
  rewrite Hg in Hg'. injection Hg' as <- <-.
  split; [exact Hlen | split; [exact Hal | ] ].
  exists (advance_requests 2 w1). split; [exact Hg | exact Hfb].
Qed.

End Ingestion.

(** ** The session across a submission *)

Section Session.
Import JsString.
Open Scope string_scope.

Lemma same_session_refl (w : World) : same_session w w.
Proof. repeat split. Qed.

Lemma same_session_trans (w1 w2 w3 : World) :
  same_session w1 w2 -> same_session w2 w3 -> same_session w1 w3.
Proof. unfold same_session. intuition congruence. Qed.

Lemma keeps_ret (A : Type) (a : A) : keeps_session (ret a).
Proof. intro w. apply same_session_refl. Qed.

Lemma keeps_throw (A : Type) (e : string) : keeps_session (@throw A e).
Proof. intro w. apply same_session_refl. Qed.

Lemma keeps_bind (A B : Type) (m : M A) (k : A -> M B) :
  keeps_session m -> (forall a, keeps_session (k a)) -> keeps_session (bind m k).
Proof.
  intros Hm Hk w. unfold bind. specialize (Hm w).
  destruct (m w) as [[a | e] w1]; cbn [snd] in *.
  - eapply same_session_trans; [exact Hm | apply Hk].
  - exact Hm.
Qed.

Lemma keeps_try_catch (A : Type) (m : M A) (h : string -> M A) :
  keeps_session m -> (forall e, keeps_session (h e)) -> keeps_session (try_catch m h).
Proof.
  intros Hm Hh w. unfold try_catch. specialize (Hm w).
  destruct (m w) as [[a | e] w1]; cbn [snd] in *.
  - exact Hm.
  - eapply same_session_trans; [exact Hm | apply Hh].
Qed.

Lemma keeps_request (A B : Type) (oracle : nat -> A -> B) (x : A) :
  keeps_session (request oracle x).
Proof. intro w. repeat split. Qed.

Lemma keeps_random (env : Env) : keeps_session (random env).
Proof. intro w. repeat split. Qed.

Lemma keeps_setProcessingState (s : ProcessingState) :
  keeps_session (setProcessingState s).
Proof. intro w. repeat split. Qed.

Lemma keeps_array_from (A : Type) (n : nat) (f : M A) :
  keeps_session f -> keeps_session (array_from n f).
Proof.
  intro Hf. induction n as [ | n IH]; cbn [array_from].
  - apply keeps_ret.
  - apply keeps_bind; [exact Hf | intro x].
    apply keeps_bind; [exact IH | intro xs]. apply keeps_ret.
Qed.

Lemma keeps_map_m (A B : Type) (f : A -> M B) (l : list A) :
  (forall x, keeps_session (f x)) -> keeps_session (map_m f l).
Proof.
  intro Hf. induction l as [ | x l IH]; cbn [map_m].
  - apply keeps_ret.
  - apply keeps_bind; [apply Hf | intro y].
    apply keeps_bind; [exact IH | intro ys]. apply keeps_ret.
Qed.

Lemma keeps_for_each (A B : Type) (body : B -> A -> M B) (l : list A) (acc : B) :
  (forall b x, keeps_session (body b x)) -> keeps_session (for_each body l acc).
Proof.
  intro Hb. revert acc. induction l as [ | x l IH]; intro acc; cbn [for_each].
  - apply keeps_ret.
  - apply keeps_bind; [apply Hb | intro acc']. apply IH.
Qed.

Lemma keeps_mockEmbedding (env : Env) : keeps_session (mockEmbedding env).
Proof.
  unfold mockEmbedding. apply keeps_array_from.
  apply keeps_bind; [apply keeps_random | intro r; apply keeps_ret].
Qed.

Lemma keeps_generateEmbeddings (env : Env) (cs : list TextChunk) :
  keeps_session (generateEmbeddings env cs).
Proof.
  unfold generateEmbeddings, mockEmbeddings. destruct (no_key env).
  - apply keeps_map_m. intros _. apply keeps_mockEmbedding.
  - apply keeps_try_catch.
    + apply keeps_for_each. intros b x.
      apply keeps_bind; [apply keeps_request | intros [e | ] ];
        [apply keeps_ret | apply keeps_throw].
    + intros _. apply keeps_map_m. intros _. apply keeps_mockEmbedding.
Qed.

(** [processVideo] leaves the session cells to its callback. *)
Lemma keeps_processVideo (env : Env) (url : string)
    (onStateChange : ProcessingState -> M unit) :
  (forall s, keeps_session (onStateChange s)) ->
  keeps_session (processVideo env url onStateChange).
Proof.
  intro Hcb. unfold processVideo.
  destruct (extractVideoId url) as [videoId | ]; [ | apply keeps_throw].
  apply keeps_try_catch; [ | intro e; apply keeps_throw].
  apply keeps_bind; [apply Hcb | intros _].
  apply keeps_bind.
  { unfold getVideoMetadata. apply keeps_bind; [apply keeps_request | ].
    intros [e | | t]; [apply keeps_throw | apply keeps_throw | apply keeps_ret]. }
  intro metadata_title.
  apply keeps_bind.
  { unfold extractTranscript. apply keeps_try_catch.
    - apply keeps_bind; [apply keeps_request | ].
      intros [items | ]; [apply keeps_ret | apply keeps_throw].
    - intros _. apply keeps_ret. }
  intros [transcript_text | ].
  - destruct (transcript_unusable (Text transcript_text)); [apply keeps_throw | ].
    destruct (List.length (chunkText transcript_text) =? 0)%nat; [apply keeps_throw | ].
    apply keeps_bind; [apply keeps_generateEmbeddings | intro es; apply keeps_ret].
  - destruct (transcript_unusable ObjectConstructor); apply keeps_throw.
Qed.

(** What [handleVideoSubmit] does when [processVideo] throws. *)
Lemma handleVideoSubmit_throws (env : Env) (url : string) (w : World)
    (message : string) (w1 : World) :
  processVideo env url setProcessingState (submitted w) = (Throws message, w1) ->
  exists w',
    handleVideoSubmit env url w = (Returns tt, w')
    /\ videoData w' = videoData w
    /\ messages w' = []
    /\ error_cell w' = Some message
    /\ processingState w' = error.
Proof.
  intro Hrun.
  pose proof (@keeps_processVideo env url setProcessingState
                keeps_setProcessingState (submitted w)) as Hkeep.
  rewrite Hrun in Hkeep. cbn [snd] in Hkeep. destruct Hkeep as [Hv [Hm _]].
  unfold handleVideoSubmit, try_catch.
  unfold bind at 1. unfold setError at 1, modify at 1. cbn beta iota.
  unfold bind at 1. unfold setProcessingState at 1, modify at 1. cbn beta iota.
  unfold bind at 1. unfold setMessages at 1, modify at 1. cbn beta iota.
  cbn [processingState videoData messages error_cell random_drawn requests_made clock_read].
  unfold bind at 1. fold (submitted w). rewrite Hrun.
  eexists. split; [reflexivity | ].
  cbn. repeat split; assumption.
Qed.

End Session.

(** ** The transcript precondition *)

Section Transcript.
Import JsString.
Open Scope string_scope.

(** Every mock transcript but the entry found for [constructor] is text of
    at least 50 characters that chunks into at least one chunk. *)
Lemma mockTranscripts_usable (videoId : string) :
  videoId <> "constructor" ->
  exists s, mockTranscripts videoId = Text s
            /\ transcript_unusable (Text s) = false
            /\ (50 <= String.length s)%nat
            /\ (List.length (chunkText s) =? 0)%nat = false.
Proof.
  intro Hid. unfold mockTranscripts.
  destruct (String.eqb videoId "dQw4w9WgXcQ");
    [exists mock_rick; repeat split; vm_compute; (reflexivity || lia) | ].
  destruct (String.eqb videoId "jNQXAC9IVRw");
    [exists mock_ml; repeat split; vm_compute; (reflexivity || lia) | ].
  destruct (String.eqb videoId "ScMzIvxBSi4");
    [exists mock_react; repeat split; vm_compute; (reflexivity || lia) | ].
  destruct (String.eqb_spec videoId "constructor") as [E | _]; [contradiction | ].
  exists mock_default; repeat split; vm_compute; (reflexivity || lia).
Qed.

Lemma short_transcript_unusable (s : string) :
  (String.length s < 50)%nat -> transcript_unusable (Text s) = true.
Proof.
  intro H. unfold transcript_unusable. apply orb_true_intro. right.
  apply Nat.ltb_lt. exact H.
Qed.

(** C7 (as amended).  For a URL with a video identifier whose metadata is
    available: a fetched transcript shorter than 50 characters makes
    [processVideo] throw, and [handleVideoSubmit] then stores no video data;
    a failure of the transcript service does not: [extractTranscript]
    replaces it by the mock transcript of the video, which (for every
    identifier but [constructor]) is long enough, and [processVideo]
    returns video data built from that substitute text. *)
Theorem processVideo_transcript_precondition (env : Env) (url videoId metadata_title : string)
    (w : World) :
  extractVideoId url = Some videoId ->
  (forall n, oembed env n videoId = OembedBody metadata_title) ->
  (forall items,
      (forall n, fetchTranscript env n videoId = Some items) ->
      (String.length (join " " items) < 50)%nat ->
      (exists w1,
          processVideo env url setProcessingState (submitted w)
          = (Throws "No transcript available for this video or transcript is too short", w1))
      /\ (exists w', handleVideoSubmit env url w = (Returns tt, w')
                     /\ videoData w' = videoData w
                     /\ processingState w' = error))
  /\ ((forall n, fetchTranscript env n videoId = None) ->
      (forall w0, extractTranscript env videoId w0
                  = (Returns (mockTranscripts videoId), advance_requests 1 w0))
      /\ (videoId <> "constructor" ->
          exists v w',
            processVideo env url setProcessingState w = (Returns v, w')
            /\ Text (transcript v) = mockTranscripts videoId)).
Proof.
  intros Hid Hmeta. split.
  - intros items Hfetch Hshort.
    assert (Hrun : exists w1,
               processVideo env url setProcessingState (submitted w)
               = (Throws "No transcript available for this video or transcript is too short",
                  w1)).
    { unfold processVideo. rewrite Hid. unfold try_catch.
      unfold bind at 1. unfold setProcessingState at 1, modify at 1. cbn beta iota.
      unfold bind at 1. rewrite getVideoMetadata_spec, Hmeta.
      unfold bind at 1. rewrite extractTranscript_spec, Hfetch.
      rewrite short_transcript_unusable by exact Hshort. unfold throw. eexists; reflexivity. }
    split; [exact Hrun | ].
    destruct Hrun as [w1 Hrun].
    destruct (handleVideoSubmit_throws _ _ _ Hrun) as [w' [H1 [H2 [_ [_ H5]]]]].
    exists w'. auto.
  - intro Hfail. split.
    + intro w0. rewrite extractTranscript_spec, Hfail. reflexivity.
    + intro Hc. destruct (mockTranscripts_usable Hc) as [s [Hs [Hu [_ Hne]]]].
      unfold processVideo. rewrite Hid. unfold try_catch.
      unfold bind at 1. unfold setProcessingState at 1, modify at 1. cbn beta iota.
      unfold bind at 1. rewrite getVideoMetadata_spec, Hmeta.
      unfold bind at 1. rewrite extractTranscript_spec, Hfail, Hs, Hu, Hne.
      unfold bind at 1.
      match goal with
      | |- context [generateEmbeddings env ?cs ?w0] =>
          destruct (generateEmbeddings_spec env cs w0) as [es [w2 [Hg _]]]; rewrite Hg
      end.
      unfold ret. eexists; eexists. split; reflexivity.
Qed.

(** The theorem at captions of 18 characters, and at a transcript service that
    is down. *)
Lemma processVideo_transcript_precondition_witness :
  (exists w1,
      processVideo short_transcript_env "https://youtu.be/dQw4w9WgXcQ" setProcessingState
                   (submitted session_world)
      = (Throws "No transcript available for this video or transcript is too short", w1))
  /\ (exists v w',
        processVideo demo_env "https://youtu.be/dQw4w9WgXcQ" setProcessingState
                     initial_world
        = (Returns v, w')
        /\ Text (transcript v) = mockTranscripts "dQw4w9WgXcQ").
Proof.
  split.
  - apply (proj1 (@processVideo_transcript_precondition short_transcript_env
                    "https://youtu.be/dQw4w9WgXcQ" "dQw4w9WgXcQ"
                    "Never Gonna Give You Up" session_world eq_refl (fun _ => eq_refl))
             ["Too short"; "to chunk"]).
    + intro n. reflexivity.
    + cbn. lia.
  - apply (proj2 (@processVideo_transcript_precondition demo_env
                    "https://youtu.be/dQw4w9WgXcQ" "dQw4w9WgXcQ"
                    "Never Gonna Give You Up" initial_world eq_refl (fun _ => eq_refl))).
    + intro n. reflexivity.
    + intro H. discriminate H.
Defined.

(** C7 (as stated) fails: the transcript service is down, and [processVideo]
    returns video data whose transcript is the mock text. *)
Lemma processVideo_substitutes_transcript :
  fetchTranscript demo_env 1 "dQw4w9WgXcQ" = None
  /\ match fst (processVideo demo_env "https://youtu.be/dQw4w9WgXcQ"
                  setProcessingState initial_world) with
     | Returns v => transcript v = mock_rick /\ id v = "dQw4w9WgXcQ"
     | Throws _ => False
     end.
Proof.
  split; [reflexivity | ]. vm_compute. split; reflexivity.
Qed.

(** C4 at a run that returns: the demo environment and a known video. *)
Lemma processVideo_embeddings_match_chunks_witness :
  exists v w',
    processVideo demo_env "https://youtu.be/dQw4w9WgXcQ" setProcessingState initial_world
    = (Returns v, w')
    /\ length (embeddings v) = length (chunks v).
Proof.
  destruct (processVideo demo_env "https://youtu.be/dQw4w9WgXcQ" setProcessingState
              initial_world) as [[v | e] w'] eqn:E.
  - exists v, w'. split; [reflexivity | ].
    exact (proj1 (@processVideo_embeddings_match_chunks demo_env
                    "https://youtu.be/dQw4w9WgXcQ" setProcessingState initial_world
                    v w' E)).
  - exfalso. vm_compute in E. discriminate E.
Defined.

End Transcript.

(** ** The fallback is drawn from the random source *)

Section FallbackEmbedding.
Open Scope string_scope.

(** C8 (as amended).  Without an API key the embedder returns a vector of
    1536 components, each a value of [Math.random] minus 0.5, drawn from the
    current position of the random source, which then advances: the vector
    depends on that position and not on the text, and embedding a chunk list
    draws one such vector after the other. *)
Theorem fallback_embedding (env : Env) (query : string) (cs : list TextChunk) (w : World) :
  no_key env = true ->
  generateQueryEmbedding env query w
  = (Returns (mock_vector env (random_drawn w)), advance_random embedding_dimension w)
  /\ length (mock_vector env (random_drawn w)) = 1536
  /\ (forall k, (k < 1536)%nat ->
        nth_error (mock_vector env (random_drawn w)) k
        = Some (math_random env (random_drawn w + k) - 0.5)%float)
  /\ (forall query', generateQueryEmbedding env query' w = generateQueryEmbedding env query w)
  /\ generateEmbeddings env cs w
     = (Returns (mock_vectors env (random_drawn w) (length cs)),
        advance_random (embedding_dimension * length cs) w).
Proof.
  intro Hkey. unfold generateQueryEmbedding, generateEmbeddings. rewrite Hkey.
  split; [apply mockEmbedding_spec | ].
  split; [apply mock_vector_length | ].
  split; [ | split; [reflexivity | apply mockEmbeddings_spec] ].
  intros k Hk. unfold mock_vector.
  rewrite nth_error_map, nth_error_seq.
  replace (k <? embedding_dimension)%nat with true by (symmetry; apply Nat.ltb_lt; exact Hk).
  reflexivity.
Qed.

(** The theorem at the demo environment. *)
Lemma fallback_embedding_witness :
  generateQueryEmbedding demo_env "what?" initial_world
  = (Returns (mock_vector demo_env 0), advance_random embedding_dimension initial_world).
Proof.
  exact (proj1 (@fallback_embedding demo_env "what?" [] initial_world eq_refl)).
Defined.

(** C8 (as stated) fails: two embeddings of the same text, one after the
    other, differ as soon as the random source does not repeat. *)
Lemma fallback_embedding_not_repeatable :
  no_key demo_env = true
  /\ fst (generateQueryEmbedding demo_env "what?" initial_world)
     <> fst (generateQueryEmbedding demo_env "what?"
               (snd (generateQueryEmbedding demo_env "what?" initial_world))).
Proof.
  split; [reflexivity | ].
  unfold generateQueryEmbedding. cbn [no_key demo_env apiKey].
  rewrite !mockEmbedding_spec.
  cbn [fst snd]. intro H.
  apply (f_equal (fun o => match o with
                           | Returns (x :: _) => (x <? -0x1.8p-2)%float
                           | _ => false
                           end)) in H.
  vm_compute in H. discriminate H.
Qed.

End FallbackEmbedding.

(** ** Strings *)

Section StringFacts.
Import JsString.
Open Scope string_scope.

Lemma append_nil_r (s : string) : s ++ "" = s.
Proof. induction s as [ | c s IH]; cbn; [reflexivity | rewrite IH; reflexivity]. Qed.

Lemma append_assoc (s t u : string) : (s ++ t) ++ u = s ++ t ++ u.
Proof. induction s as [ | c s IH]; cbn; [reflexivity | rewrite IH; reflexivity]. Qed.

Lemma length_append (s t : string) :
  String.length (s ++ t) = String.length s + String.length t.
Proof. induction s as [ | c s IH]; cbn; [reflexivity | rewrite IH; reflexivity]. Qed.

Lemma trimStart_cases (s : string) :
  trimStart s = "" \/ exists c r, trimStart s = String c r /\ is_white c = false.
Proof.
  induction s as [ | c s IH]; cbn [trimStart].
  - left; reflexivity.
  - destruct (is_white c) eqn:E; [exact IH | right; eauto].
Qed.

Lemma trimEnd_solid_head (c : ascii) (r : string) :
  is_white c = false -> exists r', trimEnd (String c r) = String c r'.
Proof.
  intro Hc. cbn [trimEnd]. destruct (trimEnd r); rewrite ?Hc; eauto.
Qed.

Lemma trimEnd_solid_last (d : ascii) (after : string) :
  is_white d = false -> trimEnd (String d after) = String d (trimEnd after).
Proof.
  intro Hd. cbn [trimEnd]. destruct (trimEnd after); rewrite ?Hd; reflexivity.
Qed.

Lemma trimEnd_append (s t : string) :
  trimEnd t <> "" -> trimEnd (s ++ t) = s ++ trimEnd t.
Proof.
  intro Ht. induction s as [ | c s IH]; cbn [append trimEnd]; [reflexivity | ].
  rewrite IH. destruct (s ++ trimEnd t) eqn:E; [ | reflexivity].
  exfalso. destruct s; cbn in E; [apply Ht; exact E | discriminate E].
Qed.

(** Trimming removes nothing of a solid piece. *)
Lemma trimStart_keeps (before s after : string) :
  solid s -> exists before', trimStart (before ++ s ++ after) = before' ++ s ++ after.
Proof.
  intros [c [body [d [Hc [_ [Hs _]]]]]].
  induction before as [ | a before IH]; cbn [append trimStart].
  - exists "". subst s. cbn [append trimStart]. rewrite Hc. reflexivity.
  - destruct (is_white a); [exact IH | ].
    exists (String a before). reflexivity.
Qed.

Lemma trimEnd_keeps (before s after : string) :
  solid s -> exists after', trimEnd (before ++ s ++ after) = before ++ s ++ after'.
Proof.
  intros [c [body [d [_ [Hd [_ [body' Hs]]]]]]].
  exists (trimEnd after). rewrite Hs at 1 2. rewrite append_assoc. cbn [append].
  rewrite <- append_assoc, trimEnd_append.
  - rewrite trimEnd_solid_last by exact Hd. rewrite append_assoc. cbn [append].
    rewrite append_assoc. reflexivity.
  - rewrite trimEnd_solid_last by exact Hd. discriminate.
Qed.

Lemma trim_keeps (s t : string) : solid s -> occurs_in s t -> occurs_in s (trim t).
Proof.
  intros Hs [before [after ->]]. unfold trim.
  destruct (@trimStart_keeps before s after Hs) as [before' ->].
  destruct (@trimEnd_keeps before' s after Hs) as [after' ->].
  exists before', after'. reflexivity.
Qed.

Lemma occurs_in_nonempty (s t : string) : solid s -> occurs_in s t -> t <> "".
Proof.
  intros [c [body [d [_ [_ [Hs _]]]]]] [before [after ->]] H. subst s.
  destruct before; discriminate H.
Qed.

(** A sentence, as the loop appends it: the trimmed unit and a full stop. *)
Lemma sentence_solid (raw : string) :
  (0 <? String.length (trim raw))%nat = true -> solid (trim raw ++ ".").
Proof.
  intro Hne. unfold trim in *.
  destruct (trimStart_cases raw) as [E | [c [r [E Hc]]]]; rewrite E in *.
  - discriminate Hne.
  - destruct (@trimEnd_solid_head c r Hc) as [r' Er]. rewrite Er.
    exists c, (r' ++ "."), "."%char.
    split; [exact Hc | split; [reflexivity | split; [reflexivity | ] ] ].
    exists (String c r'). reflexivity.
Qed.

End StringFacts.

(** ** chunkText *)

Section ChunkFacts.
Import JsString.
Open Scope string_scope.

Lemma all_chars_append (p : ascii -> bool) (s t : string) :
  all_chars p (s ++ t) = all_chars p s && all_chars p t.
Proof.
  induction s as [ | c s IH]; cbn [append all_chars]; [reflexivity | ].
  rewrite IH, andb_assoc. reflexivity.
Qed.

Lemma interleave_cons_char (c : ascii) (first : string) (rest seps : list string) :
  String c (interleave (first :: rest) seps) = interleave (String c first :: rest) seps.
Proof. destruct seps; reflexivity. Qed.

(** The pieces that [split] returns for a character-class pattern: between
    them stand the non-empty runs of characters of the class, and no piece
    holds a character of the class. *)
Lemma split_runs_from_spec (cls : ascii -> bool) (s : string) :
  forall (cur : string) (in_run : bool),
    (in_run = true -> cur = "") ->
    exists lead first rest seps,
      s = lead ++ interleave (first :: rest) seps
      /\ split_runs_from cls cur in_run s = (cur ++ first) :: rest
      /\ all_chars cls lead = true
      /\ (in_run = false -> lead = "")
      /\ length seps = length rest
      /\ Forall (fun sep => sep <> "" /\ all_chars cls sep = true) seps
      /\ Forall (fun p => all_chars (fun c => negb (cls c)) p = true) (first :: rest).
Proof.
  induction s as [ | c s IH]; intros cur in_run Hrun.
  - exists "", "", [], []. cbn. rewrite append_nil_r.
    repeat split; auto.
  - cbn [split_runs_from]. destruct (cls c) eqn:Ec.
    + destruct (IH "" true (fun _ => eq_refl))
        as [lead [first [rest [seps [Hs [Hp [Hl [_ [Hlen [Hseps Hpieces]]]]]]]]]].
      cbn [append] in Hp.
      destruct in_run.
      * exists (String c lead), first, rest, seps.
        split; [rewrite Hs at 1; reflexivity | ].
        split; [rewrite (Hrun eq_refl), Hp; reflexivity | ].
        split; [cbn [all_chars]; rewrite Ec, Hl; reflexivity | ].
        split; [discriminate | ].
        split; [exact Hlen | split; [exact Hseps | exact Hpieces] ].
      * exists "", "", (first :: rest), (String c lead :: seps).
        split; [rewrite Hs at 1; reflexivity | ].
        split; [rewrite Hp, append_nil_r; reflexivity | ].
        split; [reflexivity | ].
        split; [reflexivity | ].
        split; [cbn [length]; rewrite Hlen; reflexivity | ].
        split.
        -- constructor; [ | exact Hseps]. split; [discriminate | ].
           cbn [all_chars]. rewrite Ec, Hl. reflexivity.
        -- constructor; [reflexivity | exact Hpieces].
    + destruct (IH (cur ++ String c "") false (fun H => False_ind _ (diff_false_true H)))
        as [lead [first [rest [seps [Hs [Hp [_ [Hl [Hlen [Hseps Hpieces]]]]]]]]]].
      specialize (Hl eq_refl). subst lead. cbn [append] in Hs.
      exists "", (String c first), rest, seps.
      split; [cbn [append]; rewrite <- interleave_cons_char, <- Hs; reflexivity | ].
      split; [rewrite Hp, append_assoc; reflexivity | ].
      split; [reflexivity | ].
      split; [reflexivity | ].
      split; [exact Hlen | split; [exact Hseps | ] ].
      pose proof (Forall_inv Hpieces) as Hf. apply Forall_inv_tail in Hpieces.
      constructor; [ | exact Hpieces]. cbn [all_chars]. rewrite Ec, Hf. reflexivity.
Qed.

Lemma split_runs_spec (cls : ascii -> bool) (s : string) :
  exists seps,
    s = interleave (split_runs cls s) seps
    /\ S (length seps) = length (split_runs cls s)
    /\ Forall (fun sep => sep <> "" /\ all_chars cls sep = true) seps
    /\ Forall (fun p => all_chars (fun c => negb (cls c)) p = true) (split_runs cls s).
Proof.
  unfold split_runs.
  destruct (@split_runs_from_spec cls s "" false (fun H => False_ind _ (diff_false_true H)))
    as [lead [first [rest [seps [Hs [Hp [_ [Hl [Hlen [Hseps Hpieces]]]]]]]]]].
  rewrite (Hl eq_refl) in Hs. cbn [append] in Hs, Hp. rewrite Hp.
  exists seps. cbn [length]. rewrite Hlen. auto.
Qed.

(** [words.slice(-n)] for a positive [n]: the last [n] words. *)
Lemma slice_from_last (A : Type) (n : Z) (l : list A) :
  (1 <= n)%Z -> JsArray.slice_from (- n) l = last_n (Z.to_nat n) l.
Proof.
  intro Hn. unfold JsArray.slice_from, JsArray.slice, JsArray.normalize_index, last_n.
  replace (- n <? 0)%Z with true by (symmetry; apply Z.ltb_lt; lia).
  replace (Z.of_nat (length l) <? 0)%Z with false by (symmetry; apply Z.ltb_ge; lia).
  rewrite Z.min_id.
  replace (Z.to_nat (Z.max (Z.of_nat (length l) + - n) 0)) with (length l - Z.to_nat n)%nat
    by lia.
  apply firstn_all2. rewrite length_skipn. lia.
Qed.

(** With [n = 0], [slice(-0)] is [slice(0)]: the whole list. *)
Lemma slice_from_zero (A : Type) (l : list A) : JsArray.slice_from (- 0) l = l.
Proof.
  unfold JsArray.slice_from, JsArray.slice, JsArray.normalize_index.
  cbn [Z.opp Z.ltb Z.compare].
  replace (Z.of_nat (length l) <? 0)%Z with false by (symmetry; apply Z.ltb_ge; lia).
  rewrite Z.min_id, Z.min_l by lia. cbn [Z.to_nat skipn]. rewrite Z.sub_0_r, Nat2Z.id.
  apply firstn_all.
Qed.

End ChunkFacts.

Section ChunkLoop.
Import JsString.
Open Scope string_scope.

Variables chunkSize overlap : Z.

Lemma chunk_step_closes (st : chunk_state) (raw : string) :
  closes chunkSize (currentChunk st) (sentence_of raw) = true ->
  chunk_step chunkSize overlap st raw
  = mk_chunk_state
      (cs_chunks st
       ++ [mkTextChunk ("chunk-" ++ of_nat (chunkId st)) (trim (currentChunk st))])
      (join " " (JsArray.slice_from (- overlap) (split_char " " (currentChunk st)))
       ++ " " ++ sentence_of raw)
      (S (chunkId st)).
Proof.
  unfold closes, chunk_step, sentence_of, push_chunk. intro H. rewrite H. reflexivity.
Qed.

Lemma chunk_step_appends (st : chunk_state) (raw : string) :
  closes chunkSize (currentChunk st) (sentence_of raw) = false ->
  chunk_step chunkSize overlap st raw
  = mk_chunk_state
      (cs_chunks st)
      (currentChunk st ++ (if truthy (currentChunk st) then " " else "") ++ sentence_of raw)
      (chunkId st).
Proof.
  unfold closes, chunk_step, sentence_of. intro H. rewrite H. reflexivity.
Qed.

Lemma push_well_numbered (st : chunk_state) (buffer : string) :
  well_numbered st ->
  well_numbered (mk_chunk_state (push_chunk st) buffer (S (chunkId st))).
Proof.
  intros [Hid Hnth]. unfold well_numbered, push_chunk. cbn [chunkId cs_chunks].
  split.
  - rewrite length_app. cbn. lia.
  - intros i c Hi.
    destruct (Nat.lt_ge_cases i (length (cs_chunks st))) as [Hlt | Hge].
    + rewrite nth_error_app1 in Hi by exact Hlt. apply Hnth, Hi.
    + rewrite nth_error_app2 in Hi by exact Hge.
      destruct (i - length (cs_chunks st)) as [ | k] eqn:Ek.
      * cbn in Hi. injection Hi as <-. cbn [chunk_id].
        replace i with (chunkId st) by lia. reflexivity.
      * cbn in Hi. destruct k; discriminate Hi.
Qed.

Lemma chunk_step_well_numbered (st : chunk_state) (raw : string) :
  well_numbered st -> well_numbered (chunk_step chunkSize overlap st raw).
Proof.
  intro H. destruct (closes chunkSize (currentChunk st) (sentence_of raw)) eqn:E.
  - rewrite chunk_step_closes by exact E. apply (push_well_numbered _ H).
  - rewrite chunk_step_appends by exact E. exact H.
Qed.

Lemma chunk_loop_well_numbered (units : list string) (st : chunk_state) :
  well_numbered st -> well_numbered (chunk_loop chunkSize overlap units st).
Proof.
  revert st. induction units as [ | raw units IH]; intros st H; cbn.
  - exact H.
  - apply IH, chunk_step_well_numbered, H.
Qed.

Lemma occurs_in_extend (s t before after : string) :
  occurs_in s t -> occurs_in s (before ++ t ++ after).
Proof.
  intros [b [a ->]]. exists (before ++ b), (a ++ after).
  rewrite !append_assoc. reflexivity.
Qed.

Lemma chunk_step_holds (st : chunk_state) (units : list string) (raw : string) :
  Forall (fun u => (0 <? String.length (trim u))%nat = true) (units ++ [raw]) ->
  holds_whole st units ->
  holds_whole (chunk_step chunkSize overlap st raw) (units ++ [raw]).
Proof.
  intros Hsolid Hold u Hu.
  assert (Hu_solid : solid (sentence_of u)).
  { apply sentence_solid. rewrite Forall_forall in Hsolid. apply Hsolid, Hu. }
  apply in_app_or in Hu.
  destruct (closes chunkSize (currentChunk st) (sentence_of raw)) eqn:E.
  - rewrite chunk_step_closes by exact E. cbn [cs_chunks currentChunk].
    destruct Hu as [Hu | [<- | []]].
    + left. destruct (Hold u Hu) as [[c [Hc Hocc]] | Hocc].
      * exists c. split; [apply in_or_app; left; exact Hc | exact Hocc].
      * eexists. split; [apply in_or_app; right; left; reflexivity | ].
        cbn [chunk_text]. apply trim_keeps; assumption.
    + right. eexists; exists "". rewrite append_nil_r, append_assoc. reflexivity.
  - rewrite chunk_step_appends by exact E. cbn [cs_chunks currentChunk].
    destruct Hu as [Hu | [<- | []]].
    + destruct (Hold u Hu) as [Hc | Hocc]; [left; exact Hc | right].
      exact (@occurs_in_extend _ _ ""
               ((if truthy (currentChunk st) then " " else "") ++ sentence_of raw) Hocc).
    + right. eexists; exists "". rewrite append_nil_r, append_assoc. reflexivity.
Qed.

Lemma chunk_loop_holds (units done : list string) (st : chunk_state) :
  Forall (fun u => (0 <? String.length (trim u))%nat = true) (done ++ units) ->
  holds_whole st done ->
  holds_whole (chunk_loop chunkSize overlap units st) (done ++ units).
Proof.
  revert done st. induction units as [ | raw units IH]; intros done st Hsolid H.
  - rewrite app_nil_r. exact H.
  - cbn [chunk_loop fold_left].
    replace (done ++ raw :: units)%list with ((done ++ [raw]) ++ units)%list in *
      by (rewrite <- app_assoc; reflexivity).
    apply IH; [exact Hsolid | ].
    apply chunk_step_holds; [ | exact H].
    rewrite Forall_app in Hsolid. tauto.
Qed.

End ChunkLoop.

Section ChunkText.
Import JsString.
Open Scope string_scope.

Lemma sentences_of_solid (text : string) :
  Forall (fun u => (0 <? String.length (trim u))%nat = true) (sentences_of text).
Proof.
  apply Forall_forall. intros u Hu. unfold sentences_of in Hu.
  apply filter_In in Hu. tauto.
Qed.

Lemma occurs_in_length (s t : string) :
  occurs_in s t -> (String.length s <= String.length t)%nat.
Proof. intros [b [a ->]]. rewrite !length_append. lia. Qed.

Lemma truthy_nonempty (s : string) : s <> "" -> truthy s = true.
Proof. destruct s; [congruence | reflexivity]. Qed.

Lemma truthy_eqb (s : string) : truthy s = negb (String.eqb s "").
Proof. destruct s; reflexivity. Qed.

Lemma closes_by_rule (L : Z) (cur sentence : string) :
  ((Z.of_nat (String.length cur) + Z.of_nat (String.length sentence) >? L)%Z
   && (0 <? String.length cur)%nat)
  = ((L <? Z.of_nat (String.length cur + String.length sentence))%Z
     && negb (String.eqb cur "")).
Proof.
  rewrite Z.gtb_ltb, Nat2Z.inj_add. f_equal. destruct cur; reflexivity.
Qed.

(** The loop of the source and the rule produce the same chunks, from any
    state of the loop. *)
Lemma chunk_loop_by_rule (chunkSize overlap : Z) (units : list string) :
  (1 <= overlap)%Z ->
  forall st,
    (if truthy (trim (currentChunk (chunk_loop chunkSize overlap units st)))
     then push_chunk (chunk_loop chunkSize overlap units st)
     else cs_chunks (chunk_loop chunkSize overlap units st))
    = (cs_chunks st
       ++ chunks_by_rule chunkSize (Z.to_nat overlap) units (currentChunk st) (chunkId st))%list.
Proof.
  intro Hoverlap. induction units as [ | raw units IH]; intro st.
  - cbn [chunk_loop fold_left chunks_by_rule]. rewrite truthy_eqb.
    destruct (String.eqb (trim (currentChunk st)) ""); cbn [negb].
    + rewrite app_nil_r. reflexivity.
    + reflexivity.
  - change (chunk_loop chunkSize overlap (raw :: units) st)
      with (chunk_loop chunkSize overlap units (chunk_step chunkSize overlap st raw)).
    rewrite IH. cbn [chunks_by_rule]. unfold chunk_step. cbv zeta.
    fold (sentence_of raw). rewrite closes_by_rule.
    destruct ((chunkSize <? Z.of_nat (String.length (currentChunk st)
                                      + String.length (sentence_of raw)))%Z
              && negb (String.eqb (currentChunk st) "")).
    + cbn [cs_chunks currentChunk chunkId]. unfold push_chunk.
      rewrite <- app_assoc, slice_from_last by exact Hoverlap. reflexivity.
    + cbn [cs_chunks currentChunk chunkId].
      destruct (currentChunk st); reflexivity.
Qed.

(** C3 (as amended).  [chunkText] splits the transcript at the runs of
    '.', '!' and '?' and drops the units that are empty once trimmed.  It
    closes the current chunk (the trimmed buffer, numbered in sequence from
    0) exactly when the lengths of the buffer and of the next sentence add
    up to more than the bound [chunkSize] (the space that would join them is
    not counted) and the buffer is not empty; for an overlap of at least one
    word the next buffer is then the last [overlap] words of the closed
    buffer followed by the sentence: the chunks that [chunkText] returns are
    those that this rule produces from the sentences, one after the other
    from the empty buffer.  No unit gives no chunk, and every sentence stands
    whole in some chunk, however long it is. *)
Theorem chunkText_behaviour (text : string) (chunkSize overlap : Z) :
  (1 <= overlap)%Z ->
  (exists seps,
      text = interleave (split_runs is_terminator text) seps
      /\ S (length seps) = length (split_runs is_terminator text)
      /\ Forall (fun sep => sep <> "" /\ all_chars is_terminator sep = true) seps
      /\ Forall (fun p => all_chars (fun c => negb (is_terminator c)) p = true)
                (split_runs is_terminator text))
  /\ sentences_of text
     = filter (fun s => (0 <? String.length (trim s))%nat)
              (split_runs is_terminator text)
  /\ chunkTextWith text chunkSize overlap
     = chunks_by_rule chunkSize (Z.to_nat overlap) (sentences_of text) "" 0
  /\ (forall st raw,
        closes chunkSize (currentChunk st) (sentence_of raw) = true ->
        chunk_step chunkSize overlap st raw
        = mk_chunk_state
            (cs_chunks st
             ++ [mkTextChunk ("chunk-" ++ of_nat (chunkId st)) (trim (currentChunk st))])
            (join " " (last_n (Z.to_nat overlap) (split_char " " (currentChunk st)))
             ++ " " ++ sentence_of raw)
            (S (chunkId st)))
  /\ (forall st raw,
        closes chunkSize (currentChunk st) (sentence_of raw) = false ->
        chunk_step chunkSize overlap st raw
        = mk_chunk_state
            (cs_chunks st)
            (currentChunk st ++ (if truthy (currentChunk st) then " " else "")
             ++ sentence_of raw)
            (chunkId st))
  /\ (forall i c,
        nth_error (chunkTextWith text chunkSize overlap) i = Some c ->
        chunk_id c = "chunk-" ++ of_nat i)
  /\ (sentences_of text = [] -> chunkTextWith text chunkSize overlap = [])
  /\ (forall raw,
        In raw (sentences_of text) ->
        exists c,
          In c (chunkTextWith text chunkSize overlap)
          /\ occurs_in (sentence_of raw) (chunk_text c)
          /\ (String.length (sentence_of raw) <= String.length (chunk_text c))%nat)
  /\ chunkText text = chunkTextWith text 500 50.
Proof.
  intro Hoverlap.
  split; [apply split_runs_spec | ].
  split; [reflexivity | ].
  split.
  { unfold chunkTextWith. cbv zeta.
    rewrite (@chunk_loop_by_rule chunkSize overlap (sentences_of text) Hoverlap).
    reflexivity. }
  split.
  { intros st raw H. rewrite chunk_step_closes by exact H.
    rewrite slice_from_last by exact Hoverlap. reflexivity. }
  split; [intros st raw H; apply chunk_step_appends; exact H | ].
  set (st := chunk_loop chunkSize overlap (sentences_of text) (mk_chunk_state [] "" 0)).
  assert (Hnum : well_numbered st).
  { apply chunk_loop_well_numbered. split; [reflexivity | ].
    intros i c H. destruct i; discriminate H. }
  assert (Hwhole : holds_whole st (sentences_of text)).
  { apply (@chunk_loop_holds chunkSize overlap (sentences_of text) [] _).
    - apply sentences_of_solid.
    - intros raw []. }
  assert (Hout : chunkTextWith text chunkSize overlap
                 = if truthy (trim (currentChunk st)) then push_chunk st else cs_chunks st)
    by reflexivity.
  split.
  { intros i c. rewrite Hout. destruct (truthy (trim (currentChunk st))).
    - apply (proj2 (push_well_numbered "" Hnum)).
    - apply (proj2 Hnum). }
  split.
  { intro Hnone. rewrite Hout. unfold st. rewrite Hnone. reflexivity. }
  split; [ | reflexivity].
  intros raw Hraw.
  assert (Hsolid : solid (sentence_of raw)).
  { apply sentence_solid.
    exact (proj1 (Forall_forall _ _) (sentences_of_solid text) raw Hraw). }
  assert (Hin : exists c, In c (chunkTextWith text chunkSize overlap)
                          /\ occurs_in (sentence_of raw) (chunk_text c)).
  { rewrite Hout. destruct (Hwhole raw Hraw) as [[c [Hc Hocc]] | Hocc].
    - exists c. split; [ | exact Hocc].
      destruct (truthy (trim (currentChunk st))); [ | exact Hc].
      apply in_or_app. left. exact Hc.
    - pose proof (trim_keeps Hsolid Hocc) as Htrim.
      rewrite (truthy_nonempty (occurs_in_nonempty Hsolid Htrim)).
      eexists. split; [apply in_or_app; right; left; reflexivity | exact Htrim]. }
  destruct Hin as [c [Hc Hocc]]. exists c.
  split; [exact Hc | split; [exact Hocc | apply occurs_in_length, Hocc] ].
Qed.

(** The theorem at a transcript of four sentences, with a bound of 10
    characters and an overlap of one word: two chunks are closed, each when
    the next sentence meets a buffer of 11 characters, and the third is what
    the buffer holds at the end. *)
Lemma chunkText_behaviour_witness :
  chunkTextWith "aaaa. bbbb! cccc? dddd." 10 1
  = [mkTextChunk "chunk-0" "aaaa. bbbb.";
     mkTextChunk "chunk-1" "bbbb. cccc.";
     mkTextChunk "chunk-2" "cccc. dddd."].
Proof.
  refine (eq_trans
            (proj1 (proj2 (proj2 (@chunkText_behaviour "aaaa. bbbb! cccc? dddd." 10 1 _))))
            eq_refl).
  lia.
Defined.

(** C3 (as stated) fails at the bound: with a bound of 10 the buffer
    "aaaa." and the sentence "bbbb." would give a buffer of 11 characters,
    yet no chunk is closed and the one chunk produced has 11 characters; the
    chunk is closed only by the sentence after it.  With an overlap of 0,
    [slice(-0)] keeps every word: the whole closed buffer is carried over,
    not its last 0 words. *)
Lemma chunkText_closes_late :
  would_exceed 10 "aaaa." (sentence_of " bbbb")
  /\ cs_chunks (chunk_step 10 50 (mk_chunk_state [] "aaaa." 0) " bbbb") = []
  /\ chunkTextWith "aaaa. bbbb." 10 50 = [mkTextChunk "chunk-0" "aaaa. bbbb."]
  /\ chunkTextWith "aaaa. bbbb. cccc." 10 50
     = [mkTextChunk "chunk-0" "aaaa. bbbb."; mkTextChunk "chunk-1" "aaaa. bbbb. cccc."]
  /\ currentChunk (chunk_step 5 0 (mk_chunk_state [] "aa bb cc." 0) " dd")
     = "aa bb cc. dd."
  /\ chunkTextWith "aa bb cc. dd." 5 0
     = [mkTextChunk "chunk-0" "aa bb cc."; mkTextChunk "chunk-1" "aa bb cc. dd."]
  /\ join " " (last_n 0 (split_char " " "aa bb cc.")) ++ " " ++ sentence_of " dd"
     = " dd.".
Proof.
  split; [split; [reflexivity | discriminate] | ].
  repeat split.
Qed.

End ChunkText.

(* ------------------------------------------------------------------ *)
(** ** [extractVideoId] and the validation of the form *)

Section UrlFacts.
Import JsString.
Open Scope string_scope.

Lemma prefix_split (p s : string) :
  String.prefix p s = true -> s = p ++ drop (String.length p) s.
Proof.
  revert s; induction p as [|a p IH]; intros s H.
  - destruct s; reflexivity.
  - destruct s as [|b s]; [discriminate|].
    cbn in H. destruct (ascii_dec a b) as [->|]; [|discriminate].
    cbn. f_equal. apply IH, H.
Qed.

Lemma prefix_append (p s : string) : String.prefix p (p ++ s) = true.
Proof.
  induction p as [|a p IH]; cbn.
  - destruct s; reflexivity.
  - destruct (ascii_dec a a); [exact IH|congruence].
Qed.

Lemma drop_append (p s : string) : drop (String.length p) (p ++ s) = s.
Proof. induction p as [|a p IH]; cbn; [destruct s; reflexivity|exact IH]. Qed.

Lemma take_id_inv (n : nat) :
  forall s v, take_id n s = Some v ->
    String.length v = n /\ all_chars is_id_char v = true /\ exists rest, s = v ++ rest.
Proof.
  induction n as [|n IH]; intros s v H.
  - cbn in H. injection H as <-. repeat split. exists s. reflexivity.
  - cbn in H. destruct s as [|c s]; [discriminate|].
    destruct (is_id_char c) eqn:Hc; [|discriminate].
    destruct (take_id n s) as [v'|] eqn:Hv; [|discriminate].
    cbn in H. injection H as <-.
    destruct (IH _ _ Hv) as (Hlen & Hall & rest & ->).
    cbn. rewrite Hc, Hall, Hlen. repeat split. exists rest. reflexivity.
Qed.

Lemma take_id_append (v rest : string) :
  all_chars is_id_char v = true -> take_id (String.length v) (v ++ rest) = Some v.
Proof.
  induction v as [|c v IH]; cbn; intros H; [reflexivity|].
  apply andb_true_iff in H as [Hc Hv]. rewrite Hc, (IH Hv). reflexivity.
Qed.

Lemma match_after_inv (lead s v : string) :
  match_after lead s = Some v ->
  well_formed_id v /\ exists rest, s = lead ++ v ++ rest.
Proof.
  unfold match_after. destruct (String.prefix lead s) eqn:Hp; [|discriminate].
  intros H. destruct (take_id_inv _ _ H) as (Hlen & Hall & rest & Hrest).
  split; [split; assumption|]. exists rest.
  rewrite (prefix_split _ _ Hp) at 1. rewrite Hrest. reflexivity.
Qed.

Lemma match_after_append (lead v rest : string) :
  well_formed_id v -> match_after lead (lead ++ v ++ rest) = Some v.
Proof.
  intros [Hlen Hall]. unfold match_after.
  rewrite prefix_append, drop_append, <- Hlen. apply take_id_append, Hall.
Qed.

Lemma match_here_inv (s v : string) :
  match_here s = Some v ->
  well_formed_id v
  /\ exists rest, s = "youtube.com/watch?v=" ++ v ++ rest \/ s = "youtu.be/" ++ v ++ rest.
Proof.
  unfold match_here.
  destruct (match_after "youtube.com/watch?v=" s) as [v'|] eqn:H1.
  - intros H; injection H as <-. destruct (match_after_inv _ _ H1) as [Hw [rest Hs]].
    split; [exact Hw|]. exists rest. left. exact Hs.
  - intros H2. destruct (match_after_inv _ _ H2) as [Hw [rest Hs]].
    split; [exact Hw|]. exists rest. right. exact Hs.
Qed.

Lemma match_here_watch (v rest : string) :
  well_formed_id v -> match_here ("youtube.com/watch?v=" ++ v ++ rest) = Some v.
Proof.
  intros Hw. unfold match_here. rewrite (match_after_append _ rest Hw). reflexivity.
Qed.

Lemma match_here_short (v rest : string) :
  well_formed_id v -> match_here ("youtu.be/" ++ v ++ rest) = Some v.
Proof.
  intros Hw. unfold match_here.
  replace (match_after "youtube.com/watch?v=" ("youtu.be/" ++ v ++ rest))
    with (@None string) by reflexivity.
  apply match_after_append, Hw.
Qed.

Lemma extractVideoId_unfold (url : string) :
  extractVideoId url
  = match match_here url with
    | Some v => Some v
    | None => match url with
              | EmptyString => None
              | String _ rest => extractVideoId rest
              end
    end.
Proof. destruct url; reflexivity. Qed.

Lemma extractVideoId_inv (url v : string) :
  extractVideoId url = Some v ->
  well_formed_id v
  /\ exists before rest,
       url = before ++ "youtube.com/watch?v=" ++ v ++ rest
       \/ url = before ++ "youtu.be/" ++ v ++ rest.
Proof.
  induction url as [|c url IH]; rewrite extractVideoId_unfold.
  - destruct (match_here "") eqn:H; [|discriminate].
    intros E; injection E as ->. destruct (match_here_inv _ H) as [Hw [rest Hs]].
    split; [exact Hw|]. exists "", rest. exact Hs.
  - destruct (match_here (String c url)) eqn:H.
    + intros E; injection E as ->. destruct (match_here_inv _ H) as [Hw [rest Hs]].
      split; [exact Hw|]. exists "", rest. exact Hs.
    + intros E. destruct (IH E) as [Hw (before & rest & Hs)].
      split; [exact Hw|]. exists (String c before), rest.
      destruct Hs as [-> | ->]; [left|right]; reflexivity.
Qed.

Lemma extractVideoId_found (before s v : string) :
  match_here s = Some v -> exists v', extractVideoId (before ++ s) = Some v'.
Proof.
  intros H. induction before as [|c before IH].
  - exists v. cbn [append]. rewrite extractVideoId_unfold, H. reflexivity.
  - cbn [append]. rewrite extractVideoId_unfold.
    destruct (match_here (String c (before ++ s))) as [v'|]; [exists v'; reflexivity|].
    exact IH.
Qed.

Lemma match_here_needs_y (c : ascii) (s : string) :
  Ascii.eqb c "y" = false -> match_here (String c s) = None.
Proof.
  intros Hc. unfold match_here, match_after. cbn [String.prefix].
  destruct (ascii_dec "y" c) as [<-|]; [discriminate Hc|reflexivity].
Qed.

Lemma extractVideoId_skip (pre s : string) :
  all_chars (fun c => negb (Ascii.eqb c "y")) pre = true ->
  extractVideoId (pre ++ s) = extractVideoId s.
Proof.
  induction pre as [|c pre IH]; cbn [all_chars append]; intros H; [reflexivity|].
  apply andb_true_iff in H as [Hc Hpre]. apply negb_true_iff in Hc.
  rewrite extractVideoId_unfold, match_here_needs_y by exact Hc. apply IH, Hpre.
Qed.

End UrlFacts.

Section UrlTheorems.
Import JsString.
Open Scope string_scope.

(** X1.  An identifier that [extractVideoId] returns has exactly eleven
    characters of the class [[a-zA-Z0-9_-]], and the URL holds it right
    after [youtube.com/watch?v=] or [youtu.be/]. *)
Theorem extractVideoId_sound (url v : string) :
  extractVideoId url = Some v -> well_formed_id v /\ links_to url v.
Proof.
  intros H. destruct (extractVideoId_inv _ H) as [Hw (before & rest & Hs)].
  split; [exact Hw|].
  destruct Hs as [-> | ->]; [left|right]; exists before, rest;
    rewrite !append_assoc; reflexivity.
Qed.

Lemma extractVideoId_sound_witness :
  well_formed_id "dQw4w9WgXcQ"
  /\ links_to "https://www.youtube.com/watch?v=dQw4w9WgXcQ&t=42s" "dQw4w9WgXcQ".
Proof.
  apply (@extractVideoId_sound "https://www.youtube.com/watch?v=dQw4w9WgXcQ&t=42s").
  reflexivity.
Defined.

(** X2.  A watch link or a short link is read back: after any prefix
    without the letter y (a scheme, a host prefix such as [www.] or [m.]), and
    whatever follows the identifier, [extractVideoId] returns the eleven
    characters that follow the lead.  Characters of the class that follow
    them are left out: the pattern is not anchored at its end. *)
Theorem extractVideoId_reads_link (pre v rest : string) :
  all_chars (fun c => negb (Ascii.eqb c "y")) pre = true ->
  well_formed_id v ->
  extractVideoId (pre ++ "youtube.com/watch?v=" ++ v ++ rest) = Some v
  /\ extractVideoId (pre ++ "youtu.be/" ++ v ++ rest) = Some v.
Proof.
  intros Hpre Hw. split; rewrite extractVideoId_skip by exact Hpre;
    rewrite extractVideoId_unfold.
  - rewrite match_here_watch by exact Hw. reflexivity.
  - rewrite match_here_short by exact Hw. reflexivity.
Qed.

Lemma extractVideoId_reads_link_witness :
  extractVideoId ("https://m." ++ "youtube.com/watch?v=" ++ "jNQXAC9IVRw" ++ "ABC&list=x")
  = Some "jNQXAC9IVRw"
  /\ extractVideoId ("http://" ++ "youtu.be/" ++ "jNQXAC9IVRw" ++ "ABC&list=x")
     = Some "jNQXAC9IVRw".
Proof.
  split.
  - apply (@extractVideoId_reads_link "https://m." "jNQXAC9IVRw" "ABC&list=x");
      [reflexivity | split; reflexivity].
  - apply (@extractVideoId_reads_link "http://" "jNQXAC9IVRw" "ABC&list=x");
      [reflexivity | split; reflexivity].
Defined.

(** X3.  [extractVideoId] returns [null] exactly for the URLs that hold no
    watch link and no short link with an eleven-character identifier,
    anywhere in the text. *)
Theorem extractVideoId_none_iff (url : string) :
  extractVideoId url = None
  <-> ~ exists v, well_formed_id v /\ links_to url v.
Proof.
  split.
  - intros Hnone (v & Hw & Hl).
    assert (exists before s, url = before ++ s /\ match_here s = Some v)
      as (before & s & -> & Hs).
    { destruct Hl as [(before & rest & ->) | (before & rest & ->)].
      - exists before, ("youtube.com/watch?v=" ++ v ++ rest). split.
        + rewrite !append_assoc. reflexivity.
        + apply match_here_watch, Hw.
      - exists before, ("youtu.be/" ++ v ++ rest). split.
        + rewrite !append_assoc. reflexivity.
        + apply match_here_short, Hw. }
    destruct (extractVideoId_found before _ Hs) as [v' Hv']. congruence.
  - intros Hno. destruct (extractVideoId url) as [v|] eqn:H; [|reflexivity].
    exfalso. apply Hno. exists v. destruct (extractVideoId_inv _ H) as [Hw (before & rest & Hs)].
    split; [exact Hw|].
    destruct Hs as [-> | ->]; [left|right]; exists before, rest;
      rewrite !append_assoc; reflexivity.
Qed.

End UrlTheorems.

(* ------------------------------------------------------------------ *)
(** ** The form of [VideoInput] *)

Section FormFacts.
Import JsString.
Open Scope string_scope.

Lemma all_chars_impl (p q : ascii -> bool) (s : string) :
  (forall c, p c = true -> q c = true) ->
  all_chars p s = true -> all_chars q s = true.
Proof.
  intros Hpq. induction s as [|c s IH]; cbn; [reflexivity|].
  intros H. apply andb_true_iff in H as [Hc Hs].
  rewrite (Hpq _ Hc), (IH Hs). reflexivity.
Qed.

Lemma is_id_char_not_white (c : ascii) : is_id_char c = true -> is_white c = false.
Proof.
  destruct c as [b0 b1 b2 b3 b4 b5 b6 b7].
  destruct b0, b1, b2, b3, b4, b5, b6, b7; vm_compute; congruence.
Qed.

Lemma trimEnd_nonwhite_prefix (s t : string) :
  all_chars (fun c => negb (is_white c)) s = true ->
  trimEnd (s ++ t) = s ++ trimEnd t.
Proof.
  induction s as [|c s IH]; cbn [all_chars append]; intros H; [reflexivity|].
  apply andb_true_iff in H as [Hc Hs]. apply negb_true_iff in Hc.
  cbn [trimEnd]. rewrite (IH Hs), Hc.
  destruct (s ++ trimEnd t); reflexivity.
Qed.

Lemma optional_inv (p : string) (k : string -> bool) (s : string) :
  VideoInput.optional p k s = true ->
  (exists s', s = p ++ s' /\ k s' = true) \/ k s = true.
Proof.
  unfold VideoInput.optional. intros H. apply orb_true_iff in H as [H|H]; [|right; exact H].
  apply andb_true_iff in H as [Hp Hk]. left.
  exists (drop (String.length p) s). split; [apply prefix_split, Hp | exact Hk].
Qed.

Lemma validateYouTubeUrl_inv (url : string) :
  VideoInput.validateYouTubeUrl url = true ->
  exists scheme s v,
    In scheme ["https://www."; "https://"; "http://www."; "http://"; "www."; ""]
    /\ url = scheme ++ s /\ match_here s = Some v.
Proof.
  unfold VideoInput.validateYouTubeUrl. intros H.
  assert (Hlink : forall s, present (match_here s) = true -> exists v, match_here s = Some v).
  { intros s Hs. destruct (match_here s) as [v|]; [exists v; reflexivity|discriminate]. }
  apply orb_true_iff in H as [H|H].
  - apply andb_true_iff in H as [Hp Hk]. apply prefix_split in Hp.
    destruct (optional_inv _ _ _ Hk) as [(s' & Hs' & Hl) | Hl];
      destruct (Hlink _ Hl) as [v Hv].
    + exists "https://www.", s', v. split; [cbn; tauto|]. split; [|exact Hv].
      rewrite Hp, Hs'. reflexivity.
    + exists "https://", (drop (String.length "https://") url), v.
      split; [cbn; tauto|]. split; [exact Hp | exact Hv].
  - destruct (optional_inv _ _ _ H) as [(s1 & -> & Hk) | Hk];
      destruct (optional_inv _ _ _ Hk) as [(s' & Hs' & Hl) | Hl];
      destruct (Hlink _ Hl) as [v Hv].
    + exists "http://www.", s', v. split; [cbn; tauto|]. split; [|exact Hv].
      rewrite Hs'. reflexivity.
    + exists "http://", s1, v. split; [cbn; tauto|]. split; [reflexivity | exact Hv].
    + exists "www.", s', v. split; [cbn; tauto|]. split; [exact Hs' | exact Hv].
    + exists "", url, v. split; [cbn; tauto|]. split; [reflexivity | exact Hv].
Qed.

Lemma trim_keeps_link (scheme s v : string) :
  In scheme ["https://www."; "https://"; "http://www."; "http://"; "www."; ""] ->
  match_here s = Some v ->
  exists s', trim (scheme ++ s) = scheme ++ s' /\ match_here s' = Some v.
Proof.
  intros Hin Hs. destruct (match_here_inv _ Hs) as [Hw (rest & Hrest)].
  assert (Hv : all_chars (fun c => negb (is_white c)) v = true).
  { destruct Hw as [_ Hall]. revert Hall. apply all_chars_impl.
    intros c Hc. rewrite (is_id_char_not_white _ Hc). reflexivity. }
  assert (Hgen : forall lead,
             all_chars (fun c => negb (is_white c)) (scheme ++ lead) = true ->
             trimStart (scheme ++ lead ++ v ++ rest) = scheme ++ lead ++ v ++ rest ->
             trim (scheme ++ lead ++ v ++ rest) = scheme ++ lead ++ v ++ trimEnd rest).
  { intros lead Hlead Hstart. unfold trim. rewrite Hstart.
    replace (scheme ++ lead ++ v ++ rest) with (((scheme ++ lead) ++ v) ++ rest)
      by (rewrite !append_assoc; reflexivity).
    rewrite trimEnd_nonwhite_prefix.
    - rewrite !append_assoc. reflexivity.
    - rewrite all_chars_append, Hlead, Hv. reflexivity. }
  destruct Hrest as [-> | ->].
  - exists ("youtube.com/watch?v=" ++ v ++ trimEnd rest). split.
    + apply Hgen; cbn in Hin; intuition (subst; reflexivity).
    + apply match_here_watch, Hw.
  - exists ("youtu.be/" ++ v ++ trimEnd rest). split.
    + apply Hgen; cbn in Hin; intuition (subst; reflexivity).
    + apply match_here_short, Hw.
Qed.

End FormFacts.

Section FormTheorems.
Import JsString.
Open Scope string_scope.

(** X4.  The form of [VideoInput] hands a URL to [onSubmit] only when the
    validation accepts it, and then hands over the trimmed URL; otherwise it
    does nothing.  From every URL it hands over, [extractVideoId] extracts an
    identifier, the same as from the untrimmed URL: a submission from the
    form is never rejected by [processVideo] as an invalid URL. *)
Theorem form_submits_only_links (url : string) (onSubmit : string -> M unit) (w : World) :
  VideoInput.handleSubmit url onSubmit w
  = (if VideoInput.validateYouTubeUrl url then onSubmit (trim url) w else (Returns tt, w))
  /\ (VideoInput.validateYouTubeUrl url = true ->
      exists v, well_formed_id v
                /\ extractVideoId url = Some v
                /\ extractVideoId (trim url) = Some v).
Proof.
  assert (Hacc : VideoInput.validateYouTubeUrl url = true ->
                 exists v, well_formed_id v
                           /\ extractVideoId url = Some v
                           /\ extractVideoId (trim url) = Some v
                           /\ trim url <> "").
  { intros Hval. destruct (validateYouTubeUrl_inv _ Hval) as (scheme & s & v & Hin & -> & Hs).
    destruct (trim_keeps_link _ Hin Hs) as (s' & Htrim & Hs').
    assert (Hy : all_chars (fun c => negb (Ascii.eqb c "y")) scheme = true)
      by (cbn in Hin; intuition (subst; reflexivity)).
    exists v. split; [apply (match_here_inv _ Hs)|].
    rewrite Htrim, !extractVideoId_skip by exact Hy.
    rewrite !extractVideoId_unfold, Hs, Hs'. repeat split.
    destruct (match_here_inv _ Hs') as [_ [rest [-> | ->]]];
      destruct scheme; discriminate. }
  split.
  - unfold VideoInput.handleSubmit.
    destruct (VideoInput.validateYouTubeUrl url) eqn:Hval.
    + destruct (Hacc eq_refl) as (v & _ & _ & _ & Hne).
      rewrite truthy_nonempty by exact Hne. reflexivity.
    + destruct (truthy (trim url)); reflexivity.
  - intros Hval. destruct (Hacc Hval) as (v & Hw & H1 & H2 & _).
    exists v. split; [exact Hw | split; [exact H1 | exact H2]].
Qed.

Lemma form_submits_only_links_witness :
  exists v, well_formed_id v
            /\ extractVideoId "https://youtu.be/ScMzIvxBSi4  " = Some v
            /\ extractVideoId (trim "https://youtu.be/ScMzIvxBSi4  ") = Some v.
Proof.
  apply (proj2 (@form_submits_only_links "https://youtu.be/ScMzIvxBSi4  "
                  (fun _ => ret tt) initial_world)).
  reflexivity.
Defined.

End FormTheorems.

(* ------------------------------------------------------------------ *)
(** ** The stages of [processVideo] *)

Section Stages.
Import JsString.
Open Scope string_scope.

Lemma processVideo_fields (env : Env) (url : string)
    (onStateChange : ProcessingState -> M unit) (w : World) (v : VideoData) (w' : World) :
  processVideo env url onStateChange w = (Returns v, w') ->
  thumbnail v = "https://img.youtube.com/vi/" ++ id v ++ "/maxresdefault.jpg"
  /\ duration v = formatDuration 300.
Proof.
  unfold processVideo. destruct (extractVideoId url) as [videoId | ]; [ | discriminate].
  unfold try_catch. unfold bind at 1.
  destruct (onStateChange processing w) as [[[] | e0] w1]; [ | discriminate].
  unfold bind at 1.
  destruct (getVideoMetadata env videoId w1) as [[metadata_title | e1] w2]; [ | discriminate].
  unfold bind at 1.
  destruct (extractTranscript env videoId w2) as [[[transcript_text | ] | e2] w3];
    try discriminate.
  destruct (transcript_unusable (Text transcript_text)); [discriminate | ].
  destruct (List.length (chunkText transcript_text) =? 0)%nat; [discriminate | ].
  unfold bind at 1.
  destruct (generateEmbeddings env (chunkText transcript_text) w3) as [[es | e3] w4];
    [ | discriminate].
  unfold ret. intro H. injection H as <- <-. split; reflexivity.
Qed.

(** The embedding loop spends one request per chunk up to the first failure
    and draws no random number. *)
Lemma embed_loop_budget (env : Env) (cs : list TextChunk) :
  forall (acc : list (list float)) (w : World) o w',
    for_each
      (fun embeddings chunk =>
         r <- request (embeddings_create env) (chunk_text chunk) ;;
         match r with
         | Some e => ret (embeddings ++ [e])%list
         | None => throw "embedding request failed"
         end)
      cs acc w = (o, w') ->
    random_drawn w' = random_drawn w
    /\ clock_read w' = clock_read w
    /\ processingState w' = processingState w
    /\ (requests_made w' <= requests_made w + length cs)%nat
    /\ match o with
       | Returns _ => requests_made w' = (requests_made w + length cs)%nat
       | Throws _ => (requests_made w < requests_made w')%nat
       end.
Proof.
  induction cs as [|c cs IH]; intros acc w o w' H.
  - cbn in H. unfold ret in H. injection H as <- <-. cbn. repeat split; lia.
  - cbn [for_each] in H. unfold bind at 1 in H. unfold bind at 1 in H.
    unfold request at 1 in H.
    destruct (embeddings_create env (requests_made w) (chunk_text c)) as [e|].
    + unfold ret at 1 in H. apply IH in H. cbn in H. cbn [length].
      destruct H as (Hr & Hc & Hp & Hle & Ho). repeat split; try assumption; try lia.
      destruct o; lia.
    + unfold throw in H. injection H as <- <-. cbn. repeat split; lia.
Qed.

Lemma generateEmbeddings_effects (env : Env) (cs : list TextChunk) (w : World) :
  exists es w',
    generateEmbeddings env cs w = (Returns es, w')
    /\ processingState w' = processingState w
    /\ clock_read w' = clock_read w
    /\ (requests_made w <= requests_made w' <= requests_made w + length cs)%nat
    /\ (no_key env = true -> requests_made w' = requests_made w)
    /\ (random_drawn w' = random_drawn w
        /\ requests_made w' = (requests_made w + length cs)%nat
        /\ no_key env = false
        \/ random_drawn w' = (embedding_dimension * length cs + random_drawn w)%nat
           /\ es = mock_vectors env (random_drawn w) (length cs)).
Proof.
  unfold generateEmbeddings. destruct (no_key env) eqn:Hkey.
  - rewrite mockEmbeddings_spec. eexists _, _. split; [reflexivity|].
    unfold advance_random. cbn [processingState clock_read requests_made random_drawn].
    split; [reflexivity|]. split; [reflexivity|]. split; [lia|]. split; [reflexivity|].
    right. split; reflexivity.
  - unfold try_catch.
    destruct (for_each _ cs [] w) as [[es | e] w1] eqn:Hloop;
      destruct (embed_loop_budget _ _ _ _ Hloop) as (Hr & Hc & Hp & Hle & Ho).
    + eexists _, _. split; [reflexivity|].
      split; [exact Hp|]. split; [exact Hc|]. split; [lia|].
      split; [intros; discriminate|]. left. repeat split; assumption.
    + rewrite mockEmbeddings_spec. eexists _, _. split; [reflexivity|].
      unfold advance_random. cbn [processingState clock_read requests_made random_drawn].
      split; [exact Hp|]. split; [exact Hc|]. split; [lia|].
      split; [intros; discriminate|]. right. rewrite Hr. split; reflexivity.
Qed.

(** X5.  [generateEmbeddings] always returns.  Without an API key it makes
    no request; with a key it makes at most one request per chunk.  Random
    numbers are drawn only for the fallback vectors, 1536 for each chunk, and
    then all the embeddings are fallback vectors: the replies already
    received for earlier chunks are dropped. *)
Theorem generateEmbeddings_budget (env : Env) (cs : list TextChunk) (w : World) :
  exists es w',
    generateEmbeddings env cs w = (Returns es, w')
    /\ (requests_made w <= requests_made w' <= requests_made w + length cs)%nat
    /\ (no_key env = true -> requests_made w' = requests_made w)
    /\ (random_drawn w' = random_drawn w
        /\ requests_made w' = (requests_made w + length cs)%nat
        /\ no_key env = false
        \/ random_drawn w' = (1536 * length cs + random_drawn w)%nat
           /\ es = mock_vectors env (random_drawn w) (length cs)).
Proof.
  destruct (generateEmbeddings_effects env cs w)
    as (es & w' & Hrun & _ & _ & Hle & Hkey & Hcases).
  exists es, w'. split; [exact Hrun|]. split; [exact Hle|]. split; [exact Hkey|].
  exact Hcases.
Qed.

(** X6.  [processVideo] stops at the first stage that fails.  A URL without
    identifier is rejected before anything else happens: the callback is
    not called and no request is made.  When the metadata request is not
    answered with a body, the function throws after that single request (the
    message of the failed request, or 'Failed to fetch video metadata' for a
    response that is not ok): the transcript is not requested, and the
    state that the callback sets stays [processing]. *)
Theorem processVideo_stops_at_first_failure (env : Env) (url : string) (w : World) :
  (extractVideoId url = None ->
   forall onStateChange,
     processVideo env url onStateChange w = (Throws "Invalid YouTube URL", w))
  /\ (forall videoId,
        extractVideoId url = Some videoId ->
        forall message,
          oembed env (requests_made w) videoId = OembedNotOk
          /\ message = "Failed to fetch video metadata"
          \/ oembed env (requests_made w) videoId = OembedRejected message ->
          exists w',
            processVideo env url setProcessingState w = (Throws message, w')
            /\ requests_made w' = S (requests_made w)
            /\ random_drawn w' = random_drawn w
            /\ processingState w' = processing
            /\ same_session w w').
Proof.
  split.
  - intros Hnone cb. unfold processVideo. rewrite Hnone. reflexivity.
  - intros videoId Hid message Hreply. unfold processVideo. rewrite Hid.
    unfold try_catch. unfold bind at 1. cbn [setProcessingState modify].
    unfold bind at 1. rewrite getVideoMetadata_spec. cbn [requests_made].
    destruct Hreply as [[-> ->] | ->]; unfold throw;
      (eexists; split; [reflexivity|]); cbn; repeat split.
Qed.

Lemma processVideo_stops_at_first_failure_witness :
  processVideo demo_env "https://example.org/video" setProcessingState session_world
  = (Throws "Invalid YouTube URL", session_world).
Proof.
  apply (proj1 (@processVideo_stops_at_first_failure demo_env "https://example.org/video"
                  session_world)).
  reflexivity.
Defined.

(** X7.  What a successful [processVideo] returns: the identifier is the
    one extracted from the URL, the title is the one of the metadata reply,
    the thumbnail address is built from the identifier, the duration is
    always the text 5:00, the transcript has at least 50 characters and the
    chunks are those of the transcript, at least one.  The function made the
    metadata request and the transcript request before the embedding
    requests, left the state [processing] (set through the callback) and
    touched neither the video data, nor the messages, nor the error of the
    session. *)
Theorem processVideo_result (env : Env) (url : string) (w : World) (v : VideoData)
    (w' : World) :
  processVideo env url setProcessingState w = (Returns v, w') ->
  extractVideoId url = Some (id v)
  /\ oembed env (requests_made w) (id v) = OembedBody (title v)
  /\ thumbnail v = "https://img.youtube.com/vi/" ++ id v ++ "/maxresdefault.jpg"
  /\ duration v = "5:00"
  /\ (50 <= String.length (transcript v))%nat
  /\ chunks v = chunkText (transcript v)
  /\ chunks v <> []
  /\ (requests_made w + 2 <= requests_made w'
      <= requests_made w + 2 + length (chunks v))%nat
  /\ processingState w' = processing
  /\ same_session w w'.
Proof.
  intros Hrun.
  destruct (processVideo_fields _ _ _ _ Hrun) as [Hthumb Hdur].
  destruct (processVideo_returns_inv _ _ _ _ Hrun)
    as (videoId & w1 & t & Hid & Hcb & Ho & _ & Hlen & Hcs & Hne & Hg & Hv & Ht).
  cbn [setProcessingState modify] in Hcb. injection Hcb as <-.
  cbn [requests_made] in Ho. subst videoId t.
  destruct (generateEmbeddings_effects env (chunks v)
              (advance_requests 2 (mkWorld processing (videoData w) (messages w)
                                     (error_cell w) (random_drawn w) (requests_made w)
                                     (clock_read w))))
    as (es & w2 & Hg' & Hp & _ & Hle & _).
  rewrite Hg in Hg'. injection Hg' as <- <-.
  split; [exact Hid|]. split; [exact Ho|]. split; [exact Hthumb|].
  split; [rewrite Hdur; reflexivity|]. split; [exact Hlen|]. split; [exact Hcs|].
  split; [exact Hne|]. cbn in Hle, Hp.
  split; [lia|]. split; [exact Hp|].
  pose proof (@keeps_processVideo env url _ keeps_setProcessingState w) as Hk.
  rewrite Hrun in Hk. exact Hk.
Qed.

Lemma processVideo_result_witness :
  exists v w',
    processVideo demo_env "https://youtu.be/dQw4w9WgXcQ" setProcessingState initial_world
    = (Returns v, w')
    /\ extractVideoId "https://youtu.be/dQw4w9WgXcQ" = Some (id v)
    /\ duration v = "5:00".
Proof.
  destruct (processVideo demo_env "https://youtu.be/dQw4w9WgXcQ" setProcessingState
              initial_world) as [[v | e] w'] eqn:E.
  - exists v, w'. split; [reflexivity | ].
    pose proof (@processVideo_result demo_env "https://youtu.be/dQw4w9WgXcQ"
                  initial_world v w' E) as H.
    split; [exact (proj1 H) | exact (proj1 (proj2 (proj2 (proj2 H))))].
  - exfalso. vm_compute in E. discriminate E.
Defined.

End Stages.

(* ------------------------------------------------------------------ *)
(** ** [formatDuration] *)

Section Duration.
Import JsString.
Open Scope string_scope.

Lemma padStart2_two_digits (n : nat) :
  (n < 100)%nat -> padStart2 (of_nat n) = two_digits n.
Proof.
  intros Hn.
  assert (Hall : forallb (fun k => String.eqb (padStart2 (of_nat k)) (two_digits k))
                         (seq 0 100) = true) by (vm_compute; reflexivity).
  rewrite forallb_forall in Hall. apply String.eqb_eq, Hall, in_seq. lia.
Qed.

(** X8.  [formatDuration] writes a number of seconds below one hour as
    minutes, a colon and the seconds in exactly two digits; from one hour on
    as hours, a colon, the minutes in exactly two digits, a colon and the
    seconds in exactly two digits.  The leading field is the decimal numeral
    without padding. *)
Theorem formatDuration_fields (seconds : nat) :
  formatDuration seconds
  = if (seconds <? 3600)%nat then
      of_nat (seconds / 60) ++ ":" ++ two_digits (seconds mod 60)
    else
      of_nat (seconds / 3600) ++ ":" ++ two_digits (seconds mod 3600 / 60)
      ++ ":" ++ two_digits (seconds mod 60).
Proof.
  unfold formatDuration. cbv zeta.
  assert (H60 : (seconds mod 60 < 100)%nat).
  { pose proof (Nat.mod_upper_bound seconds 60). lia. }
  assert (H3600 : (seconds mod 3600 / 60 < 100)%nat).
  { pose proof (Nat.mod_upper_bound seconds 3600).
    assert (seconds mod 3600 / 60 < 60)%nat; [|lia].
    apply Nat.Div0.div_lt_upper_bound. lia. }
  rewrite !padStart2_two_digits by assumption.
  destruct (Nat.ltb_spec seconds 3600) as [Hlt | Hge].
  - rewrite (Nat.div_small seconds 3600) by exact Hlt.
    rewrite (Nat.mod_small seconds 3600) by exact Hlt. reflexivity.
  - assert (Hpos : (0 < seconds / 3600)%nat) by (apply Nat.div_str_pos; lia).
    apply Nat.ltb_lt in Hpos. rewrite Hpos. reflexivity.
Qed.

End Duration.

(* ------------------------------------------------------------------ *)
(** ** More on [chunkText] *)

Section WordFacts.
Import JsString.
Open Scope string_scope.

Lemma split_char_from_cons (sep : ascii) (s : string) :
  forall cur, exists x l, split_char_from sep cur s = x :: l.
Proof.
  induction s as [|c s IH]; intros cur; cbn.
  - exists cur, []. reflexivity.
  - destruct (Ascii.eqb c sep).
    + exists cur, (split_char_from sep "" s). reflexivity.
    + apply IH.
Qed.

Lemma join_cons (sep x : string) (l : list string) :
  l <> [] -> join sep (x :: l) = x ++ sep ++ join sep l.
Proof. destruct l; [congruence | reflexivity]. Qed.

(** Joining the pieces of a split with the separator gives the text back. *)
Lemma join_split_char_from (sep : ascii) (s : string) :
  forall cur, join (String sep "") (split_char_from sep cur s) = cur ++ s.
Proof.
  induction s as [|c s IH]; intros cur; cbn [split_char_from].
  - cbn. rewrite append_nil_r. reflexivity.
  - destruct (Ascii.eqb c sep) eqn:Hc.
    + apply Ascii.eqb_eq in Hc. subst c.
      destruct (split_char_from_cons sep s "") as (x & l & Hx).
      rewrite join_cons by (rewrite Hx; discriminate).
      rewrite IH. reflexivity.
    + rewrite IH, append_assoc. reflexivity.
Qed.

Lemma join_split_char (sep : ascii) (s : string) :
  join (String sep "") (split_char sep s) = s.
Proof. unfold split_char. apply join_split_char_from. Qed.

Lemma join_app (sep : string) (l1 l2 : list string) :
  l2 <> [] ->
  join sep (l1 ++ l2)%list
  = match l1 with [] => "" | _ => join sep l1 ++ sep end ++ join sep l2.
Proof.
  intros Hl2. induction l1 as [|x l1 IH]; [reflexivity|].
  cbn [app]. rewrite join_cons by (destruct l1; [exact Hl2 | cbn; discriminate]).
  rewrite IH. destruct l1 as [|y l1].
  - cbn. rewrite append_assoc. reflexivity.
  - rewrite (@join_cons sep x (y :: l1)) by discriminate.
    rewrite !append_assoc. reflexivity.
Qed.

(** [l.slice(start)] is what is left of [l] after its first elements. *)
Lemma slice_from_skipn (A : Type) (start : Z) (l : list A) :
  JsArray.slice_from start l
  = skipn (Z.to_nat (JsArray.normalize_index (Z.of_nat (length l)) start)) l.
Proof.
  unfold JsArray.slice_from, JsArray.slice.
  set (len := Z.of_nat (length l)).
  assert (Hfinal : JsArray.normalize_index len len = len).
  { unfold JsArray.normalize_index. destruct (Z.ltb_spec len 0); lia. }
  rewrite Hfinal. cbv zeta.
  set (k := JsArray.normalize_index len start).
  assert (Hk : (0 <= k <= len)%Z).
  { unfold k, JsArray.normalize_index. destruct (Z.ltb_spec start 0); lia. }
  apply firstn_all2. rewrite length_skipn. lia.
Qed.

Lemma Forall_skipn (A : Type) (P : A -> Prop) (k : nat) (l : list A) :
  Forall P l -> Forall P (skipn k l).
Proof.
  intros H. rewrite <- (firstn_skipn k l) in H. apply Forall_app in H. apply H.
Qed.

Lemma all_chars_trimStart (p : ascii -> bool) (s : string) :
  all_chars p s = true -> all_chars p (trimStart s) = true.
Proof.
  induction s as [|c s IH]; cbn; [reflexivity|]. intros H.
  destruct (is_white c); [|exact H].
  apply andb_true_iff in H as [_ Hs]. apply IH, Hs.
Qed.

Lemma all_chars_trimEnd (p : ascii -> bool) (s : string) :
  all_chars p s = true -> all_chars p (trimEnd s) = true.
Proof.
  induction s as [|c s IH]; cbn [trimEnd all_chars]; [reflexivity|]. intros H.
  apply andb_true_iff in H as [Hc Hs]. specialize (IH Hs).
  destruct (trimEnd s).
  - destruct (is_white c); cbn; [reflexivity | rewrite Hc; reflexivity].
  - cbn [all_chars]. rewrite Hc. exact IH.
Qed.

Lemma all_chars_trim (p : ascii -> bool) (s : string) :
  all_chars p s = true -> all_chars p (trim s) = true.
Proof. intros H. apply all_chars_trimEnd, all_chars_trimStart, H. Qed.

Lemma all_chars_split_char_from (p : ascii -> bool) (sep : ascii) (s : string) :
  forall cur,
    all_chars p cur = true -> all_chars p s = true ->
    Forall (fun x => all_chars p x = true) (split_char_from sep cur s).
Proof.
  induction s as [|c s IH]; intros cur Hcur Hs; cbn [split_char_from].
  - constructor; [exact Hcur | constructor].
  - cbn in Hs. apply andb_true_iff in Hs as [Hc Hs].
    destruct (Ascii.eqb c sep).
    + constructor; [exact Hcur|]. apply IH; [reflexivity | exact Hs].
    + apply IH; [|exact Hs]. rewrite all_chars_append, Hcur. cbn. rewrite Hc. reflexivity.
Qed.

Lemma all_chars_join (p : ascii -> bool) (sep : string) (l : list string) :
  all_chars p sep = true ->
  Forall (fun x => all_chars p x = true) l -> all_chars p (join sep l) = true.
Proof.
  intros Hsep H. induction H as [|x l Hx Hl IH]; [reflexivity|].
  destruct l as [|y l]; [exact Hx|].
  rewrite join_cons by discriminate.
  rewrite !all_chars_append, Hx, Hsep, IH. reflexivity.
Qed.

Lemma trimStart_stop (body : string) :
  exists body', trimStart (body ++ ".") = body' ++ ".".
Proof.
  induction body as [|c body IH]; cbn.
  - exists "". reflexivity.
  - destruct (is_white c); [exact IH|]. exists (String c body). reflexivity.
Qed.

(** A text that ends with a full stop is trimmed to a text that ends with
    the full stop and begins with a character that is not white space. *)
Lemma trim_stop (s : string) :
  ends_with_stop s -> solid (trim s) /\ ends_with_stop (trim s).
Proof.
  intros [body ->]. unfold trim.
  destruct (trimStart_stop body) as [body' Hs]. rewrite Hs.
  rewrite trimEnd_append by (cbn; discriminate).
  replace (trimEnd ".") with "." by reflexivity.
  split; [|exists body'; reflexivity].
  destruct (trimStart_cases (body ++ ".")) as [He | (c & r & Hc & Hw)].
  - rewrite Hs in He. destruct body'; discriminate.
  - rewrite Hs in Hc. exists c, r, "."%char. repeat split; try assumption.
    exists body'. reflexivity.
Qed.

End WordFacts.

Section ChunkInvariant.
Import JsString.
Open Scope string_scope.

Variables chunkSize overlap : Z.

Lemma stop_truthy (s : string) : ends_with_stop s -> truthy s = true.
Proof. intros [body ->]. destruct body; reflexivity. Qed.

Lemma sentence_no_shout (raw : string) :
  plain_unit raw -> all_chars no_shout (sentence_of raw) = true.
Proof.
  intros H. unfold sentence_of. rewrite all_chars_append.
  rewrite all_chars_trim; [reflexivity|].
  revert H. apply all_chars_impl. intros c Hc.
  unfold is_terminator in Hc. unfold no_shout.
  destruct (Ascii.eqb c "."), (Ascii.eqb c "!"), (Ascii.eqb c "?"); cbn in *; congruence.
Qed.

Lemma overlap_no_shout (cur : string) :
  all_chars no_shout cur = true ->
  all_chars no_shout
    (join " " (JsArray.slice_from (- overlap) (split_char " " cur))) = true.
Proof.
  intros H. apply all_chars_join; [reflexivity|].
  rewrite slice_from_skipn. apply Forall_skipn.
  apply all_chars_split_char_from; [reflexivity | exact H].
Qed.

Lemma chunk_step_tidy (n : nat) (st : chunk_state) (raw : string) :
  plain_unit raw -> buffer_tidy n st ->
  buffer_tidy (S n) (chunk_step chunkSize overlap st raw)
  /\ ends_with_stop (currentChunk (chunk_step chunkSize overlap st raw)).
Proof.
  intros Hraw (Hbuf & Hchars & Hchunks & Hcount).
  pose proof (sentence_no_shout Hraw) as Hsent.
  destruct (closes chunkSize (currentChunk st) (sentence_of raw)) eqn:Hc.
  - rewrite chunk_step_closes by exact Hc.
    assert (Hne : currentChunk st <> "").
    { unfold closes in Hc. apply andb_true_iff in Hc as [_ Hc].
      apply Nat.ltb_lt in Hc. intros E. rewrite E in Hc. cbn in Hc. lia. }
    assert (Hstop : ends_with_stop (currentChunk st)) by (destruct Hbuf; [contradiction | assumption]).
    assert (Hnew : ends_with_stop
                     (join " " (JsArray.slice_from (- overlap)
                                  (split_char " " (currentChunk st)))
                      ++ " " ++ sentence_of raw)).
    { exists (join " " (JsArray.slice_from (- overlap) (split_char " " (currentChunk st)))
             ++ " " ++ trim raw).
      unfold sentence_of. rewrite !append_assoc. reflexivity. }
    split; [|exact Hnew].
    unfold buffer_tidy. cbn [currentChunk cs_chunks]. split; [right; exact Hnew|]. split.
    { rewrite !all_chars_append, overlap_no_shout, Hsent by exact Hchars. reflexivity. }
    split.
    { apply Forall_app. split; [exact Hchunks|]. constructor; [|constructor].
      cbn [chunk_text]. destruct (trim_stop Hstop) as [H1 H2].
      split; [exact H1|]. split; [exact H2|]. apply all_chars_trim, Hchars. }
    rewrite (stop_truthy Hnew). rewrite (truthy_nonempty Hne) in Hcount.
    rewrite length_app. cbn [length]. lia.
  - rewrite chunk_step_appends by exact Hc.
    assert (Hnew : ends_with_stop
                     (currentChunk st ++ (if truthy (currentChunk st) then " " else "")
                      ++ sentence_of raw)).
    { exists (currentChunk st ++ (if truthy (currentChunk st) then " " else "")
              ++ trim raw).
      unfold sentence_of. rewrite !append_assoc. reflexivity. }
    split; [|exact Hnew].
    unfold buffer_tidy. cbn [currentChunk cs_chunks]. split; [right; exact Hnew|]. split.
    { rewrite !all_chars_append, Hchars, Hsent.
      destruct (truthy (currentChunk st)); reflexivity. }
    split; [exact Hchunks|].
    rewrite (stop_truthy Hnew). destruct (truthy (currentChunk st)); lia.
Qed.

Lemma chunk_loop_tidy (units : list string) :
  forall (n : nat) (st : chunk_state),
    Forall plain_unit units -> buffer_tidy n st ->
    buffer_tidy (n + length units) (chunk_loop chunkSize overlap units st)
    /\ (units <> [] ->
        ends_with_stop (currentChunk (chunk_loop chunkSize overlap units st))).
Proof.
  induction units as [|raw units IH]; intros n st Hunits Hst.
  - cbn. rewrite Nat.add_0_r. split; [exact Hst | congruence].
  - inversion Hunits as [|? ? Hraw Hrest]; subst.
    destruct (chunk_step_tidy Hraw Hst) as [Hstep Hstop].
    destruct (IH _ _ Hrest Hstep) as [Hloop Hlast].
    cbn [chunk_loop fold_left length]. fold (chunk_loop chunkSize overlap units).
    replace (n + S (length units))%nat with (S n + length units)%nat by lia.
    split; [exact Hloop|]. intros _.
    destruct units as [|raw' units']; [exact Hstop | apply Hlast; discriminate].
Qed.

End ChunkInvariant.

Section ChunkTheorems.
Import JsString.
Open Scope string_scope.

Lemma sentences_of_plain (text : string) : Forall plain_unit (sentences_of text).
Proof.
  destruct (split_runs_spec is_terminator text) as (seps & _ & _ & _ & Hplain).
  apply Forall_forall. intros raw Hin. unfold sentences_of in Hin.
  apply filter_In in Hin as [Hin _].
  exact (proj1 (Forall_forall _ _) Hplain raw Hin).
Qed.

Lemma chunkTextWith_tidy (text : string) (chunkSize overlap : Z) :
  let st := chunk_loop chunkSize overlap (sentences_of text) (mk_chunk_state [] "" 0) in
  buffer_tidy (length (sentences_of text)) st
  /\ (sentences_of text <> [] -> ends_with_stop (currentChunk st))
  /\ chunkTextWith text chunkSize overlap
     = if truthy (trim (currentChunk st)) then push_chunk st else cs_chunks st.
Proof.
  intros st.
  destruct (@chunk_loop_tidy chunkSize overlap (sentences_of text) 0
              (mk_chunk_state [] "" 0) (sentences_of_plain text)) as [H1 H2].
  { split; [left; reflexivity|]. split; [reflexivity|]. split; [constructor|]. cbn. lia. }
  split; [exact H1|]. split; [exact H2|]. reflexivity.
Qed.

(** X9.  Every chunk that [chunkText] returns, for any size bound and any
    overlap, begins and ends with a character that is not white space, ends
    with a full stop, and holds no exclamation mark and no question mark: the
    terminators of the transcript are all replaced by full stops. *)
Theorem chunkText_chunks_tidy (text : string) (chunkSize overlap : Z) (c : TextChunk) :
  In c (chunkTextWith text chunkSize overlap) ->
  solid (chunk_text c)
  /\ ends_with_stop (chunk_text c)
  /\ all_chars no_shout (chunk_text c) = true.
Proof.
  destruct (chunkTextWith_tidy text chunkSize overlap) as [(Hbuf & Hchars & Hchunks & _) [_ Hout]].
  rewrite Hout. set (st := chunk_loop _ _ _ _) in *.
  intros Hin.
  assert (Hold : In c (cs_chunks st) -> tidy (chunk_text c))
    by (intros H; exact (proj1 (Forall_forall _ _) Hchunks c H)).
  destruct (truthy (trim (currentChunk st))) eqn:Htr; [|exact (Hold Hin)].
  unfold push_chunk in Hin. apply in_app_or in Hin as [Hin | [<- | []]]; [exact (Hold Hin)|].
  cbn [chunk_text].
  assert (Hstop : ends_with_stop (currentChunk st)).
  { destruct Hbuf as [E | H]; [|exact H]. rewrite E in Htr. discriminate Htr. }
  destruct (trim_stop Hstop) as [H1 H2].
  split; [exact H1|]. split; [exact H2|]. apply all_chars_trim, Hchars.
Qed.

Lemma chunkText_chunks_tidy_witness :
  solid "Really. Yes. No." /\ ends_with_stop "Really. Yes. No."
  /\ all_chars no_shout "Really. Yes. No." = true.
Proof.
  apply (@chunkText_chunks_tidy " Really?! Yes! No" 500 50
           (mkTextChunk "chunk-0" "Really. Yes. No.")).
  left. reflexivity.
Defined.

(** X10.  [chunkText] returns at most one chunk per sentence unit, for any
    size bound and any overlap, and it returns no chunk exactly when the
    transcript has no sentence unit. *)
Theorem chunkText_count (text : string) (chunkSize overlap : Z) :
  (length (chunkTextWith text chunkSize overlap) <= length (sentences_of text))%nat
  /\ (chunkTextWith text chunkSize overlap = [] <-> sentences_of text = []).
Proof.
  destruct (chunkTextWith_tidy text chunkSize overlap)
    as [(Hbuf & _ & _ & Hcount) [Hlast Hout]].
  rewrite Hout. set (st := chunk_loop _ _ _ _) in *.
  split.
  - destruct (truthy (trim (currentChunk st))) eqn:Htr.
    + unfold push_chunk. rewrite length_app. cbn [length].
      destruct (truthy (currentChunk st)) eqn:Hcur; [lia|].
      destruct (currentChunk st); [discriminate Htr | discriminate Hcur].
    + lia.
  - split.
    + intros Hnil. destruct (sentences_of text) as [|raw units] eqn:Hs; [reflexivity|].
      exfalso. assert (Hstop : ends_with_stop (currentChunk st)) by (apply Hlast; discriminate).
      destruct (trim_stop Hstop) as [_ Htrim].
      rewrite (stop_truthy Htrim) in Hnil. unfold push_chunk in Hnil.
      destruct (cs_chunks st); discriminate Hnil.
    + intros Hnil. unfold st. rewrite Hnil. reflexivity.
Qed.

(** X11.  When [chunkText] closes a chunk, with an overlap that is not
    negative, the text it carries over into the next buffer is an end piece
    of the closed buffer that starts at a word, and the new sentence follows
    it after one space.  The overlap counts words, not characters: when the
    closed buffer has at most [overlap] words, and also when [overlap] is 0,
    the whole closed buffer is carried over. *)
Theorem chunk_step_carries_suffix (chunkSize overlap : Z) (st : chunk_state)
    (raw : string) :
  (0 <= overlap)%Z ->
  closes chunkSize (currentChunk st) (sentence_of raw) = true ->
  exists dropped kept,
    currentChunk st = dropped ++ kept
    /\ (dropped = "" \/ exists words, dropped = words ++ " ")
    /\ currentChunk (chunk_step chunkSize overlap st raw)
       = kept ++ " " ++ sentence_of raw
    /\ (overlap = 0%Z
        \/ (Z.of_nat (length (split_char " " (currentChunk st))) <= overlap)%Z ->
        dropped = "").
Proof.
  intros Hpos Hc. rewrite chunk_step_closes by exact Hc. cbn [currentChunk].
  set (cur := currentChunk st). set (words := split_char " " cur).
  rewrite slice_from_skipn. fold words.
  set (k := Z.to_nat (JsArray.normalize_index (Z.of_nat (length words)) (- overlap))).
  assert (Hjoin : join " " words = cur) by apply join_split_char.
  assert (Hwords : (0 < length words)%nat).
  { unfold words, split_char.
    destruct (split_char_from_cons " " cur "") as (x & l & ->). cbn. lia. }
  assert (Hk : (k < length words)%nat).
  { unfold k, JsArray.normalize_index. destruct (Z.ltb_spec (- overlap) 0); lia. }
  assert (Hk0 : overlap = 0%Z \/ (Z.of_nat (length words) <= overlap)%Z -> k = 0%nat).
  { intros H. unfold k, JsArray.normalize_index.
    destruct (Z.ltb_spec (- overlap) 0); lia. }
  destruct (skipn k words) as [|y rest] eqn:Hskip.
  - exfalso. apply (f_equal (@length string)) in Hskip.
    rewrite length_skipn in Hskip. cbn in Hskip. lia.
  - pose proof (firstn_skipn k words) as Hsplit. rewrite Hskip in Hsplit.
    rewrite <- Hsplit in Hjoin. rewrite join_app in Hjoin by discriminate.
    exists (match firstn k words with
            | [] => ""
            | _ => join " " (firstn k words) ++ " "
            end), (join " " (y :: rest)).
    split; [symmetry; exact Hjoin|]. split.
    + destruct (firstn k words);
        [left; reflexivity | right; eexists; reflexivity].
    + split; [reflexivity|]. intros H. rewrite (Hk0 H). reflexivity.
Qed.

Lemma chunk_step_carries_suffix_witness :
  exists dropped kept,
    "one two three." = dropped ++ kept
    /\ (dropped = "" \/ exists words, dropped = words ++ " ")
    /\ currentChunk (chunk_step 10 2 (mk_chunk_state [] "one two three." 0) " four")
       = kept ++ " " ++ sentence_of " four"
    /\ (2%Z = 0%Z
        \/ (Z.of_nat (length (split_char " " "one two three.")) <= 2)%Z ->
        dropped = "").
Proof.
  apply (@chunk_step_carries_suffix 10 2 (mk_chunk_state [] "one two three." 0) " four").
  - lia.
  - reflexivity.
Defined.

End ChunkTheorems.

(* ------------------------------------------------------------------ *)
(** ** [cosineSimilarity] on vectors of different lengths *)

Section CosineLengths.
Open Scope float_scope.

Lemma add_nan_r (x : float) : x + nan = nan.
Proof.
  apply Prim2SF_inj. rewrite FloatAxioms.add_spec.
  replace (Prim2SF nan) with S754_nan by reflexivity.
  destruct (Prim2SF x); reflexivity.
Qed.

Lemma add_nan_l (x : float) : nan + x = nan.
Proof.
  apply Prim2SF_inj. rewrite FloatAxioms.add_spec.
  replace (Prim2SF nan) with S754_nan by reflexivity.
  destruct (Prim2SF x); reflexivity.
Qed.

Lemma mul_nan_r (x : float) : x * nan = nan.
Proof.
  apply Prim2SF_inj. rewrite FloatAxioms.mul_spec.
  replace (Prim2SF nan) with S754_nan by reflexivity.
  destruct (Prim2SF x); reflexivity.
Qed.

Lemma div_nan_r (x : float) : x / nan = nan.
Proof.
  apply Prim2SF_inj. rewrite FloatAxioms.div_spec.
  replace (Prim2SF nan) with S754_nan by reflexivity.
  destruct (Prim2SF x); reflexivity.
Qed.

Lemma normB_stays_nan (a b : list float) (idx : list nat) :
  forall acc, normB acc = nan -> normB (fold_left (cos_step binary64 a b) idx acc) = nan.
Proof.
  induction idx as [|i idx IH]; intros acc H; [exact H|].
  cbn [fold_left]. apply IH. cbn. rewrite H. apply add_nan_l.
Qed.

Lemma normB_past_end (a b : list float) (idx : list nat) :
  forall acc,
    (exists i, In i idx /\ (length b <= i)%nat) ->
    normB (fold_left (cos_step binary64 a b) idx acc) = nan.
Proof.
  induction idx as [|i idx IH]; intros acc (j & Hin & Hj); [destruct Hin|].
  cbn [fold_left]. destruct Hin as [-> | Hin].
  - apply normB_stays_nan. cbn. unfold js_get.
    rewrite (nth_overflow b _ Hj). cbn [num_undefined binary64].
    rewrite mul_nan_r. apply add_nan_r.
  - apply IH. exists j. split; assumption.
Qed.

Lemma fold_left_agree (A B : Type) (f g : A -> B -> A) (l : list B) :
  (forall acc x, In x l -> f acc x = g acc x) ->
  forall acc, fold_left f l acc = fold_left g l acc.
Proof.
  induction l as [|x l IH]; intros H acc; [reflexivity|].
  cbn [fold_left]. rewrite H by (left; reflexivity).
  apply IH. intros acc' y Hy. apply H. right. exact Hy.
Qed.

(** X12.  [cosineSimilarity] follows the length of its first argument.  A
    second vector that is shorter is read past its end, and the result is NaN;
    the components of a second vector beyond the length of the first are
    ignored. *)
Theorem cosineSimilarity_length_mismatch (a b : list float) :
  ((length b < length a)%nat -> cosineSimilarity a b = nan)
  /\ ((length a <= length b)%nat ->
      forall extra, cosineSimilarity a (b ++ extra) = cosineSimilarity a b).
Proof.
  split.
  - intros Hlen. unfold cosineSimilarity, cosine, cos_loop.
    rewrite normB_past_end.
    + cbn [num_div num_mul num_sqrt binary64].
      replace (sqrt nan) with nan by reflexivity.
      rewrite mul_nan_r. apply div_nan_r.
    + exists (length b). split; [apply in_seq; lia | lia].
  - intros Hlen extra. unfold cosineSimilarity, cosine, cos_loop.
    rewrite (@fold_left_agree _ _ (cos_step binary64 a (b ++ extra))
               (cos_step binary64 a b)); [reflexivity|].
    intros acc i Hi. apply in_seq in Hi. unfold cos_step, js_get.
    rewrite (app_nth1 b extra) by lia. reflexivity.
Qed.

Lemma cosineSimilarity_length_mismatch_witness :
  cosineSimilarity [1; 2; 3] [1; 2] = nan
  /\ cosineSimilarity [1; 2] ([1; 2] ++ [3]) = cosineSimilarity [1; 2] [1; 2].
Proof.
  split.
  - apply (proj1 (@cosineSimilarity_length_mismatch [1; 2; 3] [1; 2])). cbn. lia.
  - apply (proj2 (@cosineSimilarity_length_mismatch [1; 2] [1; 2])). cbn. lia.
Defined.

End CosineLengths.

(* ------------------------------------------------------------------ *)
(** ** The requests of [chatService] *)

Section Prompts.
Import JsString.
Open Scope string_scope.

Lemma occurs_in_refl (s : string) : occurs_in s s.
Proof. exists "", "". cbn. rewrite append_nil_r. reflexivity. Qed.

Lemma occurs_in_app_r (s a t : string) : occurs_in s t -> occurs_in s (a ++ t).
Proof.
  intros (before & after & ->). exists (a ++ before), after.
  rewrite append_assoc. reflexivity.
Qed.

Lemma occurs_in_app_l (s t b : string) : occurs_in s t -> occurs_in s (t ++ b).
Proof.
  intros (before & after & ->). exists before, (after ++ b).
  rewrite !append_assoc. reflexivity.
Qed.

Lemma occurs_in_head (s b : string) : occurs_in s (s ++ b).
Proof. apply occurs_in_app_l, occurs_in_refl. Qed.

Lemma occurs_in_trans (s t u : string) : occurs_in s t -> occurs_in t u -> occurs_in s u.
Proof.
  intros Hst (before & after & ->). apply occurs_in_app_r, occurs_in_app_l, Hst.
Qed.

Lemma occurs_in_join (sep x : string) (l : list string) :
  In x l -> occurs_in x (join sep l).
Proof.
  induction l as [|y l IH]; intros Hin; [destruct Hin|].
  destruct l as [|z l].
  - destruct Hin as [-> | []]. apply occurs_in_refl.
  - rewrite join_cons by discriminate. destruct Hin as [-> | Hin].
    + apply occurs_in_head.
    + apply occurs_in_app_r, occurs_in_app_r, IH, Hin.
Qed.

Variable env : Env.

Lemma context_lines_some (items : list ranked) :
  Forall (fun item => chunk item <> None) items ->
  exists ls,
    context_lines env items = Some ls
    /\ forall item c, In item items -> chunk item = Some c ->
         exists line, In line ls /\ occurs_in (chunk_text c) line.
Proof.
  induction 1 as [|item items Hitem Hitems (ls & Hls & Hin)].
  - exists []. split; [reflexivity|]. intros item c [].
  - cbn [context_lines]. destruct (chunk item) as [c0|] eqn:Hc; [|congruence].
    rewrite Hls. eexists. split; [reflexivity|].
    intros item' c [<- | Hin'] Hc'.
    + rewrite Hc in Hc'. injection Hc' as <-. eexists. split; [left; reflexivity|].
      apply occurs_in_app_r, occurs_in_app_r, occurs_in_app_r, occurs_in_refl.
    + destruct (Hin _ _ Hin' Hc') as (line & Hline & Hocc).
      exists line. split; [right; exact Hline | exact Hocc].
Qed.

Lemma context_lines_none (items : list ranked) :
  Exists (fun item => chunk item = None) items -> context_lines env items = None.
Proof.
  induction 1 as [item items Hitem | item items _ IH]; cbn [context_lines].
  - rewrite Hitem. reflexivity.
  - rewrite IH. destruct (chunk item); reflexivity.
Qed.

Lemma answer_prompt_holds (videoTitle context question : string) :
  occurs_in videoTitle (answer_prompt videoTitle context question)
  /\ occurs_in context (answer_prompt videoTitle context question)
  /\ occurs_in question (answer_prompt videoTitle context question).
Proof.
  unfold answer_prompt. split; [|split].
  - apply occurs_in_app_r, occurs_in_app_r, occurs_in_head.
  - do 9 apply occurs_in_app_r. apply occurs_in_head.
  - do 13 apply occurs_in_app_r. apply occurs_in_head.
Qed.

Lemma summary_prompt_holds (videoTitle contextChunks : string) :
  occurs_in videoTitle (summary_prompt videoTitle contextChunks)
  /\ occurs_in contextChunks (summary_prompt videoTitle contextChunks).
Proof.
  unfold summary_prompt. split.
  - apply occurs_in_app_r, occurs_in_app_r, occurs_in_head.
  - do 7 apply occurs_in_app_r. apply occurs_in_head.
Qed.

Lemma content_or_nonempty (c : option string) (fallback : string) :
  fallback <> "" -> content_or c fallback <> "".
Proof.
  intros Hf. unfold content_or. destruct c as [s|]; [|exact Hf].
  destruct s; [exact Hf | discriminate].
Qed.

End Prompts.

Section ChatTheorems.
Import JsString.
Open Scope string_scope.

(** X13.  With an API key, [generateQueryEmbedding] makes exactly one
    request and returns the provider's vector as it is; when the request fails
    it returns a fallback vector of 1536 random components instead.  It never
    throws. *)
Theorem generateQueryEmbedding_live (env : Env) (query : string) (w : World) :
  no_key env = false ->
  generateQueryEmbedding env query w
  = match embeddings_create env (requests_made w) query with
    | Some e => (Returns e, advance_requests 1 w)
    | None => (Returns (mock_vector env (random_drawn w)),
               advance_random 1536 (advance_requests 1 w))
    end.
Proof.
  intros Hkey. unfold generateQueryEmbedding. rewrite Hkey.
  unfold try_catch, bind, request.
  destruct (embeddings_create env (requests_made w) query) as [e|]; [reflexivity|].
  unfold throw. exact (mockEmbedding_spec env _).
Qed.

Lemma generateQueryEmbedding_live_witness :
  generateQueryEmbedding provider_down_env "what?" initial_world
  = (Returns (mock_vector provider_down_env 0),
     advance_random 1536 (advance_requests 1 initial_world)).
Proof.
  exact (@generateQueryEmbedding_live provider_down_env "what?" initial_world eq_refl).
Defined.

(** X14.  With an API key and every retrieved chunk present,
    [generateAnswer] makes exactly one chat request, to the model
    gpt-4o-mini with at most 500 tokens and temperature 0.3, whose prompt holds
    the title, the question and the text of every retrieved chunk.  It returns
    the reply as it is, or 'Unable to generate response' when the reply is
    null or empty, and throws 'Failed to generate answer. Please try again.'
    when the request fails.  When a retrieved entry has no chunk it throws that
    same message without making a request. *)
Theorem generateAnswer_live (env : Env) (question : string) (items : list ranked)
    (videoTitle : string) (w : World) :
  no_key env = false ->
  (Forall (fun item => chunk item <> None) items ->
   exists req,
     req_model req = "gpt-4o-mini"
     /\ req_max_tokens req = 500%Z
     /\ req_temperature req = point_three
     /\ occurs_in videoTitle (req_user req)
     /\ occurs_in question (req_user req)
     /\ (forall item c, In item items -> chunk item = Some c ->
           occurs_in (chunk_text c) (req_user req))
     /\ generateAnswer env question items videoTitle w
        = (match chat_create env (requests_made w) req with
           | ChatFails => Throws "Failed to generate answer. Please try again."
           | ChatContent None => Returns "Unable to generate response"
           | ChatContent (Some s) =>
               Returns (if truthy s then s else "Unable to generate response")
           end,
           advance_requests 1 w))
  /\ (Exists (fun item => chunk item = None) items ->
      generateAnswer env question items videoTitle w
      = (Throws "Failed to generate answer. Please try again.", w)).
Proof.
  intros Hkey. unfold generateAnswer. rewrite Hkey. split.
  - intros Hall. destruct (context_lines_some env Hall) as (ls & Hls & Hin).
    rewrite Hls.
    set (prompt := answer_prompt videoTitle (join (nl ++ nl) ls) question).
    destruct (answer_prompt_holds videoTitle (join (nl ++ nl) ls) question)
      as (Ht & Hc & Hq).
    exists (mk_chat_request "gpt-4o-mini"
              "You are a helpful assistant that answers questions about video content based only on provided transcript context."
              prompt 500 point_three).
    cbn [req_model req_max_tokens req_temperature req_user].
    split; [reflexivity|]. split; [reflexivity|]. split; [reflexivity|].
    split; [exact Ht|]. split; [exact Hq|]. split.
    + intros item c Hitem Hchunk. destruct (Hin _ _ Hitem Hchunk) as (line & Hline & Hocc).
      refine (occurs_in_trans Hocc _). refine (occurs_in_trans _ Hc).
      apply occurs_in_join, Hline.
    + unfold try_catch, bind, request.
      destruct (chat_create env (requests_made w) _) as [|[s|]]; reflexivity.
  - intros Hex. rewrite (context_lines_none env Hex). reflexivity.
Qed.

Lemma generateAnswer_live_witness :
  generateAnswer provider_down_env "what?" [mk_ranked None 1%float 0] "t" initial_world
  = (Throws "Failed to generate answer. Please try again.", initial_world).
Proof.
  apply (proj2 (@generateAnswer_live provider_down_env "what?" [mk_ranked None 1%float 0]
                  "t" initial_world eq_refl)).
  left. reflexivity.
Defined.

(** X15.  Without an API key, [askQuestion] always returns one of the two
    templates of the demo answer, after drawing 1536 random numbers and
    without any request.  In every configuration, when [askQuestion] throws,
    the message is 'Failed to generate answer. Please try again.': the
    failure of the query embedding never reaches the caller. *)
Theorem askQuestion_outcomes (env : Env) (question : string) (v : VideoData) (w : World) :
  (no_key env = true ->
   exists answer,
     askQuestion env question v w = (Returns answer, advance_random 1536 w)
     /\ (answer = answer_relevant (title v)
         \/ answer = answer_not_covered question (title v)))
  /\ (forall message w',
        askQuestion env question v w = (Throws message, w') ->
        message = "Failed to generate answer. Please try again."
        /\ no_key env = false).
Proof.
  split.
  - intros Hkey. unfold askQuestion, try_catch. unfold bind at 1.
    unfold generateQueryEmbedding. rewrite Hkey, mockEmbedding_spec.
    unfold generateAnswer. rewrite Hkey.
    destruct (JsArray.some _ _); eexists; (split; [reflexivity|]); [left | right];
      reflexivity.
  - intros message w' Hrun. unfold askQuestion, try_catch in Hrun. unfold bind at 1 in Hrun.
    destruct (generateQueryEmbedding_returns env question w) as (e & w1 & He).
    rewrite He in Hrun. unfold generateAnswer in Hrun.
    destruct (no_key env) eqn:Hkey.
    + destruct (JsArray.some _ _); discriminate Hrun.
    + split; [|reflexivity]. unfold try_catch in Hrun.
      destruct (context_lines env (findRelevantChunks e v)) as [ls|].
      * unfold bind, request in Hrun.
        destruct (chat_create env (requests_made w1) _) as [|c]; [|discriminate Hrun].
        cbn in Hrun. unfold throw in Hrun. congruence.
      * cbn in Hrun. unfold throw in Hrun. congruence.
Qed.

Lemma askQuestion_outcomes_witness :
  exists answer,
    askQuestion demo_env "what?" four_chunks initial_world
    = (Returns answer, advance_random 1536 initial_world)
    /\ (answer = answer_relevant (title four_chunks)
        \/ answer = answer_not_covered "what?" (title four_chunks)).
Proof.
  apply (proj1 (@askQuestion_outcomes demo_env "what?" four_chunks initial_world)).
  reflexivity.
Defined.

(** X16.  [generateVideoSummary] never throws and never returns an empty
    text.  Without an API key it returns the demo summary of the title and
    makes no request; with a key it makes exactly one chat request, with at
    most 400 tokens, whose prompt holds the title and the text of each of the
    first five chunks, and it returns the reply, or a fixed text when the
    reply is null or empty or the request fails. *)
Theorem generateVideoSummary_outcomes (env : Env) (v : VideoData) (w : World) :
  (exists summary w',
      generateVideoSummary env v w = (Returns summary, w') /\ summary <> "")
  /\ (no_key env = true ->
      generateVideoSummary env v w = (Returns (summary_demo (title v)), w))
  /\ (no_key env = false ->
      exists req,
        req_model req = "gpt-4o-mini"
        /\ req_max_tokens req = 400%Z
        /\ occurs_in (title v) (req_user req)
        /\ (forall i c, (i < 5)%nat -> nth_error (chunks v) i = Some c ->
              occurs_in (chunk_text c) (req_user req))
        /\ generateVideoSummary env v w
           = (Returns match chat_create env (requests_made w) req with
                      | ChatFails => "Unable to generate video summary at this time."
                      | ChatContent None => "Unable to generate summary"
                      | ChatContent (Some s) =>
                          if truthy s then s else "Unable to generate summary"
                      end,
              advance_requests 1 w)).
Proof.
  assert (Hlive : no_key env = false ->
      exists req,
        req_model req = "gpt-4o-mini"
        /\ req_max_tokens req = 400%Z
        /\ occurs_in (title v) (req_user req)
        /\ (forall i c, (i < 5)%nat -> nth_error (chunks v) i = Some c ->
              occurs_in (chunk_text c) (req_user req))
        /\ generateVideoSummary env v w
           = (Returns match chat_create env (requests_made w) req with
                      | ChatFails => "Unable to generate video summary at this time."
                      | ChatContent None => "Unable to generate summary"
                      | ChatContent (Some s) =>
                          if truthy s then s else "Unable to generate summary"
                      end,
              advance_requests 1 w)).
  { intros Hkey. unfold generateVideoSummary. rewrite Hkey. cbv zeta.
    set (context := join (nl ++ nl) (map chunk_text (JsArray.slice 0 5 (chunks v)))).
    destruct (summary_prompt_holds (title v) context) as [Ht Hc].
    exists (mk_chat_request "gpt-4o-mini"
              "You are an AI assistant that creates concise video summaries. Create bullet-point summaries that capture the key points and main themes."
              (summary_prompt (title v) context) 400 point_three).
    cbn [req_model req_max_tokens req_user].
    split; [reflexivity|]. split; [reflexivity|]. split; [exact Ht|]. split.
    - intros i c Hi Hnth. refine (occurs_in_trans _ Hc).
      apply occurs_in_join. apply in_map.
      change 5%Z with (Z.of_nat 5). rewrite slice_0_count.
      apply (nth_error_In _ i). rewrite nth_error_firstn.
      apply Nat.ltb_lt in Hi. rewrite Hi. exact Hnth.
    - unfold try_catch, bind, request.
      destruct (chat_create env (requests_made w) _) as [|[s|]]; reflexivity. }
  split; [|split; [|exact Hlive]].
  - destruct (no_key env) eqn:Hkey.
    + unfold generateVideoSummary. rewrite Hkey. eexists _, _. split; [reflexivity|].
      discriminate.
    + destruct (Hlive eq_refl) as (req & _ & _ & _ & _ & Hrun). rewrite Hrun.
      eexists _, _. split; [reflexivity|].
      destruct (chat_create env (requests_made w) req) as [|[s|]]; try discriminate.
      destruct s; discriminate.
  - intros Hkey. unfold generateVideoSummary. rewrite Hkey. reflexivity.
Qed.

End ChatTheorems.

(* ------------------------------------------------------------------ *)
(** ** The session of [App] *)

Section Cells.

Lemma same_cells_refl (w : World) : same_cells w w.
Proof. repeat split. Qed.

Lemma same_cells_trans (w1 w2 w3 : World) :
  same_cells w1 w2 -> same_cells w2 w3 -> same_cells w1 w3.
Proof.
  intros (A1 & A2 & A3 & A4) (B1 & B2 & B3 & B4).
  repeat split; congruence.
Qed.

Lemma cells_ret (A : Type) (a : A) : keeps_cells (ret a).
Proof. intro w. apply same_cells_refl. Qed.

Lemma cells_throw (A : Type) (e : string) : keeps_cells (@throw A e).
Proof. intro w. apply same_cells_refl. Qed.

Lemma cells_bind (A B : Type) (m : M A) (k : A -> M B) :
  keeps_cells m -> (forall a, keeps_cells (k a)) -> keeps_cells (bind m k).
Proof.
  intros Hm Hk w. unfold bind. specialize (Hm w).
  destruct (m w) as [[a | e] w1]; [|exact Hm].
  exact (same_cells_trans Hm (Hk a w1)).
Qed.

Lemma cells_try_catch (A : Type) (m : M A) (h : string -> M A) :
  keeps_cells m -> (forall e, keeps_cells (h e)) -> keeps_cells (try_catch m h).
Proof.
  intros Hm Hh w. unfold try_catch. specialize (Hm w).
  destruct (m w) as [[a | e] w1]; [exact Hm|].
  exact (same_cells_trans Hm (Hh e w1)).
Qed.

Lemma cells_request (A B : Type) (oracle : nat -> A -> B) (x : A) :
  keeps_cells (request oracle x).
Proof. intro w. repeat split. Qed.

Lemma cells_random (env : Env) : keeps_cells (random env).
Proof. intro w. repeat split. Qed.

Lemma cells_now (env : Env) : keeps_cells (now env).
Proof. intro w. repeat split. Qed.

Lemma cells_array_from (A : Type) (n : nat) (f : M A) :
  keeps_cells f -> keeps_cells (array_from n f).
Proof.
  intros Hf. induction n as [|n IH]; cbn [array_from]; [apply cells_ret|].
  apply cells_bind; [exact Hf|]. intros x.
  apply cells_bind; [exact IH|]. intros xs. apply cells_ret.
Qed.

Lemma cells_mockEmbedding (env : Env) : keeps_cells (mockEmbedding env).
Proof.
  unfold mockEmbedding. apply cells_array_from.
  apply cells_bind; [apply cells_random|]. intros r. apply cells_ret.
Qed.

Lemma cells_generateQueryEmbedding (env : Env) (query : string) :
  keeps_cells (generateQueryEmbedding env query).
Proof.
  unfold generateQueryEmbedding. destruct (no_key env); [apply cells_mockEmbedding|].
  apply cells_try_catch; [|intros _; apply cells_mockEmbedding].
  apply cells_bind; [apply cells_request|].
  intros [e|]; [apply cells_ret | apply cells_throw].
Qed.

Lemma cells_generateAnswer (env : Env) (question : string) (items : list ranked)
    (videoTitle : string) :
  keeps_cells (generateAnswer env question items videoTitle).
Proof.
  unfold generateAnswer. destruct (no_key env).
  - destruct (JsArray.some _ items); apply cells_ret.
  - apply cells_try_catch; [|intros _; apply cells_throw].
    destruct (context_lines env items); [|apply cells_throw].
    apply cells_bind; [apply cells_request|].
    intros [|c]; [apply cells_throw | apply cells_ret].
Qed.

Lemma cells_askQuestion (env : Env) (question : string) (v : VideoData) :
  keeps_cells (askQuestion env question v).
Proof.
  unfold askQuestion. apply cells_try_catch; [|intros e; apply cells_throw].
  apply cells_bind; [apply cells_generateQueryEmbedding|].
  intros e. apply cells_generateAnswer.
Qed.

Lemma cells_generateVideoSummary (env : Env) (v : VideoData) :
  keeps_cells (generateVideoSummary env v).
Proof.
  unfold generateVideoSummary. destruct (no_key env); [apply cells_ret|].
  apply cells_try_catch; [|intros _; apply cells_ret].
  cbv zeta. apply cells_bind; [apply cells_request|].
  intros [|c]; [apply cells_throw | apply cells_ret].
Qed.

Lemma cells_handleGenerateSummary (env : Env) (vd : option VideoData) (busy : bool) :
  keeps_cells (ChatInterface.handleGenerateSummary env vd busy).
Proof.
  unfold ChatInterface.handleGenerateSummary.
  destruct (negb (present vd) || busy); [apply cells_ret|].
  destruct vd as [v|]; [|apply cells_ret].
  apply cells_try_catch; [|intros _; apply cells_ret].
  apply cells_bind; [apply cells_generateVideoSummary|]. intros summary.
  apply cells_bind; [apply cells_now|]. intros t_id.
  apply cells_bind; [apply cells_now|]. intros t_stamp. apply cells_ret.
Qed.

End Cells.

Section Handlers.
Import JsString.
Open Scope string_scope.

Variable env : Env.

Lemma handleVideoSubmit_returns (url : string) (w : World) (v : VideoData) (w1 : World) :
  processVideo env url setProcessingState (submitted w) = (Returns v, w1) ->
  handleVideoSubmit env url w
  = (Returns tt,
     mkWorld ready (Some v)
       [mkChatMessage (of_Z (date_now env (clock_read w1))) assistant
          (welcome (title v)) (date_now env (S (clock_read w1)))]
       None (random_drawn w1) (requests_made w1) (2 + clock_read w1)).
Proof.
  intro Hrun.
  pose proof (@keeps_processVideo env url setProcessingState
                keeps_setProcessingState (submitted w)) as Hkeep.
  rewrite Hrun in Hkeep. cbn [snd] in Hkeep. destruct Hkeep as (_ & _ & He).
  cbn [submitted error_cell] in He.
  unfold handleVideoSubmit, try_catch.
  unfold bind at 1. unfold setError at 1, modify at 1. cbn beta iota.
  unfold bind at 1. unfold setProcessingState at 1, modify at 1. cbn beta iota.
  unfold bind at 1. unfold setMessages at 1, modify at 1. cbn beta iota.
  cbn [processingState videoData messages error_cell random_drawn requests_made clock_read].
  unfold bind at 1. fold (submitted w). rewrite Hrun.
  cbn. rewrite He. reflexivity.
Qed.

(** The user message and the reply that [handleQuestionSubmit] builds. *)
Lemma handleQuestionSubmit_some (question : string) (w : World) (v : VideoData) :
  videoData w = Some v ->
  exists q a w',
    handleQuestionSubmit env question w = (Returns tt, w')
    /\ processingState w' = processingState w
    /\ videoData w' = videoData w
    /\ error_cell w' = error_cell w
    /\ messages w' = (messages w ++ [q; a])%list
    /\ q = mkChatMessage (of_Z (date_now env (clock_read w))) user question
                         (date_now env (S (clock_read w)))
    /\ msg_type a = assistant
    /\ exists w0 w1,
         random_drawn w0 = random_drawn w
         /\ requests_made w0 = requests_made w
         /\ same_cells w0 w1
         /\ match askQuestion env question v w0 with
            | (Returns answer, w1') => w1' = w1 /\ content a = answer
            | (Throws _, w1') => w1' = w1 /\ content a = apology
            end.
Proof.
  intros Hv. unfold handleQuestionSubmit.
  unfold bind at 1. unfold gets at 1. rewrite Hv.
  unfold bind at 1. unfold now at 1.
  unfold bind at 1. unfold now at 1.
  cbn [clock_read processingState videoData messages error_cell random_drawn requests_made].
  unfold bind at 1. unfold setMessages at 1, modify at 1.
  cbn [clock_read processingState videoData messages error_cell random_drawn requests_made].
  set (q := mkChatMessage (of_Z (date_now env (clock_read w))) user question
                          (date_now env (S (clock_read w)))).
  set (w0 := mkWorld (processingState w) (videoData w) (messages w ++ [q])%list
                     (error_cell w) (random_drawn w) (requests_made w)
                     (S (S (clock_read w)))).
  pose proof (cells_askQuestion env question v w0) as Hcells.
  unfold try_catch. unfold bind at 1.
  destruct (askQuestion env question v w0) as [[answer | e] w1] eqn:Hask;
    cbn [snd] in Hcells; destruct Hcells as (Hp & Hvd & Hm & He);
    cbn [w0 processingState videoData messages error_cell] in Hp, Hvd, Hm, He.
  - exists q, (mkChatMessage (of_Z (date_now env (clock_read w1) + 1)) assistant answer
                             (date_now env (S (clock_read w1)))).
    eexists. split; [reflexivity|]. cbn.
    split; [exact Hp|]. split; [congruence|]. split; [exact He|].
    split; [rewrite Hm, <- app_assoc; reflexivity|].
    split; [reflexivity|]. split; [reflexivity|].
    exists w0, w1. split; [reflexivity|]. split; [reflexivity|].
    split; [repeat split; assumption|]. rewrite Hask. split; reflexivity.
  - exists q, (mkChatMessage (of_Z (date_now env (clock_read w1) + 1)) assistant apology
                             (date_now env (S (clock_read w1)))).
    eexists. split; [reflexivity|]. cbn.
    split; [exact Hp|]. split; [congruence|]. split; [exact He|].
    split; [rewrite Hm, <- app_assoc; reflexivity|].
    split; [reflexivity|]. split; [reflexivity|].
    exists w0, w1. split; [reflexivity|]. split; [reflexivity|].
    split; [repeat split; assumption|]. rewrite Hask. split; reflexivity.
Qed.

Lemma handleQuestionSubmit_none (question : string) (w : World) :
  videoData w = None -> handleQuestionSubmit env question w = (Returns tt, w).
Proof.
  intros Hv. unfold handleQuestionSubmit, bind, gets. rewrite Hv. reflexivity.
Qed.

Lemma exchanges_app (l : list ChatMessage) (q a : ChatMessage) :
  exchanges l -> msg_type q = user -> msg_type a = assistant ->
  exchanges (l ++ [q; a]).
Proof.
  intros Hl Hq Ha. induction Hl as [|q' a' rest Hq' Ha' Hrest IH]; cbn.
  - constructor; [exact Hq | exact Ha | constructor].
  - constructor; assumption.
Qed.

Lemma handler_call_consistent (w w' : World) :
  consistent w -> handler_call env w w' -> consistent w'.
Proof.
  intros Hc Hstep. unfold consistent in Hc.
  destruct Hstep as [url | question | busy | ].
  - (* a submission *)
    destruct (processVideo env url setProcessingState (submitted w)) as [[v | e] w1] eqn:Hrun.
    + rewrite (@handleVideoSubmit_returns url w v w1 Hrun). unfold consistent. cbn.
      split; [reflexivity|]. eexists _, _, _. split; [reflexivity|].
      split; [reflexivity|]. split; [reflexivity|]. split; [reflexivity|]. constructor.
    + destruct (@handleVideoSubmit_throws env url w e w1 Hrun)
        as (w2 & Hh & Hv2 & Hm2 & He2 & Hp2).
      rewrite Hh. cbn [snd]. unfold consistent. rewrite Hp2, Hm2, He2.
      split; [discriminate|]. split; [constructor | reflexivity].
  - (* a question *)
    assert (Hcase : videoData w = None \/ exists v, videoData w = Some v)
      by (destruct (videoData w) as [v|]; [right; exists v; reflexivity | left; reflexivity]).
    destruct Hcase as [Hv | [v Hv]].
    { rewrite (@handleQuestionSubmit_none question w Hv). exact Hc. }
    destruct (@handleQuestionSubmit_some question w v Hv)
      as (q & a & w2 & Hh & Hp2 & Hv2 & He2 & Hm2 & Hq & Ha & _).
    rewrite Hh. cbn [snd]. unfold consistent. rewrite Hp2.
    destruct (processingState w) eqn:Hp.
    + destruct Hc as (Hnone & _). congruence.
    + destruct Hc.
    + destruct Hc as (He & v0 & greeting & rest & Hv0 & Hm & Hg1 & Hg2 & Hrest).
      split; [congruence|]. exists v0, greeting, (rest ++ [q; a])%list.
      split; [congruence|]. split; [rewrite Hm2, Hm; reflexivity|].
      split; [exact Hg1|]. split; [exact Hg2|].
      apply exchanges_app; [exact Hrest | rewrite Hq; reflexivity | exact Ha].
    + destruct Hc as (He & Hex & _).
      split; [congruence|]. split.
      * rewrite Hm2. apply exchanges_app; [exact Hex | rewrite Hq; reflexivity | exact Ha].
      * intros Hnone. congruence.
  - (* the summary button: the cells stay as they are *)
    destruct (cells_handleGenerateSummary env (videoData w) busy w) as (Hp & Hv & Hm & He).
    unfold consistent. rewrite Hp, Hv, Hm, He. exact Hc.
  - (* the reset *)
    unfold consistent. cbn. repeat split.
Qed.


End Handlers.

Section FailedSubmission.
Import JsString.
Open Scope string_scope.



End FailedSubmission.

Section TrimFacts.
Import JsString.
Open Scope string_scope.

Lemma trimStart_blank (s : string) :
  all_chars is_white s = true -> trimStart s = "".
Proof.
  induction s as [|c s IH]; cbn; [reflexivity|]. intros H.
  apply andb_true_iff in H as [Hc Hs]. rewrite Hc. apply IH, Hs.
Qed.

Lemma trimStart_empty (s : string) :
  trimStart s = "" -> all_chars is_white s = true.
Proof.
  induction s as [|c s IH]; cbn; [reflexivity|].
  destruct (is_white c); [exact IH | discriminate].
Qed.

Lemma trimEnd_ends (s : string) :
  trimEnd s = ""
  \/ exists body d, trimEnd s = body ++ String d "" /\ is_white d = false.
Proof.
  induction s as [|c s IH]; [left; reflexivity|]. cbn [trimEnd].
  destruct IH as [-> | (body & d & -> & Hd)].
  - destruct (is_white c) eqn:Hc; [left; reflexivity|].
    right. exists "", c. split; [reflexivity | exact Hc].
  - right. exists (String c body), d. split; [|exact Hd].
    destruct (body ++ String d "") eqn:E; [destruct body; discriminate E|].
    rewrite <- E. reflexivity.
Qed.

(** [trim] gives the empty text for white space, and otherwise a text that
    begins and ends with a character that is not white space. *)
Lemma trim_cases (s : string) :
  (all_chars is_white s = true -> trim s = "")
  /\ (all_chars is_white s = false -> solid (trim s)).
Proof.
  unfold trim. split.
  - intros H. rewrite (trimStart_blank _ H). reflexivity.
  - intros H. destruct (trimStart_cases s) as [E | (c & r & E & Hc)].
    + rewrite (trimStart_empty _ E) in H. discriminate H.
    + rewrite E. destruct (@trimEnd_solid_head c r Hc) as [r' Hr'].
      destruct (trimEnd_ends (String c r)) as [E' | (body & d & E' & Hd)].
      * rewrite Hr' in E'. discriminate E'.
      * exists c, r', d. split; [exact Hc|]. split; [exact Hd|].
        split; [exact Hr'|]. exists body. exact E'.
Qed.

End TrimFacts.

Section SessionTheorems.
Import JsString.
Open Scope string_scope.

(** X17.  When [processVideo] returns, [handleVideoSubmit] stores the video
    data it returned, clears the error, sets the state [ready] and leaves
    exactly one message: the welcome of the assistant, which names the title
    of the video.  It makes no request of its own. *)
Theorem handleVideoSubmit_success (env : Env) (url : string) (w : World)
    (v : VideoData) (w1 : World) :
  processVideo env url setProcessingState (submitted w) = (Returns v, w1) ->
  exists w' greeting,
    handleVideoSubmit env url w = (Returns tt, w')
    /\ processingState w' = ready
    /\ videoData w' = Some v
    /\ error_cell w' = None
    /\ messages w' = [greeting]
    /\ msg_type greeting = assistant
    /\ content greeting = welcome (title v)
    /\ occurs_in (title v) (content greeting)
    /\ requests_made w' = requests_made w1
    /\ random_drawn w' = random_drawn w1.
Proof.
  intros Hrun. rewrite (@handleVideoSubmit_returns env url w v w1 Hrun).
  eexists _, _. split; [reflexivity|].
  cbn [processingState videoData error_cell messages msg_type content requests_made
       random_drawn].
  repeat (split; [reflexivity|]). split; [|split; reflexivity].
  unfold welcome. apply occurs_in_app_r, occurs_in_app_r, occurs_in_head.
Qed.

Lemma handleVideoSubmit_success_witness :
  exists w' greeting,
    handleVideoSubmit demo_env "https://youtu.be/dQw4w9WgXcQ" initial_world
    = (Returns tt, w')
    /\ processingState w' = ready
    /\ messages w' = [greeting]
    /\ content greeting = welcome "Never Gonna Give You Up".
Proof.
  destruct (processVideo demo_env "https://youtu.be/dQw4w9WgXcQ" setProcessingState
              (submitted initial_world)) as [[v | e] w1] eqn:E.
  - destruct (@handleVideoSubmit_success demo_env "https://youtu.be/dQw4w9WgXcQ"
                initial_world v w1 E)
      as (w' & greeting & Hrun & Hp & _ & _ & Hm & _ & Hc & _).
    exists w', greeting. split; [exact Hrun|]. split; [exact Hp|]. split; [exact Hm|].
    rewrite Hc. f_equal.
    destruct (processVideo_returns_inv _ _ _ _ E)
      as (videoId & w2 & t & _ & Hcb & Ho & _ & _ & _ & _ & _ & _ & Ht).
    rewrite Ht. cbn in Ho. congruence.
  - exfalso. vm_compute in E. discriminate E.
Defined.

(** X18.  [handleQuestionSubmit] never throws and never changes the state,
    the video data or the error.  Without video data it does nothing.  With
    video data it appends exactly two messages to the conversation: the
    question of the user, as given, and one message of the assistant, which
    holds the answer of [askQuestion] or, when [askQuestion] throws, the
    apology; [askQuestion] runs at the random and request positions of the
    call. *)
Theorem handleQuestionSubmit_exchange (env : Env) (question : string) (w : World) :
  exists w',
    handleQuestionSubmit env question w = (Returns tt, w')
    /\ processingState w' = processingState w
    /\ videoData w' = videoData w
    /\ error_cell w' = error_cell w
    /\ match videoData w with
       | None => w' = w
       | Some v =>
           exists q a w0,
             messages w' = (messages w ++ [q; a])%list
             /\ msg_type q = user /\ content q = question
             /\ msg_type a = assistant
             /\ random_drawn w0 = random_drawn w
             /\ requests_made w0 = requests_made w
             /\ content a = match fst (askQuestion env question v w0) with
                            | Returns answer => answer
                            | Throws _ => apology
                            end
       end.
Proof.
  destruct (videoData w) as [v|] eqn:Hv.
  - destruct (@handleQuestionSubmit_some env question w v Hv)
      as (q & a & w' & Hrun & Hp & Hvd & He & Hm & Hq & Ha & w0 & w1 & Hr & Hn & _ & Hask).
    exists w'. split; [exact Hrun|]. split; [exact Hp|]. split; [congruence|].
    split; [exact He|]. exists q, a, w0.
    split; [exact Hm|]. split; [rewrite Hq; reflexivity|]. split; [rewrite Hq; reflexivity|].
    split; [exact Ha|]. split; [exact Hr|]. split; [exact Hn|].
    destruct (askQuestion env question v w0) as [[answer | e] w2]; cbn [fst]; apply Hask.
  - exists w. rewrite (@handleQuestionSubmit_none env question w Hv).
    repeat split. exact Hv.
Qed.

(** X19.  In every state that calls of the session handlers lead to from
    the initial state of [App], whatever the calls, their arguments and their
    order, each running to completion: the state is never left at
    [processing]; in the state [idle] there is no video data, no message and
    no error; in the state [ready] there is video data and no error, and the
    conversation is the welcome for that video followed by questions each
    with its reply; in the state [error] an error is recorded and the
    conversation holds only questions each with its reply, none at all when
    there is no video data. *)
Theorem session_invariant (env : Env) (w : World) :
  reachable env w -> consistent w.
Proof.
  induction 1 as [r q c | w w' _ IH Hstep].
  - unfold consistent. cbn. repeat split.
  - exact (handler_call_consistent IH Hstep).
Qed.

Lemma session_invariant_witness :
  consistent
    (snd (handleQuestionSubmit short_transcript_env "What is it about?"
       (snd (handleVideoSubmit short_transcript_env "https://youtu.be/dQw4w9WgXcQ"
               initial_world)))).
Proof.
  exact (@session_invariant short_transcript_env _
           (reach_step
              (reach_step (reach_fresh short_transcript_env 0 0 0)
                 (call_video short_transcript_env initial_world
                    "https://youtu.be/dQw4w9WgXcQ"))
              (call_question short_transcript_env _ "What is it about?"))).
Defined.

(** X21.  The question box of [ChatInterface] does nothing for a question
    that is all white space, and nothing while a question is being
    answered; otherwise it hands the trimmed question to [onSubmit], a text
    that begins and ends with a character that is not white space. *)
Theorem question_box_submits_trimmed (question : string) (isLoading : bool)
    (onSubmit : string -> M unit) (w : World) :
  (all_chars is_white question = true \/ isLoading = true ->
   ChatInterface.handleSubmit question isLoading onSubmit w = (Returns tt, w))
  /\ (all_chars is_white question = false -> isLoading = false ->
      ChatInterface.handleSubmit question isLoading onSubmit w
      = onSubmit (trim question) w
      /\ solid (trim question)).
Proof.
  destruct (trim_cases question) as [Hblank Hsolid].
  unfold ChatInterface.handleSubmit. split.
  - intros [H | ->].
    + rewrite (Hblank H). reflexivity.
    + rewrite orb_true_r. reflexivity.
  - intros H ->. specialize (Hsolid H). split; [|exact Hsolid].
    destruct Hsolid as (c & body & d & _ & _ & -> & _). reflexivity.
Qed.

Lemma question_box_submits_trimmed_witness :
  ChatInterface.handleSubmit "  why?  " false (fun q => setError (Some q)) initial_world
  = setError (Some (trim "  why?  ")) initial_world
  /\ solid (trim "  why?  ").
Proof.
  apply (proj2 (@question_box_submits_trimmed "  why?  " false
                  (fun q => setError (Some q)) initial_world));
    reflexivity.
Defined.

(** X22.  The summary button of [ChatInterface] never throws and sets no
    state cell of [App]: the summary it generates is not added to the
    conversation.  It makes at most one request. *)
Theorem handleGenerateSummary_silent (env : Env) (vd : option VideoData)
    (isGeneratingSummary : bool) (w : World) :
  exists w',
    ChatInterface.handleGenerateSummary env vd isGeneratingSummary w = (Returns tt, w')
    /\ same_cells w w'
    /\ (requests_made w <= requests_made w' <= S (requests_made w))%nat
    /\ random_drawn w' = random_drawn w.
Proof.
  pose proof (cells_handleGenerateSummary env vd isGeneratingSummary w) as Hcells.
  unfold ChatInterface.handleGenerateSummary in *.
  destruct (negb (present vd) || isGeneratingSummary).
  { exists w. split; [reflexivity|]. split; [exact Hcells|]. cbn. lia. }
  destruct vd as [v|].
  2:{ exists w. split; [reflexivity|]. split; [exact Hcells|]. cbn. lia. }
  unfold try_catch, bind in *. unfold generateVideoSummary in *.
  destruct (no_key env).
  { eexists. split; [reflexivity|]. split; [exact Hcells|]. cbn. lia. }
  unfold try_catch, bind, request in *. cbv zeta in *.
  destruct (chat_create env (requests_made w) _) as [|c];
    (eexists; split; [reflexivity|]; split; [exact Hcells|]; cbn; lia).
Qed.

End SessionTheorems.

(* ------------------------------------------------------------------ *)
(** ** What [ProcessingSteps] shows *)

Section Views.
Open Scope string_scope.

Variable env : Env.

(** The status of one step at the second [second] of the clock. *)
Lemma getStepStatus_at (stepId : string) (state : ProcessingState) (w : World)
    (second : Z) :
  state = processing \/ state = idle ->
  (0 <= second)%Z ->
  (date_now env (clock_read w) / 1000)%Z = second ->
  ProcessingSteps.getStepStatus env stepId state w
  = (Returns
       (let i := ProcessingSteps.findIndex (fun id => String.eqb id stepId)
                   ProcessingSteps.stepOrder in
        if (i <? second mod 4)%Z then "completed"
        else if (i =? second mod 4)%Z then "processing" else "pending"),
     advance_clock 1 w).
Proof.
  intros Hstate Hpos Hclock.
  assert (Hrun : ProcessingSteps.getStepStatus env stepId state w
                 = ProcessingSteps.getStepStatus env stepId processing w)
    by (destruct Hstate as [-> | ->]; reflexivity).
  rewrite Hrun. unfold ProcessingSteps.getStepStatus, bind, now.
  rewrite Hclock.
  replace (Z.min (Z.of_nat (length ProcessingSteps.stepOrder) - 1)
             (Z.rem second (Z.of_nat (length ProcessingSteps.stepOrder))))
    with (second mod 4)%Z.
  - cbv zeta.
    destruct (_ <? second mod 4)%Z; [reflexivity|].
    destruct (_ =? second mod 4)%Z; reflexivity.
  - change (Z.of_nat (length ProcessingSteps.stepOrder)) with 4%Z.
    rewrite Z.rem_mod_nonneg by lia.
    pose proof (Z.mod_pos_bound second 4). lia.
Qed.

Lemma statuses_of_list (state : ProcessingState) (second : Z) (ids : list string) :
  state = processing \/ state = idle ->
  (0 <= second)%Z ->
  forall w,
    (forall k, (k < length ids)%nat ->
       (date_now env (k + clock_read w) / 1000)%Z = second) ->
    map_m (fun stepId => ProcessingSteps.getStepStatus env stepId state) ids w
    = (Returns
         (map (fun stepId =>
                 let i := ProcessingSteps.findIndex (fun id => String.eqb id stepId)
                            ProcessingSteps.stepOrder in
                 if (i <? second mod 4)%Z then "completed"
                 else if (i =? second mod 4)%Z then "processing" else "pending")
              ids),
       advance_clock (length ids) w).
Proof.
  intros Hstate Hpos. induction ids as [|stepId ids IH]; intros w Hclock.
  - destruct w; reflexivity.
  - cbn [map_m map length]. unfold bind at 1.
    rewrite (@getStepStatus_at stepId state w second Hstate Hpos (Hclock 0%nat (Nat.lt_0_succ _))).
    unfold bind at 1. rewrite IH.
    + unfold ret, advance_clock. cbn [clock_read processingState videoData messages
                                      error_cell random_drawn requests_made].
      f_equal. f_equal. lia.
    + intros k Hk. unfold advance_clock. cbn [clock_read].
      replace (k + (1 + clock_read w))%nat with (S k + clock_read w)%nat by lia.
      apply Hclock. cbn [length]. lia.
Qed.

(** X23.  [ProcessingSteps] in the state [processing] shows an animation of
    the clock, not the progress of [processVideo]: when the four readings
    of the clock that one rendering makes fall into the same second, the step
    at position (second mod 4) is shown as processing, the steps before it as
    completed and the steps after it as pending.  In the state [error] all
    four steps are shown as error, and in the state [ready] as completed,
    without reading the clock. *)
Theorem statuses_follow_the_clock (state : ProcessingState) (w : World) :
  ProcessingSteps.statuses env error w
  = (Returns ["error"; "error"; "error"; "error"], w)
  /\ ProcessingSteps.statuses env ready w
     = (Returns ["completed"; "completed"; "completed"; "completed"], w)
  /\ (state = processing \/ state = idle ->
      forall second,
        (0 <= second)%Z ->
        (forall k, (k < 4)%nat ->
           (date_now env (k + clock_read w) / 1000)%Z = second) ->
        ProcessingSteps.statuses env state w
        = (Returns (statuses_at (second mod 4)), advance_clock 4 w)).
Proof.
  split; [reflexivity|]. split; [reflexivity|].
  intros Hstate second Hpos Hclock. unfold ProcessingSteps.statuses.
  rewrite (@statuses_of_list state second ProcessingSteps.steps Hstate Hpos w Hclock).
  reflexivity.
Qed.

End Views.

Section ViewWitnesses.
Open Scope string_scope.

Lemma statuses_follow_the_clock_witness :
  ProcessingSteps.statuses demo_env processing initial_world
  = (Returns ["processing"; "pending"; "pending"; "pending"],
     advance_clock 4 initial_world).
Proof.
  assert (H : ProcessingSteps.statuses demo_env processing initial_world
              = (Returns (statuses_at (1700000000 mod 4)), advance_clock 4 initial_world)).
  { apply (proj2 (proj2 (@statuses_follow_the_clock demo_env processing initial_world))).
    - left. reflexivity.
    - lia.
    - intros k Hk.
      destruct k as [|[|[|[|k]]]]; [reflexivity | reflexivity | reflexivity | reflexivity | lia]. }
  exact H.
Defined.

End ViewWitnesses.

(* ------------------------------------------------------------------ *)
(** ** Retrieval over the video data of [processVideo] *)

Section SessionRetrieval.

Lemma mapi_from_entries (A B : Type) (f : A -> nat -> B) (l : list A) :
  forall i r,
    In r (JsArray.mapi_from f i l) ->
    exists k x, nth_error l k = Some x /\ r = f x (i + k).
Proof.
  induction l as [|x l IH]; intros i r Hin; [destruct Hin|].
  cbn [JsArray.mapi_from] in Hin. destruct Hin as [<- | Hin].
  - exists 0, x. split; [reflexivity|]. rewrite Nat.add_0_r. reflexivity.
  - destruct (IH _ _ Hin) as (k & y & Hk & ->).
    exists (S k), y. split; [exact Hk|]. f_equal. lia.
Qed.

Lemma mapi_from_length (A B : Type) (f : A -> nat -> B) (l : list A) :
  forall i, length (JsArray.mapi_from f i l) = length l.
Proof. induction l as [|x l IH]; intros i; cbn; [reflexivity | rewrite IH; reflexivity]. Qed.

Lemma firstn_incl (A : Type) (n : nat) (l : list A) (x : A) :
  In x (firstn n l) -> In x l.
Proof.
  intros H. rewrite <- (firstn_skipn n l). apply in_or_app. left. exact H.
Qed.

Lemma skipn_incl (A : Type) (n : nat) (l : list A) (x : A) :
  In x (skipn n l) -> In x l.
Proof.
  intros H. rewrite <- (firstn_skipn n l). apply in_or_app. right. exact H.
Qed.

Lemma slice_incl (A : Type) (start end_ : Z) (l : list A) (x : A) :
  In x (JsArray.slice start end_ l) -> In x l.
Proof.
  unfold JsArray.slice. intros H. apply firstn_incl in H. apply skipn_incl in H. exact H.
Qed.

Lemma NoDup_firstn (A : Type) (n : nat) (l : list A) : NoDup l -> NoDup (firstn n l).
Proof.
  intros H. rewrite <- (firstn_skipn n l) in H. apply NoDup_app_remove_r in H. exact H.
Qed.

Lemma NoDup_skipn (A : Type) (n : nat) (l : list A) : NoDup l -> NoDup (skipn n l).
Proof.
  intros H. rewrite <- (firstn_skipn n l) in H. apply NoDup_app_remove_l in H. exact H.
Qed.

Lemma similarities_indices (q : list float) (v : VideoData) :
  map index (similarities q v) = seq 0 (length (embeddings v)).
Proof.
  unfold similarities, JsArray.mapi. generalize 0 as i.
  induction (embeddings v) as [|e es IH]; intros i; cbn; [reflexivity|].
  rewrite IH. reflexivity.
Qed.

Lemma similarities_entry (q : list float) (v : VideoData) (r : ranked) :
  In r (similarities q v) ->
  exists e, nth_error (embeddings v) (index r) = Some e
            /\ chunk r = nth_error (chunks v) (index r)
            /\ similarity r = cosineSimilarity q e.
Proof.
  unfold similarities, JsArray.mapi. intros H.
  destruct (mapi_from_entries _ _ _ _ H) as (k & e & Hk & ->).
  exists e. cbn. repeat split. exact Hk.
Qed.

(** The entries that [findRelevantChunksK] returns, whatever the scores and
    whatever [topK]. *)
Lemma findRelevantChunksK_entries (q : list float) (v : VideoData) (topK : Z) :
  NoDup (map index (findRelevantChunksK q v topK))
  /\ forall r, In r (findRelevantChunksK q v topK) ->
       exists e, nth_error (embeddings v) (index r) = Some e
                 /\ chunk r = nth_error (chunks v) (index r)
                 /\ similarity r = cosineSimilarity q e.
Proof.
  unfold findRelevantChunksK. split.
  - unfold JsArray.slice. cbv zeta. rewrite <- firstn_map, <- skipn_map.
    apply NoDup_firstn, NoDup_skipn.
    apply (Permutation_NoDup
             (Permutation_map index (sort_perm by_similarity_desc (similarities q v)))).
    rewrite similarities_indices. apply seq_NoDup.
  - intros r Hr. apply slice_incl in Hr. apply similarities_entry.
    apply (Permutation_in _ (Permutation_sym (sort_perm by_similarity_desc _)) Hr).
Qed.

Lemma findRelevantChunks_length (q : list float) (v : VideoData) :
  length (findRelevantChunks q v) = Nat.min 3 (length (embeddings v)).
Proof.
  unfold findRelevantChunks, findRelevantChunksK.
  change 3%Z with (Z.of_nat 3). rewrite slice_0_count, length_firstn.
  rewrite <- (Permutation_length (sort_perm by_similarity_desc (similarities q v))).
  unfold similarities, JsArray.mapi. rewrite mapi_from_length. reflexivity.
Qed.

Variable env : Env.

Lemma processVideo_well_formed (url : string) (cb : ProcessingState -> M unit)
    (w : World) (v : VideoData) (w' : World) :
  processVideo env url cb w = (Returns v, w') -> well_formed_video v.
Proof.
  intros Hrun.
  destruct (processVideo_returns_inv _ _ _ _ Hrun)
    as (videoId & w1 & t & _ & _ & _ & _ & _ & Hcs & Hne & Hg & _).
  destruct (generateEmbeddings_spec env (chunks v) (advance_requests 2 w1))
    as (es & w2 & Hg' & Hlen & _).
  rewrite Hg in Hg'. injection Hg' as <- <-.
  split; [exact Hcs|]. split; [exact Hne | exact Hlen].
Qed.

(** X25.  The video data that [processVideo] returns holds the chunks of
    its transcript, at least one, with one embedding per chunk.  So
    [findRelevantChunks] returns on it, for any query, min(3, number of
    chunks) entries, at least one, no chunk twice, and every entry pairs a
    chunk that exists with the score of the embedding of the same position:
    the answer prompt never meets a missing chunk. *)
Theorem retrieval_in_session (url : string) (onStateChange : ProcessingState -> M unit)
    (w : World) (v : VideoData) (w' : World) (q : list float) :
  processVideo env url onStateChange w = (Returns v, w') ->
  well_formed_video v
  /\ length (findRelevantChunks q v) = Nat.min 3 (length (chunks v))
  /\ findRelevantChunks q v <> []
  /\ NoDup (map index (findRelevantChunks q v))
  /\ Forall (entry_of q v) (findRelevantChunks q v)
  /\ Forall (fun r => chunk r <> None) (findRelevantChunks q v).
Proof.
  intros Hrun. pose proof (@processVideo_well_formed url onStateChange w v w' Hrun) as Hwf.
  destruct Hwf as (Hcs & Hne & Hlen).
  pose proof (findRelevantChunks_length q v) as Hout. rewrite Hlen in Hout.
  destruct (findRelevantChunksK_entries q v 3) as [Hnodup Hentries].
  fold (findRelevantChunks q v) in Hnodup, Hentries.
  assert (Hall : Forall (entry_of q v) (findRelevantChunks q v)).
  { apply Forall_forall. intros r Hr. destruct (Hentries r Hr) as (e & He & Hc & Hs).
    assert (Hlt : (index r < length (chunks v))%nat).
    { rewrite <- Hlen. apply nth_error_Some. rewrite He. discriminate. }
    destruct (nth_error (chunks v) (index r)) as [c|] eqn:Hnth.
    - exists c, e. repeat split; assumption.
    - apply nth_error_None in Hnth. lia. }
  split; [split; [exact Hcs | split; [exact Hne | exact Hlen]]|].
  split; [exact Hout|]. split.
  { intros E. rewrite E in Hout. cbn in Hout.
    destruct (chunks v); [apply Hne; reflexivity | cbn in Hout; lia]. }
  split; [exact Hnodup|]. split; [exact Hall|].
  eapply Forall_impl; [|exact Hall].
  intros r (c & e & _ & _ & Hc & _). rewrite Hc. discriminate.
Qed.

End SessionRetrieval.

Section SessionRetrievalWitness.
Open Scope string_scope.

Lemma retrieval_in_session_witness :
  exists v w',
    processVideo demo_env "https://youtu.be/dQw4w9WgXcQ" setProcessingState initial_world
    = (Returns v, w')
    /\ length (findRelevantChunks [1; 0]%float v) = Nat.min 3 (length (chunks v))
    /\ Forall (fun r => chunk r <> None) (findRelevantChunks [1; 0]%float v).
Proof.
  destruct (processVideo demo_env "https://youtu.be/dQw4w9WgXcQ" setProcessingState
              initial_world) as [[v | e] w1] eqn:E.
  - exists v, w1. split; [reflexivity|].
    pose proof (@retrieval_in_session demo_env _ _ _ v w1 [1; 0]%float E) as H.
    split; [exact (proj1 (proj2 H)) | exact (proj2 (proj2 (proj2 (proj2 (proj2 H)))))].
  - exfalso. vm_compute in E. discriminate E.
Defined.

End SessionRetrievalWitness.

(* ------------------------------------------------------------------ *)
(** ** [findRelevantChunks] for any [topK] *)

Section AnyTopK.

(** X26.  For any query, any scores (NaN included) and any [topK],
    [findRelevantChunks] returns no position of the embedding list twice;
    every entry carries the score of the query against the embedding at its
    position and the chunk at that position ([undefined] beyond the chunk
    list).  The number of entries is the smaller of [topK] and the number of
    embeddings; a negative [topK] leaves out that many entries from the end
    of the ranking instead. *)
Theorem findRelevantChunksK_any_topK (q : list float) (v : VideoData) (topK : Z) :
  NoDup (map index (findRelevantChunksK q v topK))
  /\ (forall r, In r (findRelevantChunksK q v topK) ->
        exists e, nth_error (embeddings v) (index r) = Some e
                  /\ chunk r = nth_error (chunks v) (index r)
                  /\ similarity r = cosineSimilarity q e)
  /\ Z.of_nat (length (findRelevantChunksK q v topK))
     = (let n := Z.of_nat (length (embeddings v)) in
        if (topK <? 0)%Z then Z.max (n + topK) 0 else Z.min topK n).
Proof.
  destruct (findRelevantChunksK_entries q v topK) as [Hnodup Hentries].
  split; [exact Hnodup|]. split; [exact Hentries|].
  unfold findRelevantChunksK, JsArray.slice.
  assert (Hlen : length (JsArray.sort by_similarity_desc (similarities q v))
                 = length (embeddings v)).
  { rewrite <- (Permutation_length (sort_perm by_similarity_desc (similarities q v))).
    unfold similarities, JsArray.mapi. apply mapi_from_length. }
  rewrite Hlen. cbv zeta.
  set (n := Z.of_nat (length (embeddings v))).
  assert (H0 : JsArray.normalize_index n 0 = 0%Z).
  { unfold JsArray.normalize_index. cbn. lia. }
  rewrite H0. cbn [Z.to_nat skipn]. rewrite length_firstn, Hlen, Z.sub_0_r.
  unfold JsArray.normalize_index. destruct (Z.ltb_spec topK 0); lia.
Qed.

End AnyTopK.

(* ------------------------------------------------------------------ *)
(** ** A transcript that fits in one chunk *)

Section OneChunk.
Import JsString.
Open Scope string_scope.

Lemma trim_solid (s : string) : solid s -> trim s = s.
Proof.
  intros (c & body & d & Hc & Hd & -> & body' & E). unfold trim.
  cbn [trimStart]. rewrite Hc. rewrite E.
  rewrite trimEnd_append by (cbn; rewrite Hd; discriminate).
  cbn. rewrite Hd. reflexivity.
Qed.

Lemma solid_truthy (s : string) : solid s -> truthy s = true.
Proof. intros (c & body & _ & _ & _ & -> & _). reflexivity. Qed.

Lemma solid_join (sep : string) (l : list string) :
  l <> [] -> Forall solid l -> solid (join sep l).
Proof.
  intros Hne Hall. induction Hall as [|x l Hx Hl IH]; [congruence|].
  destruct l as [|y l]; [exact Hx|].
  rewrite join_cons by discriminate.
  destruct Hx as (c & body & _ & Hc & _ & -> & _).
  destruct (IH ltac:(discriminate)) as (_ & _ & d & _ & Hd & _ & body' & E).
  exists c, (body ++ sep ++ join sep (y :: l)), d.
  split; [exact Hc|]. split; [exact Hd|]. split; [reflexivity|].
  exists (String c body ++ sep ++ body'). rewrite E, !append_assoc. reflexivity.
Qed.

Lemma join_snoc (sep x : string) (l : list string) :
  l <> [] -> join sep (l ++ [x])%list = join sep l ++ sep ++ x.
Proof.
  intros Hl. rewrite join_app by discriminate.
  destruct l; [congruence|]. rewrite append_assoc. reflexivity.
Qed.

Lemma join_length_app (sep : string) (l1 l2 : list string) :
  (String.length (join sep l1) + String.length (join sep l2)
   <= String.length (join sep (l1 ++ l2)%list))%nat.
Proof.
  destruct l2 as [|y l2].
  - rewrite app_nil_r. cbn. lia.
  - rewrite join_app by discriminate. destruct l1.
    + cbn. lia.
    + rewrite !length_append. lia.
Qed.

Lemma join_length_head (sep x : string) (l : list string) :
  (String.length x <= String.length (join sep (x :: l)))%nat.
Proof.
  destruct l; [cbn; lia|]. rewrite join_cons by discriminate.
  rewrite length_append. lia.
Qed.

Variables chunkSize overlap : Z.

Lemma chunk_loop_one (units : list string) :
  forall (done : list string) (st : chunk_state),
    Forall (fun u => (0 <? String.length (trim u))%nat = true) (done ++ units) ->
    currentChunk st = join " " (map sentence_of done) ->
    cs_chunks st = [] -> chunkId st = 0%nat ->
    (Z.of_nat (String.length (join " " (map sentence_of (done ++ units))))
     <= chunkSize)%Z ->
    let st' := chunk_loop chunkSize overlap units st in
    currentChunk st' = join " " (map sentence_of (done ++ units))
    /\ cs_chunks st' = [] /\ chunkId st' = 0%nat.
Proof.
  induction units as [|raw units IH]; intros done st Hvalid Hcur Hcs Hid Hfit; cbv zeta.
  - rewrite app_nil_r. cbn. repeat split; assumption.
  - cbn [chunk_loop fold_left]. fold (chunk_loop chunkSize overlap units).
    replace (done ++ raw :: units)%list with ((done ++ [raw]) ++ units)%list in *
      by (rewrite <- app_assoc; reflexivity).
    assert (Hno : closes chunkSize (currentChunk st) (sentence_of raw) = false).
    { unfold closes. apply andb_false_iff.
      destruct done as [|d0 done].
      - right. rewrite Hcur. reflexivity.
      - left. rewrite Z.gtb_ltb. apply Z.ltb_ge.
        rewrite map_app, map_app in Hfit.
        pose proof (join_length_app " " (map sentence_of (d0 :: done) ++ map sentence_of [raw])
                      (map sentence_of units)) as H1.
        pose proof (join_length_app " " (map sentence_of (d0 :: done))
                      (map sentence_of [raw])) as H2.
        change (join " " (map sentence_of [raw])) with (sentence_of raw) in H2.
        rewrite Hcur. lia. }
    rewrite chunk_step_appends by exact Hno.
    apply IH.
    + exact Hvalid.
    + cbn [currentChunk]. rewrite Hcur. destruct done as [|d0 done].
      * reflexivity.
      * rewrite map_app. cbn [map]. rewrite join_snoc by discriminate.
        assert (Hsolid : solid (join " " (map sentence_of (d0 :: done)))).
        { apply solid_join; [discriminate|].
          apply Forall_map. apply Forall_app in Hvalid as [Hvalid _].
          apply Forall_app in Hvalid as [Hvalid _].
          eapply Forall_impl; [|exact Hvalid]. intros u Hu. apply sentence_solid, Hu. }
        cbn [map] in Hsolid. rewrite (solid_truthy Hsolid). reflexivity.
    + exact Hcs.
    + exact Hid.
    + exact Hfit.
Qed.

End OneChunk.

Section OneChunkTheorem.
Import JsString.
Open Scope string_scope.

(** X27.  A transcript whose sentences, each trimmed and closed by a full
    stop and joined by single spaces, fit into the size bound is returned as
    exactly one chunk, [chunk-0], that holds this text, whatever the
    overlap. *)
Theorem chunkText_one_chunk (text : string) (chunkSize overlap : Z) :
  sentences_of text <> [] ->
  (Z.of_nat (String.length (join " " (map sentence_of (sentences_of text))))
   <= chunkSize)%Z ->
  chunkTextWith text chunkSize overlap
  = [mkTextChunk "chunk-0" (join " " (map sentence_of (sentences_of text)))].
Proof.
  intros Hne Hfit.
  destruct (@chunk_loop_one chunkSize overlap (sentences_of text) []
              (mk_chunk_state [] "" 0) (sentences_of_solid text)
              eq_refl eq_refl eq_refl Hfit) as (Hcur & Hcs & Hid).
  cbn [app] in Hcur.
  assert (Hsolid : solid (join " " (map sentence_of (sentences_of text)))).
  { apply solid_join.
    - destruct (sentences_of text); [congruence | discriminate].
    - apply Forall_map. eapply Forall_impl; [|exact (sentences_of_solid text)].
      intros u Hu. apply sentence_solid, Hu. }
  unfold chunkTextWith. cbv zeta. unfold push_chunk.
  rewrite Hcur, Hcs, Hid, (trim_solid Hsolid), (solid_truthy Hsolid). reflexivity.
Qed.

Lemma chunkText_one_chunk_witness :
  chunkTextWith mock_react 500 50
  = [mkTextChunk "chunk-0" (join " " (map sentence_of (sentences_of mock_react)))].
Proof.
  apply (@chunkText_one_chunk mock_react 500 50).
  - vm_compute. discriminate.
  - vm_compute. discriminate.
Defined.

End OneChunkTheorem.
